(** * The adaptive packetizer of PROOF

    A shallow embedding of [proofplayer/src/TAdaptivePacketizer.cxx]
    (with the parts of [proof/src/TDSet.cxx] it relies on) and the
    properties of its scheduler.

    Conventions.
    - [Long64_t] and [Int_t] values are integers of [Z]; C++ division is
      [Z.quot] (it truncates toward zero).  The narrowing conversion from
      [Long64_t] to [Int_t] is written out by [Int_t_of], and so is, by
      [Long64_t_of], the wrap-around of the counters of processed entries
      and of bytes read, to which numbers taken from the messages of the
      workers are added.
    - Heap objects ([TDSetElement], [TFileStat], [TFileNode], [TSlaveStat])
      live in arenas (lists); a pointer is an index into its arena and a
      null pointer is [None].  A [TList] of objects is the list of their
      indices, in list order.
    - A computation that may fail an [R__ASSERT] or follow a null pointer
      returns an [option]; [None] means that the process stops there.
    - [Float_t] and [Double_t] arithmetic is kept abstract (class
      [FloatArith]): every result below holds whichever way these
      operations round. *)

From stdpp Require Import base list strings option numbers sets gmap.
From Stdlib Require Import ZArith Lia QArith Qround Ascii.

Open Scope Z_scope.

(** ** Machine integers *)

(** The value of a [Long64_t] once converted to [Int_t]. *)
Definition Int_t_of (z : Z) : Z := (z + 2 ^ 31) `mod` 2 ^ 32 - 2 ^ 31.

(** The value a [Long64_t] holds after an addition or subtraction whose
    exact result is [z]. *)
Definition Long64_t_of (z : Z) : Z := (z + 2 ^ 63) `mod` 2 ^ 64 - 2 ^ 63.

(** ** [TList]: the operations of ROOT's list used by the packetizer *)

Module TList.

Definition First (l : list nat) : option nat := head l.

(** [After(obj)]: the object that follows the first occurrence of [obj]. *)
Fixpoint After (l : list nat) (obj : nat) : option nat :=
  match l with
  | [] => None
  | x :: t => if bool_decide (x = obj) then head t else After t obj
  end.

(** [Remove(obj)]: unlink the first occurrence of [obj]. *)
Fixpoint Remove (l : list nat) (obj : nat) : list nat :=
  match l with
  | [] => []
  | x :: t => if bool_decide (x = obj) then t else x :: Remove t obj
  end.

Definition Add (l : list nat) (obj : nat) : list nat := l ++ [obj].

Definition Contains (l : list nat) (obj : nat) : bool :=
  bool_decide (obj ∈ l).

End TList.

(** ** [TDSetElement] *)

Record TDSetElement := mkElement {
  fName        : string;     (* file name (URL) *)
  fTitle       : string;     (* object name *)
  fDirectory   : string;
  fFirst       : Z;
  fNum         : Z;          (* -1: up to the end of the file *)
  fTDSetOffset : Z;
  fEntryList   : option Z;   (* attached entry or event list: its [GetN()] *)
  fValidElement : bool       (* [fValid]: the element was validated before *)
}.

Definition SetFirst (v : Z) (e : TDSetElement) : TDSetElement :=
  mkElement (fName e) (fTitle e) (fDirectory e) v (fNum e)
            (fTDSetOffset e) (fEntryList e) (fValidElement e).
Definition SetNum (v : Z) (e : TDSetElement) : TDSetElement :=
  mkElement (fName e) (fTitle e) (fDirectory e) (fFirst e) v
            (fTDSetOffset e) (fEntryList e) (fValidElement e).
Definition SetTitle (v : string) (e : TDSetElement) : TDSetElement :=
  mkElement (fName e) v (fDirectory e) (fFirst e) (fNum e)
            (fTDSetOffset e) (fEntryList e) (fValidElement e).
Definition SetTDSetOffset (v : Z) (e : TDSetElement) : TDSetElement :=
  mkElement (fName e) (fTitle e) (fDirectory e) (fFirst e) (fNum e)
            v (fEntryList e) (fValidElement e).
Definition SetEntryList (v : option Z) (e : TDSetElement) : TDSetElement :=
  mkElement (fName e) (fTitle e) (fDirectory e) (fFirst e) (fNum e)
            (fTDSetOffset e) v (fValidElement e).

(** [TDSetElement::TDSetElement(file, objname, dir, first, num, msd)]:
    a contract error on [first] or [num] is clamped, never thrown. *)
Definition TDSetElement_new (file objname dir : string) (first num : Z)
  : TDSetElement :=
  mkElement file objname dir
            (if first <? 0 then 0 else first)
            (if num <? -1 then -1 else num)
            0 None false.

(** ** [TDSet] *)

(** [TDSetElement::Validate(TDSetElement *elem)]: validate by checking
    against another element; a null [elem] is [None]. *)
Definition TDSetElement_Validate (elem : option TDSetElement)
  (this : TDSetElement) : TDSetElement :=
  match elem with
  | None => this
  | Some elem =>
      if negb (fValidElement elem) then this
      else if bool_decide (fName this = fName elem)
              && bool_decide (fDirectory this = fDirectory elem)
              && bool_decide (fTitle this = fTitle elem)
      then
        let entries := fFirst elem + fNum elem in
        if fFirst this <? entries then
          if fNum this =? -1 then
            mkElement (fName this) (fTitle this) (fDirectory this)
                      (fFirst this) (entries - fFirst this)
                      (fTDSetOffset this) (fEntryList this) true
          else if fNum this <=? entries - fFirst this then
            mkElement (fName this) (fTitle this) (fDirectory this)
                      (fFirst this) (fNum this)
                      (fTDSetOffset this) (fEntryList this) true
          else this
        else this
      else this
  end.

Module TDSet.

Record t := mk {
  fElements : list TDSetElement;   (* in list order *)
  fObjName  : string;
  fDir      : string;
  fType     : string
}.

Definition set_fElements (l : list TDSetElement) (d : t) : t :=
  mk l (fObjName d) (fDir d) (fType d).

(** [fElements->FindObject(name)]: the first element of that name. *)
Definition FindObject (l : list TDSetElement) (name : string)
  : option TDSetElement :=
  snd <$> list_find (fun el => fName el = name) l.

(** [Add(file, objname, dir, first, num, msd)]: add file to list of
    files to be analyzed; a null pointer is [None]. *)
Definition Add (file objname dir : option string) (first num : Z) (d : t)
  : t * bool :=
  match file with
  | None => (d, false)
  | Some file =>
      if bool_decide (file = EmptyString) then (d, false)
      else
        (* check, if it already exists in the TDSet *)
        match FindObject (fElements d) file with
        | Some _ => (d, false)
        | None =>
            let objname := default (fObjName d) objname in
            let dir := default (fDir d) dir in
            (set_fElements
               (fElements d ++ [TDSetElement_new file objname dir first num])
               d, true)
        end
  end.

(** One turn of the loop of [Add(TDSet *dset)]: the element [el] of
    [dset] is added; the result of [Add] is not looked at. *)
Definition add_element (d : t) (el : TDSetElement) : t :=
  fst (Add (Some (fName el)) (Some (fTitle el)) (Some (fDirectory el))
           (fFirst el) (fNum el) d).

(** The argument of [Add(TDSet *dset)]. *)
Inductive DSetArg :=
| Null
| This               (* [dset == this] *)
| Other (dset : t).

(** [Add(TDSet *dset)]: add specified data set to the this set.  When
    the set is added to itself the iteration ends with the element that
    was the last one at the start. *)
Definition AddDSet (arg : DSetArg) (d : t) : t * bool :=
  match arg with
  | Null => (d, false)
  | This => (foldl add_element d (fElements d), true)
  | Other dset =>
      if bool_decide (fType d ≠ fType dset) then (d, false)
      else (foldl add_element d (fElements dset), true)
  end.

(** [ElementsValid()]: check if all elements are valid. *)
Definition ElementsValid (d : t) : bool :=
  forallb fValidElement (fElements d).

(** The key under which [Validate(TDSet *dset)] files an element. *)
Definition dir_file_obj (elem : TDSetElement) : string :=
  fDirectory elem +:+ "_" +:+ fName elem +:+ "_" +:+ fTitle elem.

(** Modelled from the spec: [THashList] and [TPair] belong to the core
    library, which is not among the sources.  The first loop of
    [Validate(TDSet *dset)] files under each key the first valid element
    of [dset] that has it.  For a later valid element of the same key
    that ends later it does
    [bestElements.Remove(p); bestElements.Add(new TPair(p->Key(), elem)); delete p;].
    [THashList::Remove] looks its argument up with [IsEqual], and
    [TPair::IsEqual] compares the key of the pair, a [TNamed], with that
    argument, here the pair itself: the pair is not found and stays on the
    list, where [delete p] frees it.  The list owns its objects; the freed
    pair is read at the next look-up of the key and deleted once more when
    the list goes out of scope.  The model stops at the [delete]: [None]. *)
Definition bestElements (elems : list TDSetElement)
  : option (gmap string TDSetElement) :=
  foldl (fun best elem =>
           best ← best;
           if negb (fValidElement elem) then Some best
           else
             match best !! dir_file_obj elem with
             | Some prevelem =>
                 let entries := fFirst prevelem + fNum prevelem in
                 if entries <? fFirst elem + fNum elem
                 then None
                 else Some best
             | None => Some (<[dir_file_obj elem := elem]> best)
             end)
        (Some ∅) elems.

(** [Validate(TDSet *dset)]: validate the TDSet against another TDSet;
    only validates elements in common from input TDSet. *)
Definition Validate (dset : t) (d : t) : option t :=
  best ← bestElements (fElements dset);
  Some (set_fElements
          ((fun elem =>
              if fValidElement elem then elem
              else match best !! dir_file_obj elem with
                   | Some validelem =>
                       TDSetElement_Validate (Some validelem) elem
                   | None => elem
                   end) <$> fElements d)
          d).

End TDSet.

(** ** [TAdaptivePacketizer::TFileStat] *)

Module TFileStat.

Record t := mk {
  fIsDone    : bool;
  fNode      : nat;        (* my FileNode *)
  fElement   : nat;        (* location of the file and its range *)
  fNextEntry : Z           (* cursor in the range *)
}.

(** [TFileStat(node, elem)]; [first] is [elem->GetFirst()]. *)
Definition new (node elem : nat) (first : Z) : t := mk false node elem first.

Definition IsDone (f : t) : bool := fIsDone f.
Definition SetDone (f : t) : t := mk true (fNode f) (fElement f) (fNextEntry f).
Definition GetNode (f : t) : nat := fNode f.
Definition GetElement (f : t) : nat := fElement f.
Definition GetNextEntry (f : t) : Z := fNextEntry f.
Definition MoveNextEntry (step : Z) (f : t) : t :=
  mk (fIsDone f) (fNode f) (fElement f) (fNextEntry f + step).

End TFileStat.

(** ** [TAdaptivePacketizer::TFileNode] *)

Module TFileNode.

Record t := mk {
  fNodeName        : string;     (* FQDN of the node *)
  fFiles           : list nat;   (* files stored on this node *)
  fUnAllocFileNext : option nat; (* cursor in fFiles *)
  fActFiles        : list nat;   (* files with work remaining *)
  fActFileNext     : option nat; (* cursor in fActFiles *)
  fMySlaveCnt      : Z;
  fExtSlaveCnt     : Z;
  fRunSlaveCnt     : Z;
  fProcessed       : Z;
  fEvents          : Z
}.

(** [TFileNode(name)].  The constructor leaves [fRunSlaveCnt]
    uninitialised; [Reset] stores 0 in it before it is ever read. *)
Definition new (name : string) : t :=
  mk name [] None [] None 0 0 0 0 0.

Definition set_cursors (fs : list nat) (un : option nat)
           (act : list nat) (an : option nat) (n : t) : t :=
  mk (fNodeName n) fs un act an (fMySlaveCnt n) (fExtSlaveCnt n)
     (fRunSlaveCnt n) (fProcessed n) (fEvents n).

Definition set_counters (my ext run pr ev : Z) (n : t) : t :=
  mk (fNodeName n) (fFiles n) (fUnAllocFileNext n) (fActFiles n)
     (fActFileNext n) my ext run pr ev.

Definition IncMySlaveCnt (n : t) : t :=
  set_counters (fMySlaveCnt n + 1) (fExtSlaveCnt n) (fRunSlaveCnt n)
               (fProcessed n) (fEvents n) n.
Definition GetMySlaveCnt (n : t) : Z := fMySlaveCnt n.

Definition IncExtSlaveCnt (slave : string) (n : t) : t :=
  if bool_decide (fNodeName n ≠ slave)
  then set_counters (fMySlaveCnt n) (fExtSlaveCnt n + 1) (fRunSlaveCnt n)
                    (fProcessed n) (fEvents n) n
  else n.

(** [DecExtSlaveCnt] ends with [R__ASSERT(fExtSlaveCnt >= 0)]. *)
Definition DecExtSlaveCnt (slave : string) (n : t) : option t :=
  let n' := if bool_decide (fNodeName n ≠ slave)
            then set_counters (fMySlaveCnt n) (fExtSlaveCnt n - 1)
                              (fRunSlaveCnt n) (fProcessed n) (fEvents n) n
            else n in
  if 0 <=? fExtSlaveCnt n' then Some n' else None.

Definition GetSlaveCnt (n : t) : Z := fMySlaveCnt n + fExtSlaveCnt n.

Definition IncRunSlaveCnt (n : t) : t :=
  set_counters (fMySlaveCnt n) (fExtSlaveCnt n) (fRunSlaveCnt n + 1)
               (fProcessed n) (fEvents n) n.

(** [DecRunSlaveCnt] ends with [R__ASSERT(fRunSlaveCnt >= 0)]. *)
Definition DecRunSlaveCnt (n : t) : option t :=
  let n' := set_counters (fMySlaveCnt n) (fExtSlaveCnt n)
                         (fRunSlaveCnt n - 1) (fProcessed n) (fEvents n) n in
  if 0 <=? fRunSlaveCnt n' then Some n' else None.

Definition GetRunSlaveCnt (n : t) : Z := fRunSlaveCnt n.
Definition GetExtSlaveCnt (n : t) : Z := fExtSlaveCnt n.
Definition GetNumberOfActiveFiles (n : t) : Z := Z.of_nat (length (fActFiles n)).
Definition GetNumberOfFiles (n : t) : Z := Z.of_nat (length (fFiles n)).

Definition IncProcessed (nEvents : Z) (n : t) : t :=
  set_counters (fMySlaveCnt n) (fExtSlaveCnt n) (fRunSlaveCnt n)
               (Long64_t_of (fProcessed n + nEvents)) (fEvents n) n.
Definition GetProcessed (n : t) : Z := fProcessed n.

(** It adds 1, so it returns the number that would be true if one more
    worker were added. *)
Definition GetEventsLeftPerSlave (n : t) : Z :=
  (fEvents n - fProcessed n) ÷ (fRunSlaveCnt n + 1).

Definition IncEvents (nEvents : Z) (n : t) : t :=
  set_counters (fMySlaveCnt n) (fExtSlaveCnt n) (fRunSlaveCnt n)
               (fProcessed n) (fEvents n + nEvents) n.
Definition GetNEvents (n : t) : Z := fEvents n.

(** [Add(elem)], once the caller has allocated the [TFileStat] [f]. *)
Definition Add (f : nat) (n : t) : t :=
  let files := TList.Add (fFiles n) f in
  set_cursors files
              (match fUnAllocFileNext n with
               | None => TList.First files
               | Some c => Some c
               end)
              (fActFiles n) (fActFileNext n) n.

Definition GetNextUnAlloc (n : t) : t * option nat :=
  match fUnAllocFileNext n with
  | Some next =>
      (* make file active *)
      let act := TList.Add (fActFiles n) next in
      let an := match fActFileNext n with
                | None => TList.First act
                | Some c => Some c
                end in
      (* move cursor *)
      (set_cursors (fFiles n) (TList.After (fFiles n) next) act an n,
       Some next)
  | None => (n, None)
  end.

Definition GetNextActive (n : t) : t * option nat :=
  match fActFileNext n with
  | Some next =>
      let an := match TList.After (fActFiles n) next with
                | None => TList.First (fActFiles n)
                | Some c => Some c
                end in
      (set_cursors (fFiles n) (fUnAllocFileNext n) (fActFiles n) an n,
       Some next)
  | None => (n, None)
  end.

Definition RemoveActive (file : nat) (n : t) : t :=
  let an := if bool_decide (fActFileNext n = Some file)
            then TList.After (fActFiles n) file
            else fActFileNext n in
  let act := TList.Remove (fActFiles n) file in
  let an := match an with
            | None => TList.First act
            | Some c => Some c
            end in
  set_cursors (fFiles n) (fUnAllocFileNext n) act an n.

(** [Compare(other)]: "Must return -1 if this is smaller than obj, 0 if
    objects are equal and 1 if this is larger than obj.  Smaller means
    more needing a new worker."  [NetworkFasterThanHD] and [MaxSlaveCnt]
    are the static members [fgNetworkFasterThanHD] and [fgMaxSlaveCnt]
    of the packetizer. *)
Definition Compare (NetworkFasterThanHD MaxSlaveCnt : Z) (this obj : t) : Z :=
  if negb (NetworkFasterThanHD =? 0) then
    (* The network bandwidth is greater than hard disk transfer. *)
    let myVal := GetRunSlaveCnt this in
    let otherVal := GetRunSlaveCnt obj in
    if myVal <? otherVal then -1
    else if myVal >? otherVal then 1
    else
      (* if this has more events to process than obj *)
      if fEvents this - fProcessed this >? GetNEvents obj - GetProcessed obj
      then -1
      else 1
  else
    (* Network bandwidth is smaller than hard disk transfer. *)
    let diffEvents := GetEventsLeftPerSlave this - GetEventsLeftPerSlave obj in
    let myExtSlaves := GetExtSlaveCnt this in
    let otherExtSlaves := GetExtSlaveCnt obj in
    let avEventsLeft :=
      (GetEventsLeftPerSlave this + GetEventsLeftPerSlave obj) ÷ 2 in
    (* # my workers processing remote files *)
    let mySlavesProcRemote := GetSlaveCnt this - GetRunSlaveCnt this in
    let otherSlavesProcRemote := GetSlaveCnt obj - GetRunSlaveCnt obj in
    if mySlavesProcRemote <? otherSlavesProcRemote then
      if (diffEvents <? - (avEventsLeft ÷ 2))
         && (GetExtSlaveCnt obj <? MaxSlaveCnt)
      then 1 else -1
    else if mySlavesProcRemote >? otherSlavesProcRemote then
      if (diffEvents >? avEventsLeft ÷ 2)
         && (GetExtSlaveCnt this <? MaxSlaveCnt)
      then -1 else 1
    else if myExtSlaves <? otherExtSlaves then
      if (diffEvents <? - (avEventsLeft ÷ 3))
         && (GetExtSlaveCnt obj <? MaxSlaveCnt)
      then 1 else -1
    else if myExtSlaves >? otherExtSlaves then
      if (diffEvents >? avEventsLeft ÷ 3)
         && (GetExtSlaveCnt this <? MaxSlaveCnt)
      then -1 else 1
    else
      let myOwnSlaves := GetMySlaveCnt this in
      let otherOwnSlaves := GetMySlaveCnt obj in
      if myOwnSlaves <? otherOwnSlaves then
        (* if the other node has much more to process *)
        if (diffEvents <? - (avEventsLeft ÷ 3))
           && (GetExtSlaveCnt obj <? MaxSlaveCnt)
        then 1 else -1
      else if myOwnSlaves >? otherOwnSlaves then
        if (diffEvents >? avEventsLeft ÷ 3)
           && (GetExtSlaveCnt this <? MaxSlaveCnt)
        then -1 else 1
      else if diffEvents >? 0 then -1
      else if diffEvents <? 0 then 1
      else 0.

Definition Reset (n : t) : t :=
  mk (fNodeName n) (fFiles n) (TList.First (fFiles n)) [] None
     0 0 0 (fProcessed n) (fEvents n).

End TFileNode.


(** ** Floating-point arithmetic

    [FP] stands for the values of [Float_t] and [Double_t] expressions.
    Each operation is the C++ one, with the usual arithmetic conversions
    of its operands; [fp_store] is the rounding applied when a value is
    stored into a [Float_t] variable. *)

Class FloatArith := {
  FP : Type;
  fp_of_Z : Z -> FP;            (* an integer operand or literal *)
  fp_of_decimal : Z -> Z -> FP; (* the literal [m / 10^k], e.g. 0.4 *)
  fp_is_zero : FP -> bool;      (* [!x], [x == 0] *)
  fp_add : FP -> FP -> FP;
  fp_sub : FP -> FP -> FP;
  fp_mul : FP -> FP -> FP;
  fp_div : FP -> FP -> FP;
  fp_ltb : FP -> FP -> bool;    (* [x < y] *)
  fp_store : FP -> FP;          (* assignment to a [Float_t] *)
  fp_to_Long64 : FP -> Z        (* [(Long64_t) x] *)
}.

(** ** What the packetizer takes from the rest of ROOT

    [TList::Sort] reorders a list in place with the elements' [Compare];
    [TUrl] splits a file name.  Neither is part of the sources at hand:
    the sort is any function of the comparison and the list (where it
    matters that it permutes the list, that is assumed in so many words),
    and [HostOf] is the host the constructor files an element under (the
    host of a valid "root" or "rfio" URL, "no-host" otherwise). *)

Class Runtime := {
  TList_Sort : (nat -> nat -> Z) -> list nat -> list nat;
  HostOf : string -> string
}.

(** ** [TSlave] (what the packetizer reads of it) *)

Record TSlave := mkSlave {
  sName    : string;   (* [GetName()]: the host the worker runs on *)
  sOrdinal : string;
  sPerfIdx : Z
}.

(** ** [TAdaptivePacketizer::TSlaveStat] *)

Module TSlaveStat.

Record t `{FloatArith} := mk {
  fSlave        : TSlave;
  fFileNode     : option nat;          (* corresponding node or 0 *)
  fCurFile      : option nat;          (* file currently being processed *)
  fCurElem      : option TDSetElement; (* packet currently being processed *)
  fProcessed    : Z;                   (* number of entries processed *)
  fProcTime     : FP;                  (* sum of processing time of packets *)
  fCurProcessed : Z;                   (* events processed in the current file *)
  fCurProcTime  : FP                   (* proc time spent on the current file *)
}.

Definition new `{FloatArith} (slave : TSlave) : t :=
  mk _ slave None None None 0 (fp_of_Z 0) 0 (fp_of_Z 0).

Definition GetFileNode `{FloatArith} (s : t) : option nat := fFileNode s.
Definition GetName `{FloatArith} (s : t) : string := sName (fSlave s).
Definition GetEntriesProcessed `{FloatArith} (s : t) : Z := fProcessed s.
Definition GetCurFile `{FloatArith} (s : t) : option nat := fCurFile s.

Definition SetFileNode `{FloatArith} (node : option nat) (s : t) : t :=
  mk _ (fSlave s) node (fCurFile s) (fCurElem s) (fProcessed s) (fProcTime s)
     (fCurProcessed s) (fCurProcTime s).
Definition SetCurFile `{FloatArith} (file : option nat) (s : t) : t :=
  mk _ (fSlave s) (fFileNode s) file (fCurElem s) (fProcessed s) (fProcTime s)
     (fCurProcessed s) (fCurProcTime s).
Definition SetCurElem `{FloatArith} (elem : option TDSetElement) (s : t) : t :=
  mk _ (fSlave s) (fFileNode s) (fCurFile s) elem (fProcessed s) (fProcTime s)
     (fCurProcessed s) (fCurProcTime s).

(** The part of [UpdateRates(nEvents, time)] that stays inside the
    [TSlaveStat]; [curDone] is [fCurFile->IsDone()]. *)
Definition UpdateRates `{FloatArith} (curDone : bool) (nEvents : Z) (time : FP)
  (s : t) : t :=
  mk _ (fSlave s) (fFileNode s) (fCurFile s) (fCurElem s)
     (Long64_t_of (fProcessed s + nEvents))
     (fp_store (fp_add (fProcTime s) time))
     (if curDone then 0 else Long64_t_of (fCurProcessed s + nEvents))
     (if curDone then fp_of_Z 0
      else fp_store (fp_add (fCurProcTime s) time)).

Definition GetAvgRate `{FloatArith} (s : t) : FP :=
  if fp_is_zero (fProcTime s) then fp_of_Z 0
  else fp_store (fp_div (fp_of_Z (fProcessed s)) (fProcTime s)).

Definition GetCurRate `{FloatArith} (s : t) : FP :=
  if fp_is_zero (fCurProcTime s) then fp_of_Z 0
  else fp_store (fp_div (fp_of_Z (fCurProcessed s)) (fCurProcTime s)).

End TSlaveStat.

(** ** [TAdaptivePacketizer] *)

Record TAdaptivePacketizer `{FloatArith} := mkPacketizer {
  (* the objects the lists below point into *)
  elements     : list TDSetElement;
  fileStats    : list TFileStat.t;
  fFileNodes   : list TFileNode.t;   (* nodes with files; a node is its index *)
  fUnAllocated : list nat;           (* nodes with unallocated files *)
  fActive      : list nat;           (* nodes with unfinished files *)
  fSlaveStats  : list TSlaveStat.t;  (* worker -> its TSlaveStat *)
  fPackets     : list TDSetElement;  (* all processed packets *)
  fValid       : bool;
  fStop        : bool;
  fProcessed   : Z;                  (* number of entries processed *)
  fTotalEntries : Z;                 (* total number of entries to be distributed *)
  fBytesRead   : Z;
  fCumProcTime : FP;                 (* sum of proc time of all packets so far *)
  fMaxPerfIdx  : Z;                  (* maximum of the workers' performance index *)
  fBaseLocalPreference : FP;
  fNEventsOnRemLoc : Z;              (* events in files on non-worker nodes *)
  fFractionOfRemoteFiles : FP;
  fgMaxSlaveCnt : Z;                 (* maximum number of workers per filenode *)
  fgNetworkFasterThanHD : Z
}.


(** Field updates. *)

Definition set_elements `{FloatArith} (v : list TDSetElement) (p : TAdaptivePacketizer)
  : TAdaptivePacketizer :=
  mkPacketizer _ v (fileStats p) (fFileNodes p) (fUnAllocated p) (fActive p)
    (fSlaveStats p) (fPackets p) (fValid p) (fStop p) (fProcessed p)
    (fTotalEntries p) (fBytesRead p) (fCumProcTime p) (fMaxPerfIdx p)
    (fBaseLocalPreference p) (fNEventsOnRemLoc p) (fFractionOfRemoteFiles p)
    (fgMaxSlaveCnt p) (fgNetworkFasterThanHD p).
Definition set_fileStats `{FloatArith} (v : list TFileStat.t) (p : TAdaptivePacketizer)
  : TAdaptivePacketizer :=
  mkPacketizer _ (elements p) v (fFileNodes p) (fUnAllocated p) (fActive p)
    (fSlaveStats p) (fPackets p) (fValid p) (fStop p) (fProcessed p)
    (fTotalEntries p) (fBytesRead p) (fCumProcTime p) (fMaxPerfIdx p)
    (fBaseLocalPreference p) (fNEventsOnRemLoc p) (fFractionOfRemoteFiles p)
    (fgMaxSlaveCnt p) (fgNetworkFasterThanHD p).
Definition set_fFileNodes `{FloatArith} (v : list TFileNode.t) (p : TAdaptivePacketizer)
  : TAdaptivePacketizer :=
  mkPacketizer _ (elements p) (fileStats p) v (fUnAllocated p) (fActive p)
    (fSlaveStats p) (fPackets p) (fValid p) (fStop p) (fProcessed p)
    (fTotalEntries p) (fBytesRead p) (fCumProcTime p) (fMaxPerfIdx p)
    (fBaseLocalPreference p) (fNEventsOnRemLoc p) (fFractionOfRemoteFiles p)
    (fgMaxSlaveCnt p) (fgNetworkFasterThanHD p).
Definition set_fUnAllocated `{FloatArith} (v : list nat) (p : TAdaptivePacketizer)
  : TAdaptivePacketizer :=
  mkPacketizer _ (elements p) (fileStats p) (fFileNodes p) v (fActive p)
    (fSlaveStats p) (fPackets p) (fValid p) (fStop p) (fProcessed p)
    (fTotalEntries p) (fBytesRead p) (fCumProcTime p) (fMaxPerfIdx p)
    (fBaseLocalPreference p) (fNEventsOnRemLoc p) (fFractionOfRemoteFiles p)
    (fgMaxSlaveCnt p) (fgNetworkFasterThanHD p).
Definition set_fActive `{FloatArith} (v : list nat) (p : TAdaptivePacketizer)
  : TAdaptivePacketizer :=
  mkPacketizer _ (elements p) (fileStats p) (fFileNodes p) (fUnAllocated p)
    v (fSlaveStats p) (fPackets p) (fValid p) (fStop p) (fProcessed p)
    (fTotalEntries p) (fBytesRead p) (fCumProcTime p) (fMaxPerfIdx p)
    (fBaseLocalPreference p) (fNEventsOnRemLoc p) (fFractionOfRemoteFiles p)
    (fgMaxSlaveCnt p) (fgNetworkFasterThanHD p).
Definition set_fSlaveStats `{FloatArith} (v : list TSlaveStat.t) (p : TAdaptivePacketizer)
  : TAdaptivePacketizer :=
  mkPacketizer _ (elements p) (fileStats p) (fFileNodes p) (fUnAllocated p)
    (fActive p) v (fPackets p) (fValid p) (fStop p) (fProcessed p)
    (fTotalEntries p) (fBytesRead p) (fCumProcTime p) (fMaxPerfIdx p)
    (fBaseLocalPreference p) (fNEventsOnRemLoc p) (fFractionOfRemoteFiles p)
    (fgMaxSlaveCnt p) (fgNetworkFasterThanHD p).
Definition set_fPackets `{FloatArith} (v : list TDSetElement) (p : TAdaptivePacketizer)
  : TAdaptivePacketizer :=
  mkPacketizer _ (elements p) (fileStats p) (fFileNodes p) (fUnAllocated p)
    (fActive p) (fSlaveStats p) v (fValid p) (fStop p) (fProcessed p)
    (fTotalEntries p) (fBytesRead p) (fCumProcTime p) (fMaxPerfIdx p)
    (fBaseLocalPreference p) (fNEventsOnRemLoc p) (fFractionOfRemoteFiles p)
    (fgMaxSlaveCnt p) (fgNetworkFasterThanHD p).
Definition set_fValid `{FloatArith} (v : bool) (p : TAdaptivePacketizer)
  : TAdaptivePacketizer :=
  mkPacketizer _ (elements p) (fileStats p) (fFileNodes p) (fUnAllocated p)
    (fActive p) (fSlaveStats p) (fPackets p) v (fStop p) (fProcessed p)
    (fTotalEntries p) (fBytesRead p) (fCumProcTime p) (fMaxPerfIdx p)
    (fBaseLocalPreference p) (fNEventsOnRemLoc p) (fFractionOfRemoteFiles p)
    (fgMaxSlaveCnt p) (fgNetworkFasterThanHD p).
Definition set_fStop `{FloatArith} (v : bool) (p : TAdaptivePacketizer)
  : TAdaptivePacketizer :=
  mkPacketizer _ (elements p) (fileStats p) (fFileNodes p) (fUnAllocated p)
    (fActive p) (fSlaveStats p) (fPackets p) (fValid p) v (fProcessed p)
    (fTotalEntries p) (fBytesRead p) (fCumProcTime p) (fMaxPerfIdx p)
    (fBaseLocalPreference p) (fNEventsOnRemLoc p) (fFractionOfRemoteFiles p)
    (fgMaxSlaveCnt p) (fgNetworkFasterThanHD p).
Definition set_fProcessed `{FloatArith} (v : Z) (p : TAdaptivePacketizer)
  : TAdaptivePacketizer :=
  mkPacketizer _ (elements p) (fileStats p) (fFileNodes p) (fUnAllocated p)
    (fActive p) (fSlaveStats p) (fPackets p) (fValid p) (fStop p) v
    (fTotalEntries p) (fBytesRead p) (fCumProcTime p) (fMaxPerfIdx p)
    (fBaseLocalPreference p) (fNEventsOnRemLoc p) (fFractionOfRemoteFiles p)
    (fgMaxSlaveCnt p) (fgNetworkFasterThanHD p).
Definition set_fTotalEntries `{FloatArith} (v : Z) (p : TAdaptivePacketizer)
  : TAdaptivePacketizer :=
  mkPacketizer _ (elements p) (fileStats p) (fFileNodes p) (fUnAllocated p)
    (fActive p) (fSlaveStats p) (fPackets p) (fValid p) (fStop p)
    (fProcessed p) v (fBytesRead p) (fCumProcTime p) (fMaxPerfIdx p)
    (fBaseLocalPreference p) (fNEventsOnRemLoc p) (fFractionOfRemoteFiles p)
    (fgMaxSlaveCnt p) (fgNetworkFasterThanHD p).
Definition set_fBytesRead `{FloatArith} (v : Z) (p : TAdaptivePacketizer)
  : TAdaptivePacketizer :=
  mkPacketizer _ (elements p) (fileStats p) (fFileNodes p) (fUnAllocated p)
    (fActive p) (fSlaveStats p) (fPackets p) (fValid p) (fStop p)
    (fProcessed p) (fTotalEntries p) v (fCumProcTime p) (fMaxPerfIdx p)
    (fBaseLocalPreference p) (fNEventsOnRemLoc p) (fFractionOfRemoteFiles p)
    (fgMaxSlaveCnt p) (fgNetworkFasterThanHD p).
Definition set_fCumProcTime `{FloatArith} (v : FP) (p : TAdaptivePacketizer)
  : TAdaptivePacketizer :=
  mkPacketizer _ (elements p) (fileStats p) (fFileNodes p) (fUnAllocated p)
    (fActive p) (fSlaveStats p) (fPackets p) (fValid p) (fStop p)
    (fProcessed p) (fTotalEntries p) (fBytesRead p) v (fMaxPerfIdx p)
    (fBaseLocalPreference p) (fNEventsOnRemLoc p) (fFractionOfRemoteFiles p)
    (fgMaxSlaveCnt p) (fgNetworkFasterThanHD p).
Definition set_fNEventsOnRemLoc `{FloatArith} (v : Z) (p : TAdaptivePacketizer)
  : TAdaptivePacketizer :=
  mkPacketizer _ (elements p) (fileStats p) (fFileNodes p) (fUnAllocated p)
    (fActive p) (fSlaveStats p) (fPackets p) (fValid p) (fStop p)
    (fProcessed p) (fTotalEntries p) (fBytesRead p) (fCumProcTime p)
    (fMaxPerfIdx p) (fBaseLocalPreference p) v (fFractionOfRemoteFiles p)
    (fgMaxSlaveCnt p) (fgNetworkFasterThanHD p).
Definition set_fFractionOfRemoteFiles `{FloatArith} (v : FP) (p : TAdaptivePacketizer)
  : TAdaptivePacketizer :=
  mkPacketizer _ (elements p) (fileStats p) (fFileNodes p) (fUnAllocated p)
    (fActive p) (fSlaveStats p) (fPackets p) (fValid p) (fStop p)
    (fProcessed p) (fTotalEntries p) (fBytesRead p) (fCumProcTime p)
    (fMaxPerfIdx p) (fBaseLocalPreference p) (fNEventsOnRemLoc p) v
    (fgMaxSlaveCnt p) (fgNetworkFasterThanHD p).

(** The reply a worker sends with its request for the next packet:
    three [Double_t], then as many [Long64_t] as the worker's version
    writes (bytes read, total entries, events seen). *)
Record Reply `{FloatArith} := mkReply {
  rLatency  : FP;
  rProcTime : FP;
  rProcCPU  : FP;
  rMore     : list Z
}.

Section Packetizer.

Context `{FA : FloatArith} `{RT : Runtime}.

Definition updNode (n : nat) (nd : TFileNode.t) (p : TAdaptivePacketizer)
  : TAdaptivePacketizer :=
  set_fFileNodes (<[n := nd]> (fFileNodes p)) p.

Definition updFile (f : nat) (fs : TFileStat.t) (p : TAdaptivePacketizer)
  : TAdaptivePacketizer :=
  set_fileStats (<[f := fs]> (fileStats p)) p.

Definition updSlave (sl : nat) (s : TSlaveStat.t) (p : TAdaptivePacketizer)
  : TAdaptivePacketizer :=
  set_fSlaveStats (<[sl := s]> (fSlaveStats p)) p.

(** [fSlaveStats->GetSize()] *)
Definition NSlaves (p : TAdaptivePacketizer) : Z :=
  Z.of_nat (length (fSlaveStats p)).

(** [TFileNode::Compare] between two nodes of [fFileNodes]. *)
Definition NodeCompare (p : TAdaptivePacketizer) (a b : nat) : Z :=
  match fFileNodes p !! a, fFileNodes p !! b with
  | Some x, Some y =>
      TFileNode.Compare (fgNetworkFasterThanHD p) (fgMaxSlaveCnt p) x y
  | _, _ => 0
  end.

(** [fFileNodes->FindObject(name)]: the first node of that name. *)
Definition FindNode (nodes : list TFileNode.t) (name : string) : option nat :=
  fst <$> list_find (fun nd => TFileNode.fNodeName nd = name) nodes.

(** *** Node lists *)

(** Get next node which has unallocated files; the order is determined
    by [TFileNode::Compare]. *)
Definition NextNode (p : TAdaptivePacketizer)
  : option (TAdaptivePacketizer * option nat) :=
  let p := set_fUnAllocated (TList_Sort (NodeCompare p) (fUnAllocated p)) p in
  match TList.First (fUnAllocated p) with
  | None => Some (p, None)
  | Some fn =>
      nd ← fFileNodes p !! fn;
      (* unlike in TPacketizer we look at the number of ext slaves only *)
      if fgMaxSlaveCnt p <=? TFileNode.GetExtSlaveCnt nd
      then Some (p, None) else Some (p, Some fn)
  end.

Definition RemoveUnAllocNode (node : nat) (p : TAdaptivePacketizer)
  : TAdaptivePacketizer :=
  set_fUnAllocated (TList.Remove (fUnAllocated p) node) p.

(** [file = node->GetNextUnAlloc(); if (file == 0) RemoveUnAllocNode(node);] *)
Definition NodeNextUnAlloc (node : nat) (p : TAdaptivePacketizer)
  : option (TAdaptivePacketizer * option nat) :=
  nd ← fFileNodes p !! node;
  let '(nd', file) := TFileNode.GetNextUnAlloc nd in
  let p := updNode node nd' p in
  Some (match file with
        | None => RemoveUnAllocNode node p
        | Some _ => p
        end, file).

(** The loop of [GetNextUnAlloc(0)]; it ends with the node and the file
    found.  Every turn that finds no file takes a node off
    [fUnAllocated], so [length fUnAllocated] turns are enough. *)
Fixpoint GetNextUnAlloc_loop (turns : nat) (p : TAdaptivePacketizer)
  : option (TAdaptivePacketizer * option (nat * nat)) :=
  match turns with
  | O => Some (p, None)
  | S k =>
      '(p, node) ← NextNode p;
      match node with
      | None => Some (p, None)
      | Some n =>
          '(p, file) ← NodeNextUnAlloc n p;
          match file with
          | Some f => Some (p, Some (n, f))
          | None => GetNextUnAlloc_loop k p
          end
      end
  end.

(** Get next unallocated file from [node] or other nodes. *)
Definition GetNextUnAlloc (node : option nat) (p : TAdaptivePacketizer)
  : option (TAdaptivePacketizer * option nat) :=
  '(p, found) ← match node
                  return option (TAdaptivePacketizer * option (nat * nat)) with
                | Some n =>
                    '(p, file) ← NodeNextUnAlloc n p;
                    Some (p, match file with
                             | Some f => Some (n, f)
                             | None => None
                             end)
                | None => GetNextUnAlloc_loop (length (fUnAllocated p)) p
                end;
  match found with
  | Some (n, f) =>
      (* if needed make node active *)
      Some (if TList.Contains (fActive p) n then p
            else set_fActive (TList.Add (fActive p) n) p, Some f)
  | None => Some (p, None)
  end.

(** Get next active node. *)
Definition NextActiveNode (p : TAdaptivePacketizer)
  : option (TAdaptivePacketizer * option nat) :=
  let p := set_fActive (TList_Sort (NodeCompare p) (fActive p)) p in
  match TList.First (fActive p) with
  | None => Some (p, None)
  | Some fn =>
      nd ← fFileNodes p !! fn;
      (* look at only ext slaves *)
      if fgMaxSlaveCnt p <=? TFileNode.GetExtSlaveCnt nd
      then Some (p, None) else Some (p, Some fn)
  end.

Definition RemoveActiveNode (node : nat) (p : TAdaptivePacketizer)
  : TAdaptivePacketizer :=
  set_fActive (TList.Remove (fActive p) node) p.

Fixpoint GetNextActive_loop (turns : nat) (p : TAdaptivePacketizer)
  : option (TAdaptivePacketizer * option nat) :=
  match turns with
  | O => Some (p, None)
  | S k =>
      '(p, node) ← NextActiveNode p;
      match node with
      | None => Some (p, None)
      | Some n =>
          nd ← fFileNodes p !! n;
          let '(nd', file) := TFileNode.GetNextActive nd in
          let p := updNode n nd' p in
          match file with
          | Some f => Some (p, Some f)
          | None => GetNextActive_loop k (RemoveActiveNode n p)
          end
      end
  end.

(** Get next active file. *)
Definition GetNextActive (p : TAdaptivePacketizer)
  : option (TAdaptivePacketizer * option nat) :=
  GetNextActive_loop (length (fActive p)) p.

(** Remove file from the list of actives. *)
Definition RemoveActive (file : nat) (p : TAdaptivePacketizer)
  : option TAdaptivePacketizer :=
  fs ← fileStats p !! file;
  let node := TFileStat.GetNode fs in
  nd ← fFileNodes p !! node;
  let nd' := TFileNode.RemoveActive file nd in
  let p := updNode node nd' p in
  Some (if TFileNode.GetNumberOfActiveFiles nd' =? 0
        then RemoveActiveNode node p else p).

(** One turn of the loop over the workers in [Reset]. *)
Definition ResetSlave (acc : list TFileNode.t * list TSlaveStat.t)
  (slstat : TSlaveStat.t) : list TFileNode.t * list TSlaveStat.t :=
  let '(nodes, done) := acc in
  match FindNode nodes (TSlaveStat.GetName slstat) with
  | Some fn =>
      (alter TFileNode.IncMySlaveCnt fn nodes,
       done ++ [TSlaveStat.SetCurFile None
                  (TSlaveStat.SetFileNode (Some fn) slstat)])
  | None => (nodes, done ++ [TSlaveStat.SetCurFile None slstat])
  end.

(** Reset the internal datastructure for packet distribution. *)
Definition Reset (p : TAdaptivePacketizer) : TAdaptivePacketizer :=
  let p := set_fUnAllocated (seq 0 (length (fFileNodes p))) p in
  let p := set_fActive [] p in
  let '(nodes, slaves) :=
    foldl ResetSlave (TFileNode.Reset <$> fFileNodes p, []) (fSlaveStats p) in
  set_fSlaveStats slaves (set_fFileNodes nodes p).

(** *** Construction: the global range [(first, num)]

    The constructor first splits the dataset into per-host entries,
    creates one [TSlaveStat] per worker and runs [ValidateFiles]
    (modelled further down); if the packetizer is still valid it applies the
    global range to the dataset and rebuilds the structure, omitting the
    elements that are not needed.  [ApplyRange] is the decision taken for
    one element, [cur] being the number of entries of the elements before
    it: the new [cur], and the element as it is filed ([None] when it is
    left out). *)
Definition ApplyRange (first num cur : Z) (e : TDSetElement)
  : Z * option TDSetElement :=
  let eFirst := fFirst e in
  let eNum := fNum e in
  match fEntryList e with
  | None =>
      (* this element is before the start of the global range, skip it *)
      if cur + eNum <? first then (cur + eNum, None)
      (* this element is after the end of the global range, skip it *)
      else if negb (num =? -1) && (first + num <=? cur) then (cur + eNum, None)
      else
        (* If this element contains the end of the global range
           adjust its number of entries *)
        let e := if negb (num =? -1) && (first + num <? cur + eNum)
                 then SetNum (first + num - cur) e else e in
        (* If this element contains the start of the global range
           adjust its start and number of entries *)
        let e := if cur <? first
                 then SetNum (fNum e - (first - cur))
                             (SetFirst (eFirst + (first - cur)) e)
                 else e in
        (cur + eNum, Some e)
  | Some n => if n =? 0 then (cur, None) else (cur, Some e)
  end.

(** The node of [host], created when the host has none yet. *)
Definition NodeOfHost (host : string) (p : TAdaptivePacketizer)
  : nat * TAdaptivePacketizer :=
  match FindNode (fFileNodes p) host with
  | Some n => (n, p)
  | None => (length (fFileNodes p),
             set_fFileNodes (fFileNodes p ++ [TFileNode.new host]) p)
  end.

(** [node->Add(e)]: it allocates the [TFileStat] of the element. *)
Definition NodeAdd (node eid : nat) (e : TDSetElement) (p : TAdaptivePacketizer)
  : TAdaptivePacketizer :=
  let f := length (fileStats p) in
  let p := set_fileStats (fileStats p ++ [TFileStat.new node eid (fFirst e)]) p in
  set_fFileNodes (alter (TFileNode.Add f) node (fFileNodes p)) p.

(** The element [eid] is filed under the node of its host and counted. *)
Definition FileElement (eid : nat) (e : TDSetElement) (p : TAdaptivePacketizer)
  : TAdaptivePacketizer :=
  let '(node, p) := NodeOfHost (HostOf (fName e)) p in
  let p := set_fTotalEntries (fTotalEntries p + fNum e) p in
  let p := NodeAdd node eid e p in
  set_fFileNodes
    (alter (TFileNode.IncEvents (fNum e)) node (fFileNodes p)) p.

(** The loop over the elements of the dataset. *)
Fixpoint RangeLoop (first num : Z) (dset : list nat) (cur : Z)
  (p : TAdaptivePacketizer) : option TAdaptivePacketizer :=
  match dset with
  | [] => Some p
  | eid :: rest =>
      e ← elements p !! eid;
      let '(cur', filed) := ApplyRange first num cur e in
      match filed with
      | None => RangeLoop first num rest cur' p
      | Some e' =>
          RangeLoop first num rest cur'
            (FileElement eid e' (set_elements (<[eid := e']> (elements p)) p))
      end
  end.

(** Calculating how many files from the dataset are not cached on any
    worker: [(noRemoteFiles, fNEventsOnRemLoc, totalNumberOfFiles)]. *)
Definition CountRemoteFiles (nodes : list TFileNode.t) : Z * Z * Z :=
  foldl (fun '(noRemoteFiles, eventsOnRemLoc, totalNumberOfFiles) fn =>
           let total := totalNumberOfFiles + TFileNode.GetNumberOfFiles fn in
           if TFileNode.GetSlaveCnt fn =? 0
           then (noRemoteFiles + TFileNode.GetNumberOfFiles fn,
                 eventsOnRemLoc
                 + (TFileNode.GetNEvents fn - TFileNode.GetProcessed fn),
                 total)
           else (noRemoteFiles, eventsOnRemLoc, total))
        (0, 0, 0) nodes.

(** [noRemoteFiles / totalNumberOfFiles], between two [Int_t]. *)
Definition RemoteFilesQuotient (noRemoteFiles totalNumberOfFiles : Z) : Z :=
  noRemoteFiles ÷ totalNumberOfFiles.

(** The constructor, from the point where [ValidateFiles] has returned
    with the packetizer still valid.  [dset] holds the elements of the
    dataset as validation left them (an element is its position),
    [dsetEntryList] the size of the entry list of the whole dataset when
    there is one.  The counters of the base class start at 0, and
    validation leaves every worker without a node of its own. *)
Definition TAdaptivePacketizer_ctor (dset : list TDSetElement)
  (dsetEntryList : option Z) (slaves : list TSlave) (first num : Z)
  (maxSlaveCnt networkFasterThanHD : Z) (baseLocalPreference : FP)
  : option TAdaptivePacketizer :=
  let maxPerfIdx :=
    foldl (fun m slave => if sPerfIdx slave >? m then sPerfIdx slave else m)
          1 slaves in
  let p := mkPacketizer _ dset [] [] [] [] (TSlaveStat.new <$> slaves) []
             true false 0 0 0 (fp_of_Z 0) maxPerfIdx
             (fp_store baseLocalPreference) 0 (fp_of_Z 0)
             maxSlaveCnt networkFasterThanHD in
  p ← RangeLoop first num (seq 0 (length dset)) 0 p;
  (* it overwrites previous value!! *)
  let p := match dsetEntryList with
           | Some n => set_fTotalEntries n p
           | None => p
           end in
  let p := Reset p in
  let '(noRemoteFiles, eventsOnRemLoc, totalNumberOfFiles) :=
    CountRemoteFiles (fFileNodes p) in
  let p := set_fNEventsOnRemLoc eventsOnRemLoc p in
  if totalNumberOfFiles =? 0 then
    (* No valid files: set invalid and return *)
    Some (set_fValid false p)
  else
    Some (set_fFractionOfRemoteFiles
            (fp_store
               (fp_of_Z (RemoteFilesQuotient noRemoteFiles totalNumberOfFiles)))
            p).

(** *** [CalculatePacketSize] *)

(** Calculates the packet size based on performance of this worker and
    estimated time left until the end of the query.
    [CalculatePacketSize_num] is the [Long64_t] local [num] at the
    [return]; the function returns it as an [Int_t]. *)
Definition CalculatePacketSize_num (slstat : TSlaveStat.t)
  (p : TAdaptivePacketizer) : Z :=
  let packetSizeAsFraction := 4 in
  let rate := TSlaveStat.GetCurRate slstat in
  let rate := if fp_is_zero rate then TSlaveStat.GetAvgRate slstat else rate in
  let num :=
    if negb (fp_is_zero rate) then
      let avgProcRate :=
        fp_store (fp_div (fp_of_Z (fProcessed p))
                         (fp_div (fCumProcTime p) (fp_of_Z (NSlaves p)))) in
      let packetTime :=
        fp_store (fp_div (fp_div (fp_of_Z (fTotalEntries p - fProcessed p))
                                 avgProcRate)
                         (fp_of_Z packetSizeAsFraction)) in
      let packetTime :=
        if fp_ltb packetTime (fp_of_Z 2) then fp_store (fp_of_Z 2)
        else packetTime in
      fp_to_Long64 (fp_mul rate packetTime)
    else
      (* first packet for this worker in this query *)
      let packetSize :=
        Int_t_of ((fTotalEntries p - fProcessed p)
                  ÷ (8 * packetSizeAsFraction * NSlaves p)) in
      fp_to_Long64
        (fp_mul (fp_of_Z packetSize)
                (fp_div (fp_store (fp_of_Z (sPerfIdx (TSlaveStat.fSlave slstat))))
                        (fp_of_Z (fMaxPerfIdx p)))) in
  if num <? 1 then 1 else num.

Definition CalculatePacketSize (slstat : TSlaveStat.t) (p : TAdaptivePacketizer)
  : Z :=
  Int_t_of (CalculatePacketSize_num slstat p).

(** *** [GetNextPacket] *)

(** [slstat->UpdateRates(nEvents, time)]: it follows [fCurFile] to the
    file and its node. *)
Definition UpdateRates (sl : nat) (nEvents : Z) (time : FP)
  (p : TAdaptivePacketizer) : option TAdaptivePacketizer :=
  slstat ← fSlaveStats p !! sl;
  file ← TSlaveStat.fCurFile slstat;
  fs ← fileStats p !! file;
  nd ← fFileNodes p !! TFileStat.GetNode fs;
  let p := updSlave sl (TSlaveStat.UpdateRates (TFileStat.IsDone fs)
                                               nEvents time slstat) p in
  Some (updNode (TFileStat.GetNode fs) (TFileNode.IncProcessed nEvents nd) p).

(** The number of events recorded for the packet [curElem] a worker has
    finished: the size of the packet, unless the reply carries a positive
    total of events seen ([totev]), in which case it is that total less
    what the worker had processed so far. *)
Definition ReplyEvents (slstat : TSlaveStat.t) (curElem : TDSetElement)
  (r : Reply) : Z :=
  let numev := fNum curElem in
  let totev := default 0 (rMore r !! 2%nat) in
  if 0 <? totev then Long64_t_of (totev - TSlaveStat.fProcessed slstat)
  else numev.

(** Update stats and free the old element: what is done when the worker
    has a packet in flight. *)
Definition RecordReply (sl : nat) (r : Reply) (p : TAdaptivePacketizer)
  : option TAdaptivePacketizer :=
  slstat ← fSlaveStats p !! sl;
  match TSlaveStat.fCurElem slstat with
  | None => Some p
  | Some curElem =>
      let p := set_fPackets (fPackets p ++ [curElem]) p in
      (* only read new info if available *)
      let bytesRead := default (-1) (rMore r !! 0%nat) in
      (* Record *)
      let numev := ReplyEvents slstat curElem r in
      let p := set_fProcessed
                 (Long64_t_of
                    (fProcessed p + (if 0 <? numev then numev else 0))) p in
      let p := set_fBytesRead
                 (Long64_t_of
                    (fBytesRead p
                     + (if 0 <? bytesRead then bytesRead else 0))) p in
      (* update processing rate *)
      p ← UpdateRates sl numev (fp_store (rProcTime r)) p;
      let p := set_fCumProcTime
                 (fp_store (fp_add (fCumProcTime p) (rProcTime r))) p in
      slstat ← fSlaveStats p !! sl;
      Some (updSlave sl (TSlaveStat.SetCurElem None slstat) p)
  end.

(** If the current file of the worker is just finished, its node is
    released; the result is the value of the local variable [file]. *)
Definition ReleaseFinished (sl : nat) (p : TAdaptivePacketizer)
  : option (TAdaptivePacketizer * option nat) :=
  slstat ← fSlaveStats p !! sl;
  match TSlaveStat.fCurFile slstat with
  | None => Some (p, None)
  | Some file =>
      fs ← fileStats p !! file;
      if TFileStat.IsDone fs then
        nd ← fFileNodes p !! TFileStat.GetNode fs;
        nd ← TFileNode.DecExtSlaveCnt (TSlaveStat.GetName slstat) nd;
        nd ← TFileNode.DecRunSlaveCnt nd;
        Some (updNode (TFileStat.GetNode fs) nd p, None)
      else Some (p, Some file)
  end.

(** [slstat->GetLocalEventsLeft()] for a worker whose node is [nd];
    it returns an [Int_t]. *)
Definition GetLocalEventsLeft (nd : TFileNode.t) : Z :=
  Int_t_of (TFileNode.GetEventsLeftPerSlave nd).

(** The choice between the worker's own node ([local]) and the first
    node with unallocated files ([firstNonLocalNode]). *)
Definition OpenLocal (slstat : TSlaveStat.t) (local : TFileNode.t)
  (firstNonLocalNode : option TFileNode.t) (avgEventsLeftPerSlave : Z)
  (localPreference : FP) (p : TAdaptivePacketizer) : bool :=
  match firstNonLocalNode with
  | None => true
  | Some nonLocal =>
      let nonLocalNodePossible :=
        TFileNode.GetExtSlaveCnt nonLocal <? fgMaxSlaveCnt p in
      let slaveRate := TSlaveStat.GetAvgRate slstat in
      if negb nonLocalNodePossible then true
      (* external workers help slstat -> don't open nonlocal files;
         -1 because, at this point slstat is not running *)
      else if TFileNode.GetRunSlaveCnt local >? TFileNode.GetMySlaveCnt local - 1
      then true
      else if fp_is_zero slaveRate then
        (* first file for this worker *)
        if fp_ltb (fp_of_Z avgEventsLeftPerSlave)
                  (fp_mul (fp_of_Z (GetLocalEventsLeft local)) localPreference)
        then true
        else if fp_ltb (fp_of_Z (TFileNode.GetEventsLeftPerSlave nonLocal))
                       (fp_mul (fp_of_Z (GetLocalEventsLeft local))
                               localPreference)
        then true
        else if TFileNode.GetExtSlaveCnt nonLocal >? 1 then true
        else if TFileNode.GetRunSlaveCnt nonLocal =? 0 then true
        else false
      else
        (* at this point slstat has a non zero avg rate > 0 *)
        let slaveTime :=
          fp_store (fp_div (fp_of_Z (GetLocalEventsLeft local)) slaveRate) in
        (* and thus fCumProcTime, fProcessed > 0 *)
        let avgTime :=
          fp_store (fp_div (fp_of_Z avgEventsLeftPerSlave)
                           (fp_div (fp_of_Z (fProcessed p)) (fCumProcTime p))) in
        if fp_ltb avgTime (fp_mul slaveTime localPreference) then true
        else if fp_ltb (fp_of_Z (TFileNode.GetEventsLeftPerSlave nonLocal))
                       (fp_mul (fp_of_Z (GetLocalEventsLeft local))
                               localPreference)
        then true
        else false
  end.

(** The worker's own node is tried when it has one. *)
Definition TryLocal (sl : nat) (avgEventsLeftPerSlave : Z)
  (p : TAdaptivePacketizer) : option (TAdaptivePacketizer * option nat) :=
  slstat ← fSlaveStats p !! sl;
  (* aiming for localPreference == 1 when #local == #remote events left *)
  let localPreference :=
    fp_store
      (fp_sub (fBaseLocalPreference p)
              (fp_div (fp_of_Z (fNEventsOnRemLoc p))
                      (fp_mul (fp_of_decimal 4 1)
                              (fp_of_Z (fTotalEntries p - fProcessed p))))) in
  match TSlaveStat.GetFileNode slstat with
  | None => Some (p, None)
  | Some ln =>
      (* local file node exists and has more events to process *)
      let p := set_fUnAllocated
                 (TList_Sort (NodeCompare p) (fUnAllocated p)) p in
      firstNonLocalNode ←
        match TList.First (fUnAllocated p) with
        | None => Some None
        | Some q => nd ← fFileNodes p !! q; Some (Some nd)
        end;
      local ← fFileNodes p !! ln;
      if OpenLocal slstat local firstNonLocalNode avgEventsLeftPerSlave
                   localPreference p
      then
        (* Try its own node *)
        let '(local, file) := TFileNode.GetNextUnAlloc local in
        let '(local, file) :=
          match file with
          | Some f => (local, Some f)
          | None => TFileNode.GetNextActive local
          end in
        let p := updNode ln local p in
        match file with
        | Some f => Some (p, Some f)
        | None =>
            (* no more files on this worker *)
            Some (updSlave sl (TSlaveStat.SetFileNode None slstat) p, None)
        end
      else Some (p, None)
  end.

(** Get a file for a worker that needs one. *)
Definition ChooseFile (sl : nat) (avgEventsLeftPerSlave : Z)
  (p : TAdaptivePacketizer) : option (TAdaptivePacketizer * option nat) :=
  '(p, file) ← TryLocal sl avgEventsLeftPerSlave p;
  (* try to find an unused filenode first *)
  '(p, file) ← match file with
               | Some f => Some (p, Some f)
               | None => GetNextUnAlloc None p
               end;
  (* then look at the active filenodes *)
  match file with
  | Some f => Some (p, Some f)
  | None => GetNextActive p
  end.

(** The chosen file becomes the current file of the worker. *)
Definition AssignFile (sl : nat) (file : nat) (p : TAdaptivePacketizer)
  : option TAdaptivePacketizer :=
  slstat ← fSlaveStats p !! sl;
  let p := updSlave sl (TSlaveStat.SetCurFile (Some file) slstat) p in
  fs ← fileStats p !! file;
  nd ← fFileNodes p !! TFileStat.GetNode fs;
  e ← elements p !! TFileStat.GetElement fs;
  (* if remote and unallocated file *)
  p ← (if (TFileNode.GetMySlaveCnt nd =? 0)
          && (fFirst e =? TFileStat.GetNextEntry fs)
       then
         let p := set_fNEventsOnRemLoc (fNEventsOnRemLoc p - fNum e) p in
         if 0 <=? fNEventsOnRemLoc p then Some p else None
       else Some p);
  let nd := TFileNode.IncExtSlaveCnt (TSlaveStat.GetName slstat) nd in
  let nd := TFileNode.IncRunSlaveCnt nd in
  Some (updNode (TFileStat.GetNode fs) nd p).

(** Modelled from the spec: [CreateNewPacket] belongs to the base class
    [TVirtualPacketizer], which is not among the sources; the outgoing
    element describes the sub-range [first, first + num) of the file of
    [base]. *)
Definition CreateNewPacket (base : TDSetElement) (first num : Z)
  : TDSetElement :=
  mkElement (fName base) (fTitle base) (fDirectory base) first num 0 None
            false.

(** Get a packet: the range [num] entries long that starts at the
    cursor of [file], or what is left of the file when that is less. *)
Definition CarvePacket (sl : nat) (file : nat) (p : TAdaptivePacketizer)
  : option (TAdaptivePacketizer * TDSetElement) :=
  slstat ← fSlaveStats p !! sl;
  let num := CalculatePacketSize slstat p in
  fs ← fileStats p !! file;
  base ← elements p !! TFileStat.GetElement fs;
  let first := TFileStat.GetNextEntry fs in
  let last := fFirst base + fNum base in
  (* if the remaining part is smaller than the packetsize,
     increase the packetsize *)
  '(p, num) ← (if last <=? first + num then
                 let p := updFile file (TFileStat.SetDone fs) p in
                 (* delete file from active list *)
                 p ← RemoveActive file p;
                 Some (p, last - first)
               else
                 Some (updFile file (TFileStat.MoveNextEntry num fs) p, num));
  let packet := CreateNewPacket base first num in
  let packet :=
    match fEntryList base with
    | Some n => SetEntryList (Some n) packet
    | None => packet
    end in
  slstat ← fSlaveStats p !! sl;
  Some (updSlave sl (TSlaveStat.SetCurElem (Some packet) slstat) p, packet).

(** Everything [GetNextPacket] does before it cuts a packet: the file
    the packet is to be taken from, or [None] where it returns 0. *)
Definition FileForPacket (sl : nat) (r : Reply) (p : TAdaptivePacketizer)
  : option (TAdaptivePacketizer * option nat) :=
  if negb (fValid p) then Some (p, None)
  else
    (* find the worker: R__ASSERT( slstat != 0 ) *)
    _ ← fSlaveStats p !! sl;
    (* update stats & free old element *)
    p ← RecordReply sl r p;
    if fStop p then Some (p, None)
    else
      (* if current file is just finished *)
      '(p, file) ← ReleaseFinished sl p;
      let avgEventsLeftPerSlave :=
        (fTotalEntries p - fProcessed p) ÷ NSlaves p in
      if fTotalEntries p =? fProcessed p then Some (p, None)
      else
        match file with
        | Some f => Some (p, Some f)
        | None =>
            (* needs a new file *)
            '(p, file) ← ChooseFile sl avgEventsLeftPerSlave p;
            match file with
            | None => Some (p, None)
            | Some f => p ← AssignFile sl f p; Some (p, Some f)
            end
        end.

Definition GetNextPacket (sl : nat) (r : Reply) (p : TAdaptivePacketizer)
  : option (TAdaptivePacketizer * option TDSetElement) :=
  '(p, file) ← FileForPacket sl r p;
  match file with
  | None => Some (p, None)
  | Some f => '(p, packet) ← CarvePacket sl f p; Some (p, Some packet)
  end.

(** *** [ValidateFiles]

    Check existence of file/dir/tree and get number of entries.  The
    master sends each ready worker a [kPROOF_GETENTRIES] request for the
    next unallocated file, waits for a message from any of the workers it
    is waiting for and handles it, until no request is outstanding. *)

(** The constructor up to the call of [ValidateFiles]: the dataset is
    split into per-host entries (elements already valid are passed over),
    one [TSlaveStat] is made per worker and the structure is reset. *)
Fixpoint SplitPerHost (dset : list nat) (p : TAdaptivePacketizer)
  : option TAdaptivePacketizer :=
  match dset with
  | [] => Some p
  | eid :: rest =>
      e ← elements p !! eid;
      if fValidElement e then SplitPerHost rest p
      else
        let '(node, p) := NodeOfHost (HostOf (fName e)) p in
        SplitPerHost rest (NodeAdd node eid e p)
  end.

Definition SetupForValidation (dset : list TDSetElement) (slaves : list TSlave)
  (maxSlaveCnt networkFasterThanHD : Z) (baseLocalPreference : FP)
  : option TAdaptivePacketizer :=
  let maxPerfIdx :=
    foldl (fun m slave => if sPerfIdx slave >? m then sPerfIdx slave else m)
          1 slaves in
  let p := mkPacketizer _ dset [] [] [] [] [] []
             true false 0 0 0 (fp_of_Z 0) maxPerfIdx
             (fp_store baseLocalPreference) 0 (fp_of_Z 0)
             maxSlaveCnt networkFasterThanHD in
  p ← SplitPerHost (seq 0 (length dset)) p;
  Some (Reset (set_fSlaveStats (TSlaveStat.new <$> slaves) p)).

(** A message from a worker, as [ValidateFiles] tells them apart. *)
Inductive ValidationReply :=
| RecvFailed                      (* [sock->Recv(reply) <= 0] *)
| kPROOF_FATAL
| kPROOF_LOGFILE (size : Z)
| kPROOF_LOGDONE
| kPROOF_GETENTRIES (entries : Z) (objname : option string)
| OtherMessage (what : Z).

(** The packetizer together with the locals of [ValidateFiles] and what
    it does to the session. *)
Record Validation := mkValidation {
  vPacketizer : TAdaptivePacketizer;
  vDSet     : list nat;       (* [dset->GetListOfElements()] *)
  vWorkers  : list nat;       (* [workers]: ready for the next job *)
  vMonitor  : list nat;       (* workers whose socket is active in [mon] *)
  vBad      : list nat;       (* workers passed to [MarkBad] *)
  vRequests : list (nat * TDSetElement); (* [kPROOF_GETENTRIES] sent *)
  vProofServ : bool;          (* [gProofServ != 0] *)
  vClient   : list string;    (* [kPROOF_MESSAGE] sent to the client *)
  vStatus   : Z               (* [n], as reported by [SendDataSetStatus] *)
}.

Definition set_vPacketizer (p : TAdaptivePacketizer) (v : Validation)
  : Validation :=
  mkValidation p (vDSet v) (vWorkers v) (vMonitor v) (vBad v) (vRequests v)
               (vProofServ v) (vClient v) (vStatus v).
Definition set_vWorkers (w : list nat) (v : Validation) : Validation :=
  mkValidation (vPacketizer v) (vDSet v) w (vMonitor v) (vBad v) (vRequests v)
               (vProofServ v) (vClient v) (vStatus v).
Definition set_vMonitor (m : list nat) (v : Validation) : Validation :=
  mkValidation (vPacketizer v) (vDSet v) (vWorkers v) m (vBad v) (vRequests v)
               (vProofServ v) (vClient v) (vStatus v).

(** [mon.Activate(sock)] and [mon.DeActivate(sock)] *)
Definition Activate (s : nat) (v : Validation) : Validation :=
  if TList.Contains (vMonitor v) s then v
  else set_vMonitor (TList.Add (vMonitor v) s) v.
Definition DeActivate (s : nat) (v : Validation) : Validation :=
  set_vMonitor (TList.Remove (vMonitor v) s) v.

(** [MarkBad(slave); fValid = kFALSE;] *)
Definition LoseWorker (s : nat) (v : Validation) : Validation :=
  mkValidation (set_fValid false (vPacketizer v)) (vDSet v) (vWorkers v)
               (vMonitor v) (vBad v ++ [s]) (vRequests v) (vProofServ v)
               (vClient v) (vStatus v).

(** Send work to the worker [s], which has just been taken off
    [workers]. *)
Definition SendWorkTo (s : nat) (v : Validation) : option Validation :=
  let p := vPacketizer v in
  slstat ← fSlaveStats p !! s;
  (* try its own node first *)
  '(p, file) ← match TSlaveStat.GetFileNode slstat with
               | Some node =>
                   '(p, file) ← GetNextUnAlloc (Some node) p;
                   match file with
                   | Some f => Some (p, Some f)
                   | None =>
                       slstat ← fSlaveStats p !! s;
                       Some (updSlave s (TSlaveStat.SetFileNode None slstat) p,
                             None)
                   end
               | None => Some (p, None)
               end;
  (* look for a file on any other node if necessary *)
  '(p, file) ← match file with
               | Some f => Some (p, Some f)
               | None => GetNextUnAlloc None p
               end;
  match file with
  | None => Some (set_vPacketizer p v)
  | Some f =>
      (* files are done right away *)
      p ← RemoveActive f p;
      slstat ← fSlaveStats p !! s;
      let p := updSlave s (TSlaveStat.SetCurFile (Some f) slstat) p in
      fs ← fileStats p !! f;
      nd ← fFileNodes p !! TFileStat.GetNode fs;
      let p := updNode (TFileStat.GetNode fs)
                 (TFileNode.IncExtSlaveCnt (TSlaveStat.GetName slstat) nd) p in
      elem ← elements p !! TFileStat.GetElement fs;
      let v := mkValidation p (vDSet v) (vWorkers v) (vMonitor v) (vBad v)
                 (vRequests v ++ [(s, elem)]) (vProofServ v) (vClient v)
                 (vStatus v) in
      Some (Activate s v)
  end.

(** The loop that sends work: one turn per ready worker. *)
Fixpoint SendWork (turns : nat) (v : Validation) : option Validation :=
  match turns with
  | O => Some v
  | S k =>
      match TList.First (vWorkers v) with
      | None => Some v
      | Some s =>
          v ← SendWorkTo s (set_vWorkers (TList.Remove (vWorkers v) s) v);
          SendWork k v
      end
  end.

(** What is done with the message [reply] of the worker [slave] that
    [mon.Select()] has returned. *)
Definition HandleReply (slave : nat) (reply : ValidationReply) (v : Validation)
  : option Validation :=
  let v := DeActivate slave v in
  match reply with
  | RecvFailed => Some (LoseWorker slave v)   (* Help! lost a slave? *)
  | kPROOF_FATAL => Some (LoseWorker slave v)
  | kPROOF_LOGFILE _ => Some (Activate slave v)
  | kPROOF_LOGDONE => Some (Activate slave v)
  | OtherMessage _ => Some (LoseWorker slave v) (* unexpected message type *)
  | kPROOF_GETENTRIES entries objname =>
      let p := vPacketizer v in
      slavestat ← fSlaveStats p !! slave;
      f ← TSlaveStat.fCurFile slavestat;
      fs ← fileStats p !! f;
      let eid := TFileStat.GetElement fs in
      e ← elements p !! eid;
      nd ← fFileNodes p !! TFileStat.GetNode fs;
      nd ← TFileNode.DecExtSlaveCnt (TSlaveStat.GetName slavestat) nd;
      let p := updNode (TFileStat.GetNode fs) nd p in
      (* Extract object name, if there *)
      let e := match objname with
               | Some name => SetTitle name e
               | None => e
               end in
      let e := SetTDSetOffset entries e in
      if 0 <? entries then
        let '(p, e) :=
          match fEntryList e with
          | None =>
              let p := if entries <? fFirst e
                       (* disable element *)
                       then set_fValid false (updFile f (TFileStat.SetDone fs) p)
                       else p in
              let e := if fNum e =? -1 then SetNum (entries - fFirst e) e
                       else if entries <? fFirst e + fNum e
                            then SetNum (entries - fFirst e) e
                            else e in
              (p, e)
          | Some _ => (p, e)
          end in
        let p := set_elements (<[eid := e]> (elements p)) p in
        (* Notify the client; ready for the next job *)
        Some (mkValidation p (vDSet v) (TList.Add (vWorkers v) slave)
                (vMonitor v) (vBad v) (vRequests v) (vProofServ v) (vClient v)
                (vStatus v + 1))
      else
        let p := set_elements (<[eid := e]> (elements p)) p in
        let client :=
          if vProofServ v
          then vClient v
               ++ [("Cannot get entries for file: " ++ fName e ++ " - skipping")%string]
          else vClient v in
        (* disable element *)
        Some (mkValidation p (TList.Remove (vDSet v) eid)
                (TList.Add (vWorkers v) slave) (vMonitor v) (vBad v)
                (vRequests v) (vProofServ v) client (vStatus v))
  end.

(** The loop of [ValidateFiles] on a given conversation: the workers
    that [mon.Select()] returns, each with its message.  The loop is
    left once work has been sent and no request is outstanding; [None]
    also stands for a conversation that does not get that far. *)
Fixpoint ValidateLoop (conversation : list (nat * ValidationReply))
  (v : Validation) : option Validation :=
  v ← SendWork (length (vWorkers v)) v;
  match vMonitor v with
  | [] => Some v      (* nothing to wait for anymore *)
  | _ :: _ =>
      match conversation with
      | [] => None
      | (slave, reply) :: rest =>
          if TList.Contains (vMonitor v) slave
          then v ← HandleReply slave reply v; ValidateLoop rest v
          else None
      end
  end.

(** Compute the offset for each file element. *)
Fixpoint ComputeOffsets (dset : list nat) (offset : Z)
  (elems : list TDSetElement) : list TDSetElement :=
  match dset with
  | [] => elems
  | eid :: rest =>
      match elems !! eid with
      | Some el =>
          ComputeOffsets rest (offset + fTDSetOffset el)
                         (<[eid := SetTDSetOffset offset el]> elems)
      | None => ComputeOffsets rest offset elems
      end
  end.

Definition ValidateFiles (conversation : list (nat * ValidationReply))
  (proofServ : bool) (p : TAdaptivePacketizer) : option Validation :=
  let v := mkValidation p (seq 0 (length (elements p)))
             (seq 0 (length (fSlaveStats p))) [] [] [] proofServ [] 0 in
  v ← ValidateLoop conversation v;
  let p := vPacketizer v in
  (* No reason to continue if invalid *)
  if negb (fValid p) then Some v
  else Some (set_vPacketizer
               (set_elements (ComputeOffsets (vDSet v) 0 (elements p)) p) v).

End Packetizer.

(** * The vocabulary of the properties

    What the theorems below are stated with: the part of a list a cursor
    has still to visit, the soundness of the cursors of a node and of the
    whole structure, the record of the packets handed out, and the states
    a sequence of calls reaches. *)

(** ** Lists and nodes *)

(** [FromCursor l c]: the part of [l] a cursor that points at [c] has still
    to visit, [c] included. *)
Fixpoint FromCursor (l : list nat) (c : nat) : list nat :=
  match l with
  | [] => []
  | x :: t => if bool_decide (x = c) then x :: t else FromCursor t c
  end.

Section NodeVocabulary.

Import TFileNode.

(** The events of a node that are left to process. *)
Definition remaining (n : TFileNode.t) : Z := fEvents n - fProcessed n.

(** The counters of a node, which its cursors do not touch. *)
Definition counters (n : TFileNode.t) : string * Z * Z * Z * Z * Z :=
  (fNodeName n, fMySlaveCnt n, fExtSlaveCnt n, fRunSlaveCnt n, fProcessed n,
   fEvents n).

(** The cursors of a node, which its counters do not touch. *)
Definition cursors (n : TFileNode.t)
  : list nat * option nat * list nat * option nat :=
  (fFiles n, fUnAllocFileNext n, fActFiles n, fActFileNext n).

(** What the cursor of a node into [fFiles] has still to visit. *)
Definition region (nd : TFileNode.t) : list nat :=
  match fUnAllocFileNext nd with
  | None => []
  | Some c => FromCursor (fFiles nd) c
  end.

(** The cursors of the node [n] are sound with respect to the files:
    the files of the node are distinct and know their node, the active
    files are distinct files of the node that the cursor has passed and
    that are not done, and the files the cursor has not reached are not
    done either. *)
Definition NodeOK (files : list TFileStat.t) (n : nat) (nd : TFileNode.t)
  : Prop :=
  NoDup (fFiles nd)
  /\ (forall f, f ∈ fFiles nd ->
        exists fs, files !! f = Some fs /\ TFileStat.fNode fs = n)
  /\ (forall c, fUnAllocFileNext nd = Some c -> c ∈ fFiles nd)
  /\ NoDup (fActFiles nd)
  /\ (forall f, f ∈ fActFiles nd -> f ∈ fFiles nd /\ f ∉ region nd)
  /\ (forall c, fActFileNext nd = Some c -> c ∈ fActFiles nd)
  /\ (forall f, f ∈ fActFiles nd \/ f ∈ region nd ->
        exists fs, files !! f = Some fs /\ TFileStat.fIsDone fs = false).

End NodeVocabulary.

(** ** Packets and their ranges *)

(** A packet that has been handed out: the file it was cut from and its
    range. *)
Record Carved := mkCarved { cFile : nat; cFirst : Z; cNum : Z }.

(** The ranges cut from the file [f], oldest first. *)
Definition PacketsOf (f : nat) (log : list Carved) : list (Z * Z) :=
  (fun c => (cFirst c, cNum c)) <$> filter (fun c => cFile c = f) log.

(** [Consecutive a ps b]: the ranges [ps] follow one another from [a] to
    [b], each at least one entry long. *)
Inductive Consecutive : Z -> list (Z * Z) -> Z -> Prop :=
| consecutive_nil a : Consecutive a [] a
| consecutive_cons a n ps b :
    1 <= n -> Consecutive (a + n) ps b -> Consecutive a ((a, n) :: ps) b.

(** ** States of the packetizer *)

Section Vocabulary.

Context `{FA : FloatArith} `{RT : Runtime}.

(** [Frame p p']: from [p] to [p'] only the scheduling structure has
    changed; the elements, the flags and the counters of processed
    entries (of the packetizer, of each worker and of each node) are the
    same. *)
Definition Frame (p p' : TAdaptivePacketizer) : Prop :=
  fProcessed p' = fProcessed p /\ fTotalEntries p' = fTotalEntries p
  /\ fValid p' = fValid p /\ fStop p' = fStop p
  /\ elements p' = elements p /\ fileStats p' = fileStats p
  /\ TSlaveStat.fProcessed <$> fSlaveStats p'
     = TSlaveStat.fProcessed <$> fSlaveStats p
  /\ TFileNode.fProcessed <$> fFileNodes p'
     = TFileNode.fProcessed <$> fFileNodes p.

(** The node of the file a worker is on. *)
Definition CurNode (p : TAdaptivePacketizer) (slstat : TSlaveStat.t)
  : option nat :=
  f ← TSlaveStat.fCurFile slstat;
  fs ← fileStats p !! f;
  Some (TFileStat.GetNode fs).

(** What [RecordReply] does to the counters. *)
Definition Recorded (sl : nat) (r : Reply) (p p' : TAdaptivePacketizer) : Prop :=
  exists slstat,
    fSlaveStats p !! sl = Some slstat
    /\ fTotalEntries p' = fTotalEntries p /\ fValid p' = fValid p
    /\ fStop p' = fStop p /\ elements p' = elements p
    /\ fileStats p' = fileStats p
    /\ match TSlaveStat.fCurElem slstat with
       | None => p' = p
       | Some curElem =>
           let numev := ReplyEvents slstat curElem r in
           fProcessed p'
           = Long64_t_of (fProcessed p + (if 0 <? numev then numev else 0))
           /\ TSlaveStat.fProcessed <$> fSlaveStats p'
              = <[sl := Long64_t_of (TSlaveStat.fProcessed slstat + numev)]>
                  (TSlaveStat.fProcessed <$> fSlaveStats p)
           /\ exists n nd,
                CurNode p slstat = Some n /\ fFileNodes p !! n = Some nd
                /\ TFileNode.fProcessed <$> fFileNodes p'
                   = <[n := Long64_t_of (TFileNode.fProcessed nd + numev)]>
                       (TFileNode.fProcessed <$> fFileNodes p)
       end.

(** [avgEventsLeftPerSlave] *)
Definition AvgEventsLeft (p : TAdaptivePacketizer) : Z :=
  (fTotalEntries p - fProcessed p) ÷ NSlaves p.

(** [FilePath sl r p q file]: in the state [p], the part of
    [GetNextPacket(sl, r)] that comes before a packet is cut ends in the
    state [q] with the file [file], or with [None] where the function
    returns 0; one constructor for each way through it. *)
Inductive FilePath (sl : nat) (r : Reply) (p : TAdaptivePacketizer)
  : TAdaptivePacketizer -> option nat -> Prop :=
| path_invalid :
    fValid p = false ->
    FilePath sl r p p None
| path_stop p1 :
    fValid p = true ->
    RecordReply sl r p = Some p1 ->
    fStop p1 = true ->
    FilePath sl r p p1 None
| path_all_processed p1 p2 file :
    fValid p = true ->
    RecordReply sl r p = Some p1 ->
    fStop p1 = false ->
    ReleaseFinished sl p1 = Some (p2, file) ->
    fTotalEntries p2 = fProcessed p2 ->
    FilePath sl r p p2 None
| path_no_file p1 p2 p3 :
    fValid p = true ->
    RecordReply sl r p = Some p1 ->
    fStop p1 = false ->
    ReleaseFinished sl p1 = Some (p2, None) ->
    fTotalEntries p2 <> fProcessed p2 ->
    ChooseFile sl (AvgEventsLeft p2) p2 = Some (p3, None) ->
    FilePath sl r p p3 None
| path_same_file p1 p2 f :
    fValid p = true ->
    RecordReply sl r p = Some p1 ->
    fStop p1 = false ->
    ReleaseFinished sl p1 = Some (p2, Some f) ->
    fTotalEntries p2 <> fProcessed p2 ->
    FilePath sl r p p2 (Some f)
| path_new_file p1 p2 p3 f p4 :
    fValid p = true ->
    RecordReply sl r p = Some p1 ->
    fStop p1 = false ->
    ReleaseFinished sl p1 = Some (p2, None) ->
    fTotalEntries p2 <> fProcessed p2 ->
    ChooseFile sl (AvgEventsLeft p2) p2 = Some (p3, Some f) ->
    AssignFile sl f p3 = Some p4 ->
    FilePath sl r p p4 (Some f).

(** [Struct p]: every node of [p] is sound, and no worker is on a file
    that the cursor of a node has still to reach. *)
Definition Struct (p : TAdaptivePacketizer) : Prop :=
  (forall n nd, fFileNodes p !! n = Some nd -> NodeOK (fileStats p) n nd)
  /\ (forall sl s f n nd,
        fSlaveStats p !! sl = Some s -> TSlaveStat.fCurFile s = Some f ->
        fFileNodes p !! n = Some nd -> f ∉ region nd).

(** [Avail p f]: a packet may be cut from the file [f]: it is not done,
    and the cursors of the nodes have passed it. *)
Definition Avail (p : TAdaptivePacketizer) (f : nat) : Prop :=
  (exists fs, fileStats p !! f = Some fs /\ TFileStat.fIsDone fs = false)
  /\ (forall n nd, fFileNodes p !! n = Some nd -> f ∉ region nd).

(** [SameView p q]: [q] has the files, the cursors and the current
    files of [p]. *)
Definition SameView (p q : TAdaptivePacketizer) : Prop :=
  fileStats q = fileStats p
  /\ cursors <$> fFileNodes q = cursors <$> fFileNodes p
  /\ TSlaveStat.fCurFile <$> fSlaveStats q
     = TSlaveStat.fCurFile <$> fSlaveStats p.

(** The file a worker is on. *)
Definition FileOfWorker (sl : nat) (p : TAdaptivePacketizer) : option nat :=
  s ← fSlaveStats p !! sl; TSlaveStat.fCurFile s.

(** [NothingToAsk p l]: the search through the list of nodes [l] stops
    at once: the list is empty, or its first node has as many workers from
    other hosts as a node may have. *)
Definition NothingToAsk (p : TAdaptivePacketizer) (l : list nat) : Prop :=
  match l with
  | [] => True
  | n :: _ =>
      exists nd, fFileNodes p !! n = Some nd
                 /\ fgMaxSlaveCnt p <= TFileNode.fExtSlaveCnt nd
  end.

(** The worker [sl] has no file with entries left to hand out. *)
Definition NoFileInHand (sl : nat) (p : TAdaptivePacketizer) : Prop :=
  forall f fs,
    FileOfWorker sl p = Some f -> fileStats p !! f = Some fs ->
    TFileStat.fIsDone fs = true.

(** [Starved sl p]: the state a search that found no file for the worker
    [sl] ends in: the worker has no file with entries left, and neither
    the list of the nodes with unallocated files nor the list of the
    active nodes has a node to ask. *)
Definition Starved (sl : nat) (p : TAdaptivePacketizer) : Prop :=
  NoFileInHand sl p
  /\ NothingToAsk p (fUnAllocated p)
  /\ NothingToAsk p (fActive p).

(** [Exhausted sl p]: every file has been handed out entirely, as far as
    the worker [sl] can see: it has no file with entries left and no node
    of its own, no node on the list of the nodes with unallocated files
    has such a file left, and no node is active. *)
Definition Exhausted (sl : nat) (p : TAdaptivePacketizer) : Prop :=
  NoFileInHand sl p
  /\ (forall s, fSlaveStats p !! sl = Some s -> TSlaveStat.fFileNode s = None)
  /\ (forall n, n ∈ fUnAllocated p ->
        exists nd, fFileNodes p !! n = Some nd
                   /\ TFileNode.fUnAllocFileNext nd = None)
  /\ fActive p = [].

(** The state of the file [f] agrees with the packets cut from it so
    far.  While the file is not done the packets follow one another from
    the start of the range to the cursor, which is short of the end of
    the range once a packet has been cut.  When the file is done the
    cursor is where the last packet starts, and that packet ends where the
    range ends. *)
Definition FileOK (elems : list TDSetElement) (log : list Carved) (f : nat)
  (fs : TFileStat.t) : Prop :=
  exists e,
    elems !! TFileStat.fElement fs = Some e
    /\ let ps := PacketsOf f log in
       let next := TFileStat.fNextEntry fs in
       let last := fFirst e + fNum e in
       if TFileStat.fIsDone fs then
         exists ps' n,
           ps = ps' ++ [(next, n)] /\ Consecutive (fFirst e) ps' next
           /\ next + n = last /\ (ps' <> [] -> next < last)
       else Consecutive (fFirst e) ps next /\ (ps <> [] -> next < last).

Definition FilesOK (p : TAdaptivePacketizer) (log : list Carved) : Prop :=
  forall f fs, fileStats p !! f = Some fs -> FileOK (elements p) log f fs.

(** The entry a call of [GetNextPacket] adds to the record of the
    packets handed out: the packet with the file it is cut from, which is
    the current file of the worker when the call returns. *)
Definition LogOf (sl : nat) (p' : TAdaptivePacketizer)
  (res : option TDSetElement) : list Carved :=
  match res, FileOfWorker sl p' with
  | Some pkt, Some f => [mkCarved f (fFirst pkt) (fNum pkt)]
  | _, _ => []
  end.

(** The packet size computed in the call, if one is, is at least one;
    it fails to be only when the size does not fit an [Int_t]. *)
Definition PositiveSize (sl : nat) (r : Reply) (p : TAdaptivePacketizer)
  : Prop :=
  forall q f s,
    FileForPacket sl r p = Some (q, Some f) -> fSlaveStats q !! sl = Some s ->
    1 <= CalculatePacketSize s q.

Definition Inv (p : TAdaptivePacketizer) (log : list Carved) : Prop :=
  Struct p /\ FilesOK p log.

(** [Run Ok p0 p log]: the state [p] is reached from [p0] by calls of
    [GetNextPacket] that return, each made in a state where [Ok] holds
    of the call; [log] records the packets handed out, in order. *)
Inductive Run (Ok : nat -> Reply -> TAdaptivePacketizer -> Prop)
  (p0 : TAdaptivePacketizer) : TAdaptivePacketizer -> list Carved -> Prop :=
| run_start : Run Ok p0 p0 []
| run_call p log sl r p' res :
    Run Ok p0 p log -> Ok sl r p ->
    GetNextPacket sl r p = Some (p', res) ->
    Run Ok p0 p' (log ++ LogOf sl p' res).

(** The structure while the loop over the dataset runs, [rest] being the
    elements still to come: the files of a node are distinct and know
    their node, and a file is not done, belongs to an element the loop has
    passed, and has its cursor at the first entry of that element. *)
Definition Built (rest : list nat) (p : TAdaptivePacketizer) : Prop :=
  (forall n nd, fFileNodes p !! n = Some nd ->
     NoDup (TFileNode.fFiles nd)
     /\ forall f, f ∈ TFileNode.fFiles nd ->
          exists fs, fileStats p !! f = Some fs /\ TFileStat.fNode fs = n)
  /\ (forall f fs, fileStats p !! f = Some fs ->
        TFileStat.fIsDone fs = false /\ (TFileStat.fElement fs ∉ rest)
        /\ exists e, elements p !! TFileStat.fElement fs = Some e
                     /\ TFileStat.fNextEntry fs = fFirst e).

(** The sum over the workers of the entries each has reported
    processed. *)
Definition SumWorkers (p : TAdaptivePacketizer) : Z :=
  foldr Z.add 0 (TSlaveStat.fProcessed <$> fSlaveStats p).

(** The entries of the packets the workers are processing. *)
Definition InFlight (p : TAdaptivePacketizer) : Z :=
  foldr Z.add 0
    (from_option fNum 0 <$> (TSlaveStat.fCurElem <$> fSlaveStats p)).

(** The entries of a file no packet has been cut for yet. *)
Definition EntriesLeft (elems : list TDSetElement) (fs : TFileStat.t) : Z :=
  if TFileStat.fIsDone fs then 0
  else match elems !! TFileStat.fElement fs with
       | Some e => fFirst e + fNum e - TFileStat.fNextEntry fs
       | None => 0
       end.

Definition Remaining (p : TAdaptivePacketizer) : Z :=
  foldr Z.add 0 (EntriesLeft (elements p) <$> fileStats p).

(** The events recorded for the reply [r] of the worker [sl] are entries
    of the packet the worker was given: not negative, and no more than the
    packet has. *)
Definition HonestReply (sl : nat) (r : Reply) (p : TAdaptivePacketizer)
  : Prop :=
  forall s ce,
    fSlaveStats p !! sl = Some s -> TSlaveStat.fCurElem s = Some ce ->
    0 <= ReplyEvents s ce r <= fNum ce.

(** [SameFlights p p']: the workers have in [p'] the packets they have
    in [p]. *)
Definition SameFlights (p p' : TAdaptivePacketizer) : Prop :=
  TSlaveStat.fCurElem <$> fSlaveStats p'
  = TSlaveStat.fCurElem <$> fSlaveStats p.

(** Every entry of the files is accounted for at most once: the workers
    have processed, between them, what the packetizer has counted; what
    they have processed, what they are processing and what is left in the
    files is no more than the total. *)
Definition Accounted (p : TAdaptivePacketizer) : Prop :=
  SumWorkers p = fProcessed p
  /\ Forall (Z.le 0) (TSlaveStat.fProcessed <$> fSlaveStats p)
  /\ Forall (fun o => 0 <= from_option fNum 0 o)
            (TSlaveStat.fCurElem <$> fSlaveStats p)
  /\ Forall (fun fs => 0 <= EntriesLeft (elements p) fs) (fileStats p)
  /\ fProcessed p + InFlight p + Remaining p <= fTotalEntries p.

End Vocabulary.

(** ** The vocabulary of the further properties *)

Section NodeWalkDefs.
Import TFileNode.

(** [k] calls of [GetNextUnAlloc] on a node, one after the other: the
    node they leave and the files they return, up to the first call that
    returns 0. *)
Fixpoint GetNextUnAlloc_times (k : nat) (nd : TFileNode.t)
  : TFileNode.t * list nat :=
  match k with
  | O => (nd, [])
  | S k =>
      match GetNextUnAlloc nd with
      | (nd', Some f) =>
          let '(nd'', fs) := GetNextUnAlloc_times k nd' in (nd'', f :: fs)
      | (nd', None) => (nd', [])
      end
  end.

(** [k] calls of [GetNextActive] on a node, one after the other. *)
Fixpoint GetNextActive_times (k : nat) (nd : TFileNode.t)
  : TFileNode.t * list nat :=
  match k with
  | O => (nd, [])
  | S k =>
      match GetNextActive nd with
      | (nd', Some f) =>
          let '(nd'', fs) := GetNextActive_times k nd' in (nd'', f :: fs)
      | (nd', None) => (nd', [])
      end
  end.

End NodeWalkDefs.

(** The number of the entries [a], ..., [b - 1] of the dataset that are
    in the global range [(first, num)], [num = -1] standing for a range
    without an end. *)
Definition InRange (first num a b : Z) : Z :=
  if num =? -1 then Z.max 0 (b - Z.max a first)
  else Z.max 0 (Z.min b (first + num) - Z.max a first).

(** The entries of the elements [dset] of [elems], summed. *)
Definition EntriesOf (elems : list TDSetElement) (dset : list nat) : Z :=
  foldr Z.add 0 ((fun eid => default 0 (fNum <$> elems !! eid)) <$> dset).

Section GroupingDefs.
Context `{FA : FloatArith} `{RT : Runtime}.

(** The number of entries of the element of a file. *)
Definition NumOf (elems : list TDSetElement) (fs : TFileStat.t) : Z :=
  default 0 (fNum <$> elems !! TFileStat.fElement fs).

(** The entries of the elements of the files [files], summed. *)
Definition EventsOfFiles (p : TAdaptivePacketizer) (files : list nat) : Z :=
  foldr Z.add 0
    ((fun f => default 0 (NumOf (elements p) <$> fileStats p !! f)) <$> files).

(** The structure as the loop over the dataset builds it: one node for
    a host; a file is on the node of the host of its element; the total
    is the sum over the files, and the events of a node the sum over its
    files; the files of the nodes are as many as there are files. *)
Definition Grouped (p : TAdaptivePacketizer) : Prop :=
  NoDup (TFileNode.fNodeName <$> fFileNodes p)
  /\ (forall f fs, fileStats p !! f = Some fs ->
        exists nd e,
          fFileNodes p !! TFileStat.fNode fs = Some nd
          /\ elements p !! TFileStat.fElement fs = Some e
          /\ TFileNode.fNodeName nd = HostOf (fName e)
          /\ f ∈ TFileNode.fFiles nd)
  /\ fTotalEntries p = foldr Z.add 0 (NumOf (elements p) <$> fileStats p)
  /\ (forall n nd, fFileNodes p !! n = Some nd ->
        TFileNode.fEvents nd = EventsOfFiles p (TFileNode.fFiles nd)
        /\ TFileNode.fProcessed nd = 0)
  /\ foldr Z.add 0 (TFileNode.GetNumberOfFiles <$> fFileNodes p)
     = Z.of_nat (length (fileStats p)).

End GroupingDefs.

Section ResetDefs.
Context `{FA : FloatArith} `{RT : Runtime}.

(** The workers of [slaves] that run on the host [name]. *)
Definition WorkersOn (name : string) (slaves : list TSlaveStat.t) : Z :=
  Z.of_nat (length (filter (fun s => TSlaveStat.GetName s = name) slaves)).

(** A node as [Reset] leaves it. *)
Definition ResetNode (slaves : list TSlaveStat.t) (nd : TFileNode.t)
  : TFileNode.t :=
  TFileNode.mk (TFileNode.fNodeName nd) (TFileNode.fFiles nd)
    (head (TFileNode.fFiles nd)) [] None
    (WorkersOn (TFileNode.fNodeName nd) slaves) 0 0
    (TFileNode.fProcessed nd) (TFileNode.fEvents nd).

(** A worker as [Reset] leaves it. *)
Definition ResetWorker (nodes : list TFileNode.t) (s : TSlaveStat.t)
  : TSlaveStat.t :=
  TSlaveStat.SetCurFile None
    match FindNode nodes (TSlaveStat.GetName s) with
    | Some n => TSlaveStat.SetFileNode (Some n) s
    | None => s
    end.

End ResetDefs.

(** The node [nd] with [k] more workers counted as its own. *)
Definition with_my (k : Z) (nd : TFileNode.t) : TFileNode.t :=
  TFileNode.set_counters (TFileNode.fMySlaveCnt nd + k)
    (TFileNode.fExtSlaveCnt nd) (TFileNode.fRunSlaveCnt nd)
    (TFileNode.fProcessed nd) (TFileNode.fEvents nd) nd.

Section LayoutDefs.
Context `{FA : FloatArith}.

(** What makes a node the node of a host: its name, its files, their
    events and the workers of the host. *)
Definition layout (nd : TFileNode.t) : string * list nat * Z * Z :=
  (TFileNode.fNodeName nd, TFileNode.fFiles nd, TFileNode.fEvents nd,
   TFileNode.fMySlaveCnt nd).

(** Where a file is filed. *)
Definition filed (fs : TFileStat.t) : nat * nat :=
  (TFileStat.fNode fs, TFileStat.fElement fs).

(** [Keeps p p']: from [p] to [p'] the nodes have kept their layout, the
    files their place and the workers their identity. *)
Definition Keeps (p p' : TAdaptivePacketizer) : Prop :=
  layout <$> fFileNodes p' = layout <$> fFileNodes p
  /\ filed <$> fileStats p' = filed <$> fileStats p
  /\ TSlaveStat.fSlave <$> fSlaveStats p' = TSlaveStat.fSlave <$> fSlaveStats p.

End LayoutDefs.

(** The entries [ValidateFiles] has recorded for the element [eid]. *)
Definition OffsetOf (elems : list TDSetElement) (eid : nat) : Z :=
  default 0 (fTDSetOffset <$> elems !! eid).

(** Two elements for the same file, directory and object. *)
Definition same_object (a b : TDSetElement) : Prop :=
  fName a = fName b /\ fDirectory a = fDirectory b /\ fTitle a = fTitle b.

(** The end of the range of an element. *)
Definition EndOf (e : TDSetElement) : Z := fFirst e + fNum e.

(** The first valid element of [elems] with the key [key]. *)
Definition FirstValid (elems : list TDSetElement) (key : string)
  : option TDSetElement :=
  head (filter (fun u => fValidElement u = true
                         /\ TDSet.dir_file_obj u = key) elems).

(** No valid element of [elems] ends later than the first valid element
    of its key. *)
Definition Settled (elems : list TDSetElement) : Prop :=
  forall w v,
    w ∈ elems -> fValidElement w = true ->
    FirstValid elems (TDSet.dir_file_obj w) = Some v ->
    EndOf w <= EndOf v.

(** * An instance to run the model on

    Exact rational arithmetic stands for the floating-point operations
    (on the runs below every value involved is a small integer or a
    dyadic fraction, which [Float_t] represents exactly), an insertion
    sort for [TList::Sort], and a reader of "root://host/..." and
    "rfio://host/..." names for [TUrl]. *)

Definition Q_to_Long64 (x : Q) : Z :=
  if Qle_bool 0 x then Qfloor x else Qceiling x.

#[local] Instance ExactArith : FloatArith := {|
  FP := Q;
  fp_of_Z := inject_Z;
  fp_of_decimal := fun m k => Qmake m (Z.to_pos (10 ^ k));
  fp_is_zero := fun x => Qeq_bool x 0;
  fp_add := Qplus;
  fp_sub := Qminus;
  fp_mul := Qmult;
  fp_div := Qdiv;
  fp_ltb := fun x y => negb (Qle_bool y x);
  fp_store := Qred;
  fp_to_Long64 := Q_to_Long64
|}.

Fixpoint insert_by (cmp : nat -> nat -> Z) (x : nat) (l : list nat) : list nat :=
  match l with
  | [] => [x]
  | y :: t => if cmp x y <=? 0 then x :: y :: t else y :: insert_by cmp x t
  end.

Definition insertion_sort (cmp : nat -> nat -> Z) (l : list nat) : list nat :=
  foldr (insert_by cmp) [] l.

Fixpoint take_host (s : string) : string :=
  match s with
  | EmptyString => EmptyString
  | String c t =>
      if (Ascii.eqb c "/"%char || Ascii.eqb c ":"%char)%bool
      then EmptyString else String c (take_host t)
  end.

Definition host_of_url (name : string) : string :=
  if (String.prefix "root://" name || String.prefix "rfio://" name)%bool
  then take_host (String.substring 7 (String.length name - 7) name)
  else "no-host".

#[local] Instance ListRuntime : Runtime := {|
  TList_Sort := insertion_sort;
  HostOf := host_of_url
|}.

Definition file_on (host : string) (first num : Z) : TDSetElement :=
  TDSetElement_new ("root://" ++ host ++ "/data.root") "tree" "/" first num.

(** ** Runs of the model

    The states of a few runs, computed once: a file of one entry and two
    workers on other hosts (A); a file of 1000 entries and one worker (C);
    the validation of an element that starts beyond the end of its file
    (V); four files, two of them on a host without a worker (D); five
    files of 1000 entries and the range (1500, 2000) (E); a file of
    [2 ^ 34] entries and one worker (F); a file of two entries and two
    workers that report [2 ^ 62] events each (G); a file of 1000 entries
    in a dataset with an entry list of 5 entries (H). *)

(** The request of a worker that has nothing to report, and one that
    reports a second of processing with [totev] events seen in all. *)
Definition no_report : Reply := mkReply _ 0%Q 0%Q 0%Q [].
Definition report (totev : Z) : Reply := mkReply _ 0%Q 1%Q 1%Q [0; 0; totev].

Definition slavesA : list TSlave :=
  [mkSlave "w0" "0.0" 100; mkSlave "w1" "0.1" 100].

Definition demoA0 : TAdaptivePacketizer :=
  ltac:(let x := eval vm_compute in
          (TAdaptivePacketizer_ctor [file_on "h1" 0 1] None slavesA 0 (-1)
             4 1 1%Q) in
        match x with Some ?p => exact p end).

Definition packetA : TDSetElement :=
  CreateNewPacket (file_on "h1" 0 1) 0 1.

(** The state after the worker 0 has asked for a packet, and after the
    worker 1 has. *)
Definition demoA1 : TAdaptivePacketizer :=
  ltac:(let x := eval vm_compute in (GetNextPacket 0 no_report demoA0) in
        match x with Some (?p, _) => exact p end).

Definition demoA2 : TAdaptivePacketizer :=
  ltac:(let x := eval vm_compute in (GetNextPacket 1 no_report demoA1) in
        match x with Some (?p, _) => exact p end).

(** Instead of the worker 1, the worker 0 reports its packet done. *)
Definition demoA3 : TAdaptivePacketizer :=
  ltac:(let x := eval vm_compute in (GetNextPacket 0 (report 0) demoA1) in
        match x with Some (?p, _) => exact p end).

Definition slavesC : list TSlave := [mkSlave "w0" "0.0" 100].

Definition demoC0 : TAdaptivePacketizer :=
  ltac:(let x := eval vm_compute in
          (TAdaptivePacketizer_ctor [file_on "h1" 0 1000] None slavesC 0 (-1)
             4 1 1%Q) in
        match x with Some ?p => exact p end).

(** The worker asks for its first packet, of 31 entries; it reports
    them done and gets a second one; it then reports having seen one
    event in all. *)
Definition demoC1 : TAdaptivePacketizer :=
  ltac:(let x := eval vm_compute in (GetNextPacket 0 no_report demoC0) in
        match x with Some (?p, _) => exact p end).

Definition demoC2 : TAdaptivePacketizer :=
  ltac:(let x := eval vm_compute in (GetNextPacket 0 (report 0) demoC1) in
        match x with Some (?p, _) => exact p end).

Definition demoC3 : TAdaptivePacketizer :=
  ltac:(let x := eval vm_compute in (GetNextPacket 0 (report 1) demoC2) in
        match x with Some (?p, _) => exact p end).

(** Instead of the above, the second request of the worker reports
    having seen 5000 events. *)
Definition demoC2' : TAdaptivePacketizer :=
  ltac:(let x := eval vm_compute in (GetNextPacket 0 (report 5000) demoC1) in
        match x with Some (?p, _) => exact p end).

Definition AnyCall (sl : nat) (r : Reply) (p : TAdaptivePacketizer) : Prop :=
  True.

(** One file of [2 ^ 34] entries, one worker.  The worker asks for its
    first packet, of [2 ^ 29] entries; a second later it reports them
    done and asks again, and it does so once more a second after that. *)
Definition demoF0 : TAdaptivePacketizer :=
  ltac:(let x := eval vm_compute in
          (TAdaptivePacketizer_ctor [file_on "h1" 0 (2 ^ 34)] None slavesC
             0 (-1) 4 1 1%Q) in
        match x with Some ?p => exact p end).

Definition demoF1 : TAdaptivePacketizer :=
  ltac:(let x := eval vm_compute in (GetNextPacket 0 no_report demoF0) in
        match x with Some (?p, _) => exact p end).

Definition demoF2 : TAdaptivePacketizer :=
  ltac:(let x := eval vm_compute in
          (GetNextPacket 0 (report (2 ^ 29)) demoF1) in
        match x with Some (?p, _) => exact p end).

Definition demoF3 : TAdaptivePacketizer :=
  ltac:(let x := eval vm_compute in
          (GetNextPacket 0 (report (2 ^ 29)) demoF2) in
        match x with Some (?p, _) => exact p end).

(** The state of the run F in which the size of the second packet is
    calculated, and the worker in it. *)
Definition demoF1' : TAdaptivePacketizer :=
  ltac:(let x := eval vm_compute in
          (FileForPacket 0 (report (2 ^ 29)) demoF1) in
        match x with Some (?p, _) => exact p end).

Definition demoF1'_worker : TSlaveStat.t :=
  ltac:(let x := eval vm_compute in (fSlaveStats demoF1' !! 0%nat) in
        match x with Some ?s => exact s end).

(** The size of a packet as the specification gives it for a worker of
    rate [r]: [floor (r * tau)], at least 1, where [tau] is the larger of
    2 and [((T - P) / avgRate) / 4], and [avgRate] is
    [P / (cumProcTime / S)]. *)
Definition spec_packet_size (r : Q) (T P : Z) (cumProcTime : Q) (S : Z) : Z :=
  let avgRate := (inject_Z P / (cumProcTime / inject_Z S))%Q in
  let tau := ((inject_Z (T - P) / avgRate) / 4)%Q in
  let tau := if Qle_bool 2 tau then tau else 2%Q in
  Z.max 1 (Qfloor (r * tau)).

(** One file of 1000 entries in a dataset with an entry list of 5
    entries, one worker, which reports each of its packets done. *)
Definition demoH0 : TAdaptivePacketizer :=
  ltac:(let x := eval vm_compute in
          (TAdaptivePacketizer_ctor [file_on "h1" 0 1000] (Some 5) slavesC
             0 (-1) 4 1 1%Q) in
        match x with Some ?p => exact p end).

Definition demoH1 : TAdaptivePacketizer :=
  ltac:(let x := eval vm_compute in (GetNextPacket 0 no_report demoH0) in
        match x with Some (?p, _) => exact p end).

Definition demoH2 : TAdaptivePacketizer :=
  ltac:(let x := eval vm_compute in (GetNextPacket 0 (report 0) demoH1) in
        match x with Some (?p, _) => exact p end).

Definition demoH3 : TAdaptivePacketizer :=
  ltac:(let x := eval vm_compute in (GetNextPacket 0 (report 0) demoH2) in
        match x with Some (?p, _) => exact p end).

Definition demoH4 : TAdaptivePacketizer :=
  ltac:(let x := eval vm_compute in (GetNextPacket 0 (report 0) demoH3) in
        match x with Some (?p, _) => exact p end).

(** One file of two entries, two workers on other hosts.  Each worker
    asks for a packet; then each reports [2 ^ 62] events seen. *)
Definition demoG0 : TAdaptivePacketizer :=
  ltac:(let x := eval vm_compute in
          (TAdaptivePacketizer_ctor [file_on "h1" 0 2] None slavesA 0 (-1)
             4 1 1%Q) in
        match x with Some ?p => exact p end).

Definition demoG1 : TAdaptivePacketizer :=
  ltac:(let x := eval vm_compute in (GetNextPacket 0 no_report demoG0) in
        match x with Some (?p, _) => exact p end).

Definition demoG2 : TAdaptivePacketizer :=
  ltac:(let x := eval vm_compute in (GetNextPacket 1 no_report demoG1) in
        match x with Some (?p, _) => exact p end).

Definition demoG3 : TAdaptivePacketizer :=
  ltac:(let x := eval vm_compute in
          (GetNextPacket 0 (report (2 ^ 62)) demoG2) in
        match x with Some (?p, _) => exact p end).

Definition demoG4 : TAdaptivePacketizer :=
  ltac:(let x := eval vm_compute in
          (GetNextPacket 1 (report (2 ^ 62)) demoG3) in
        match x with Some (?p, _) => exact p end).

(** One element that starts at entry 20, one worker; the file turns out
    to have 10 entries. *)
Definition demoV0 : TAdaptivePacketizer :=
  ltac:(let x := eval vm_compute in
          (SetupForValidation [file_on "h1" 20 5] slavesC 4 1 1%Q) in
        match x with Some ?p => exact p end).

(** The request has been sent to the worker. *)
Definition demoV1 : Validation :=
  ltac:(let x := eval vm_compute in
          (SendWork 1 (mkValidation demoV0 [0%nat] [0%nat] [] [] [] true [] 0)) in
        match x with Some ?v => exact v end).

Definition demoV2 : Validation :=
  ltac:(let x := eval vm_compute in
          (HandleReply 0 (kPROOF_GETENTRIES 10 None) demoV1) in
        match x with Some ?v => exact v end).

Definition demoD0 : TAdaptivePacketizer :=
  ltac:(let x := eval vm_compute in
          (TAdaptivePacketizer_ctor
             [file_on "h1" 0 10; file_on "h1" 0 10;
              file_on "w0" 0 10; file_on "w0" 0 10]
             None slavesC 0 (-1) 4 1 1%Q) in
        match x with Some ?p => exact p end).

Definition five_files : list TDSetElement :=
  [file_on "h1" 0 1000; file_on "h2" 0 1000; file_on "h3" 0 1000;
   file_on "h4" 0 1000; file_on "h5" 0 1000].

Definition demoE0 : TAdaptivePacketizer :=
  ltac:(let x := eval vm_compute in
          (TAdaptivePacketizer_ctor five_files None slavesC 1500 2000
             4 1 1%Q) in
        match x with Some ?p => exact p end).

(** A node of three files in the middle of the processing (N); the
    worker of the run V and its file; three elements with their entries
    recorded (O); two datasets (S, T). *)
Definition demoN : TFileNode.t :=
  TFileNode.mk "h1" [3; 4; 5]%nat None [3; 4; 5]%nat (Some 4%nat) 1 0 1 20 300.

Definition demoV1_worker : TSlaveStat.t :=
  ltac:(let x := eval vm_compute in (fSlaveStats (vPacketizer demoV1) !! 0%nat) in
        match x with Some ?s => exact s end).

Definition demoV1_file : TFileStat.t :=
  ltac:(let x := eval vm_compute in (fileStats (vPacketizer demoV1) !! 0%nat) in
        match x with Some ?s => exact s end).

Definition demoO : list TDSetElement :=
  [SetTDSetOffset 10 (file_on "h1" 0 10); SetTDSetOffset 20 (file_on "h2" 0 20);
   SetTDSetOffset 30 (file_on "h3" 0 30)].

Definition demoS_a : TDSetElement :=
  mkElement "a.root" "tree" "/" 10 (-1) 0 None false.
Definition demoS_b : TDSetElement :=
  mkElement "b.root" "tree" "/" 0 50 0 None false.
Definition demoS : TDSet.t :=
  TDSet.mk [demoS_a; demoS_b] "tree" "/" "TTree".

(** [demoS] once "c.root" is added. *)
Definition demoS' : TDSet.t :=
  TDSet.mk [demoS_a; demoS_b; TDSetElement_new "c.root" "tree" "/" (-5) (-7)]
           "tree" "/" "TTree".

Definition demoT_a : TDSetElement :=
  mkElement "a.root" "tree" "/" 0 100 0 None true.
Definition demoT_b : TDSetElement :=
  mkElement "b.root" "tree" "/" 0 60 0 None true.
Definition demoT : TDSet.t :=
  TDSet.mk [mkElement "a.root" "tree" "/" 0 200 0 None true; demoT_a; demoT_b]
           "tree" "/" "TTree".

(** [demoS] validated against [demoT]. *)
Definition demoS_valid : TDSet.t :=
  ltac:(let x := eval vm_compute in (TDSet.Validate demoT demoS) in
        match x with Some ?d => exact d end).

(** [demoT] with its first two elements in the other order. *)
Definition demoT' : TDSet.t :=
  TDSet.mk [demoT_a; mkElement "a.root" "tree" "/" 0 200 0 None true; demoT_b]
           "tree" "/" "TTree".


(** * Properties *)

(** ** Machine integers *)

Lemma Int_t_of_small z : - 2 ^ 31 <= z < 2 ^ 31 -> Int_t_of z = z.
Proof.
  intros Hz. unfold Int_t_of.
  rewrite Z.mod_small; lia.
Qed.

(** ** The order of the file nodes ([TFileNode::Compare]) *)

Section CompareProperties.

Import TFileNode.

(** Network faster than hard disk: a node with fewer running workers is
    smaller, whichever way the comparison is asked. *)
Lemma Compare_fewer_running (nfhd maxcnt : Z) (a b : TFileNode.t) :
  nfhd <> 0 ->
  fRunSlaveCnt a < fRunSlaveCnt b ->
  Compare nfhd maxcnt a b = -1 /\ Compare nfhd maxcnt b a = 1.
Proof.
  intros Hn Hlt. unfold Compare, GetRunSlaveCnt.
  destruct (Z.eqb_spec nfhd 0) as [|_]; [done|]. simpl.
  split.
  - destruct (Z.ltb_spec (fRunSlaveCnt a) (fRunSlaveCnt b)); [done|lia].
  - destruct (Z.ltb_spec (fRunSlaveCnt b) (fRunSlaveCnt a)); [lia|].
    destruct (Z.gtb_spec (fRunSlaveCnt b) (fRunSlaveCnt a)); [done|lia].
Qed.

(** With as many running workers, the node with more events left is
    smaller. *)
Lemma Compare_more_remaining (nfhd maxcnt : Z) (a b : TFileNode.t) :
  nfhd <> 0 ->
  fRunSlaveCnt a = fRunSlaveCnt b ->
  remaining b < remaining a ->
  Compare nfhd maxcnt a b = -1 /\ Compare nfhd maxcnt b a = 1.
Proof.
  intros Hn Heq Hlt. unfold remaining in Hlt.
  unfold Compare, GetRunSlaveCnt, GetNEvents, GetProcessed.
  destruct (Z.eqb_spec nfhd 0) as [|_]; [done|]. simpl. rewrite Heq.
  rewrite Z.ltb_irrefl.
  destruct (Z.gtb_spec (fRunSlaveCnt b) (fRunSlaveCnt b)); [lia|].
  split.
  - destruct (Z.gtb_spec (fEvents a - fProcessed a) (fEvents b - fProcessed b));
      [done|lia].
  - destruct (Z.gtb_spec (fEvents b - fProcessed b) (fEvents a - fProcessed a));
      [lia|done].
Qed.

(** With as many running workers and as many events left, each of the
    two nodes is reported larger than the other: this branch never
    answers 0. *)
Lemma Compare_tie (nfhd maxcnt : Z) (a b : TFileNode.t) :
  nfhd <> 0 ->
  fRunSlaveCnt a = fRunSlaveCnt b ->
  remaining a = remaining b ->
  Compare nfhd maxcnt a b = 1 /\ Compare nfhd maxcnt b a = 1.
Proof.
  intros Hn Heq Hrem. unfold remaining in Hrem.
  unfold Compare, GetRunSlaveCnt, GetNEvents, GetProcessed.
  destruct (Z.eqb_spec nfhd 0) as [|_]; [done|]. simpl.
  rewrite Heq, Hrem, Z.ltb_irrefl.
  destruct (Z.gtb_spec (fRunSlaveCnt b) (fRunSlaveCnt b)); [lia|].
  destruct (Z.gtb_spec (fEvents b - fProcessed b) (fEvents b - fProcessed b));
    [lia|done].
Qed.

Lemma Compare_tie_witness :
  Compare 1 2 (mk "h1" [] None [] None 0 0 1 0 100)
              (mk "h2" [] None [] None 0 0 1 40 140) = 1
  /\ Compare 1 2 (mk "h2" [] None [] None 0 0 1 40 140)
                 (mk "h1" [] None [] None 0 0 1 0 100) = 1.
Proof. apply Compare_tie; [lia|reflexivity|reflexivity]. Defined.

(** Hard disk faster than network: the two answers are always opposite. *)
Lemma Compare_HD_opposite (maxcnt : Z) (a b : TFileNode.t) :
  Compare 0 maxcnt b a = - Compare 0 maxcnt a b.
Proof.
  unfold Compare. simpl.
  generalize (GetEventsLeftPerSlave a) (GetEventsLeftPerSlave b).
  generalize (GetSlaveCnt a - GetRunSlaveCnt a)
             (GetSlaveCnt b - GetRunSlaveCnt b).
  generalize (GetExtSlaveCnt a) (GetExtSlaveCnt b).
  generalize (GetMySlaveCnt a) (GetMySlaveCnt b).
  intros ma mb ea eb ra rb la lb.
  replace ((lb + la) ÷ 2) with ((la + lb) ÷ 2) by (f_equal; lia).
  generalize ((la + lb) ÷ 2). intros av.
  generalize (av ÷ 2) (av ÷ 3). intros h t.
  repeat match goal with
         | |- context [?x <? ?y] => destruct (Z.ltb_spec x y)
         | |- context [?x >? ?y] => destruct (Z.gtb_spec x y)
         end; simpl; lia.
Qed.

End CompareProperties.

(** Claim C6.  [TFileNode::Compare] is to induce a strict weak order in
    which nodes with as many running workers and as many events left
    compare equal.  The code does not: in the default mode (network
    faster than hard disk) two such nodes, and a node compared with
    itself, are each reported larger than the other. *)
Theorem Compare_equal_nodes_not_equal :
  let a := TFileNode.mk "h1" [0%nat] (Some 0%nat) [] None 1 0 1 0 1000 in
  let b := TFileNode.mk "h2" [1%nat] (Some 1%nat) [] None 1 0 1 0 1000 in
  TFileNode.Compare 1 2 a b = 1 /\ TFileNode.Compare 1 2 b a = 1
  /\ TFileNode.Compare 1 2 a a = 1.
Proof. repeat split. Qed.

(** ** The global range *)

Section RangeProperties.

(** An element that ends before the start of the range is left out. *)
Lemma ApplyRange_before (first num cur : Z) (e : TDSetElement) :
  fEntryList e = None ->
  cur + fNum e < first ->
  ApplyRange first num cur e = (cur + fNum e, None).
Proof.
  intros He Hlt. unfold ApplyRange. rewrite He.
  destruct (Z.ltb_spec (cur + fNum e) first); [done|lia].
Qed.

(** An element that starts at or after the end of the range is left out. *)
Lemma ApplyRange_after (first num cur : Z) (e : TDSetElement) :
  fEntryList e = None ->
  num <> -1 ->
  first + num <= cur ->
  ApplyRange first num cur e = (cur + fNum e, None).
Proof.
  intros He Hn Hle. unfold ApplyRange. rewrite He.
  destruct (Z.ltb_spec (cur + fNum e) first); [done|].
  destruct (Z.eqb_spec num (-1)); [done|].
  destruct (Z.leb_spec (first + num) cur); [done|lia].
Qed.

(** Any other element is filed with the part of its entries that lies in
    the range: its start moves forward to the start of the range, its
    end back to the end of the range. *)
Lemma ApplyRange_trim (first num cur : Z) (e : TDSetElement) :
  fEntryList e = None ->
  first <= cur + fNum e ->
  num = -1 \/ cur < first + num ->
  exists e',
    ApplyRange first num cur e = (cur + fNum e, Some e')
    /\ fFirst e' = fFirst e + Z.max 0 (first - cur)
    /\ fFirst e' + fNum e'
       = fFirst e + (if num =? -1 then fNum e
                     else Z.min (fNum e) (first + num - cur))
    /\ fName e' = fName e /\ fEntryList e' = None.
Proof.
  intros He Hge Hend. unfold ApplyRange. rewrite He.
  destruct (Z.ltb_spec (cur + fNum e) first); [lia|].
  destruct (Z.eqb_spec num (-1)) as [->|Hn]; simpl.
  - destruct (Z.ltb_spec cur first); eexists; (split; [reflexivity|]);
      simpl; repeat split; try done; lia.
  - destruct (Z.leb_spec (first + num) cur); [lia|].
    destruct (Z.ltb_spec (first + num) (cur + fNum e));
      destruct (Z.ltb_spec cur first); eexists; (split; [reflexivity|]);
      simpl; repeat split; try done; lia.
Qed.

(** An element that ends exactly where the range starts is not left
    out: it is filed with no entries. *)
Lemma ApplyRange_ends_at_start (first num cur : Z) (e : TDSetElement) :
  fEntryList e = None ->
  cur + fNum e = first ->
  0 < fNum e ->
  0 < num ->
  exists e', ApplyRange first num cur e = (first, Some e') /\ fNum e' = 0.
Proof.
  intros He Heq Hpos Hnum.
  destruct (ApplyRange_trim first num cur e He) as (e' & Hr & Hf & Hl & _);
    [lia|lia|].
  exists e'. rewrite Hr, Heq. split; [done|].
  destruct (Z.eqb_spec num (-1)); lia.
Qed.

End RangeProperties.

(** ** Lists of objects *)

Section TListFacts.

Import TList.

Lemma After_elem l x y : After l x = Some y -> y ∈ l.
Proof.
  induction l as [|a t IH]; simpl; [done|].
  case_bool_decide.
  - destruct t; simpl; [done|]. intros [= ->]. set_solver.
  - intros H'. set_solver.
Qed.

Lemma Remove_elem l x y : y ∈ Remove l x -> y ∈ l.
Proof.
  induction l as [|a t IH]; simpl; [done|].
  case_bool_decide; set_solver.
Qed.

Lemma elem_Remove_ne l x y : y ∈ l -> y ≠ x -> y ∈ Remove l x.
Proof.
  induction l as [|a t IH]; simpl; [done|].
  case_bool_decide; set_solver.
Qed.

Lemma Remove_NoDup l x : NoDup l -> NoDup (Remove l x).
Proof.
  induction 1 as [|a t Ha Ht IH]; simpl; [constructor|].
  case_bool_decide; [done|].
  constructor; [|done]. intros Hin. by apply Remove_elem in Hin.
Qed.

Lemma Remove_not_elem l x : NoDup l -> x ∉ Remove l x.
Proof.
  induction 1 as [|a t Ha Ht IH]; simpl; [set_solver|].
  case_bool_decide; [by subst|]. set_solver.
Qed.

Lemma Remove_length l x : x ∈ l -> S (length (Remove l x)) = length l.
Proof.
  induction l as [|a t IH]; simpl; [set_solver|].
  case_bool_decide; [done|].
  intros Hin. simpl. f_equal. apply IH. set_solver.
Qed.

Lemma Remove_head x l : Remove (x :: l) x = l.
Proof. simpl. by rewrite bool_decide_eq_true_2. Qed.

Lemma After_ne l x y : NoDup l -> After l x = Some y -> y ≠ x.
Proof.
  induction 1 as [|a t Ha Ht IH]; simpl; [done|].
  case_bool_decide.
  - subst. destruct t; simpl; [done|]. intros [= ->]. set_solver.
  - done.
Qed.

Lemma FromCursor_elem l c y : y ∈ FromCursor l c -> y ∈ l.
Proof.
  induction l as [|a t IH]; simpl; [done|].
  case_bool_decide; set_solver.
Qed.

Lemma FromCursor_head l c : c ∈ l -> exists r, FromCursor l c = c :: r.
Proof.
  induction l as [|a t IH]; simpl; [set_solver|].
  case_bool_decide; [subst; eauto|]. set_solver.
Qed.

Lemma FromCursor_whole x l : FromCursor (x :: l) x = x :: l.
Proof. simpl. by rewrite bool_decide_eq_true_2. Qed.

Lemma FromCursor_NoDup l c : NoDup l -> NoDup (FromCursor l c).
Proof.
  induction 1 as [|a t Ha Ht IH]; simpl; [constructor|].
  case_bool_decide; [by constructor|done].
Qed.

(** Moving the cursor with [After] drops exactly the object it was
    pointing at. *)
Lemma FromCursor_After l c r :
  NoDup l -> FromCursor l c = c :: r ->
  match After l c with
  | Some y => FromCursor l y = r
  | None => r = []
  end.
Proof.
  induction 1 as [|a t Ha Ht IH]; simpl; [done|].
  case_bool_decide as Hac.
  - intros [= -> ->]. destruct r as [|y r']; simpl; [done|].
    rewrite bool_decide_eq_false_2 by set_solver.
    by rewrite bool_decide_eq_true_2.
  - intros Hf. specialize (IH Hf).
    destruct (After t c) as [y|] eqn:Hy; [|done].
    rewrite bool_decide_eq_false_2; [done|].
    intros ->. apply After_elem in Hy. done.
Qed.

End TListFacts.

(** ** What the scheduling steps leave alone *)

(** Case analysis of a computation [H : ... = Some _]. *)
Ltac unpack1 H :=
  lazymatch type of H with
  | Some _ = Some _ => simplify_eq
  | None = Some _ => discriminate H
  | mbind _ ?m = Some _ =>
      let E := fresh "E" in destruct m eqn:E; simpl in H; [|discriminate H]
  | (let '(_, _) := ?x in _) = Some _ =>
      let E := fresh "E" in destruct x eqn:E; simpl in H
  | (match ?x with _ => _ end) = Some _ =>
      let E := fresh "E" in destruct x eqn:E; simpl in H; try discriminate H
  end.
Ltac unpack H :=
  cbv zeta in H; repeat (unpack1 H; try cbv zeta in H);
  repeat first
    [ progress (case_match; simplify_eq)
    | match goal with
      | H' : mbind _ ?m = Some _ |- _ =>
          let E := fresh "E" in
          destruct m eqn:E; simpl in H'; [|discriminate H']
      | H' : Some _ = Some _ |- _ => progress simplify_eq
      end ].

Section NodeCounters.

Import TFileNode.

Lemma GetNextUnAlloc_counters n n' r :
  GetNextUnAlloc n = (n', r) -> counters n' = counters n.
Proof. unfold GetNextUnAlloc. intros H. by case_match; simplify_eq. Qed.

Lemma GetNextActive_counters n n' r :
  GetNextActive n = (n', r) -> counters n' = counters n.
Proof. unfold GetNextActive. intros H. by case_match; simplify_eq. Qed.

Lemma RemoveActive_counters f n : counters (RemoveActive f n) = counters n.
Proof. done. Qed.

Lemma IncExtSlaveCnt_fProcessed s n :
  fProcessed (IncExtSlaveCnt s n) = fProcessed n.
Proof. unfold IncExtSlaveCnt. by case_match. Qed.

Lemma DecExtSlaveCnt_fProcessed s n n' :
  DecExtSlaveCnt s n = Some n' -> fProcessed n' = fProcessed n.
Proof. unfold DecExtSlaveCnt. intros H. by repeat case_match; simplify_eq. Qed.

Lemma DecRunSlaveCnt_fProcessed n n' :
  DecRunSlaveCnt n = Some n' -> fProcessed n' = fProcessed n.
Proof. unfold DecRunSlaveCnt. intros H. by repeat case_match; simplify_eq. Qed.

Lemma IncExtSlaveCnt_cursors s n : cursors (IncExtSlaveCnt s n) = cursors n.
Proof. unfold IncExtSlaveCnt. by case_match. Qed.

Lemma IncRunSlaveCnt_cursors n : cursors (IncRunSlaveCnt n) = cursors n.
Proof. done. Qed.

Lemma IncProcessed_cursors k n : cursors (IncProcessed k n) = cursors n.
Proof. done. Qed.

Lemma DecExtSlaveCnt_cursors s n n' :
  DecExtSlaveCnt s n = Some n' -> cursors n' = cursors n.
Proof. unfold DecExtSlaveCnt. intros H. by repeat case_match; simplify_eq. Qed.

Lemma DecRunSlaveCnt_cursors n n' :
  DecRunSlaveCnt n = Some n' -> cursors n' = cursors n.
Proof. unfold DecRunSlaveCnt. intros H. by repeat case_match; simplify_eq. Qed.

End NodeCounters.

(** Rewrites the processed counter of a node through the operations
    that produced the node. *)
Ltac node_processed :=
  repeat match goal with
    | H : TFileNode.GetNextUnAlloc _ = (_, _) |- _ =>
        apply GetNextUnAlloc_counters in H; injection H as ??????
    | H : TFileNode.GetNextActive _ = (_, _) |- _ =>
        apply GetNextActive_counters in H; injection H as ??????
    | H : TFileNode.DecExtSlaveCnt _ _ = Some _ |- _ =>
        apply DecExtSlaveCnt_fProcessed in H
    | H : TFileNode.DecRunSlaveCnt _ = Some _ |- _ =>
        apply DecRunSlaveCnt_fProcessed in H
    end;
  simpl; rewrite ?IncExtSlaveCnt_fProcessed; simpl; congruence.

Section FrameProperties.

Context `{FA : FloatArith} `{RT : Runtime}.

Lemma Frame_refl p : Frame p p.
Proof. by repeat split. Qed.

Lemma Frame_trans p1 p2 p3 : Frame p1 p2 -> Frame p2 p3 -> Frame p1 p3.
Proof.
  intros (?&?&?&?&?&?&?&?) (?&?&?&?&?&?&?&?). repeat split; congruence.
Qed.

Lemma Frame_set p q q' :
  fProcessed q' = fProcessed q -> fTotalEntries q' = fTotalEntries q ->
  fValid q' = fValid q -> fStop q' = fStop q -> elements q' = elements q ->
  fileStats q' = fileStats q ->
  fSlaveStats q' = fSlaveStats q -> fFileNodes q' = fFileNodes q ->
  Frame p q -> Frame p q'.
Proof.
  intros ???????? H. eapply Frame_trans; [exact H|].
  repeat split; congruence.
Qed.

Lemma Frame_updSlave sl s s' p q :
  fSlaveStats q !! sl = Some s ->
  TSlaveStat.fProcessed s' = TSlaveStat.fProcessed s ->
  Frame p q -> Frame p (updSlave sl s' q).
Proof.
  intros Hs Hp H. eapply Frame_trans; [exact H|].
  repeat split. simpl.
  rewrite list_fmap_insert, Hp. apply list_insert_id.
  by rewrite list_lookup_fmap, Hs.
Qed.

Lemma Frame_updNode n nd nd' p q :
  fFileNodes q !! n = Some nd ->
  TFileNode.fProcessed nd' = TFileNode.fProcessed nd ->
  Frame p q -> Frame p (updNode n nd' q).
Proof.
  intros Hs Hp H. eapply Frame_trans; [exact H|].
  repeat split. simpl.
  rewrite list_fmap_insert, Hp. apply list_insert_id.
  by rewrite list_lookup_fmap, Hs.
Qed.

End FrameProperties.

(** [frame] proves [Frame p q] for a [q] built from [p] by updates
    that leave the framed fields alone. *)
Ltac frame :=
  repeat first
    [ assumption
    | apply Frame_refl
    | match goal with
      | |- Frame _ (updSlave ?sl _ _) =>
          eapply (Frame_updSlave sl); [simpl; eassumption|reflexivity|]
      | |- Frame _ (updNode ?n _ _) =>
          eapply (Frame_updNode n); [simpl; eassumption|node_processed|]
      | |- Frame _ (match ?x with _ => _ end) => destruct x
      | |- Frame _ (if ?x then _ else _) => destruct x
      | |- Frame _ (_ ?q) =>
          eapply (Frame_set _ q); [reflexivity..|]
      end ].

Section FrameSteps.

Context `{FA : FloatArith} `{RT : Runtime}.

Lemma NextNode_Frame p p' r : NextNode p = Some (p', r) -> Frame p p'.
Proof. unfold NextNode. intros H. unpack H; frame. Qed.

Lemma NodeNextUnAlloc_Frame n p p' r :
  NodeNextUnAlloc n p = Some (p', r) -> Frame p p'.
Proof. unfold NodeNextUnAlloc. intros H. unpack H; frame. Qed.

Lemma GetNextUnAlloc_loop_Frame turns p p' r :
  GetNextUnAlloc_loop turns p = Some (p', r) -> Frame p p'.
Proof.
  revert p. induction turns as [|k IH]; simpl; intros p H.
  - simplify_eq. apply Frame_refl.
  - destruct (NextNode p) as [[p1 [n|]]|] eqn:H1; simpl in H; simplify_eq.
    + apply NextNode_Frame in H1.
      destruct (NodeNextUnAlloc n p1) as [[p2 [f|]]|] eqn:H2; simpl in H;
        simplify_eq; apply NodeNextUnAlloc_Frame in H2.
      * by eapply Frame_trans.
      * apply IH in H. eauto using Frame_trans.
    + by apply NextNode_Frame in H1.
Qed.

Lemma GetNextUnAlloc_Frame node p p' r :
  GetNextUnAlloc node p = Some (p', r) -> Frame p p'.
Proof.
  unfold GetNextUnAlloc. intros H.
  destruct node as [n|]; simpl in H.
  - destruct (NodeNextUnAlloc n p) as [[p1 file]|] eqn:H1; simpl in H; [|done].
    apply NodeNextUnAlloc_Frame in H1. unpack H; frame.
  - destruct (GetNextUnAlloc_loop _ p) as [[p1 found]|] eqn:H1; simpl in H;
      [|done].
    apply GetNextUnAlloc_loop_Frame in H1. unpack H; frame.
Qed.

Lemma NextActiveNode_Frame p p' r : NextActiveNode p = Some (p', r) -> Frame p p'.
Proof. unfold NextActiveNode. intros H. unpack H; frame. Qed.

Lemma GetNextActive_loop_Frame turns p p' r :
  GetNextActive_loop turns p = Some (p', r) -> Frame p p'.
Proof.
  revert p. induction turns as [|k IH]; simpl; intros p H.
  - simplify_eq. apply Frame_refl.
  - destruct (NextActiveNode p) as [[p1 [n|]]|] eqn:H1; simpl in H; simplify_eq.
    + apply NextActiveNode_Frame in H1.
      destruct (fFileNodes p1 !! n) as [nd|] eqn:Hn; simpl in H; [|done].
      destruct (TFileNode.GetNextActive nd) as [nd' [f|]] eqn:H2; simplify_eq.
      * frame.
      * apply IH in H. eapply Frame_trans; [|exact H]. frame.
    + by apply NextActiveNode_Frame in H1.
Qed.

Lemma GetNextActive_Frame p p' r : GetNextActive p = Some (p', r) -> Frame p p'.
Proof. apply GetNextActive_loop_Frame. Qed.

Lemma RemoveActive_Frame f p p' : RemoveActive f p = Some p' -> Frame p p'.
Proof. unfold RemoveActive. intros H. unpack H; frame. Qed.

Lemma ReleaseFinished_Frame sl p p' r :
  ReleaseFinished sl p = Some (p', r) -> Frame p p'.
Proof. unfold ReleaseFinished. intros H. unpack H; frame. Qed.

Lemma TryLocal_Frame sl avg p p' r :
  TryLocal sl avg p = Some (p', r) -> Frame p p'.
Proof. unfold TryLocal. intros H. unpack H; frame. Qed.

Lemma ChooseFile_Frame sl avg p p' r :
  ChooseFile sl avg p = Some (p', r) -> Frame p p'.
Proof.
  unfold ChooseFile. intros H.
  destruct (TryLocal sl avg p) as [[p1 f1]|] eqn:H1; simpl in H; [|done].
  apply TryLocal_Frame in H1.
  destruct f1 as [f|]; simpl in H.
  - by simplify_eq.
  - destruct (GetNextUnAlloc None p1) as [[p2 f2]|] eqn:H2; simpl in H; [|done].
    apply GetNextUnAlloc_Frame in H2.
    destruct f2 as [f|]; simplify_eq; [by eapply Frame_trans|].
    apply GetNextActive_Frame in H. eauto using Frame_trans.
Qed.

Lemma AssignFile_Frame sl f p p' : AssignFile sl f p = Some p' -> Frame p p'.
Proof. unfold AssignFile. intros H. unpack H; frame. Qed.

(** Cutting a packet changes, besides the scheduling structure, the
    [TFileStat] of the file. *)
Lemma CarvePacket_Frame sl f p p' pkt :
  CarvePacket sl f p = Some (p', pkt) ->
  exists fs', Frame (updFile f fs' p) p'.
Proof.
  unfold CarvePacket. intros H. unpack H;
    try match goal with H : RemoveActive _ _ = Some _ |- _ =>
      apply RemoveActive_Frame in H end;
    eexists; frame; (eapply Frame_trans; [|eassumption]); frame.
Qed.

Lemma CarvePacket_counts sl f p p' pkt :
  CarvePacket sl f p = Some (p', pkt) ->
  fProcessed p' = fProcessed p /\ fTotalEntries p' = fTotalEntries p
  /\ elements p' = elements p
  /\ TSlaveStat.fProcessed <$> fSlaveStats p'
     = TSlaveStat.fProcessed <$> fSlaveStats p
  /\ TFileNode.fProcessed <$> fFileNodes p'
     = TFileNode.fProcessed <$> fFileNodes p.
Proof.
  intros H. apply CarvePacket_Frame in H as (fs' & H).
  destruct H as (?&?&?&?&?&?&?&?). done.
Qed.

End FrameSteps.

(** ** The counters of processed entries *)

Section Counters.

Context `{FA : FloatArith} `{RT : Runtime}.

Lemma Long64_t_of_id z : - 2 ^ 63 <= z < 2 ^ 63 -> Long64_t_of z = z.
Proof.
  intros Hz. unfold Long64_t_of. rewrite Z.mod_small; lia.
Qed.

Lemma Long64_t_of_range z : - 2 ^ 63 <= Long64_t_of z < 2 ^ 63.
Proof.
  unfold Long64_t_of.
  pose proof (Z.mod_pos_bound (z + 2 ^ 63) (2 ^ 64) ltac:(lia)). lia.
Qed.

Lemma RecordReply_Recorded sl r p p' :
  RecordReply sl r p = Some p' -> Recorded sl r p p'.
Proof.
  unfold RecordReply. intros H.
  destruct (fSlaveStats p !! sl) as [slstat|] eqn:Hs; simpl in H; [|done].
  exists slstat. split; [done|].
  destruct (TSlaveStat.fCurElem slstat) as [curElem|] eqn:Hce;
    [|simplify_eq; by repeat split].
  cbv zeta in H. cbv zeta.
  generalize dependent (ReplyEvents slstat curElem r). intros numev H.
  generalize dependent (if 0 <? numev then numev else 0). intros inc.
  generalize (if 0 <? default (-1) (rMore r !! 0%nat)
              then default (-1) (rMore r !! 0%nat) else 0). intros bytes.
  unfold UpdateRates. simpl. rewrite Hs. simpl. intros H.
  destruct (TSlaveStat.fCurFile slstat) as [f|] eqn:Hf; simpl in H; [|done].
  destruct (fileStats p !! f) as [fs|] eqn:Hfs; simpl in H; [|done].
  destruct (fFileNodes p !! TFileStat.GetNode fs) as [nd|] eqn:Hnd;
    simpl in H; [|done].
  rewrite list_lookup_insert_eq in H by (by eapply lookup_lt_Some).
  simpl in H. simplify_eq. simpl. repeat split.
  - by rewrite list_insert_insert_eq, list_fmap_insert.
  - exists (TFileStat.GetNode fs), nd. unfold CurNode.
    rewrite Hf. simpl. rewrite Hfs. simpl.
    repeat split; [done|]. by rewrite list_fmap_insert.
Qed.

End Counters.

(** ** The ways through [GetNextPacket] *)

Section Paths.

Context `{FA : FloatArith} `{RT : Runtime}.

Lemma FileForPacket_FilePath sl r p q file :
  FileForPacket sl r p = Some (q, file) -> FilePath sl r p q file.
Proof.
  unfold FileForPacket. intros H.
  destruct (fValid p) eqn:Hv; simpl in H;
    [|simplify_eq; by apply path_invalid].
  destruct (fSlaveStats p !! sl) as [s|] eqn:Hs; simpl in H; [|done].
  destruct (RecordReply sl r p) as [p1|] eqn:H1; simpl in H; [|done].
  destruct (fStop p1) eqn:Hstop; simpl in H;
    [simplify_eq; by eapply path_stop|].
  destruct (ReleaseFinished sl p1) as [[p2 file2]|] eqn:H2; simpl in H; [|done].
  fold (AvgEventsLeft p2) in H.
  destruct (Z.eqb_spec (fTotalEntries p2) (fProcessed p2)) as [Heq|Hne];
    simpl in H; [simplify_eq; by eapply path_all_processed|].
  destruct file2 as [f|]; simpl in H.
  - simplify_eq. by eapply path_same_file.
  - destruct (ChooseFile sl (AvgEventsLeft p2) p2) as [[p3 [f|]]|] eqn:H3;
      simpl in H; [| |done].
    + destruct (AssignFile sl f p3) as [p4|] eqn:H4; simpl in H; [|done].
      simplify_eq. by eapply path_new_file.
    + simplify_eq. by eapply path_no_file.
Qed.

(** [GetNextPacket] returns a packet exactly when a file was found, and
    the packet is cut from that file. *)
Lemma GetNextPacket_inv sl r p p' res :
  GetNextPacket sl r p = Some (p', res) ->
  (res = None /\ FileForPacket sl r p = Some (p', None))
  \/ (exists q f packet,
        res = Some packet /\ FileForPacket sl r p = Some (q, Some f)
        /\ CarvePacket sl f q = Some (p', packet)).
Proof.
  unfold GetNextPacket. intros H.
  destruct (FileForPacket sl r p) as [[q [f|]]|]; simpl in H; [| |done].
  - destruct (CarvePacket sl f q) as [[p3 pkt]|] eqn:H3; simpl in H; [|done].
    simplify_eq. right. by exists q, f, pkt.
  - simplify_eq. by left.
Qed.

Lemma Recorded_Frame_flags sl r p p1 :
  RecordReply sl r p = Some p1 ->
  fStop p1 = fStop p /\ fTotalEntries p1 = fTotalEntries p
  /\ fValid p1 = fValid p /\ elements p1 = elements p
  /\ fileStats p1 = fileStats p.
Proof.
  intros H. apply RecordReply_Recorded in H.
  destruct H as (s & _ & ? & ? & ? & ? & ? & _). done.
Qed.

(** Once the reply is recorded, the rest of the call only changes the
    scheduling structure. *)
Lemma FilePath_Frame sl r p q file :
  FilePath sl r p q file ->
  fValid p = true ->
  exists p1, RecordReply sl r p = Some p1 /\ Frame p1 q.
Proof.
  intros H Hv.
  destruct H as [Hv'|p1 _ H1 Hs|p1 p2 file _ H1 Hs H2 Heq
                 |p1 p2 p3 _ H1 Hs H2 Hne H3
                 |p1 p2 f _ H1 Hs H2 Hne
                 |p1 p2 p3 f p4 _ H1 Hs H2 Hne H3 H4];
    [congruence|exists p1; split; [done|]..].
  - apply Frame_refl.
  - by eapply ReleaseFinished_Frame.
  - eapply Frame_trans; [by eapply ReleaseFinished_Frame|].
    by eapply ChooseFile_Frame.
  - by eapply ReleaseFinished_Frame.
  - eapply Frame_trans; [by eapply ReleaseFinished_Frame|].
    eapply Frame_trans; [by eapply ChooseFile_Frame|].
    by eapply AssignFile_Frame.
Qed.

End Paths.

(** Claim C10, as amended.  When the worker had a packet in flight, the
    events recorded for it are [ReplyEvents]: the size of the packet or,
    when the reply carries a positive total of events seen, that total
    less the processed count of the worker; the global counter takes these
    events when they are positive and nothing when they are not, while the
    counter of the worker and the counter of the node of its file both
    take them as they are.  The additions are those of [Long64_t]: as long
    as the global counter and the recorded events add up to less than
    [2 ^ 63] the counter grows by these events and does not decrease;
    from there on it wraps around. *)
Theorem GetNextPacket_processed `{FA : FloatArith} `{RT : Runtime}
  (sl : nat) (r : Reply) (p p' : TAdaptivePacketizer)
  (res : option TDSetElement) :
  GetNextPacket sl r p = Some (p', res) ->
  (fValid p = false -> fProcessed p' = fProcessed p)
  /\ (fValid p = true ->
      exists slstat,
        fSlaveStats p !! sl = Some slstat
        /\ match TSlaveStat.fCurElem slstat with
           | None =>
               fProcessed p' = fProcessed p
               /\ TSlaveStat.fProcessed <$> fSlaveStats p'
                  = TSlaveStat.fProcessed <$> fSlaveStats p
               /\ TFileNode.fProcessed <$> fFileNodes p'
                  = TFileNode.fProcessed <$> fFileNodes p
           | Some curElem =>
               let totev := default 0 (rMore r !! 2%nat) in
               let numev := ReplyEvents slstat curElem r in
               (0 < totev ->
                numev = Long64_t_of (totev - TSlaveStat.fProcessed slstat))
               /\ (totev <= 0 -> numev = fNum curElem)
               /\ fProcessed p' = Long64_t_of (fProcessed p + Z.max numev 0)
               /\ (- 2 ^ 63 <= fProcessed p ->
                   fProcessed p + Z.max numev 0 < 2 ^ 63 ->
                   fProcessed p' = fProcessed p + Z.max numev 0
                   /\ fProcessed p <= fProcessed p')
               /\ TSlaveStat.fProcessed <$> fSlaveStats p'
                  = <[sl := Long64_t_of
                              (TSlaveStat.fProcessed slstat + numev)]>
                      (TSlaveStat.fProcessed <$> fSlaveStats p)
               /\ exists n nd,
                    CurNode p slstat = Some n /\ fFileNodes p !! n = Some nd
                    /\ TFileNode.fProcessed <$> fFileNodes p'
                       = <[n := Long64_t_of
                                  (TFileNode.fProcessed nd + numev)]>
                           (TFileNode.fProcessed <$> fFileNodes p)
           end).
Proof.
  intros H. split.
  { intros Hv. unfold GetNextPacket, FileForPacket in H.
    rewrite Hv in H. simpl in H. by simplify_eq. }
  intros Hv.
  assert (exists p1, RecordReply sl r p = Some p1
          /\ fProcessed p' = fProcessed p1
          /\ TSlaveStat.fProcessed <$> fSlaveStats p'
             = TSlaveStat.fProcessed <$> fSlaveStats p1
          /\ TFileNode.fProcessed <$> fFileNodes p'
             = TFileNode.fProcessed <$> fFileNodes p1)
    as (p1 & H1 & Fp & Fs & Fn).
  { apply GetNextPacket_inv in H as [[-> H]|(q & f & pkt & -> & H & Hc)];
      apply FileForPacket_FilePath in H;
      destruct (FilePath_Frame _ _ _ _ _ H Hv)
        as (p1 & H1 & Fp & _ & _ & _ & _ & _ & Fs & Fn);
      exists p1; (split; [done|]); [done|].
    apply CarvePacket_counts in Hc as (Cp & _ & _ & Cs & Cn).
    repeat split; congruence. }
  apply RecordReply_Recorded in H1 as (s & Hs & _ & _ & _ & _ & _ & Hrec).
  exists s. split; [done|].
  destruct (TSlaveStat.fCurElem s) as [ce|] eqn:Hce.
  - cbv zeta in Hrec. destruct Hrec as (Hp & Hw & n & nd & Hn & Hnd & Hnp).
    assert (fProcessed p'
            = Long64_t_of (fProcessed p + Z.max (ReplyEvents s ce r) 0))
      as Hp'.
    { rewrite Fp, Hp. do 2 f_equal.
      destruct (Z.ltb_spec 0 (ReplyEvents s ce r)); lia. }
    cbv zeta. repeat split.
    + unfold ReplyEvents. cbv zeta. intros Hpos.
      destruct (Z.ltb_spec 0 (default 0 (rMore r !! 2%nat))); [done|lia].
    + unfold ReplyEvents. cbv zeta. intros Hpos.
      destruct (Z.ltb_spec 0 (default 0 (rMore r !! 2%nat))); [lia|done].
    + done.
    + rewrite Hp'. apply Long64_t_of_id. lia.
    + rewrite Hp', Long64_t_of_id; lia.
    + congruence.
    + exists n, nd. repeat split; [done..|congruence].
  - subst p1. repeat split; congruence.
Qed.

(** ** The structure behind the cursors *)

Section Structure.

Import TFileNode.

Lemma NodeOK_cursors files n nd nd' :
  cursors nd' = cursors nd -> NodeOK files n nd -> NodeOK files n nd'.
Proof.
  destruct nd, nd'. unfold cursors, NodeOK, region. simpl.
  intros [= -> -> -> ->]. done.
Qed.

Lemma region_cursors nd nd' : cursors nd' = cursors nd -> region nd' = region nd.
Proof.
  destruct nd, nd'. unfold cursors, region. simpl. by intros [= -> -> -> ->].
Qed.

Lemma region_elem nd f : f ∈ region nd -> f ∈ fFiles nd.
Proof.
  unfold region. destruct (fUnAllocFileNext nd); [|set_solver].
  apply FromCursor_elem.
Qed.

(** Taking the next unallocated file of a sound node. *)
Lemma GetNextUnAlloc_NodeOK files n nd nd' r :
  NodeOK files n nd ->
  GetNextUnAlloc nd = (nd', r) ->
  NodeOK files n nd'
  /\ (forall f, f ∈ region nd' -> f ∈ region nd)
  /\ (forall f, r = Some f ->
        f ∈ fFiles nd /\ (f ∉ region nd')
        /\ exists fs, files !! f = Some fs /\ TFileStat.fIsDone fs = false).
Proof.
  intros HOK. unfold GetNextUnAlloc.
  destruct (fUnAllocFileNext nd) as [c|] eqn:Hc; intros [= <- <-];
    [|split; [exact HOK|by split]].
  destruct HOK as (Hnd & Hfiles & Hcur & Hact & Hactin & Han & Hlive).
  destruct (FromCursor_head (fFiles nd) c (Hcur c Hc)) as [rest Hrest].
  pose proof (FromCursor_After _ _ _ Hnd Hrest) as Hafter.
  assert (region nd = c :: rest) as Hreg by (unfold region; by rewrite Hc).
  assert (NoDup (c :: rest)) as Hnd'.
  { rewrite <- Hrest. by apply FromCursor_NoDup. }
  apply NoDup_cons in Hnd' as [Hcrest Hndrest].
  assert (region (set_cursors (fFiles nd) (TList.After (fFiles nd) c)
                    (TList.Add (fActFiles nd) c)
                    (match fActFileNext nd with
                     | Some c0 => Some c0
                     | None => TList.First (TList.Add (fActFiles nd) c)
                     end) nd) = rest) as Hreg'.
  { unfold region. simpl. destruct (TList.After (fFiles nd) c); done. }
  assert (c ∉ fActFiles nd) as Hcact.
  { intros Hin. apply Hactin in Hin as [_ Hin]. rewrite Hreg in Hin.
    set_solver. }
  split; [|split].
  - unfold NodeOK. rewrite Hreg'. simpl. repeat split.
    + done.
    + done.
    + intros y Hy. by apply After_elem in Hy.
    + unfold TList.Add. apply NoDup_app. repeat split; [done| |apply NoDup_singleton].
      intros x Hx Hx'. set_solver.
    + unfold TList.Add in *. apply elem_of_app in H as [H|H].
      * by apply Hactin.
      * apply list_elem_of_singleton in H as ->. by apply Hcur.
    + unfold TList.Add in *. apply elem_of_app in H as [H|H].
      * apply Hactin in H as [_ H]. rewrite Hreg in H. set_solver.
      * apply list_elem_of_singleton in H as ->. done.
    + intros y. destruct (fActFileNext nd) as [a|] eqn:Ha.
      * intros [= <-]. unfold TList.Add. apply elem_of_app. left. by apply Han.
      * unfold TList.First, TList.Add. intros Hy.
        apply head_Some_elem_of in Hy. done.
    + intros f [Hf|Hf]; apply Hlive.
      * unfold TList.Add in Hf. apply elem_of_app in Hf as [Hf|Hf]; [by left|].
        apply list_elem_of_singleton in Hf as ->. right. rewrite Hreg. set_solver.
      * right. rewrite Hreg. set_solver.
  - rewrite Hreg', Hreg. set_solver.
  - intros f [= <-]. rewrite Hreg'. repeat split; [by apply Hcur|done|].
    apply Hlive. right. rewrite Hreg. set_solver.
Qed.

(** Taking the next active file of a sound node. *)
Lemma GetNextActive_NodeOK files n nd nd' r :
  NodeOK files n nd ->
  GetNextActive nd = (nd', r) ->
  NodeOK files n nd'
  /\ region nd' = region nd
  /\ (forall f, r = Some f ->
        f ∈ fFiles nd /\ (f ∉ region nd')
        /\ exists fs, files !! f = Some fs /\ TFileStat.fIsDone fs = false).
Proof.
  intros HOK. unfold GetNextActive.
  destruct (fActFileNext nd) as [c|] eqn:Hc; intros [= <- <-];
    [|split; [exact HOK|by split]].
  destruct HOK as (Hnd & Hfiles & Hcur & Hact & Hactin & Han & Hlive).
  split; [|split].
  - unfold NodeOK, region. simpl. repeat split; try done.
    + by apply Hactin.
    + by apply Hactin.
    + intros y. destruct (TList.After (fActFiles nd) c) as [a|] eqn:Ha.
      * intros [= <-]. by apply After_elem in Ha.
      * unfold TList.First. apply head_Some_elem_of.
  - done.
  - intros f [= <-]. specialize (Han c Hc).
    destruct (Hactin c Han) as [? ?]. repeat split; [done..|].
    apply Hlive. by left.
Qed.

(** A file that is marked done leaves the active files of its node. *)
Lemma RemoveActive_NodeOK files n nd f fs :
  NodeOK files n nd ->
  files !! f = Some fs ->
  f ∉ region nd ->
  NodeOK (<[f := TFileStat.SetDone fs]> files) n (RemoveActive f nd)
  /\ region (RemoveActive f nd) = region nd.
Proof.
  intros (Hnd & Hfiles & Hcur & Hact & Hactin & Han & Hlive) Hf Hreg.
  split; [|done].
  unfold NodeOK, region. simpl. repeat split; try done.
  - intros g Hg. destruct (Hfiles g Hg) as (gs & Hgs & Hn).
    destruct (decide (g = f)) as [->|Hne].
    + exists (TFileStat.SetDone fs). rewrite list_lookup_insert_eq
        by (by eapply lookup_lt_Some). split; [done|]. simpl. congruence.
    + exists gs. by rewrite list_lookup_insert_ne.
  - by apply Remove_NoDup.
  - apply Hactin. by eapply Remove_elem.
  - apply Hactin. by eapply Remove_elem.
  - intros y.
    assert (forall z, z ∈ fActFiles nd -> z <> f ->
            z ∈ TList.Remove (fActFiles nd) f) as Hkeep
      by (intros; by apply elem_Remove_ne).
    case_bool_decide as Hcf.
    + destruct (TList.After (fActFiles nd) f) as [a|] eqn:Ha.
      * intros [= <-]. apply Hkeep; [by eapply After_elem|by eapply After_ne].
      * unfold TList.First. apply head_Some_elem_of.
    + destruct (fActFileNext nd) as [a|] eqn:Ha.
      * intros [= <-]. apply Hkeep; [by apply Han|congruence].
      * unfold TList.First. apply head_Some_elem_of.
  - intros g Hg.
    assert (g <> f) as Hne.
    { destruct Hg as [Hg|Hg]; intros ->.
      - by apply Remove_not_elem in Hg.
      - done. }
    rewrite list_lookup_insert_ne by done. apply Hlive.
    destruct Hg as [Hg|Hg]; [left; by eapply Remove_elem|by right].
Qed.

(** A node stays sound when a file changes that keeps its node and,
    where the node counts on it, stays not done. *)
Lemma NodeOK_file files n nd f fs fs' :
  NodeOK files n nd ->
  files !! f = Some fs ->
  TFileStat.fNode fs' = TFileStat.fNode fs ->
  (TFileStat.fIsDone fs' = false \/ ((f ∉ fActFiles nd) /\ f ∉ region nd)) ->
  NodeOK (<[f := fs']> files) n nd.
Proof.
  intros (Hnd & Hfiles & Hcur & Hact & Hactin & Han & Hlive) Hf Hnode Hdone.
  unfold NodeOK. repeat split; try done.
  - intros g Hg. destruct (Hfiles g Hg) as (gs & Hgs & Hn).
    destruct (decide (g = f)) as [->|Hne].
    + exists fs'. rewrite list_lookup_insert_eq by (by eapply lookup_lt_Some).
      split; [done|]. congruence.
    + exists gs. by rewrite list_lookup_insert_ne.
  - by apply Hactin.
  - by apply Hactin.
  - intros g Hg. destruct (decide (g = f)) as [->|Hne].
    + exists fs'. rewrite list_lookup_insert_eq by (by eapply lookup_lt_Some).
      split; [done|]. destruct Hdone as [?|[? ?]]; [done|]. by destruct Hg.
    + rewrite list_lookup_insert_ne by done. by apply Hlive.
Qed.

(** The files of two different sound nodes are different. *)
Lemma NodeOK_disjoint files n nd n' nd' f :
  NodeOK files n nd -> NodeOK files n' nd' ->
  f ∈ fFiles nd -> f ∈ fFiles nd' -> n = n'.
Proof.
  intros (_ & H1 & _) (_ & H2 & _) Hf Hf'.
  destruct (H1 f Hf) as (fs & Hfs & <-).
  destruct (H2 f Hf') as (fs' & Hfs' & <-). congruence.
Qed.

End Structure.

Section PacketizerStructure.

Context `{FA : FloatArith} `{RT : Runtime}.

Lemma SameView_refl p : SameView p p.
Proof. done. Qed.

Lemma SameView_trans p1 p2 p3 :
  SameView p1 p2 -> SameView p2 p3 -> SameView p1 p3.
Proof. intros (?&?&?) (?&?&?). repeat split; congruence. Qed.

Lemma SameView_set p q q' :
  fileStats q' = fileStats q -> fFileNodes q' = fFileNodes q ->
  fSlaveStats q' = fSlaveStats q ->
  SameView p q -> SameView p q'.
Proof. intros ??? (?&?&?). repeat split; congruence. Qed.

Lemma SameView_updNode n nd nd' p q :
  fFileNodes q !! n = Some nd -> cursors nd' = cursors nd ->
  SameView p q -> SameView p (updNode n nd' q).
Proof.
  intros Hn Hc H. eapply SameView_trans; [exact H|].
  repeat split. simpl. rewrite list_fmap_insert, Hc. apply list_insert_id.
  by rewrite list_lookup_fmap, Hn.
Qed.

Lemma SameView_updSlave sl s s' p q :
  fSlaveStats q !! sl = Some s ->
  TSlaveStat.fCurFile s' = TSlaveStat.fCurFile s ->
  SameView p q -> SameView p (updSlave sl s' q).
Proof.
  intros Hn Hc H. eapply SameView_trans; [exact H|].
  repeat split. simpl. rewrite list_fmap_insert, Hc. apply list_insert_id.
  by rewrite list_lookup_fmap, Hn.
Qed.

Lemma SameView_node p q n nd' :
  SameView p q -> fFileNodes q !! n = Some nd' ->
  exists nd, fFileNodes p !! n = Some nd /\ cursors nd' = cursors nd.
Proof.
  intros (_ & Hc & _) Hn.
  assert ((cursors <$> fFileNodes p) !! n = Some (cursors nd')) as H.
  { rewrite <- Hc, list_lookup_fmap, Hn. done. }
  rewrite list_lookup_fmap in H.
  destruct (fFileNodes p !! n) as [nd|]; simpl in H; [|done].
  exists nd. split; [done|congruence].
Qed.

Lemma SameView_slave p q sl s' :
  SameView p q -> fSlaveStats q !! sl = Some s' ->
  exists s, fSlaveStats p !! sl = Some s
            /\ TSlaveStat.fCurFile s' = TSlaveStat.fCurFile s.
Proof.
  intros (_ & _ & Hc) Hn.
  assert ((TSlaveStat.fCurFile <$> fSlaveStats p) !! sl
          = Some (TSlaveStat.fCurFile s')) as H.
  { rewrite <- Hc, list_lookup_fmap, Hn. done. }
  rewrite list_lookup_fmap in H.
  destruct (fSlaveStats p !! sl) as [s|]; simpl in H; [|done].
  exists s. split; [done|congruence].
Qed.

Lemma Struct_SameView p q : SameView p q -> Struct p -> Struct q.
Proof.
  intros Hv [Hnodes Hcur]. split.
  - intros n nd' Hn.
    destruct (SameView_node _ _ _ _ Hv Hn) as (nd & Hnd & Hc).
    destruct Hv as (-> & _). eapply NodeOK_cursors; eauto.
  - intros sl s' f n nd' Hs Hf Hn.
    destruct (SameView_node _ _ _ _ Hv Hn) as (nd & Hnd & Hc).
    destruct (SameView_slave _ _ _ _ Hv Hs) as (s & Hs' & Hc').
    rewrite (region_cursors _ _ Hc). eapply Hcur; eauto. congruence.
Qed.

Lemma Avail_SameView p q f : SameView p q -> Avail p f -> Avail q f.
Proof.
  intros Hv [Hfs Hreg]. split.
  - destruct Hv as (-> & _). done.
  - intros n nd' Hn.
    destruct (SameView_node _ _ _ _ Hv Hn) as (nd & Hnd & Hc).
    rewrite (region_cursors _ _ Hc). eauto.
Qed.

End PacketizerStructure.

(** Rewrites the cursors of a node through the operations on its
    counters that produced the node. *)
Ltac node_cursors :=
  repeat match goal with
    | H : TFileNode.DecExtSlaveCnt _ _ = Some _ |- _ =>
        apply DecExtSlaveCnt_cursors in H
    | H : TFileNode.DecRunSlaveCnt _ = Some _ |- _ =>
        apply DecRunSlaveCnt_cursors in H
    end;
  rewrite ?IncRunSlaveCnt_cursors, ?IncExtSlaveCnt_cursors,
    ?IncProcessed_cursors; congruence.

(** [sameview] proves [SameView p q] for a [q] built from [p] by
    updates of counters. *)
Ltac sameview :=
  repeat first
    [ assumption
    | apply SameView_refl
    | match goal with
      | |- SameView _ (updSlave ?sl _ _) =>
          eapply (SameView_updSlave sl); [simpl; eassumption|reflexivity|]
      | |- SameView _ (updNode ?n _ _) =>
          eapply (SameView_updNode n); [simpl; eassumption|node_cursors|]
      | |- SameView _ (match ?x with _ => _ end) => destruct x
      | |- SameView _ (if ?x then _ else _) => destruct x
      | |- SameView _ (_ ?q) =>
          eapply (SameView_set _ q); [reflexivity..|]
      end ].

Section StructSteps.

Context `{FA : FloatArith} `{RT : Runtime}.

Lemma RecordReply_SameView sl r p p' :
  RecordReply sl r p = Some p' -> SameView p p'.
Proof.
  unfold RecordReply, UpdateRates. intros H.
  destruct (fSlaveStats p !! sl) as [slstat|] eqn:Hs; simpl in H; [|done].
  destruct (TSlaveStat.fCurElem slstat) as [curElem|] eqn:Hce;
    [|by simplify_eq].
  cbv zeta in H. simpl in H. rewrite Hs in H. simpl in H.
  destruct (TSlaveStat.fCurFile slstat) as [f|] eqn:Hf; simpl in H; [|done].
  destruct (fileStats p !! f) as [fs|] eqn:Hfs; simpl in H; [|done].
  destruct (fFileNodes p !! TFileStat.GetNode fs) as [nd|] eqn:Hnd;
    simpl in H; [|done].
  rewrite list_lookup_insert_eq in H by (by eapply lookup_lt_Some).
  simpl in H. simplify_eq.
  eapply (SameView_updSlave sl);
    [simpl; apply list_lookup_insert_eq; by eapply lookup_lt_Some|reflexivity|].
  sameview.
Qed.

Lemma ReleaseFinished_SameView sl p p' r :
  ReleaseFinished sl p = Some (p', r) -> SameView p p'.
Proof. unfold ReleaseFinished. intros H. unpack H; sameview. Qed.

Lemma NextNode_SameView p p' r : NextNode p = Some (p', r) -> SameView p p'.
Proof. unfold NextNode. intros H. unpack H; sameview. Qed.

Lemma NextActiveNode_SameView p p' r :
  NextActiveNode p = Some (p', r) -> SameView p p'.
Proof. unfold NextActiveNode. intros H. unpack H; sameview. Qed.

(** The node [n] takes a step that keeps it sound and does not move its
    cursor back. *)
Lemma Struct_updNode n nd nd' q :
  Struct q -> fFileNodes q !! n = Some nd ->
  NodeOK (fileStats q) n nd' ->
  (forall f, f ∈ region nd' -> f ∈ region nd) ->
  Struct (updNode n nd' q).
Proof.
  intros [Hnodes Hcur] Hn HOK Hreg. split.
  - intros m md. simpl. intros Hm.
    destruct (decide (m = n)) as [->|Hne].
    + rewrite list_lookup_insert_eq in Hm by (by eapply lookup_lt_Some).
      by simplify_eq.
    + rewrite list_lookup_insert_ne in Hm by done. by apply Hnodes.
  - intros sl s f m md. simpl. intros Hs Hf Hm.
    destruct (decide (m = n)) as [->|Hne].
    + rewrite list_lookup_insert_eq in Hm by (by eapply lookup_lt_Some).
      simplify_eq. intros Hin. eapply Hcur; eauto.
    + rewrite list_lookup_insert_ne in Hm by done. eauto.
Qed.

(** The file the node [n] hands out may be cut. *)
Lemma Avail_updNode n nd nd' q f :
  Struct q -> fFileNodes q !! n = Some nd ->
  f ∈ TFileNode.fFiles nd -> f ∉ region nd' ->
  (exists fs, fileStats q !! f = Some fs /\ TFileStat.fIsDone fs = false) ->
  Avail (updNode n nd' q) f.
Proof.
  intros [Hnodes Hcur] Hn Hf Hreg Hfs. split; [done|].
  intros m md. simpl. intros Hm.
  destruct (decide (m = n)) as [->|Hne].
  - rewrite list_lookup_insert_eq in Hm by (by eapply lookup_lt_Some).
    by simplify_eq.
  - rewrite list_lookup_insert_ne in Hm by done.
    intros Hin. apply region_elem in Hin. apply Hne.
    eapply NodeOK_disjoint; eauto.
Qed.

Lemma NodeNextUnAlloc_Struct n p p' r :
  Struct p -> NodeNextUnAlloc n p = Some (p', r) ->
  Struct p' /\ (forall f, r = Some f -> Avail p' f).
Proof.
  intros HS. unfold NodeNextUnAlloc. intros H.
  destruct (fFileNodes p !! n) as [nd|] eqn:Hn; simpl in H; [|done].
  destruct (TFileNode.GetNextUnAlloc nd) as [nd' file] eqn:Hnext.
  simpl in H. simplify_eq.
  destruct (GetNextUnAlloc_NodeOK (fileStats p) n nd nd' r)
    as (HOK & Hreg & Hfile); [by apply HS|done|].
  assert (Struct (updNode n nd' p)) as HS' by (by eapply Struct_updNode).
  destruct r as [f|].
  - split; [done|]. intros ? [= <-].
    destruct (Hfile f eq_refl) as (Hin & Hnot & Hfs).
    by eapply Avail_updNode.
  - split; [|done]. eapply Struct_SameView; [|exact HS']. sameview.
Qed.

Lemma GetNextUnAlloc_loop_Struct turns p p' r :
  Struct p -> GetNextUnAlloc_loop turns p = Some (p', r) ->
  Struct p' /\ (forall n f, r = Some (n, f) -> Avail p' f).
Proof.
  revert p. induction turns as [|k IH]; simpl; intros p HS H.
  - by simplify_eq.
  - destruct (NextNode p) as [[p1 [n|]]|] eqn:H1; simpl in H; simplify_eq.
    + apply NextNode_SameView in H1.
      assert (Struct p1) as HS1 by (by eapply Struct_SameView).
      destruct (NodeNextUnAlloc n p1) as [[p2 [f|]]|] eqn:H2; simpl in H;
        simplify_eq; apply NodeNextUnAlloc_Struct in H2 as [HS2 Hav]; try done.
      * split; [done|]. intros ?? [= <- <-]. by apply Hav.
      * exact (IH p2 HS2 H).
    + apply NextNode_SameView in H1. split; [|done].
      by eapply Struct_SameView.
Qed.

Lemma GetNextUnAlloc_Struct node p p' r :
  Struct p -> GetNextUnAlloc node p = Some (p', r) ->
  Struct p' /\ (forall f, r = Some f -> Avail p' f).
Proof.
  intros HS. unfold GetNextUnAlloc. intros H.
  destruct node as [n|]; simpl in H.
  - destruct (NodeNextUnAlloc n p) as [[p1 file]|] eqn:H1; simpl in H; [|done].
    apply NodeNextUnAlloc_Struct in H1 as [HS1 Hav]; [|done].
    destruct file as [f|]; simpl in H; simplify_eq; [|done].
    split.
    + eapply Struct_SameView; [|exact HS1]. sameview.
    + intros ? [= <-]. eapply Avail_SameView; [|by apply Hav]. sameview.
  - destruct (GetNextUnAlloc_loop _ p) as [[p1 found]|] eqn:H1; simpl in H;
      [|done].
    apply GetNextUnAlloc_loop_Struct in H1 as [HS1 Hav]; [|done].
    destruct found as [[n f]|]; simpl in H; simplify_eq; [|done].
    split.
    + eapply Struct_SameView; [|exact HS1]. sameview.
    + intros ? [= <-]. eapply Avail_SameView; [|by eapply Hav]. sameview.
Qed.

Lemma GetNextActive_loop_Struct turns p p' r :
  Struct p -> GetNextActive_loop turns p = Some (p', r) ->
  Struct p' /\ (forall f, r = Some f -> Avail p' f).
Proof.
  revert p. induction turns as [|k IH]; simpl; intros p HS H.
  - by simplify_eq.
  - destruct (NextActiveNode p) as [[p1 [n|]]|] eqn:H1; simpl in H; simplify_eq.
    + apply NextActiveNode_SameView in H1.
      assert (Struct p1) as HS1 by (by eapply Struct_SameView).
      destruct (fFileNodes p1 !! n) as [nd|] eqn:Hn; simpl in H; [|done].
      destruct (TFileNode.GetNextActive nd) as [nd' file] eqn:H2.
      destruct (GetNextActive_NodeOK (fileStats p1) n nd nd' file)
        as (HOK & Hreg & Hfile); [by apply HS1|done|].
      assert (Struct (updNode n nd' p1)) as HS'.
      { eapply Struct_updNode; eauto. intros f. by rewrite Hreg. }
      destruct file as [f|]; simplify_eq.
      * split; [done|]. intros ? [= <-].
        destruct (Hfile f eq_refl) as (Hin & Hnot & Hfs).
        by eapply Avail_updNode.
      * apply IH in H; [done|]. eapply Struct_SameView; [|exact HS']. sameview.
    + apply NextActiveNode_SameView in H1. split; [|done].
      by eapply Struct_SameView.
Qed.

End StructSteps.

Section SelectionSteps.

Context `{FA : FloatArith} `{RT : Runtime}.

Lemma FileOfWorker_SameView sl p q :
  SameView p q -> FileOfWorker sl q = FileOfWorker sl p.
Proof.
  intros (_ & _ & H). unfold FileOfWorker.
  assert ((TSlaveStat.fCurFile <$> fSlaveStats q) !! sl
          = (TSlaveStat.fCurFile <$> fSlaveStats p) !! sl) as Hl by congruence.
  rewrite !list_lookup_fmap in Hl.
  destruct (fSlaveStats q !! sl), (fSlaveStats p !! sl); simplify_eq/=; done.
Qed.

Lemma TryLocal_Struct sl avg p p' r :
  Struct p -> TryLocal sl avg p = Some (p', r) ->
  Struct p' /\ (forall f, r = Some f -> Avail p' f).
Proof.
  intros HS. unfold TryLocal. intros H.
  destruct (fSlaveStats p !! sl) as [s|] eqn:Hs; simpl in H; [|done].
  cbv zeta in H.
  destruct (TSlaveStat.GetFileNode s) as [ln|]; [|by simplify_eq].
  set (p0 := set_fUnAllocated _ p) in H.
  assert (Struct p0) as HS0.
  { eapply Struct_SameView; [|exact HS]. subst p0. sameview. }
  destruct (match TList.First (fUnAllocated p0) with
            | Some q => _
            | None => _
            end) as [firstNonLocal|]; simpl in H; [|done].
  change (fFileNodes p0) with (fFileNodes p) in H.
  destruct (fFileNodes p !! ln) as [nd|] eqn:Hn; simpl in H; [|done].
  destruct (OpenLocal _ _ _ _ _ _); [|by simplify_eq].
  destruct (TFileNode.GetNextUnAlloc nd) as [nd1 file1] eqn:H1.
  destruct (GetNextUnAlloc_NodeOK (fileStats p) ln nd nd1 file1)
    as (HOK1 & Hreg1 & Hfile1); [by apply HS|done|].
  destruct file1 as [f|].
  - simplify_eq. destruct (Hfile1 f eq_refl) as (Hin & Hnot & Hfs). split.
    + by eapply Struct_updNode.
    + intros ? [= <-]. by eapply Avail_updNode.
  - destruct (TFileNode.GetNextActive nd1) as [nd2 file2] eqn:H2.
    destruct (GetNextActive_NodeOK (fileStats p) ln nd1 nd2 file2)
      as (HOK2 & Hreg2 & Hfile2); [done..|].
    assert (Struct (updNode ln nd2 p0)) as HS2.
    { eapply Struct_updNode; eauto. intros g. rewrite Hreg2. apply Hreg1. }
    assert (TFileNode.fFiles nd1 = TFileNode.fFiles nd) as Hfiles.
    { unfold TFileNode.GetNextUnAlloc in H1.
      destruct (TFileNode.fUnAllocFileNext nd); by simplify_eq. }
    destruct file2 as [f|]; simplify_eq.
    + split; [done|]. intros ? [= <-].
      destruct (Hfile2 f eq_refl) as (Hin & Hnot & Hfs).
      eapply Avail_updNode; eauto. by rewrite <- Hfiles.
    + split; [|done]. eapply Struct_SameView; [|exact HS2].
      eapply (SameView_updSlave sl s); [done|done|apply SameView_refl].
Qed.

Lemma ChooseFile_Struct sl avg p p' r :
  Struct p -> ChooseFile sl avg p = Some (p', r) ->
  Struct p' /\ (forall f, r = Some f -> Avail p' f).
Proof.
  intros HS. unfold ChooseFile. intros H.
  destruct (TryLocal sl avg p) as [[p1 f1]|] eqn:H1; simpl in H; [|done].
  apply TryLocal_Struct in H1 as [HS1 Hav1]; [|done].
  destruct f1 as [f|]; simpl in H; [by simplify_eq|].
  destruct (GetNextUnAlloc None p1) as [[p2 f2]|] eqn:H2; simpl in H; [|done].
  apply GetNextUnAlloc_Struct in H2 as [HS2 Hav2]; [|done].
  destruct f2 as [f|]; [by simplify_eq|].
  by apply GetNextActive_loop_Struct in H.
Qed.

Lemma ReleaseFinished_Avail sl p p' f :
  Struct p -> ReleaseFinished sl p = Some (p', Some f) ->
  p' = p /\ Avail p f /\ FileOfWorker sl p = Some f.
Proof.
  intros [Hnodes Hcur]. unfold ReleaseFinished, FileOfWorker. intros H.
  destruct (fSlaveStats p !! sl) as [s|] eqn:Hs; simpl in *; [|done].
  destruct (TSlaveStat.fCurFile s) as [g|] eqn:Hg; simpl in H; [|done].
  destruct (fileStats p !! g) as [fs|] eqn:Hfs; simpl in H; [|done].
  destruct (TFileStat.IsDone fs) eqn:Hd; simpl in H.
  - unpack H.
  - simplify_eq. repeat split; eauto.
Qed.

Lemma AssignFile_Struct sl f p p' :
  Struct p -> Avail p f -> AssignFile sl f p = Some p' ->
  Struct p' /\ Avail p' f /\ FileOfWorker sl p' = Some f.
Proof.
  intros [Hnodes Hcur] [Hfs Hreg]. unfold AssignFile. intros H.
  destruct (fSlaveStats p !! sl) as [s|] eqn:Hs; simpl in H; [|done].
  pose (q := updSlave sl (TSlaveStat.SetCurFile (Some f) s) p).
  assert (Struct q) as HSq.
  { split; [done|]. intros sl' s' g n nd. simpl. intros Hs' Hg Hn.
    destruct (decide (sl' = sl)) as [->|Hne].
    - rewrite list_lookup_insert_eq in Hs' by (by eapply lookup_lt_Some).
      simplify_eq. simpl in Hg. simplify_eq. by eapply Hreg.
    - rewrite list_lookup_insert_ne in Hs' by done. eauto. }
  assert (Avail q f) as HAq by done.
  assert (FileOfWorker sl q = Some f) as HFq.
  { unfold FileOfWorker. simpl.
    rewrite list_lookup_insert_eq by (by eapply lookup_lt_Some). done. }
  assert (SameView q p') as Hv.
  { subst q. unpack H; sameview. }
  split; [|split].
  - by eapply Struct_SameView.
  - by eapply Avail_SameView.
  - by rewrite (FileOfWorker_SameView _ _ _ Hv).
Qed.

End SelectionSteps.

(** ** Cutting packets *)

Section Carving.

Context `{FA : FloatArith} `{RT : Runtime}.

(** What [CarvePacket] does, spelled out: the packet starts at the
    cursor; it takes the rest of the file and marks the file done when
    the packet size reaches the end of the range, and otherwise takes
    [CalculatePacketSize] entries and moves the cursor past them. *)
Lemma CarvePacket_inv sl f p p' pkt :
  CarvePacket sl f p = Some (p', pkt) ->
  exists s fs base,
    fSlaveStats p !! sl = Some s /\ fileStats p !! f = Some fs
    /\ elements p !! TFileStat.fElement fs = Some base
    /\ fFirst pkt = TFileStat.fNextEntry fs
    /\ elements p' = elements p
    /\ TSlaveStat.fCurFile <$> fSlaveStats p'
       = TSlaveStat.fCurFile <$> fSlaveStats p
    /\ ((fFirst base + fNum base
         <= TFileStat.fNextEntry fs + CalculatePacketSize s p
         /\ fNum pkt = fFirst base + fNum base - TFileStat.fNextEntry fs
         /\ exists nd,
              fFileNodes p !! TFileStat.fNode fs = Some nd
              /\ SameView (updNode (TFileStat.fNode fs)
                             (TFileNode.RemoveActive f nd)
                             (updFile f (TFileStat.SetDone fs) p)) p')
        \/ (TFileStat.fNextEntry fs + CalculatePacketSize s p
            < fFirst base + fNum base
            /\ fNum pkt = CalculatePacketSize s p
            /\ SameView (updFile f (TFileStat.MoveNextEntry
                                      (CalculatePacketSize s p) fs) p) p')).
Proof.
  unfold CarvePacket. intros H.
  destruct (fSlaveStats p !! sl) as [s|] eqn:Hs; simpl in H; [|done].
  destruct (fileStats p !! f) as [fs|] eqn:Hfs; simpl in H; [|done].
  destruct (elements p !! TFileStat.GetElement fs) as [base|] eqn:Hb;
    simpl in H; [|done].
  exists s, fs, base. do 3 (split; [done|]).
  unfold TFileStat.GetNextEntry in H.
  destruct (Z.leb_spec (fFirst base + fNum base)
              (TFileStat.fNextEntry fs + CalculatePacketSize s p)) as [Hle|Hlt];
    simpl in H.
  - unfold RemoveActive in H. simpl in H.
    rewrite list_lookup_insert_eq in H by (by eapply lookup_lt_Some).
    simpl in H. unfold TFileStat.GetNode in H. simpl in H.
    destruct (fFileNodes p !! TFileStat.fNode fs) as [nd|] eqn:Hnd;
      simpl in H; [|done].
    set (q := updNode _ _ _) in H.
    assert (exists q', SameView q q' /\ elements q' = elements p
                       /\ fSlaveStats q' = fSlaveStats p
                       /\ fSlaveStats q' !! sl
                          ≫= (fun slstat => Some
                               (updSlave sl
                                  (TSlaveStat.SetCurElem
                                     (Some
                                        match fEntryList base with
                                        | Some n =>
                                            SetEntryList (Some n)
                                              (CreateNewPacket base
                                                 (TFileStat.fNextEntry fs)
                                                 (fFirst base + fNum base
                                                  - TFileStat.fNextEntry fs))
                                        | None =>
                                            CreateNewPacket base
                                              (TFileStat.fNextEntry fs)
                                              (fFirst base + fNum base
                                               - TFileStat.fNextEntry fs)
                                        end) slstat) q',
                                match fEntryList base with
                                | Some n =>
                                    SetEntryList (Some n)
                                      (CreateNewPacket base
                                         (TFileStat.fNextEntry fs)
                                         (fFirst base + fNum base
                                          - TFileStat.fNextEntry fs))
                                | None =>
                                    CreateNewPacket base
                                      (TFileStat.fNextEntry fs)
                                      (fFirst base + fNum base
                                       - TFileStat.fNextEntry fs)
                                end)) = Some (p', pkt))
      as (q' & Hv & He & Hsl & H').
    { destruct (TFileNode.GetNumberOfActiveFiles _ =? 0) in H.
      - exists (RemoveActiveNode (TFileStat.fNode fs) q).
        split; [sameview|]. done.
      - exists q. split; [sameview|]. done. }
    rewrite Hsl, Hs in H'. simpl in H'. simplify_eq.
    repeat split.
    + by destruct (fEntryList base).
    + done.
    + simpl. rewrite Hsl, list_fmap_insert. simpl. apply list_insert_id.
      by rewrite list_lookup_fmap, Hs.
    + left. repeat split; [done|by destruct (fEntryList base)|].
      exists nd. split; [done|].
      eapply (SameView_updSlave sl s); [by rewrite Hsl|done|done].
  - rewrite Hs in H. simpl in H. simplify_eq. repeat split.
    + by destruct (fEntryList base).
    + simpl. rewrite list_fmap_insert. simpl. apply list_insert_id.
      by rewrite list_lookup_fmap, Hs.
    + right. repeat split; [done|by destruct (fEntryList base)|].
      eapply (SameView_updSlave sl s); [done|done|apply SameView_refl].
Qed.

Lemma CarvePacket_Struct sl f p p' pkt :
  Struct p -> Avail p f -> CarvePacket sl f p = Some (p', pkt) ->
  Struct p' /\ FileOfWorker sl p' = FileOfWorker sl p.
Proof.
  intros [Hnodes Hcur] [(fs0 & Hfs0 & Hlive) Hreg] H.
  apply CarvePacket_inv in H
    as (s & fs & base & Hs & Hfs & Hb & _ & _ & Hcf & Hcase).
  assert (fs0 = fs) as -> by congruence. split.
  - destruct Hcase as [(_ & _ & nd & Hnd & Hv)|(_ & _ & Hv)];
      (eapply Struct_SameView; [exact Hv|]).
    + split.
      * intros m md. simpl. intros Hm.
        destruct (decide (m = TFileStat.fNode fs)) as [->|Hne].
        -- rewrite list_lookup_insert_eq in Hm by (by eapply lookup_lt_Some).
           simplify_eq. eapply RemoveActive_NodeOK; eauto.
        -- rewrite list_lookup_insert_ne in Hm by done.
           eapply NodeOK_file; eauto. right. split; [|eauto].
           intros Hin. apply Hne.
           destruct (Hnodes m md Hm) as (_ & Hfiles & _ & _ & Hact & _).
           destruct (Hact f Hin) as [Hin' _].
           destruct (Hfiles f Hin') as (fs' & ? & ?). congruence.
      * intros sl' s' g m md. simpl. intros Hs' Hg Hm.
        destruct (decide (m = TFileStat.fNode fs)) as [->|Hne].
        -- rewrite list_lookup_insert_eq in Hm by (by eapply lookup_lt_Some).
           simplify_eq. exact (Hcur _ _ _ _ _ Hs' Hg Hnd).
        -- rewrite list_lookup_insert_ne in Hm by done. eauto.
    + split.
      * intros m md. simpl. intros Hm.
        eapply NodeOK_file; eauto.
      * intros sl' s' g m md. simpl. eauto.
  - unfold FileOfWorker.
    assert ((TSlaveStat.fCurFile <$> fSlaveStats p') !! sl
            = (TSlaveStat.fCurFile <$> fSlaveStats p) !! sl) as Hl
      by congruence.
    rewrite !list_lookup_fmap in Hl.
    destruct (fSlaveStats p' !! sl), (fSlaveStats p !! sl); simplify_eq/=; done.
Qed.

End Carving.

(** ** The ranges cut from a file *)

Section Ranges.

Lemma Consecutive_snoc a ps b n :
  Consecutive a ps b -> 1 <= n -> Consecutive a (ps ++ [(b, n)]) (b + n).
Proof.
  induction 1 as [a|a m ps b Hm H IH]; intros Hn; simpl.
  - constructor; [done|constructor].
  - constructor; [done|]. by apply IH.
Qed.

Lemma Consecutive_le a ps b : Consecutive a ps b -> a <= b.
Proof. induction 1; lia. Qed.

Lemma Consecutive_lt a ps b : Consecutive a ps b -> ps <> [] -> a < b.
Proof.
  destruct 1 as [a|a m ps b Hm H]; [done|]. intros _.
  apply Consecutive_le in H. lia.
Qed.

Lemma Consecutive_nil_inv a b : Consecutive a [] b -> a = b.
Proof. by inversion 1. Qed.

(** Consecutive ranges lie inside [a, b), each is at least one entry
    long, a later one starts after an earlier one has ended, and together
    they cover [a, b). *)
Lemma Consecutive_elem a ps b x n :
  Consecutive a ps b -> (x, n) ∈ ps -> a <= x /\ x + n <= b /\ 1 <= n.
Proof.
  induction 1 as [a|a m ps b Hm H IH]; [set_solver|].
  intros Hin. apply elem_of_cons in Hin as [[= -> ->]|Hin].
  - apply Consecutive_le in H. lia.
  - apply IH in Hin. lia.
Qed.

Lemma Consecutive_ordered a ps b i j x n y m :
  Consecutive a ps b -> (i < j)%nat ->
  ps !! i = Some (x, n) -> ps !! j = Some (y, m) ->
  x < y /\ x + n <= y.
Proof.
  intros H. revert i j. induction H as [a|a k ps b Hk H IH]; [done|].
  intros [|i] [|j] Hij; try lia; simpl.
  - intros [= <- <-] Hj. apply list_elem_of_lookup_2 in Hj.
    eapply Consecutive_elem in Hj; [|done]. lia.
  - apply IH. lia.
Qed.

Lemma Consecutive_cover a ps b z :
  Consecutive a ps b ->
  (a <= z < b <-> exists x n, (x, n) ∈ ps /\ x <= z < x + n).
Proof.
  induction 1 as [a|a m ps b Hm H IH].
  - split; [lia|]. intros (x & n & Hin & _). set_solver.
  - split.
    + intros Hz. destruct (Z_lt_ge_dec z (a + m)) as [Hlt|Hge].
      * exists a, m. split; [set_solver|lia].
      * destruct IH as [IH _]. destruct IH as (x & n & Hin & Hx); [lia|].
        exists x, n. split; [set_solver|done].
    + intros (x & n & Hin & Hx).
      apply elem_of_cons in Hin as [[= -> ->]|Hin].
      * apply Consecutive_le in H. lia.
      * destruct IH as [_ IH]. specialize (IH (ex_intro _ x (ex_intro _ n
          (conj Hin Hx)))). lia.
Qed.

Lemma PacketsOf_snoc f log c :
  PacketsOf f (log ++ [c])
  = PacketsOf f log
    ++ (if decide (cFile c = f) then [(cFirst c, cNum c)] else []).
Proof.
  unfold PacketsOf. rewrite filter_app, fmap_app. f_equal.
  rewrite filter_cons. destruct (decide (cFile c = f)); done.
Qed.

End Ranges.

Section FilesInvariant.

Context `{FA : FloatArith} `{RT : Runtime}.

Lemma CarvePacket_FilesOK sl f p p' pkt log :
  FilesOK p log -> Avail p f ->
  (forall s, fSlaveStats p !! sl = Some s -> 1 <= CalculatePacketSize s p) ->
  CarvePacket sl f p = Some (p', pkt) ->
  FilesOK p' (log ++ [mkCarved f (fFirst pkt) (fNum pkt)]).
Proof.
  intros HF [(fs0 & Hfs0 & Hlive) _] Hsize H.
  apply CarvePacket_inv in H
    as (s & fs & base & Hs & Hfs & Hb & Hfirst & Helems & _ & Hcase).
  assert (fs0 = fs) as -> by congruence.
  specialize (Hsize s Hs).
  destruct (HF f fs Hfs) as (e & He & HOK).
  assert (e = base) as -> by congruence.
  rewrite Hlive in HOK. cbv zeta in HOK. destruct HOK as [Hcons Hlt].
  assert (exists fs',
            fileStats p' = <[f := fs']> (fileStats p)
            /\ TFileStat.fElement fs' = TFileStat.fElement fs
            /\ FileOK (elements p')
                 (log ++ [mkCarved f (fFirst pkt) (fNum pkt)]) f fs')
    as (fs' & Hfiles & Hel & HOK').
  { destruct Hcase as [(Hle & Hnum & nd & _ & (Hv & _))|(Hlt' & Hnum & (Hv & _))].
    - exists (TFileStat.SetDone fs). split; [done|]. split; [done|].
      exists base. rewrite Helems. split; [done|].
      rewrite PacketsOf_snoc. simpl. rewrite decide_True by done.
      exists (PacketsOf f log),
        (fFirst base + fNum base - TFileStat.fNextEntry fs).
      rewrite Hfirst, Hnum. repeat split; [done|lia|done].
    - exists (TFileStat.MoveNextEntry (CalculatePacketSize s p) fs).
      split; [done|]. split; [done|].
      exists base. rewrite Helems. split; [done|].
      rewrite PacketsOf_snoc. simpl. rewrite decide_True by done.
      rewrite Hlive, Hfirst, Hnum. split.
      + by apply Consecutive_snoc.
      + intros _. done. }
  intros g gs Hg. rewrite Hfiles in Hg.
  destruct (decide (g = f)) as [->|Hne].
  - rewrite list_lookup_insert_eq in Hg by (by eapply lookup_lt_Some).
    by simplify_eq.
  - rewrite list_lookup_insert_ne in Hg by done.
    destruct (HF g gs Hg) as (e & He' & HOKg).
    exists e. rewrite Helems. split; [done|].
    rewrite PacketsOf_snoc. simpl. rewrite decide_False by done.
    by rewrite app_nil_r.
Qed.

End FilesInvariant.

(** ** A call of [GetNextPacket] keeps the invariants *)

Section CallInvariant.

Context `{FA : FloatArith} `{RT : Runtime}.

Lemma FilePath_Struct sl r p q file :
  Struct p -> FilePath sl r p q file ->
  Struct q
  /\ (forall f, file = Some f -> Avail q f /\ FileOfWorker sl q = Some f)
  /\ fileStats q = fileStats p /\ elements q = elements p.
Proof.
  intros HS H.
  assert (forall p1, RecordReply sl r p = Some p1 ->
            Struct p1 /\ fileStats p1 = fileStats p
            /\ elements p1 = elements p) as Hrec.
  { intros p1 H1. split.
    - eapply Struct_SameView; [by eapply RecordReply_SameView|done].
    - apply Recorded_Frame_flags in H1 as (_ & _ & _ & ? & ?). done. }
  assert (forall p1 p2 file2, ReleaseFinished sl p1 = Some (p2, file2) ->
            Struct p1 ->
            Struct p2 /\ fileStats p2 = fileStats p1
            /\ elements p2 = elements p1) as Hrel.
  { intros p1 p2 file2 H2 HS1. split.
    - eapply Struct_SameView; [by eapply ReleaseFinished_SameView|done].
    - apply ReleaseFinished_Frame in H2 as (_&_&_&_&?&?&_). done. }
  destruct H as [Hv|p1 Hv H1 Hs|p1 p2 file Hv H1 Hs H2 Heq
                 |p1 p2 p3 Hv H1 Hs H2 Hne H3
                 |p1 p2 f Hv H1 Hs H2 Hne
                 |p1 p2 p3 f p4 Hv H1 Hs H2 Hne H3 H4].
  - done.
  - destruct (Hrec _ H1) as (? & ? & ?). done.
  - destruct (Hrec _ H1) as (HS1 & ? & ?).
    destruct (Hrel _ _ _ H2 HS1) as (? & ? & ?).
    split; [done|]. split; [done|]. split; congruence.
  - destruct (Hrec _ H1) as (HS1 & ? & ?).
    destruct (Hrel _ _ _ H2 HS1) as (HS2 & ? & ?).
    pose proof (ChooseFile_Frame _ _ _ _ _ H3) as (_&_&_&_&?&?&_).
    apply ChooseFile_Struct in H3 as [HS3 _]; [|done].
    split; [done|]. split; [done|]. split; congruence.
  - destruct (Hrec _ H1) as (HS1 & ? & ?).
    destruct (Hrel _ _ _ H2 HS1) as (HS2 & ? & ?).
    apply ReleaseFinished_Avail in H2 as (-> & Hav & Hw); [|done].
    split; [done|]. split; [|split; congruence].
    intros g [= <-]. done.
  - destruct (Hrec _ H1) as (HS1 & ? & ?).
    destruct (Hrel _ _ _ H2 HS1) as (HS2 & ? & ?).
    pose proof (ChooseFile_Frame _ _ _ _ _ H3) as (_&_&_&_&?&?&_).
    pose proof (AssignFile_Frame _ _ _ _ H4) as (_&_&_&_&?&?&_).
    apply ChooseFile_Struct in H3 as [HS3 Hav3]; [|done].
    apply AssignFile_Struct in H4 as (HS4 & Hav4 & Hw4); [|done|by apply Hav3].
    split; [done|]. split; [|split; congruence].
    intros g [= <-]. done.
Qed.

Lemma GetNextPacket_Inv sl r p p' res log :
  Inv p log -> PositiveSize sl r p ->
  GetNextPacket sl r p = Some (p', res) ->
  Inv p' (log ++ LogOf sl p' res) /\ elements p' = elements p.
Proof.
  intros [HS HF] Hpos H.
  apply GetNextPacket_inv in H as [[-> H]|(q & f & pkt & -> & H & Hc)].
  - apply FileForPacket_FilePath in H.
    apply (FilePath_Struct _ _ _ _ _ HS) in H as (HS' & _ & Hfs & Hel).
    unfold LogOf. rewrite app_nil_r. split; [|done]. split; [done|].
    intros f fs. rewrite Hfs, Hel. apply HF.
  - pose proof (Hpos q f) as Hsize. specialize (fun s => Hsize s H).
    apply FileForPacket_FilePath in H.
    apply (FilePath_Struct _ _ _ _ _ HS) in H as (HSq & Hav & Hfs & Hel).
    destruct (Hav f eq_refl) as [Havq Hw].
    assert (FilesOK q log) as HFq.
    { intros g gs. rewrite Hfs, Hel. apply HF. }
    pose proof (CarvePacket_FilesOK _ _ _ _ _ _ HFq Havq Hsize Hc) as HF'.
    pose proof (CarvePacket_counts _ _ _ _ _ Hc) as (_ & _ & Hel' & _).
    apply CarvePacket_Struct in Hc as [HS' Hw']; [|done..].
    unfold LogOf. rewrite Hw', Hw. split; [|congruence]. done.
Qed.

Lemma Run_Inv p0 p log :
  Inv p0 [] -> Run PositiveSize p0 p log ->
  Inv p log /\ elements p = elements p0.
Proof.
  intros H0. induction 1 as [|p log sl r p' res _ [IH IHe] Hok Hcall]; [done|].
  destruct (GetNextPacket_Inv _ _ _ _ _ _ IH Hok Hcall) as [? ?].
  split; [done|congruence].
Qed.

End CallInvariant.

(** ** The state the constructor builds *)

Section Construction.

Context `{FA : FloatArith} `{RT : Runtime}.

Lemma FindNode_Some nodes host n :
  FindNode nodes host = Some n -> is_Some (nodes !! n).
Proof.
  unfold FindNode. intros H. apply fmap_Some in H as ([i nd] & H & ->).
  apply list_find_Some in H as (H & _). simpl. eauto.
Qed.

Lemma NodeOfHost_spec host p n p' :
  NodeOfHost host p = (n, p') ->
  fileStats p' = fileStats p /\ elements p' = elements p
  /\ fProcessed p' = fProcessed p /\ fSlaveStats p' = fSlaveStats p
  /\ ((fFileNodes p' = fFileNodes p /\ is_Some (fFileNodes p !! n))
      \/ (n = length (fFileNodes p)
          /\ fFileNodes p' = fFileNodes p ++ [TFileNode.new host])).
Proof.
  unfold NodeOfHost. destruct (FindNode (fFileNodes p) host) as [m|] eqn:Hm;
    intros [= <- <-]; repeat split; auto.
  left. split; [done|]. by eapply FindNode_Some.
Qed.

Lemma FileElement_Built eid e e' rest p :
  Built (eid :: rest) p -> eid ∉ rest -> elements p !! eid = Some e ->
  Built rest (FileElement eid e' (set_elements (<[eid := e']> (elements p)) p)).
Proof.
  intros [Hnodes Hfiles] Hnew He. unfold FileElement.
  destruct (NodeOfHost _ _) as [node p1] eqn:HN.
  apply NodeOfHost_spec in HN as (Hfs & Hel & _ & _ & Hcase).
  simpl in Hfs, Hel, Hcase. unfold NodeAdd. simpl. rewrite Hfs.
  assert (forall n nd, fFileNodes p1 !! n = Some nd ->
            NoDup (TFileNode.fFiles nd)
            /\ forall f, f ∈ TFileNode.fFiles nd ->
                 exists fs, fileStats p !! f = Some fs
                            /\ TFileStat.fNode fs = n) as Hnodes1.
  { destruct Hcase as [[-> _]|[-> ->]]; [done|].
    intros n nd Hn. apply lookup_app_Some in Hn as [Hn|[_ Hn]]; [eauto|].
    apply list_lookup_singleton_Some in Hn as [_ <-]. simpl.
    split; [constructor|set_solver]. }
  split; simpl; rewrite ?Hel.
  - intros n nd'. destruct (decide (n = node)) as [->|Hne].
    + rewrite list_lookup_alter_eq, list_lookup_alter_eq.
      destruct (fFileNodes p1 !! node) as [nd|] eqn:Hnd; [|done].
      simpl. intros [= <-]. simpl. unfold TList.Add.
      destruct (Hnodes1 _ _ Hnd) as [Hdup Hknown]. split.
      * apply NoDup_app. split; [done|]. split; [|apply NoDup_singleton].
        intros f Hf Hf'. apply list_elem_of_singleton in Hf' as ->.
        destruct (Hknown _ Hf) as (fs & Hl & _).
        apply lookup_lt_Some in Hl. lia.
      * intros f Hf. apply elem_of_app in Hf as [Hf|Hf].
        -- destruct (Hknown _ Hf) as (fs & Hl & Hn). exists fs.
           split; [by apply lookup_app_l_Some|done].
        -- apply list_elem_of_singleton in Hf as ->.
           eexists. split; [apply list_lookup_middle; done|done].
    + rewrite !list_lookup_alter_ne by done. intros Hn.
      destruct (Hnodes1 _ _ Hn) as [Hdup Hknown]. split; [done|].
      intros f Hf. destruct (Hknown _ Hf) as (fs & Hl & Hn'). exists fs.
      split; [by apply lookup_app_l_Some|done].
  - intros f fs Hf. apply lookup_app_Some in Hf as [Hf|[_ Hf]].
    + destruct (Hfiles _ _ Hf) as (Hd & Hrest & e0 & He0 & Hnext).
      split; [done|]. split; [set_solver|]. exists e0. split; [|done].
      rewrite list_lookup_insert_ne; [done|set_solver].
    + apply list_lookup_singleton_Some in Hf as [_ <-]. simpl.
      split; [done|]. split; [done|]. exists e'. split; [|done].
      apply list_lookup_insert_eq. by eapply lookup_lt_Some.
Qed.

Lemma FileElement_counts eid e p :
  fProcessed (FileElement eid e p) = fProcessed p
  /\ fSlaveStats (FileElement eid e p) = fSlaveStats p
  /\ fValid (FileElement eid e p) = fValid p
  /\ fStop (FileElement eid e p) = fStop p.
Proof.
  unfold FileElement. destruct (NodeOfHost _ _) as [node p1] eqn:HN.
  unfold NodeOfHost in HN. destruct (FindNode _ _); by simplify_eq.
Qed.

Lemma RangeLoop_Built first num dset cur p p' :
  NoDup dset -> Built dset p ->
  RangeLoop first num dset cur p = Some p' ->
  Built [] p' /\ fProcessed p' = fProcessed p
  /\ fSlaveStats p' = fSlaveStats p /\ fValid p' = fValid p
  /\ fStop p' = fStop p.
Proof.
  intros Hdup. revert cur p.
  induction Hdup as [|eid rest Hnew Hdup IH]; intros cur p HB; simpl.
  - by intros [= <-].
  - destruct (elements p !! eid) as [e|] eqn:He; simpl; [|done].
    destruct (ApplyRange first num cur e) as [cur' [e'|]].
    + intros H. apply IH in H; [|by eapply FileElement_Built].
      destruct (FileElement_counts eid e'
                  (set_elements (<[eid := e']> (elements p)) p))
        as (E1 & E2 & E3 & E4).
      destruct H as (? & -> & -> & -> & ->). done.
    + apply IH. destruct HB as [Hn Hf]. split; [done|].
      intros f fs Hl. destruct (Hf _ _ Hl) as (? & ? & ?).
      split; [done|]. split; [set_solver|done].
Qed.

Lemma ResetSlave_fold slaves nodes done nodes' done' :
  foldl ResetSlave (nodes, done) slaves = (nodes', done') ->
  cursors <$> nodes' = cursors <$> nodes
  /\ TSlaveStat.fProcessed <$> done'
     = (TSlaveStat.fProcessed <$> done) ++ (TSlaveStat.fProcessed <$> slaves)
  /\ (Forall (fun s => TSlaveStat.fCurFile s = None) done ->
      Forall (fun s => TSlaveStat.fCurFile s = None) done').
Proof.
  revert nodes done. induction slaves as [|s slaves IH]; intros nodes done.
  - simpl. intros [= <- <-]. by rewrite app_nil_r.
  - cbn [foldl]. destruct (ResetSlave (nodes, done) s) as [n1 d1] eqn:HR.
    intros H. apply IH in H as (Hc & Hp & Hf). unfold ResetSlave in HR.
    destruct (FindNode nodes (TSlaveStat.GetName s)) as [fn|];
      simplify_eq; rewrite Hp, fmap_app, <- app_assoc.
    + split; [|split; [done|]].
      * rewrite Hc, (list_fmap_alter _ _ id); [by apply list_alter_id|].
        by apply Forall_true.
      * intros Hd. apply Hf, Forall_app. split; [done|]. by repeat constructor.
    + split; [done|]. split; [done|].
      intros Hd. apply Hf, Forall_app. split; [done|]. by repeat constructor.
Qed.

Lemma Reset_Inv p :
  Built [] p ->
  Inv (Reset p) []
  /\ fProcessed (Reset p) = fProcessed p
  /\ TSlaveStat.fProcessed <$> fSlaveStats (Reset p)
     = TSlaveStat.fProcessed <$> fSlaveStats p
  /\ elements (Reset p) = elements p.
Proof.
  intros [Hnodes Hfiles]. unfold Reset. cbv zeta.
  destruct (foldl ResetSlave _ _) as [nodes slaves] eqn:Hfold.
  simpl in Hfold. apply ResetSlave_fold in Hfold as (Hc & Hp & Hf).
  split; [|by repeat split]. split; [split|]; simpl.
  - intros n nd' Hn.
    assert ((cursors <$> nodes) !! n = Some (cursors nd')) as Hl
      by (by rewrite list_lookup_fmap, Hn).
    rewrite Hc, <- list_fmap_compose, list_lookup_fmap in Hl.
    destruct (fFileNodes p !! n) as [nd|] eqn:Hnd; simpl in Hl; [|done].
    apply (NodeOK_cursors _ _ (TFileNode.Reset nd)); [congruence|].
    destruct (Hnodes _ _ Hnd) as [Hdup Hknown].
    assert (forall f, f ∈ region (TFileNode.Reset nd) ->
                      f ∈ TFileNode.fFiles nd) as Hreg.
    { intros f Hf'. by apply region_elem in Hf'. }
    unfold NodeOK. simpl. repeat split; try done.
    + intros c Hc'. by apply head_Some_elem_of.
    + constructor.
    + set_solver.
    + set_solver.
    + intros f [Hf'|Hf']; [set_solver|]. apply Hreg in Hf'.
      destruct (Hknown _ Hf') as (fs & Hl' & _). exists fs. split; [done|].
      by destruct (Hfiles _ _ Hl') as (? & _).
  - intros sl s f n nd Hs Hcf. exfalso.
    assert (Forall (fun s => TSlaveStat.fCurFile s = None) slaves) as Hall
      by (apply Hf; constructor).
    rewrite Forall_lookup in Hall. specialize (Hall _ _ Hs). congruence.
  - intros f fs Hl. destruct (Hfiles _ _ Hl) as (Hd & _ & e & He & Hnext).
    exists e. split; [done|]. rewrite Hd. cbv zeta. simpl.
    rewrite Hnext. split; [constructor|done].
Qed.

(** The packetizer the constructor returns: its structure is sound, no
    packet has been cut from any of its files, and the processed counters,
    the global one and those of the workers, are all 0. *)
Lemma ctor_Inv dset dsetEntryList slaves first num maxSlaveCnt
  networkFasterThanHD baseLocalPreference p0 :
  TAdaptivePacketizer_ctor dset dsetEntryList slaves first num maxSlaveCnt
    networkFasterThanHD baseLocalPreference = Some p0 ->
  Inv p0 [] /\ fProcessed p0 = 0
  /\ Forall (fun s => TSlaveStat.fProcessed s = 0) (fSlaveStats p0).
Proof.
  unfold TAdaptivePacketizer_ctor. cbv zeta.
  destruct (RangeLoop _ _ _ _ _) as [p1|] eqn:H1; simpl; [|done].
  apply RangeLoop_Built in H1 as (HB & Hp & Hs & _);
    [|apply NoDup_seq|by split].
  simpl in Hp, Hs.
  set (p2 := match dsetEntryList with
             | Some n => set_fTotalEntries n p1
             | None => p1
             end).
  assert (Built [] p2 /\ fProcessed p2 = 0
          /\ fSlaveStats p2 = TSlaveStat.new <$> slaves) as (HB2 & Hp2 & Hs2).
  { subst p2. destruct dsetEntryList; done. }
  destruct (Reset_Inv _ HB2) as ([HS HF] & Hp3 & Hs3 & He3).
  assert (Forall (fun s => TSlaveStat.fProcessed s = 0)
                 (fSlaveStats (Reset p2))) as Hw.
  { apply Forall_fmap with (f := TSlaveStat.fProcessed) (P := fun z => z = 0).
    rewrite Hs3, Hs2, <- list_fmap_compose. apply Forall_fmap.
    by apply Forall_true. }
  destruct (CountRemoteFiles _) as [[a b] c].
  destruct (c =? 0); intros [= <-]; (split; [|split; [simpl; congruence|done]]);
    split; done.
Qed.

End Construction.

(** ** The packets of a file, and its cursor *)

Section Partition.

Context `{FA : FloatArith} `{RT : Runtime}.

(** What [FileOK] says of the packets of a file, whether it is done or
    not. *)
Lemma FileOK_packets elems log f fs e :
  FileOK elems log f fs -> elems !! TFileStat.fElement fs = Some e ->
  let ps := PacketsOf f log in
  let next := TFileStat.fNextEntry fs in
  let last := fFirst e + fNum e in
  exists qs,
    Consecutive (fFirst e) qs next
    /\ (qs <> [] -> next < last)
    /\ (TFileStat.fIsDone fs = false -> ps = qs)
    /\ (TFileStat.fIsDone fs = true -> ps = qs ++ [(next, last - next)]).
Proof.
  intros (e' & He' & H) He. assert (e' = e) as -> by congruence.
  cbv zeta in *. destruct (TFileStat.fIsDone fs).
  - destruct H as (qs & n & Hps & Hcons & Hn & Hlt). exists qs.
    repeat split; [done..|]. intros _. rewrite Hps. do 3 f_equal. lia.
  - destruct H as [Hcons Hlt]. exists (PacketsOf f log). by repeat split.
Qed.

End Partition.

(** Take a packetizer as the constructor returns it and any sequence
    of calls of [GetNextPacket] in which the packet size computed is at
    least one.  For every file, with [e] its element, the ranges
    [a, a + n) of the packets returned for it so far, in the order they
    were returned, are such that a later one starts after an earlier one
    and not before the earlier one ends, all of them lie within
    [fFirst e, fFirst e + fNum e), and once the file is done they cover
    that range exactly. *)
Theorem packets_partition_file `{FA : FloatArith} `{RT : Runtime}
  (dset : list TDSetElement) (dsetEntryList : option Z) (slaves : list TSlave)
  (first num maxSlaveCnt networkFasterThanHD : Z) (baseLocalPreference : FP)
  (p0 p : TAdaptivePacketizer) (log : list Carved)
  (f : nat) (fs : TFileStat.t) (e : TDSetElement) :
  TAdaptivePacketizer_ctor dset dsetEntryList slaves first num maxSlaveCnt
    networkFasterThanHD baseLocalPreference = Some p0 ->
  Run PositiveSize p0 p log ->
  fileStats p !! f = Some fs ->
  elements p !! TFileStat.fElement fs = Some e ->
  (forall i j a n b m,
     (i < j)%nat ->
     PacketsOf f log !! i = Some (a, n) -> PacketsOf f log !! j = Some (b, m) ->
     a < b /\ a + n <= b)
  /\ (forall a n x,
        (a, n) ∈ PacketsOf f log -> a <= x < a + n ->
        fFirst e <= x < fFirst e + fNum e)
  /\ (TFileStat.fIsDone fs = true ->
      forall x,
        fFirst e <= x < fFirst e + fNum e
        <-> exists a n, (a, n) ∈ PacketsOf f log /\ a <= x < a + n).
Proof.
  intros Hctor Hrun Hfs He.
  apply ctor_Inv in Hctor as (H0 & _).
  destruct (Run_Inv _ _ _ H0 Hrun) as [[_ HF] _].
  destruct (FileOK_packets _ _ _ _ _ (HF _ _ Hfs) He)
    as (qs & Hcons & Hlt & Hlive & Hdone).
  cbv zeta in *.
  set (next := TFileStat.fNextEntry fs) in *.
  set (last := fFirst e + fNum e) in *.
  assert (PacketsOf f log = qs
          \/ (PacketsOf f log = [(next, last - next)] /\ qs = []
              /\ next = fFirst e /\ TFileStat.fIsDone fs = true)
          \/ (PacketsOf f log = qs ++ [(next, last - next)]
              /\ Consecutive (fFirst e) (qs ++ [(next, last - next)]) last
              /\ TFileStat.fIsDone fs = true)) as Hcase.
  { destruct (TFileStat.fIsDone fs); [|by left; apply Hlive].
    right. destruct qs as [|q qs'].
    - left. apply Consecutive_nil_inv in Hcons. by rewrite Hdone.
    - right. split; [by apply Hdone|]. split; [|done].
      replace last with (next + (last - next)) at 2 by lia.
      apply Consecutive_snoc; [done|]. specialize (Hlt ltac:(done)). lia. }
  destruct Hcase as [Hps|[(Hps & -> & Hn & Hd)|(Hps & Hall & Hd)]];
    rewrite Hps.
  - split; [|split].
    + intros i j a n b m. by eapply Consecutive_ordered.
    + intros a n x Hin Hx.
      destruct (Consecutive_elem _ _ _ _ _ Hcons Hin) as (? & ? & ?).
      pose proof (Consecutive_le _ _ _ Hcons).
      destruct qs; [set_solver|]. specialize (Hlt ltac:(done)). lia.
    + intros Hd. rewrite Hdone in Hps by done.
      apply (f_equal length) in Hps. rewrite length_app in Hps.
      simpl in Hps. lia.
  - split; [|split].
    + intros [|i] [|j] a n b m Hij; try lia; simpl; intros _ Hj; by destruct j.
    + intros a n x Hin Hx. apply list_elem_of_singleton in Hin as [= -> ->].
      lia.
    + intros _ x. split.
      * intros Hx. exists next, (last - next). split; [set_solver|lia].
      * intros (a & n & Hin & Hx).
        apply list_elem_of_singleton in Hin as [= -> ->]. lia.
  - split; [|split].
    + intros i j a n b m. by eapply Consecutive_ordered.
    + intros a n x Hin Hx.
      destruct (Consecutive_elem _ _ _ _ _ Hall Hin) as (? & ? & ?).
      subst last. lia.
    + intros _ x. by apply Consecutive_cover.
Qed.

(** Claim C5, as amended.  In every state reached from the constructor
    by calls of [GetNextPacket] in which the packet size computed is at
    least one, the cursor of a file is not before the first entry of its
    element, and it is short of the end of the element unless no packet
    has been cut and the cursor is still at the first entry.  While the
    file is not done the packets returned for it cover the entries from
    the first one up to the cursor; when it is done, the cursor is where
    the last packet starts and that packet ends where the element ends. *)
Theorem cursor_within_element `{FA : FloatArith} `{RT : Runtime}
  (dset : list TDSetElement) (dsetEntryList : option Z) (slaves : list TSlave)
  (first num maxSlaveCnt networkFasterThanHD : Z) (baseLocalPreference : FP)
  (p0 p : TAdaptivePacketizer) (log : list Carved)
  (f : nat) (fs : TFileStat.t) (e : TDSetElement) :
  TAdaptivePacketizer_ctor dset dsetEntryList slaves first num maxSlaveCnt
    networkFasterThanHD baseLocalPreference = Some p0 ->
  Run PositiveSize p0 p log ->
  fileStats p !! f = Some fs ->
  elements p !! TFileStat.fElement fs = Some e ->
  fFirst e <= TFileStat.fNextEntry fs
  /\ (TFileStat.fNextEntry fs = fFirst e
      \/ TFileStat.fNextEntry fs < fFirst e + fNum e)
  /\ (TFileStat.fIsDone fs = false ->
      forall x,
        fFirst e <= x < TFileStat.fNextEntry fs
        <-> exists a n, (a, n) ∈ PacketsOf f log /\ a <= x < a + n)
  /\ (TFileStat.fIsDone fs = true ->
      exists n,
        last (PacketsOf f log) = Some (TFileStat.fNextEntry fs, n)
        /\ TFileStat.fNextEntry fs + n = fFirst e + fNum e).
Proof.
  intros Hctor Hrun Hfs He.
  apply ctor_Inv in Hctor as (H0 & _).
  destruct (Run_Inv _ _ _ H0 Hrun) as [[_ HF] _].
  destruct (FileOK_packets _ _ _ _ _ (HF _ _ Hfs) He)
    as (qs & Hcons & Hlt & Hlive & Hdone).
  cbv zeta in *. split; [by eapply Consecutive_le|]. split; [|split].
  - destruct qs as [|q qs']; [left|right].
    + apply Consecutive_nil_inv in Hcons. done.
    + by apply Hlt.
  - intros Hd x. rewrite Hlive by done. by apply Consecutive_cover.
  - intros Hd. eexists. rewrite Hdone by done. rewrite last_snoc.
    split; [done|lia].
Qed.

(** ** The processed counters of the workers *)

Section WorkerSum.

Context `{FA : FloatArith} `{RT : Runtime}.

Lemma sum_insert (l : list Z) i x y :
  l !! i = Some x -> foldr Z.add 0 (<[i := y]> l) = foldr Z.add 0 l - x + y.
Proof.
  revert i. induction l as [|a l IH]; intros [|i]; simpl; try done.
  - intros [= ->]. lia.
  - intros H. rewrite (IH _ H). lia.
Qed.

Lemma sum_zero (l : list Z) : Forall (fun z => z = 0) l -> foldr Z.add 0 l = 0.
Proof. induction 1; simpl; lia. Qed.

(** What a call does to the counters: nothing, or what recording the
    reply does. *)
Lemma GetNextPacket_recorded sl r p p' res :
  GetNextPacket sl r p = Some (p', res) ->
  (fProcessed p' = fProcessed p
   /\ TSlaveStat.fProcessed <$> fSlaveStats p'
      = TSlaveStat.fProcessed <$> fSlaveStats p)
  \/ (exists p1,
        RecordReply sl r p = Some p1
        /\ fProcessed p' = fProcessed p1
        /\ TSlaveStat.fProcessed <$> fSlaveStats p'
           = TSlaveStat.fProcessed <$> fSlaveStats p1).
Proof.
  intros H. destruct (fValid p) eqn:Hv.
  - right.
    apply GetNextPacket_inv in H as [[-> H]|(q & f & pkt & -> & H & Hc)];
      apply FileForPacket_FilePath in H;
      apply FilePath_Frame in H as (p1 & H1 & HF); try done;
      exists p1; (split; [done|]);
      destruct HF as (Hp & _ & _ & _ & _ & _ & Hs & _).
    + done.
    + apply CarvePacket_counts in Hc as (Hp' & _ & _ & Hs' & _).
      split; congruence.
  - left. unfold GetNextPacket, FileForPacket in H. rewrite Hv in H.
    simpl in H. by simplify_eq.
Qed.

End WorkerSum.

(** ** Validation: what a reply does *)

(** Claim C4, as amended.  A message handled by [ValidateFiles] while
    the packetizer is valid has one of these effects.  [kPROOF_LOGFILE]
    and [kPROOF_LOGDONE] leave the packetizer valid and the dataset and
    the client alone.  A failed receive, [kPROOF_FATAL] and an unexpected
    message invalidate the packetizer.  A [kPROOF_GETENTRIES] reply for
    the element of the file the worker is on: with [entries <= 0] the
    element is removed from the dataset, the client is sent a message when
    there is a proof server, and the packetizer stays valid; with
    [entries > 0] no element is removed and no message is sent, and the
    packetizer is invalidated, the file being set done, exactly when the
    element has no entry list and its first entry is beyond [entries]. *)
Theorem HandleReply_effect `{FA : FloatArith} `{RT : Runtime}
  (slave : nat) (reply : ValidationReply) (v v' : Validation) :
  HandleReply slave reply v = Some v' ->
  fValid (vPacketizer v) = true ->
  match reply with
  | kPROOF_LOGFILE _ | kPROOF_LOGDONE =>
      fValid (vPacketizer v') = true /\ vDSet v' = vDSet v
      /\ vClient v' = vClient v
  | RecvFailed | kPROOF_FATAL | OtherMessage _ =>
      fValid (vPacketizer v') = false /\ vDSet v' = vDSet v
      /\ vClient v' = vClient v /\ vBad v' = vBad v ++ [slave]
  | kPROOF_GETENTRIES entries objname =>
      exists s f fs e,
        fSlaveStats (vPacketizer v) !! slave = Some s
        /\ TSlaveStat.fCurFile s = Some f
        /\ fileStats (vPacketizer v) !! f = Some fs
        /\ elements (vPacketizer v) !! TFileStat.fElement fs = Some e
        /\ if 0 <? entries then
             vDSet v' = vDSet v /\ vClient v' = vClient v
             /\ if bool_decide (fEntryList e = None) && (entries <? fFirst e)
                then fValid (vPacketizer v') = false
                     /\ fileStats (vPacketizer v')
                        = <[f := TFileStat.SetDone fs]>
                            (fileStats (vPacketizer v))
                else fValid (vPacketizer v') = true
                     /\ fileStats (vPacketizer v') = fileStats (vPacketizer v)
           else
             vDSet v' = TList.Remove (vDSet v) (TFileStat.fElement fs)
             /\ fValid (vPacketizer v') = true
             /\ fileStats (vPacketizer v') = fileStats (vPacketizer v)
             /\ vClient v'
                = if vProofServ v
                  then vClient v
                       ++ [("Cannot get entries for file: " ++ fName e
                            ++ " - skipping")%string]
                  else vClient v
  end.
Proof.
  unfold HandleReply. intros H Hv.
  destruct reply as [| |size| |entries objname|what];
    try (simplify_eq; simpl; by repeat split);
    try (unfold Activate in H; case_match; simplify_eq; by repeat split).
  cbv zeta in H. simpl in H.
  destruct (fSlaveStats (vPacketizer v) !! slave) as [s|] eqn:Hs;
    simpl in H; [|done].
  destruct (TSlaveStat.fCurFile s) as [f|] eqn:Hf; simpl in H; [|done].
  destruct (fileStats (vPacketizer v) !! f) as [fs|] eqn:Hfs;
    simpl in H; [|done].
  destruct (elements (vPacketizer v) !! TFileStat.GetElement fs) as [e|] eqn:He;
    simpl in H; [|done].
  destruct (fFileNodes (vPacketizer v) !! TFileStat.GetNode fs) as [nd|];
    simpl in H; [|done].
  destruct (TFileNode.DecExtSlaveCnt (TSlaveStat.GetName s) nd) as [nd'|];
    simpl in H; [|done].
  exists s, f, fs, e. do 4 (split; [done|]).
  destruct (0 <? entries).
  - destruct objname as [name|]; simpl in H;
      (destruct (fEntryList e) as [n|]; simpl;
       [simplify_eq; simpl; by repeat split|]);
      destruct (entries <? fFirst e); simplify_eq; simpl; by repeat split.
  - simplify_eq. simpl. repeat split; [done|].
    by destruct (vProofServ v), objname.
Qed.

(** ** The fraction of remote files *)

(** Claim C9.  What the constructor records as the fraction of remote
    files is the quotient of the integer division of the number of files
    on nodes without a worker by the number of all files, not their ratio:
    it is 0 whenever some but not all of the files are remote. *)
Theorem remote_fraction_is_integer_quotient
  `{FA : FloatArith} `{RT : Runtime}
  (dset : list TDSetElement) (dsetEntryList : option Z) (slaves : list TSlave)
  (first num maxSlaveCnt networkFasterThanHD : Z) (baseLocalPreference : FP)
  (p0 : TAdaptivePacketizer) :
  TAdaptivePacketizer_ctor dset dsetEntryList slaves first num maxSlaveCnt
    networkFasterThanHD baseLocalPreference = Some p0 ->
  fValid p0 = true ->
  exists noRemoteFiles eventsOnRemLoc totalNumberOfFiles,
    CountRemoteFiles (fFileNodes p0)
    = (noRemoteFiles, eventsOnRemLoc, totalNumberOfFiles)
    /\ fFractionOfRemoteFiles p0
       = fp_store (fp_of_Z (noRemoteFiles ÷ totalNumberOfFiles))
    /\ (0 <= noRemoteFiles < totalNumberOfFiles ->
        fFractionOfRemoteFiles p0 = fp_store (fp_of_Z 0)).
Proof.
  unfold TAdaptivePacketizer_ctor. cbv zeta.
  destruct (RangeLoop _ _ _ _ _) as [p1|]; simpl; [|done].
  set (p2 := Reset _).
  destruct (CountRemoteFiles (fFileNodes p2)) as [[nr ev] tot] eqn:Hc.
  destruct (tot =? 0); intros [= <-]; simpl; [done|]. intros _.
  exists nr, ev, tot. split; [done|]. split; [done|].
  intros Hlt. unfold RemoteFilesQuotient. by rewrite Z.quot_small.
Qed.

(** ** The size of a packet *)

Section PacketSize.

Context `{FA : FloatArith} `{RT : Runtime}.

(** The size is at least one before it is returned as an [Int_t]. *)
Lemma CalculatePacketSize_num_pos s p : 1 <= CalculatePacketSize_num s p.
Proof.
  unfold CalculatePacketSize_num. cbv zeta.
  match goal with
  | |- 1 <= (if ?n <? 1 then _ else _) => destruct (Z.ltb_spec n 1); lia
  end.
Qed.

(** A size that fits an [Int_t] is returned as it is. *)
Lemma CalculatePacketSize_fits s p :
  CalculatePacketSize_num s p < 2 ^ 31 ->
  CalculatePacketSize s p = CalculatePacketSize_num s p
  /\ 1 <= CalculatePacketSize s p.
Proof.
  intros Hlt. pose proof (CalculatePacketSize_num_pos s p) as Hpos.
  unfold CalculatePacketSize. rewrite Int_t_of_small by lia. by split.
Qed.

Lemma PositiveSize_fits sl r p :
  (forall q f s,
     FileForPacket sl r p = Some (q, Some f) -> fSlaveStats q !! sl = Some s ->
     CalculatePacketSize_num s q < 2 ^ 31) ->
  PositiveSize sl r p.
Proof.
  intros Hfit q f s Hq Hs. by apply CalculatePacketSize_fits, (Hfit q f s).
Qed.

(** [CalculatePacketSize] returns at least one, the size it has
    computed, when that size fits an [Int_t]. *)
Lemma CalculatePacketSize_at_least_one s p :
  CalculatePacketSize_num s p < 2 ^ 31 ->
  1 <= CalculatePacketSize s p
  /\ CalculatePacketSize s p = CalculatePacketSize_num s p.
Proof. intros Hlt. by destruct (CalculatePacketSize_fits s p Hlt). Qed.

End PacketSize.

(** ** The loops over the lists of nodes

    The loops of [GetNextUnAlloc] and [GetNextActive] are modelled with
    a bound on their turns, the length of the list they go through.  When
    the sort permutes the list the bound is never what ends the loop: a
    turn more changes nothing. *)

Section Turns.

Context `{FA : FloatArith} `{RT : Runtime}.

Hypothesis Sort_perm : forall cmp l, TList_Sort cmp l ≡ₚ l.

Lemma Sort_nil cmp : TList_Sort cmp [] = [].
Proof. apply Permutation_nil_r. by rewrite Sort_perm. Qed.

Lemma NextNode_empty p : fUnAllocated p = [] -> NextNode p = Some (p, None).
Proof.
  intros He. unfold NextNode. cbv zeta. simpl. rewrite He, Sort_nil. simpl.
  destruct p. simpl in He. by subst.
Qed.

Lemma NextNode_head p p' n :
  NextNode p = Some (p', Some n) ->
  exists t, fUnAllocated p' = n :: t /\ S (length t) = length (fUnAllocated p).
Proof.
  unfold NextNode. cbv zeta. simpl.
  pose proof (Sort_perm (NodeCompare p) (fUnAllocated p)) as Hperm.
  destruct (TList_Sort (NodeCompare p) (fUnAllocated p)) as [|m t] eqn:Hs;
    simpl; [done|].
  intros H. apply Permutation_length in Hperm. simpl in Hperm.
  destruct (fFileNodes p !! m); simpl in H; [|done].
  case_match; simplify_eq. simpl. by exists t.
Qed.

(** With as many turns as [fUnAllocated] has nodes, one turn more
    changes nothing. *)
Lemma GetNextUnAlloc_loop_turn k p :
  (length (fUnAllocated p) <= k)%nat ->
  GetNextUnAlloc_loop (S k) p = GetNextUnAlloc_loop k p.
Proof.
  revert p. induction k as [|k IH]; intros p Hlen.
  - assert (fUnAllocated p = []) as He by (apply nil_length_inv; lia).
    simpl. by rewrite NextNode_empty.
  - change (GetNextUnAlloc_loop (S (S k)) p)
      with ('(p1, node) ← NextNode p;
            match node with
            | None => Some (p1, None)
            | Some n =>
                '(p2, file) ← NodeNextUnAlloc n p1;
                match file with
                | Some f => Some (p2, Some (n, f))
                | None => GetNextUnAlloc_loop (S k) p2
                end
            end).
    change (GetNextUnAlloc_loop (S k) p)
      with ('(p1, node) ← NextNode p;
            match node with
            | None => Some (p1, None)
            | Some n =>
                '(p2, file) ← NodeNextUnAlloc n p1;
                match file with
                | Some f => Some (p2, Some (n, f))
                | None => GetNextUnAlloc_loop k p2
                end
            end).
    destruct (NextNode p) as [[p1 [n|]]|] eqn:H1; simpl; try done.
    destruct (NodeNextUnAlloc n p1) as [[p2 [f|]]|] eqn:H2; simpl; try done.
    apply IH. apply NextNode_head in H1 as (t & Ht & Hl).
    unfold NodeNextUnAlloc in H2.
    destruct (fFileNodes p1 !! n) as [nd|]; simpl in H2; [|done].
    destruct (TFileNode.GetNextUnAlloc nd) as [nd' file].
    simplify_eq. simpl. rewrite Ht, Remove_head. lia.
Qed.

(** The loop of [GetNextUnAlloc(0)] run for [k] turns, [k] at least
    the length of [fUnAllocated], gives what it gives within that many
    turns: the bound of the model is enough. *)
Lemma GetNextUnAlloc_loop_enough k p :
  (length (fUnAllocated p) <= k)%nat ->
  GetNextUnAlloc_loop k p
  = GetNextUnAlloc_loop (length (fUnAllocated p)) p.
Proof.
  induction k as [|k IH]; intros Hlen.
  - by replace (length (fUnAllocated p)) with 0%nat by lia.
  - destruct (decide (length (fUnAllocated p) = S k)) as [->|Hne]; [done|].
    rewrite GetNextUnAlloc_loop_turn by lia. apply IH. lia.
Qed.

Lemma NextActiveNode_empty p :
  fActive p = [] -> NextActiveNode p = Some (p, None).
Proof.
  intros He. unfold NextActiveNode. cbv zeta. simpl. rewrite He, Sort_nil.
  simpl. destruct p. simpl in He. by subst.
Qed.

Lemma NextActiveNode_head p p' n :
  NextActiveNode p = Some (p', Some n) ->
  exists t, fActive p' = n :: t /\ S (length t) = length (fActive p)
            /\ fFileNodes p' = fFileNodes p.
Proof.
  unfold NextActiveNode. cbv zeta. simpl.
  pose proof (Sort_perm (NodeCompare p) (fActive p)) as Hperm.
  destruct (TList_Sort (NodeCompare p) (fActive p)) as [|m t] eqn:Hs;
    simpl; [done|].
  intros H. apply Permutation_length in Hperm. simpl in Hperm.
  destruct (fFileNodes p !! m); simpl in H; [|done].
  case_match; simplify_eq. simpl. by exists t.
Qed.

(** With as many turns as [fActive] has nodes, one turn more changes
    nothing. *)
Lemma GetNextActive_loop_turn k p :
  (length (fActive p) <= k)%nat ->
  GetNextActive_loop (S k) p = GetNextActive_loop k p.
Proof.
  revert p. induction k as [|k IH]; intros p Hlen.
  - assert (fActive p = []) as He by (apply nil_length_inv; lia).
    simpl. by rewrite NextActiveNode_empty.
  - change (GetNextActive_loop (S (S k)) p)
      with ('(p1, node) ← NextActiveNode p;
            match node with
            | None => Some (p1, None)
            | Some n =>
                nd ← fFileNodes p1 !! n;
                let '(nd', file) := TFileNode.GetNextActive nd in
                let p2 := updNode n nd' p1 in
                match file with
                | Some f => Some (p2, Some f)
                | None => GetNextActive_loop (S k) (RemoveActiveNode n p2)
                end
            end).
    change (GetNextActive_loop (S k) p)
      with ('(p1, node) ← NextActiveNode p;
            match node with
            | None => Some (p1, None)
            | Some n =>
                nd ← fFileNodes p1 !! n;
                let '(nd', file) := TFileNode.GetNextActive nd in
                let p2 := updNode n nd' p1 in
                match file with
                | Some f => Some (p2, Some f)
                | None => GetNextActive_loop k (RemoveActiveNode n p2)
                end
            end).
    destruct (NextActiveNode p) as [[p1 [n|]]|] eqn:H1; simpl; try done.
    destruct (fFileNodes p1 !! n) as [nd|]; simpl; [|done].
    destruct (TFileNode.GetNextActive nd) as [nd' [f|]]; [done|].
    apply IH. apply NextActiveNode_head in H1 as (t & Ht & Hl & _).
    simpl. rewrite Ht, Remove_head. lia.
Qed.

(** The loop of [GetNextActive] run for [k] turns, [k] at least the
    length of [fActive], gives what it gives within that many turns. *)
Lemma GetNextActive_loop_enough k p :
  (length (fActive p) <= k)%nat ->
  GetNextActive_loop k p = GetNextActive_loop (length (fActive p)) p.
Proof.
  induction k as [|k IH]; intros Hlen.
  - by replace (length (fActive p)) with 0%nat by lia.
  - destruct (decide (length (fActive p) = S k)) as [->|Hne]; [done|].
    rewrite GetNextActive_loop_turn by lia. apply IH. lia.
Qed.

End Turns.
(** * Further properties of the code *)

(** ** The files of a node *)

Section NodeWalks.
Import TFileNode.

Lemma After_lookup l i c :
  NoDup l -> l !! i = Some c -> TList.After l c = l !! S i.
Proof.
  intros Hnd. revert i. induction Hnd as [|x t Hx Ht IH]; intros i; [done|].
  simpl. destruct i as [|i]; simpl.
  - intros [= ->]. rewrite bool_decide_eq_true_2 by done. apply head_lookup.
  - intros Hi. rewrite bool_decide_eq_false_2; [by apply IH|].
    intros ->. apply Hx. by eapply list_elem_of_lookup_2.
Qed.

Lemma GetNextUnAlloc_at nd i c :
  NoDup (fFiles nd) -> fFiles nd !! i = Some c ->
  fUnAllocFileNext nd = Some c ->
  exists nd',
    GetNextUnAlloc nd = (nd', Some c)
    /\ fFiles nd' = fFiles nd
    /\ fUnAllocFileNext nd' = fFiles nd !! S i
    /\ fActFiles nd' = fActFiles nd ++ [c]
    /\ counters nd' = counters nd.
Proof.
  intros Hnd Hi Hc. unfold GetNextUnAlloc. rewrite Hc.
  eexists. split; [reflexivity|]. simpl. repeat split.
  by apply After_lookup.
Qed.

Lemma GetNextUnAlloc_times_from k nd i nd' fs :
  NoDup (fFiles nd) ->
  fUnAllocFileNext nd = fFiles nd !! i ->
  GetNextUnAlloc_times k nd = (nd', fs) ->
  fs = take k (drop i (fFiles nd))
  /\ fFiles nd' = fFiles nd
  /\ fUnAllocFileNext nd' = fFiles nd !! (i + length fs)%nat
  /\ fActFiles nd' = fActFiles nd ++ fs
  /\ counters nd' = counters nd.
Proof.
  intros Hnd. revert nd i nd' fs Hnd.
  induction k as [|k IH]; intros nd i nd' fs Hnd Hc; simpl.
  - intros [= <- <-]. simpl. rewrite Nat.add_0_r, app_nil_r. done.
  - destruct (fFiles nd !! i) as [c|] eqn:Hi.
    + destruct (GetNextUnAlloc_at nd i c Hnd Hi Hc)
        as (nd1 & -> & Hf1 & Hc1 & Ha1 & Hn1).
      destruct (GetNextUnAlloc_times k nd1) as [nd2 fs2] eqn:Hk.
      intros [= <- <-].
      apply (IH nd1 (S i)) in Hk as (-> & Hf2 & Hc2 & Ha2 & Hn2);
        [|by rewrite Hf1|by rewrite Hf1].
      rewrite Hf1 in *. repeat split.
      * rewrite (drop_S _ c i) by done. done.
      * done.
      * rewrite Hc2. simpl. f_equal. lia.
      * rewrite Ha2, Ha1, <- app_assoc. done.
      * congruence.
    + unfold GetNextUnAlloc. rewrite Hc. intros [= <- <-].
      rewrite drop_ge by (by apply lookup_ge_None). rewrite take_nil. simpl.
      rewrite Nat.add_0_r, app_nil_r. repeat split; congruence.
Qed.

(** After [Reset], successive calls of [GetNextUnAlloc] hand out the
    files of the node, each once and in the order they were added, make
    them the active files in that order, and return 0 from then on. *)
Theorem Reset_GetNextUnAlloc_all nd k :
  NoDup (fFiles nd) -> (length (fFiles nd) <= k)%nat ->
  exists nd',
    GetNextUnAlloc_times k (Reset nd) = (nd', fFiles nd)
    /\ fActFiles nd' = fFiles nd
    /\ GetNextUnAlloc nd' = (nd', None).
Proof.
  intros Hnd Hk.
  destruct (GetNextUnAlloc_times k (Reset nd)) as [nd' fs] eqn:H.
  apply (GetNextUnAlloc_times_from k (Reset nd) 0) in H
    as (Hfs & Hf & Hc & Ha & _); [|done|apply head_lookup].
  simpl in *. rewrite take_ge in Hfs by done. subst fs.
  exists nd'. repeat split; [done|].
  unfold GetNextUnAlloc. by rewrite Hc, lookup_ge_None_2.
Qed.

Lemma GetNextActive_at nd i c :
  NoDup (fActFiles nd) -> fActFiles nd !! i = Some c ->
  fActFileNext nd = Some c ->
  exists nd',
    GetNextActive nd = (nd', Some c)
    /\ fActFiles nd' = fActFiles nd
    /\ fActFileNext nd'
       = fActFiles nd !! (S i mod length (fActFiles nd))%nat
    /\ fFiles nd' = fFiles nd /\ fUnAllocFileNext nd' = fUnAllocFileNext nd
    /\ counters nd' = counters nd.
Proof.
  intros Hnd Hi Hc. unfold GetNextActive. rewrite Hc.
  eexists. split; [reflexivity|]. simpl. repeat split.
  rewrite (After_lookup _ i c) by done.
  pose proof (lookup_lt_Some _ _ _ Hi) as Hlt.
  destruct (fActFiles nd !! S i) as [d|] eqn:Hd.
  - apply lookup_lt_Some in Hd as Hlt'. by rewrite Nat.mod_small.
  - apply lookup_ge_None in Hd.
    replace (S i) with (length (fActFiles nd)) by lia.
    rewrite Nat.Div0.mod_same. apply head_lookup.
Qed.

(** [GetNextActive] is a round robin over the active files: with the
    cursor on the file at position [i], the call number [j] returns the
    file at position [(i + j) mod n], [n] being the number of active
    files, which does not change. *)
Theorem GetNextActive_round_robin nd i c k nd' fs :
  NoDup (fActFiles nd) -> fActFiles nd !! i = Some c ->
  fActFileNext nd = Some c ->
  GetNextActive_times k nd = (nd', fs) ->
  length fs = k
  /\ (forall j, (j < k)%nat ->
        fs !! j = fActFiles nd !! ((i + j) mod length (fActFiles nd))%nat)
  /\ fActFileNext nd'
     = fActFiles nd !! ((i + k) mod length (fActFiles nd))%nat
  /\ fActFiles nd' = fActFiles nd.
Proof.
  revert nd i c nd' fs. induction k as [|k IH]; intros nd i c nd' fs Hnd Hi Hc.
  - simpl. intros [= <- <-]. pose proof (lookup_lt_Some _ _ _ Hi).
    rewrite Nat.add_0_r, Nat.mod_small by done.
    repeat split; [|congruence]. intros j Hj. lia.
  - simpl.
    destruct (GetNextActive_at nd i c Hnd Hi Hc)
      as (nd1 & -> & Ha1 & Hc1 & _).
    destruct (GetNextActive_times k nd1) as [nd2 fs2] eqn:Hk.
    intros [= <- <-].
    pose proof (lookup_lt_Some _ _ _ Hi) as Hlt.
    set (n := length (fActFiles nd)) in *.
    assert ((S i mod n < n)%nat) as Hm by (apply Nat.mod_upper_bound; lia).
    destruct (lookup_lt_is_Some_2 (fActFiles nd) (S i mod n) Hm) as [d Hd].
    apply (IH nd1 (S i mod n)%nat d) in Hk as (Hl & Hj & Hc2 & Ha2);
      [|by rewrite Ha1|by rewrite Ha1|by rewrite Hc1, Hd].
    rewrite Ha1 in *. fold n in Hj, Hc2.
    split; [simpl; lia|]. split; [|split; [|done]].
    + intros [|j] Hjk; simpl.
      * by rewrite Nat.add_0_r, Nat.mod_small.
      * rewrite Hj by lia. f_equal.
        rewrite Nat.Div0.add_mod_idemp_l. f_equal. lia.
    + rewrite Hc2. f_equal.
      rewrite Nat.Div0.add_mod_idemp_l. f_equal. lia.
Qed.

End NodeWalks.

Section NodeWalks2.
Import TFileNode.

Lemma Remove_delete l i f :
  NoDup l -> l !! i = Some f -> TList.Remove l f = delete i l.
Proof.
  intros Hnd. revert i. induction Hnd as [|x t Hx Ht IH]; intros i; [done|].
  simpl. destruct i as [|i]; simpl.
  - intros [= ->]. by rewrite bool_decide_eq_true_2.
  - intros Hi. rewrite bool_decide_eq_false_2; [by rewrite (IH i)|].
    intros ->. apply Hx. by eapply list_elem_of_lookup_2.
Qed.

(** [RemoveActive(file)] takes the file at position [i] off the active
    files and leaves the others in their order.  A cursor on another file
    stays there; a cursor on the file itself moves to the file that
    followed it, to the first file when none did, and is 0 when no active
    file is left. *)
Theorem RemoveActive_cursor nd i f :
  NoDup (fActFiles nd) -> fActFiles nd !! i = Some f ->
  let nd' := RemoveActive f nd in
  fActFiles nd' = delete i (fActFiles nd)
  /\ (fActFileNext nd = Some f ->
      fActFileNext nd'
      = fActFiles nd' !! (i mod length (fActFiles nd'))%nat)
  /\ (forall c, fActFileNext nd = Some c -> c <> f ->
        fActFileNext nd' = Some c)
  /\ fFiles nd' = fFiles nd /\ fUnAllocFileNext nd' = fUnAllocFileNext nd
  /\ counters nd' = counters nd.
Proof.
  intros Hnd Hi. cbv zeta. unfold RemoveActive. simpl.
  rewrite (Remove_delete _ i f) by done.
  split; [done|]. split; [|split; [|done]].
  - intros Hc. rewrite Hc, bool_decide_eq_true_2 by done.
    rewrite (After_lookup _ i f) by done.
    pose proof (lookup_lt_Some _ _ _ Hi) as Hlt.
    assert (length (delete i (fActFiles nd)) = pred (length (fActFiles nd)))
      as Hlen by (rewrite length_delete by eauto; lia).
    assert (delete i (fActFiles nd) !! i = fActFiles nd !! S i) as Hd
      by (by rewrite list_lookup_delete_ge by lia).
    destruct (fActFiles nd !! S i) as [d|] eqn:Hs.
    + apply lookup_lt_Some in Hs. rewrite Nat.mod_small by lia. done.
    + apply lookup_ge_None in Hs.
      replace (length (delete i (fActFiles nd))) with i by lia.
      rewrite Nat.Div0.mod_same. apply head_lookup.
  - intros c Hc Hne. rewrite Hc.
    rewrite bool_decide_eq_false_2 by congruence. done.
Qed.

(** The files added to a new node come out of [GetNextUnAlloc] in the
    order they were added. *)
Theorem Add_GetNextUnAlloc_fifo name fs k :
  NoDup fs -> (length fs <= k)%nat ->
  exists nd',
    GetNextUnAlloc_times k (foldl (fun n f => Add f n) (new name) fs)
    = (nd', fs)
    /\ GetNextUnAlloc nd' = (nd', None).
Proof.
  intros Hnd Hk.
  assert (forall l nd,
            fUnAllocFileNext nd = head (fFiles nd) ->
            let nd' := foldl (fun n f => Add f n) nd l in
            fFiles nd' = fFiles nd ++ l
            /\ fUnAllocFileNext nd' = head (fFiles nd ++ l)) as Hfold.
  { induction l as [|f l IH]; intros nd Hc; cbv zeta; simpl.
    - by rewrite app_nil_r.
    - destruct (IH (Add f nd)) as [Hf Hh].
      + unfold Add, TList.Add. simpl. rewrite Hc.
        destruct (fFiles nd); done.
      + cbv zeta in Hf, Hh. rewrite Hf, Hh. unfold Add, TList.Add. simpl.
        by rewrite <- app_assoc. }
  destruct (Hfold fs (new name) eq_refl) as [Hf Hc]. cbv zeta in Hf, Hc.
  simpl in Hf, Hc.
  set (nd := foldl (fun n f => Add f n) (new name) fs) in *.
  destruct (GetNextUnAlloc_times k nd) as [nd' out] eqn:H.
  apply (GetNextUnAlloc_times_from k nd 0) in H
    as (Hfs & Hf' & Hc' & _); [|by rewrite Hf|by rewrite Hc, Hf, head_lookup].
  rewrite Hf in *. simpl in Hfs. rewrite take_ge in Hfs by done. subst out.
  exists nd'. split; [done|].
  unfold GetNextUnAlloc. by rewrite Hc', lookup_ge_None_2.
Qed.

(** A worker counted on a node ([IncExtSlaveCnt], [IncRunSlaveCnt]) and
    taken off it again ([DecExtSlaveCnt], [DecRunSlaveCnt]) leaves the node
    as it was; taking off a worker that is not counted fails the
    assertion of [DecRunSlaveCnt]. *)
Theorem Inc_Dec_counts slave nd :
  0 <= fExtSlaveCnt nd -> 0 <= fRunSlaveCnt nd ->
  (nd1 ← DecExtSlaveCnt slave (IncRunSlaveCnt (IncExtSlaveCnt slave nd));
   DecRunSlaveCnt nd1) = Some nd
  /\ (fRunSlaveCnt nd = 0 -> DecRunSlaveCnt nd = None)
  /\ (fExtSlaveCnt nd = 0 -> fNodeName nd <> slave ->
      DecExtSlaveCnt slave nd = None).
Proof.
  intros He Hr. destruct nd as [name fs un act an my ext run pr ev].
  simpl in *. split; [|split].
  - unfold DecExtSlaveCnt, IncExtSlaveCnt, IncRunSlaveCnt, DecRunSlaveCnt.
    simpl. destruct (bool_decide (name ≠ slave)) eqn:Hb; simpl;
      rewrite ?Hb; simpl;
      repeat match goal with
             | |- context [0 <=? ?x] =>
                 destruct (Z.leb_spec 0 x); simpl; try lia
             end; unfold set_counters; simpl; do 2 f_equal; lia.
  - intros ->. done.
  - intros -> Hne. unfold DecExtSlaveCnt. simpl.
    by rewrite bool_decide_eq_true_2.
Qed.

End NodeWalks2.


(** ** The entries in the global range *)

Section RangeTotal.
Context `{FA : FloatArith} `{RT : Runtime}.

Lemma InRange_split first num a b c :
  a <= b -> b <= c -> num = -1 \/ 0 <= num ->
  InRange first num a b + InRange first num b c = InRange first num a c.
Proof.
  intros Hab Hbc Hnum. unfold InRange.
  destruct (Z.eqb_spec num (-1)); lia.
Qed.

Lemma ApplyRange_InRange first num cur e :
  fEntryList e = None -> 0 <= fNum e -> num = -1 \/ 0 <= num ->
  match ApplyRange first num cur e with
  | (cur', None) =>
      cur' = cur + fNum e /\ InRange first num cur (cur + fNum e) = 0
  | (cur', Some e') =>
      cur' = cur + fNum e
      /\ fNum e' = InRange first num cur (cur + fNum e)
  end.
Proof.
  intros He Hn Hnum. unfold ApplyRange, InRange. rewrite He.
  destruct (Z.ltb_spec (cur + fNum e) first); [split; [done|]|].
  { destruct (Z.eqb_spec num (-1)); lia. }
  destruct (Z.eqb_spec num (-1)) as [->|Hne]; simpl.
  - destruct (Z.ltb_spec cur first); simpl; split; try done; lia.
  - destruct (Z.leb_spec (first + num) cur); [split; [done|lia]|].
    destruct (Z.ltb_spec (first + num) (cur + fNum e));
      destruct (Z.ltb_spec cur first); simpl; split; try done; lia.
Qed.

Lemma FileElement_total eid e p :
  fTotalEntries (FileElement eid e p) = fTotalEntries p + fNum e
  /\ elements (FileElement eid e p) = elements p.
Proof.
  unfold FileElement. destruct (NodeOfHost _ _) as [node p1] eqn:HN.
  unfold NodeOfHost in HN. destruct (FindNode _ _); by simplify_eq.
Qed.


Lemma EntriesOf_cons elems eid rest :
  EntriesOf elems (eid :: rest)
  = default 0 (fNum <$> elems !! eid) + EntriesOf elems rest.
Proof. done. Qed.

Lemma RangeLoop_total first num dset cur p p' :
  NoDup dset -> num = -1 \/ 0 <= num ->
  (forall eid, eid ∈ dset ->
     exists e, elements p !! eid = Some e /\ fEntryList e = None
               /\ 0 <= fNum e) ->
  RangeLoop first num dset cur p = Some p' ->
  fTotalEntries p'
  = fTotalEntries p
    + InRange first num cur (cur + EntriesOf (elements p) dset)
  /\ 0 <= EntriesOf (elements p) dset.
Proof.
  intros Hdup Hnum. revert cur p.
  induction Hdup as [|eid rest Hnew Hdup IH]; intros cur p Hel.
  - simpl. intros [= <-]. unfold EntriesOf, InRange. simpl.
    destruct (Z.eqb_spec num (-1)); lia.
  - destruct (Hel eid ltac:(set_solver)) as (e & He & Hlist & Hpos).
    cbn [RangeLoop]. rewrite He. simpl.
    pose proof (ApplyRange_InRange first num cur e Hlist Hpos Hnum) as Hr.
    rewrite EntriesOf_cons, He. simpl (default _ _).
    set (N := EntriesOf (elements p) rest).
    destruct (ApplyRange first num cur e) as [cur' [e'|]];
      destruct Hr as [-> Hr]; intros H.
    + set (p1 := FileElement eid e'
                   (set_elements (<[eid := e']> (elements p)) p)) in *.
      destruct (FileElement_total eid e'
                  (set_elements (<[eid := e']> (elements p)) p))
        as [Ht Hels]. fold p1 in Ht, Hels. simpl in Ht, Hels.
      assert (EntriesOf (elements p1) rest = N) as Hsame.
      { unfold N, EntriesOf. f_equal. apply list_fmap_ext.
        intros i eid' Hi. rewrite Hels.
        rewrite list_lookup_insert_ne; [done|].
        intros ->. apply Hnew. by eapply list_elem_of_lookup_2. }
      apply IH in H as [H Hge].
      * rewrite Hsame in H, Hge.
        pose proof (InRange_split first num cur (cur + fNum e)
                      (cur + fNum e + N) ltac:(lia) ltac:(lia) Hnum).
        replace (cur + (fNum e + N)) with (cur + fNum e + N) by lia. lia.
      * intros eid' Hin. destruct (Hel eid' ltac:(set_solver)) as (e0 & ?).
        exists e0. rewrite Hels, list_lookup_insert_ne; [done|].
        intros ->. done.
    + apply IH in H as [H Hge]; [|intros; apply Hel; set_solver].
      fold N in H, Hge.
      pose proof (InRange_split first num cur (cur + fNum e)
                    (cur + fNum e + N) ltac:(lia) ltac:(lia) Hnum).
      replace (cur + (fNum e + N)) with (cur + fNum e + N) by lia. lia.
Qed.

End RangeTotal.

(** Without a dataset-wide entry list, and for elements without entry
    lists and with their numbers of entries known, the total the
    constructor records is the number of entries of the dataset, counted
    from 0 through the elements in order, that are in the global range. *)
Theorem ctor_total_in_range `{FA : FloatArith} `{RT : Runtime}
  (dset : list TDSetElement) (slaves : list TSlave)
  (first num maxSlaveCnt networkFasterThanHD : Z) (baseLocalPreference : FP)
  (p0 : TAdaptivePacketizer) :
  TAdaptivePacketizer_ctor dset None slaves first num maxSlaveCnt
    networkFasterThanHD baseLocalPreference = Some p0 ->
  Forall (fun e => fEntryList e = None /\ 0 <= fNum e) dset ->
  num = -1 \/ 0 <= num ->
  fTotalEntries p0
  = InRange first num 0 (foldr Z.add 0 (fNum <$> dset)).
Proof.
  unfold TAdaptivePacketizer_ctor. cbv zeta. intros H Hall Hnum.
  destruct (RangeLoop _ _ _ _ _) as [p1|] eqn:H1; simpl in H; [|done].
  apply RangeLoop_total in H1 as [H1 _]; [|apply NoDup_seq|done|].
  - simpl in H1.
    assert (fTotalEntries p0 = fTotalEntries p1) as ->.
    { destruct (CountRemoteFiles _) as [[a b] c].
      destruct (c =? 0); simplify_eq; simpl; unfold Reset; cbv zeta;
        by destruct (foldl ResetSlave _ _). }
    rewrite H1, !Z.add_0_l. unfold EntriesOf. do 2 f_equal.
    apply list_eq. intros i. rewrite !list_lookup_fmap.
    destruct (dset !! i) as [e|] eqn:Hi.
    + rewrite lookup_seq_lt by (by eapply lookup_lt_Some). simpl.
      by rewrite Hi.
    + rewrite lookup_seq_ge by (by apply lookup_ge_None). done.
  - simpl. intros eid Hin. apply elem_of_seq in Hin as [_ Hlt].
    simpl in Hlt.
    destruct (lookup_lt_is_Some_2 dset eid Hlt) as [e He].
    exists e. split; [done|]. rewrite Forall_lookup in Hall.
    by apply (Hall eid e).
Qed.


(** ** Files, hosts and totals *)

Section Grouping.
Context `{FA : FloatArith} `{RT : Runtime}.

Lemma FindNode_name nodes host n :
  FindNode nodes host = Some n ->
  exists nd, nodes !! n = Some nd /\ TFileNode.fNodeName nd = host.
Proof.
  unfold FindNode. intros H. apply fmap_Some in H as ([i nd] & H & ->).
  apply list_find_Some in H as (H & Hn & _). simpl. eauto.
Qed.

Lemma FindNode_None_names nodes host :
  FindNode nodes host = None -> host ∉ TFileNode.fNodeName <$> nodes.
Proof.
  unfold FindNode. intros H. apply fmap_None in H.
  apply list_find_None in H. rewrite Forall_forall in H.
  intros Hin. apply list_elem_of_fmap in Hin as (nd & -> & Hnd).
  by apply (H nd).
Qed.

Lemma sum_app (l k : list Z) :
  foldr Z.add 0 (l ++ k) = foldr Z.add 0 l + foldr Z.add 0 k.
Proof. induction l as [|x l IH]; simpl; lia. Qed.

Lemma sum_fmap_alter {A} (g : A -> Z) (h : A -> A) i x (l : list A) :
  l !! i = Some x ->
  foldr Z.add 0 (g <$> alter h i l)
  = foldr Z.add 0 (g <$> l) + (g (h x) - g x).
Proof.
  revert i. induction l as [|a l IH]; intros [|i]; try done.
  - intros [= ->]. csimpl. lia.
  - intros H. csimpl. rewrite (IH _ H). lia.
Qed.

Lemma alter_insert {A} (h : A -> A) i x (l : list A) :
  l !! i = Some x -> alter h i l = <[i := h x]> l.
Proof.
  intros H. rewrite list_insert_alter. apply list_alter_ext; [|done].
  intros y Hy. congruence.
Qed.

Lemma FileElement_fields eid e p :
  exists node nodes1 nd1,
    nodes1 !! node = Some nd1
    /\ TFileNode.fNodeName nd1 = HostOf (fName e)
    /\ ((nodes1 = fFileNodes p)
        \/ ((HostOf (fName e) ∉ TFileNode.fNodeName <$> fFileNodes p)
            /\ node = length (fFileNodes p)
            /\ nd1 = TFileNode.new (HostOf (fName e))
            /\ nodes1 = fFileNodes p ++ [nd1]))
    /\ fFileNodes (FileElement eid e p)
       = <[node := TFileNode.IncEvents (fNum e)
                    (TFileNode.Add (length (fileStats p)) nd1)]> nodes1
    /\ fileStats (FileElement eid e p)
       = fileStats p ++ [TFileStat.new node eid (fFirst e)]
    /\ elements (FileElement eid e p) = elements p
    /\ fTotalEntries (FileElement eid e p) = fTotalEntries p + fNum e.
Proof.
  unfold FileElement, NodeOfHost.
  destruct (FindNode (fFileNodes p) (HostOf (fName e))) as [n|] eqn:Hf.
  - destruct (FindNode_name _ _ _ Hf) as (nd & Hnd & Hname).
    exists n, (fFileNodes p), nd. simpl. repeat split; auto.
    unfold NodeAdd. simpl.
    rewrite list_alter_alter_eq.
    by apply (alter_insert (TFileNode.IncEvents (fNum e)
                            ∘ TFileNode.Add (length (fileStats p)))).
  - apply FindNode_None_names in Hf.
    exists (length (fFileNodes p)),
      (fFileNodes p ++ [TFileNode.new (HostOf (fName e))]),
      (TFileNode.new (HostOf (fName e))).
    simpl. split; [by rewrite list_lookup_middle|]. split; [done|].
    split; [right; done|]. split; [|done].
    unfold NodeAdd. simpl. rewrite list_alter_alter_eq.
    apply (alter_insert (TFileNode.IncEvents (fNum e)
                         ∘ TFileNode.Add (length (fileStats p)))).
    by rewrite list_lookup_middle.
Qed.

Lemma EventsOfFiles_app p l k :
  EventsOfFiles p (l ++ k) = EventsOfFiles p l + EventsOfFiles p k.
Proof. unfold EventsOfFiles. by rewrite fmap_app, sum_app. Qed.

Lemma FileElement_Grouped eid e e' rest p :
  Built (eid :: rest) p -> Grouped p -> elements p !! eid = Some e ->
  Grouped (FileElement eid e' (set_elements (<[eid := e']> (elements p)) p)).
Proof.
  intros [Hnodes Hfiles] (Hnames & Hhost & Htotal & Hevents & Hcount) He.
  set (q := set_elements (<[eid := e']> (elements p)) p).
  destruct (FileElement_fields eid e' q)
    as (node & nodes1 & nd1 & Hnd1 & Hname1 & Hcase & Hn' & Hf' & He' & Ht').
  set (p' := FileElement eid e' q) in *. simpl in Hcase, Hn', Hf', He', Ht'.
  set (F := length (fileStats p)) in *.
  assert (forall fs, fs ∈ fileStats p ->
            NumOf (elements p') fs = NumOf (elements p) fs) as Hnum.
  { intros fs Hin. apply list_elem_of_lookup in Hin as [f Hf].
    destruct (Hfiles _ _ Hf) as (_ & Hne & _).
    unfold NumOf. rewrite He', list_lookup_insert_ne; [done|set_solver]. }
  assert (forall files,
            (forall f, f ∈ files -> is_Some (fileStats p !! f)) ->
            EventsOfFiles p' files = EventsOfFiles p files) as Hstable.
  { intros files Hall. unfold EventsOfFiles. f_equal.
    apply list_fmap_ext. intros i f Hi.
    destruct (Hall f) as [fs Hfs]; [by eapply list_elem_of_lookup_2|].
    rewrite Hf', (lookup_app_l_Some _ _ _ _ Hfs), Hfs. simpl.
    rewrite Hnum; [done|by eapply list_elem_of_lookup_2]. }
  assert (forall n nd, nodes1 !! n = Some nd ->
            NoDup (TFileNode.fFiles nd)
            /\ (forall f, f ∈ TFileNode.fFiles nd ->
                  exists fs, fileStats p !! f = Some fs
                             /\ TFileStat.fNode fs = n)
            /\ TFileNode.fEvents nd = EventsOfFiles p (TFileNode.fFiles nd)
            /\ TFileNode.fProcessed nd = 0) as Hnodes1.
  { intros n nd Hn.
    destruct Hcase as [->|(_ & _ & -> & ->)].
    - destruct (Hnodes _ _ Hn) as [? ?]. destruct (Hevents _ _ Hn). done.
    - apply lookup_app_Some in Hn as [Hn|[_ Hn]].
      + destruct (Hnodes _ _ Hn) as [? ?]. destruct (Hevents _ _ Hn). done.
      + apply list_lookup_singleton_Some in Hn as [_ <-]. simpl.
        split; [constructor|]. split; [set_solver|done]. }
  assert (NoDup (TFileNode.fNodeName <$> nodes1)) as Hnames1.
  { destruct Hcase as [->|(Hnew & _ & -> & ->)]; [done|].
    rewrite fmap_app. apply NoDup_app. split; [done|].
    split; [|apply NoDup_singleton]. simpl.
    intros x Hx Hx'. apply list_elem_of_singleton in Hx' as ->. done. }
  assert (foldr Z.add 0 (TFileNode.GetNumberOfFiles <$> nodes1)
          = Z.of_nat F) as Hcount1.
  { destruct Hcase as [->|(_ & _ & -> & ->)]; [done|].
    rewrite fmap_app, sum_app, Hcount. unfold TFileNode.GetNumberOfFiles.
    simpl. lia. }
  assert (forall n nd, fFileNodes p !! n = Some nd -> nodes1 !! n = Some nd)
    as Hold.
  { intros n nd Hn. destruct Hcase as [->|(_ & _ & _ & ->)]; [done|].
    by apply lookup_app_l_Some. }
  assert (elements p' !! eid = Some e') as Heid.
  { rewrite He'. apply list_lookup_insert_eq. by eapply lookup_lt_Some. }
  destruct (Hnodes1 _ _ Hnd1) as (Hdup1 & Hknown1 & Hev1 & Hpr1).
  split; [|split; [|split; [|split]]].
  - rewrite Hn', list_fmap_insert. simpl.
    rewrite list_insert_id; [done|].
    by rewrite list_lookup_fmap, Hnd1.
  - intros f fs. rewrite Hf'. intros Hf.
    apply lookup_app_Some in Hf as [Hf|Hf].
    + destruct (Hhost _ _ Hf) as (nd & e0 & Hnd & He0 & Hn0 & Hin0).
      destruct (Hfiles _ _ Hf) as (_ & Hne & _).
      assert (eid <> TFileStat.fElement fs) as Hne'
        by (intros ->; apply Hne; left).
      destruct (decide (TFileStat.fNode fs = node)) as [Heq|Hneq].
      * rewrite Heq in *. pose proof (Hold _ _ Hnd) as Hnd'.
        assert (nd = nd1) as -> by congruence.
        eexists _, e0. rewrite Hn'.
        split; [apply list_lookup_insert_eq; by eapply lookup_lt_Some|].
        split; [by rewrite He', list_lookup_insert_ne|].
        split; [done|]. simpl. unfold TList.Add.
        apply elem_of_app. by left.
      * exists nd, e0. rewrite Hn'.
        split; [rewrite list_lookup_insert_ne by done; by apply Hold|].
        split; [by rewrite He', list_lookup_insert_ne|].
        done.
    + destruct Hf as [Hge Hf].
      apply list_lookup_singleton_Some in Hf as [Hz <-]. simpl.
      assert (f = F) as -> by (unfold F; lia).
      eexists _, e'. rewrite Hn'.
      split; [apply list_lookup_insert_eq; by eapply lookup_lt_Some|].
      split; [done|]. split; [done|]. simpl. unfold TList.Add.
      apply elem_of_app. right. constructor.
  - rewrite Ht', Hf', fmap_app, sum_app. simpl.
    unfold NumOf at 2. simpl. rewrite Heid. simpl.
    rewrite Htotal. f_equal; [|lia]. f_equal.
    apply list_fmap_ext. intros i fs Hi. symmetry. apply Hnum.
    by eapply list_elem_of_lookup_2.
  - intros n nd. rewrite Hn'.
    destruct (decide (n = node)) as [->|Hne].
    + rewrite list_lookup_insert_eq by (by eapply lookup_lt_Some).
      intros [= <-]. simpl. split; [|done].
      unfold TList.Add. rewrite EventsOfFiles_app, Hstable, Hev1.
      * unfold EventsOfFiles. simpl.
        rewrite Hf', list_lookup_middle by done. simpl.
        unfold NumOf. simpl. rewrite Heid. simpl. lia.
      * intros f Hin. destruct (Hknown1 _ Hin) as (fs & ? & _). eauto.
    + rewrite list_lookup_insert_ne by done. intros Hn.
      destruct (Hnodes1 _ _ Hn) as (_ & Hknown & Hev & Hpr).
      split; [|done]. rewrite Hstable; [done|].
      intros f Hin. destruct (Hknown _ Hin) as (fs & ? & _). eauto.
  - rewrite Hn', Hf', length_app. simpl.
    rewrite list_insert_alter.
    rewrite (sum_fmap_alter _ _ _ nd1) by done. rewrite Hcount1.
    unfold TFileNode.GetNumberOfFiles. simpl. unfold TList.Add.
    rewrite length_app. simpl. lia.
Qed.

Lemma RangeLoop_Grouped first num dset cur p p' :
  NoDup dset -> Built dset p -> Grouped p ->
  RangeLoop first num dset cur p = Some p' -> Grouped p'.
Proof.
  intros Hdup. revert cur p.
  induction Hdup as [|eid rest Hnew Hdup IH]; intros cur p HB HG; simpl.
  - by intros [= <-].
  - destruct (elements p !! eid) as [e|] eqn:He; simpl; [|done].
    destruct (ApplyRange first num cur e) as [cur' [e'|]].
    + apply IH; [by eapply FileElement_Built|by eapply FileElement_Grouped].
    + apply IH; [|done]. destruct HB as [Hn Hf]. split; [done|].
      intros f fs Hl. destruct (Hf _ _ Hl) as (? & ? & ?).
      split; [done|]. split; [set_solver|done].
Qed.

End Grouping.


(** ** [Reset] *)

Section ResetProofs.
Context `{FA : FloatArith} `{RT : Runtime}.


Lemma FindNode_by_names l l' host :
  TFileNode.fNodeName <$> l = TFileNode.fNodeName <$> l' ->
  FindNode l host = FindNode l' host.
Proof.
  intros Hn.
  assert (forall k, FindNode k host
                    = fst <$> list_find (fun x => x = host)
                                (TFileNode.fNodeName <$> k)) as Hk.
  { intros k. unfold FindNode. rewrite list_find_fmap.
    rewrite <- option_fmap_compose.
    by destruct (list_find _ k) as [[i x]|]. }
  by rewrite !Hk, Hn.
Qed.

Lemma ResetSlave_closed slaves nodes done :
  NoDup (TFileNode.fNodeName <$> nodes) ->
  foldl ResetSlave (nodes, done) slaves
  = ((fun nd => with_my (WorkersOn (TFileNode.fNodeName nd) slaves) nd)
       <$> nodes,
     done ++ (ResetWorker nodes <$> slaves)).
Proof.
  revert nodes done. induction slaves as [|s slaves IH]; intros nodes done Hnd.
  - simpl. rewrite app_nil_r. f_equal.
    rewrite <- (list_fmap_id nodes) at 1. apply list_fmap_ext.
    intros i [] _. unfold with_my, WorkersOn, TFileNode.set_counters. simpl.
    f_equal; lia.
  - cbn [foldl]. unfold ResetSlave at 2.
    destruct (FindNode nodes (TSlaveStat.GetName s)) as [fn|] eqn:Hfn.
    + destruct (FindNode_name _ _ _ Hfn) as (nd0 & Hnd0 & Hname0).
      assert (TFileNode.fNodeName <$> alter TFileNode.IncMySlaveCnt fn nodes
              = TFileNode.fNodeName <$> nodes) as Hnames.
      { rewrite (list_fmap_alter _ _ id); [by apply list_alter_id|].
        by apply Forall_true. }
      rewrite IH by (by rewrite Hnames). f_equal.
      * apply list_eq. intros n. rewrite !list_lookup_fmap.
        destruct (decide (n = fn)) as [->|Hne].
        -- rewrite list_lookup_alter_eq, Hnd0. simpl. f_equal.
           destruct nd0. unfold with_my, WorkersOn, TFileNode.set_counters.
           simpl in *. rewrite filter_cons, decide_True by done. simpl.
           f_equal; lia.
        -- rewrite list_lookup_alter_ne by done.
           destruct (nodes !! n) as [nd|] eqn:Hn; [|done]. simpl. f_equal.
           unfold with_my, WorkersOn. rewrite filter_cons, decide_False; [done|].
           intros Heq. apply Hne.
           eapply (NoDup_lookup _ n fn); [exact Hnd| |].
           ++ by rewrite list_lookup_fmap, Hn.
           ++ rewrite list_lookup_fmap, Hnd0. simpl. congruence.
      * rewrite <- app_assoc. f_equal. simpl. f_equal.
        -- unfold ResetWorker. by rewrite Hfn.
        -- apply list_fmap_ext. intros i x _. unfold ResetWorker.
           by rewrite (FindNode_by_names _ nodes) by done.
    + rewrite IH by done. f_equal.
      * apply list_fmap_ext. intros n nd Hn. f_equal.
        unfold WorkersOn. rewrite filter_cons, decide_False; [done|].
        intros Heq. apply FindNode_None_names in Hfn. apply Hfn.
        rewrite Heq. apply list_elem_of_fmap. exists nd.
        split; [done|]. by eapply list_elem_of_lookup_2.
      * rewrite <- app_assoc. f_equal. simpl. f_equal.
        unfold ResetWorker. by rewrite Hfn.
Qed.

End ResetProofs.

(** [Reset] in closed form. *)
Lemma Reset_form `{FA : FloatArith} `{RT : Runtime}
  (p : TAdaptivePacketizer) :
  NoDup (TFileNode.fNodeName <$> fFileNodes p) ->
  fFileNodes (Reset p) = ResetNode (fSlaveStats p) <$> fFileNodes p
  /\ fSlaveStats (Reset p) = ResetWorker (fFileNodes p) <$> fSlaveStats p
  /\ fUnAllocated (Reset p) = seq 0 (length (fFileNodes p))
  /\ fActive (Reset p) = [].
Proof.
  intros Hnd. unfold Reset. cbv zeta. simpl.
  rewrite ResetSlave_closed.
  - simpl. repeat split.
    + rewrite <- list_fmap_compose. apply list_fmap_ext. intros i nd _.
      simpl. unfold with_my, ResetNode, TFileNode.Reset,
        TFileNode.set_counters. simpl. f_equal.
    + apply list_fmap_ext. intros i s _. unfold ResetWorker.
      rewrite (FindNode_by_names _ (fFileNodes p)); [done|].
      rewrite <- list_fmap_compose. by apply list_fmap_ext.
  - rewrite <- list_fmap_compose.
    erewrite list_fmap_ext; [exact Hnd|]. by intros i [] _.
Qed.

(** ** What the constructor returns *)

Section CtorStructure.
Context `{FA : FloatArith} `{RT : Runtime}.

Lemma Reset_fields p :
  fileStats (Reset p) = fileStats p /\ elements (Reset p) = elements p
  /\ fTotalEntries (Reset p) = fTotalEntries p
  /\ fValid (Reset p) = fValid p.
Proof. unfold Reset. cbv zeta. by destruct (foldl ResetSlave _ _). Qed.

Lemma CountRemoteFiles_total nodes :
  (CountRemoteFiles nodes).2
  = foldr Z.add 0 (TFileNode.GetNumberOfFiles <$> nodes).
Proof.
  unfold CountRemoteFiles.
  assert (forall a b c,
            (foldl (fun '(noRemoteFiles, eventsOnRemLoc, totalNumberOfFiles) fn =>
               let total := totalNumberOfFiles + TFileNode.GetNumberOfFiles fn in
               if TFileNode.GetSlaveCnt fn =? 0
               then (noRemoteFiles + TFileNode.GetNumberOfFiles fn,
                     eventsOnRemLoc
                     + (TFileNode.GetNEvents fn - TFileNode.GetProcessed fn),
                     total)
               else (noRemoteFiles, eventsOnRemLoc, total)) (a, b, c) nodes).2
            = c + foldr Z.add 0 (TFileNode.GetNumberOfFiles <$> nodes)) as H.
  { induction nodes as [|nd nodes IH]; intros a b c; csimpl; [lia|].
    destruct (TFileNode.GetSlaveCnt nd =? 0); rewrite IH;
      unfold TFileNode.GetNumberOfFiles; lia. }
  rewrite H. lia.
Qed.

(** What the constructor builds, between the loop over the dataset and
    the end. *)
Lemma ctor_stages dset dsetEntryList slaves first num maxSlaveCnt
  networkFasterThanHD baseLocalPreference p0 :
  TAdaptivePacketizer_ctor dset dsetEntryList slaves first num maxSlaveCnt
    networkFasterThanHD baseLocalPreference = Some p0 ->
  exists p1,
    Built [] p1 /\ Grouped p1
    /\ fSlaveStats p1 = TSlaveStat.new <$> slaves
    /\ fValid p1 = true
    /\ fFileNodes p0 = ResetNode (fSlaveStats p1) <$> fFileNodes p1
    /\ fSlaveStats p0 = ResetWorker (fFileNodes p1) <$> fSlaveStats p1
    /\ fUnAllocated p0 = seq 0 (length (fFileNodes p1))
    /\ fActive p0 = []
    /\ fileStats p0 = fileStats p1 /\ elements p0 = elements p1
    /\ fTotalEntries p0 = match dsetEntryList with
                          | Some n => n
                          | None => fTotalEntries p1
                          end
    /\ fValid p0 = negb (Z.of_nat (length (fileStats p1)) =? 0).
Proof.
  unfold TAdaptivePacketizer_ctor. cbv zeta.
  destruct (RangeLoop _ _ _ _ _) as [p1|] eqn:H1; simpl; [|done].
  pose proof H1 as H1'.
  apply RangeLoop_Built in H1 as (HB & _ & Hs & Hv & _);
    [|apply NoDup_seq|by split].
  apply RangeLoop_Grouped in H1'; [|apply NoDup_seq|by split|].
  2:{ repeat split; simpl; try done. constructor. }
  simpl in Hs, Hv.
  set (p2 := match dsetEntryList with
             | Some n => set_fTotalEntries n p1
             | None => p1
             end).
  assert (fFileNodes p2 = fFileNodes p1 /\ fSlaveStats p2 = fSlaveStats p1
          /\ fileStats p2 = fileStats p1 /\ elements p2 = elements p1
          /\ fValid p2 = fValid p1
          /\ fTotalEntries p2 = match dsetEntryList with
                                | Some n => n
                                | None => fTotalEntries p1
                                end) as (E1 & E2 & E3 & E4 & E5 & E6).
  { subst p2. destruct dsetEntryList; done. }
  destruct H1' as (Hnames & Hrest).
  destruct (Reset_form p2) as (R1 & R2 & R3 & R4);
    [by rewrite E1|].
  destruct (Reset_fields p2) as (F1 & F2 & F3 & F4).
  pose proof (CountRemoteFiles_total (fFileNodes (Reset p2))) as Hc.
  assert (foldr Z.add 0 (TFileNode.GetNumberOfFiles <$> fFileNodes (Reset p2))
          = Z.of_nat (length (fileStats p1))) as Hn.
  { destruct Hrest as (_ & _ & _ & <-). rewrite R1, E1.
    rewrite <- list_fmap_compose. f_equal. }
  rewrite Hn in Hc.
  destruct (CountRemoteFiles _) as [[a b] c]. simpl in Hc. subst c.
  intros H. exists p1.
  split; [done|]. split; [by split|]. split; [done|]. split; [done|].
  destruct (Z.of_nat (length (fileStats p1)) =? 0); simplify_eq; simpl;
    rewrite ?R1, ?R2, ?R3, ?R4, ?F1, ?F2, ?F3, ?F4, ?E1, ?E2, ?E3, ?E4,
      ?E5, ?E6; repeat split; done.
Qed.

End CtorStructure.

(** [Reset] puts every node on the list of the nodes with unallocated
    files and none on the list of the active ones; it rewinds the cursor
    of each node to its first file, leaves it no active file, counts as
    its own the workers that run on its host, and sets its two other
    counts of workers to 0; it gives each worker the node of its host
    (the worker keeps the node it had when its host has none) and no
    current file.  The processed entries and the events of a node are
    not reset, nor are the files, the elements, the total and the
    validity of the packetizer. *)
Theorem Reset_closed_form `{FA : FloatArith} `{RT : Runtime}
  (p : TAdaptivePacketizer) :
  NoDup (TFileNode.fNodeName <$> fFileNodes p) ->
  fFileNodes (Reset p) = ResetNode (fSlaveStats p) <$> fFileNodes p
  /\ fSlaveStats (Reset p) = ResetWorker (fFileNodes p) <$> fSlaveStats p
  /\ fUnAllocated (Reset p) = seq 0 (length (fFileNodes p))
  /\ fActive (Reset p) = []
  /\ fileStats (Reset p) = fileStats p /\ elements (Reset p) = elements p
  /\ fTotalEntries (Reset p) = fTotalEntries p
  /\ fValid (Reset p) = fValid p.
Proof.
  intros Hnd. destruct (Reset_form p Hnd) as (H1 & H2 & H3 & H4).
  destruct (Reset_fields p) as (F1 & F2 & F3 & F4). done.
Qed.

(** The constructor makes one node for a host, and files an element on
    the node of the host of its file name: the node of a file bears the
    name of that host and has the file among its files, and the files of
    a node are files of that node. *)
Theorem ctor_files_by_host `{FA : FloatArith} `{RT : Runtime}
  (dset : list TDSetElement) (dsetEntryList : option Z) (slaves : list TSlave)
  (first num maxSlaveCnt networkFasterThanHD : Z) (baseLocalPreference : FP)
  (p0 : TAdaptivePacketizer) :
  TAdaptivePacketizer_ctor dset dsetEntryList slaves first num maxSlaveCnt
    networkFasterThanHD baseLocalPreference = Some p0 ->
  NoDup (TFileNode.fNodeName <$> fFileNodes p0)
  /\ (forall f fs, fileStats p0 !! f = Some fs ->
        exists nd e,
          fFileNodes p0 !! TFileStat.fNode fs = Some nd
          /\ elements p0 !! TFileStat.fElement fs = Some e
          /\ TFileNode.fNodeName nd = HostOf (fName e)
          /\ f ∈ TFileNode.fFiles nd)
  /\ (forall n nd f,
        fFileNodes p0 !! n = Some nd -> f ∈ TFileNode.fFiles nd ->
        exists fs, fileStats p0 !! f = Some fs /\ TFileStat.fNode fs = n).
Proof.
  intros H. apply ctor_stages in H
    as (p1 & [Hnodes _] & (Hnames & Hhost & _) & _ & _ & Hn & _ & _ & _
        & Hf & He & _).
  rewrite Hn, Hf, He. split; [|split].
  - rewrite <- list_fmap_compose.
    erewrite list_fmap_ext; [exact Hnames|]. by intros i [] _.
  - intros f fs Hfs.
    destruct (Hhost _ _ Hfs) as (nd & e & Hnd & Hel & Hname & Hin).
    exists (ResetNode (fSlaveStats p1) nd), e.
    rewrite list_lookup_fmap, Hnd. done.
  - intros n nd' f Hn' Hin. rewrite list_lookup_fmap in Hn'.
    destruct (fFileNodes p1 !! n) as [nd|] eqn:Hnd; [|done].
    simpl in Hn'. simplify_eq. simpl in Hin.
    destruct (Hnodes _ _ Hnd) as [_ Hknown]. by apply Hknown.
Qed.

(** The total the constructor records is the size of the entry list of
    the dataset when there is one, and otherwise the sum of the numbers of
    entries of the elements it has filed; the events of a node are the
    sum over the files of the node, none of them processed. *)
Theorem ctor_totals `{FA : FloatArith} `{RT : Runtime}
  (dset : list TDSetElement) (dsetEntryList : option Z) (slaves : list TSlave)
  (first num maxSlaveCnt networkFasterThanHD : Z) (baseLocalPreference : FP)
  (p0 : TAdaptivePacketizer) :
  TAdaptivePacketizer_ctor dset dsetEntryList slaves first num maxSlaveCnt
    networkFasterThanHD baseLocalPreference = Some p0 ->
  fTotalEntries p0
  = match dsetEntryList with
    | Some n => n
    | None => foldr Z.add 0 (NumOf (elements p0) <$> fileStats p0)
    end
  /\ (forall n nd, fFileNodes p0 !! n = Some nd ->
        TFileNode.fEvents nd = EventsOfFiles p0 (TFileNode.fFiles nd)
        /\ TFileNode.fProcessed nd = 0).
Proof.
  intros H. apply ctor_stages in H
    as (p1 & _ & (_ & _ & Htot & Hev & _) & _ & _ & Hn & _ & _ & _
        & Hf & He & Ht & _).
  rewrite Ht, Hn, Hf, He. split.
  - destruct dsetEntryList; done.
  - intros n nd' Hn'. rewrite list_lookup_fmap in Hn'.
    destruct (fFileNodes p1 !! n) as [nd|] eqn:Hnd; [|done].
    simpl in Hn'. simplify_eq. simpl.
    destruct (Hev _ _ Hnd) as [Hevents Hpr]. split; [|done].
    rewrite Hevents. unfold EventsOfFiles. by rewrite Hf, He.
Qed.

(** The workers of the packetizer the constructor returns: each has the
    node of its host when the host has files, no current file, no packet
    in flight and nothing processed; and each node counts the workers of
    its host and no others. *)
Theorem ctor_workers `{FA : FloatArith} `{RT : Runtime}
  (dset : list TDSetElement) (dsetEntryList : option Z) (slaves : list TSlave)
  (first num maxSlaveCnt networkFasterThanHD : Z) (baseLocalPreference : FP)
  (p0 : TAdaptivePacketizer) :
  TAdaptivePacketizer_ctor dset dsetEntryList slaves first num maxSlaveCnt
    networkFasterThanHD baseLocalPreference = Some p0 ->
  (forall sl s, fSlaveStats p0 !! sl = Some s ->
     exists slave,
       slaves !! sl = Some slave
       /\ TSlaveStat.fSlave s = slave
       /\ TSlaveStat.fFileNode s = FindNode (fFileNodes p0) (sName slave)
       /\ TSlaveStat.fCurFile s = None /\ TSlaveStat.fCurElem s = None
       /\ TSlaveStat.fProcessed s = 0)
  /\ (forall n nd, fFileNodes p0 !! n = Some nd ->
        TFileNode.fMySlaveCnt nd
        = Z.of_nat (length (filter (fun slave =>
                                      sName slave = TFileNode.fNodeName nd)
                                   slaves))
        /\ TFileNode.fExtSlaveCnt nd = 0 /\ TFileNode.fRunSlaveCnt nd = 0).
Proof.
  intros H. apply ctor_stages in H
    as (p1 & _ & _ & Hs1 & _ & Hn & Hs & _).
  rewrite Hn, Hs, Hs1. split.
  - intros sl s Hsl. rewrite <- list_fmap_compose, list_lookup_fmap in Hsl.
    destruct (slaves !! sl) as [slave|] eqn:Hslave; [|done].
    simpl in Hsl. simplify_eq. exists slave. split; [done|].
    unfold ResetWorker. simpl.
    rewrite (FindNode_by_names (ResetNode (TSlaveStat.new <$> slaves)
                                  <$> fFileNodes p1) (fFileNodes p1));
      [|rewrite <- list_fmap_compose; by apply list_fmap_ext].
    unfold TSlaveStat.GetName. simpl.
    destruct (FindNode (fFileNodes p1) (sName slave)); done.
  - intros n nd' Hn'. rewrite list_lookup_fmap in Hn'.
    destruct (fFileNodes p1 !! n) as [nd|] eqn:Hnd; [|done].
    simpl in Hn'. simplify_eq. simpl. split; [|done].
    unfold WorkersOn. f_equal.
    clear. induction slaves as [|x l IH]; [done|].
    rewrite fmap_cons, !filter_cons. unfold TSlaveStat.GetName at 1. simpl.
    destruct (decide (sName x = TFileNode.fNodeName nd)); simpl; by rewrite IH.
Qed.

(** ** What a call leaves as the constructor built it *)


Section NodeLayout.
Import TFileNode.

Lemma GetNextUnAlloc_layout n n' r :
  GetNextUnAlloc n = (n', r) -> layout n' = layout n.
Proof. unfold GetNextUnAlloc. intros H. by case_match; simplify_eq. Qed.

Lemma GetNextActive_layout n n' r :
  GetNextActive n = (n', r) -> layout n' = layout n.
Proof. unfold GetNextActive. intros H. by case_match; simplify_eq. Qed.

Lemma IncExtSlaveCnt_layout s n : layout (IncExtSlaveCnt s n) = layout n.
Proof. unfold IncExtSlaveCnt. by case_match. Qed.

Lemma DecExtSlaveCnt_layout s n n' :
  DecExtSlaveCnt s n = Some n' -> layout n' = layout n.
Proof. unfold DecExtSlaveCnt. intros H. by repeat case_match; simplify_eq. Qed.

Lemma DecRunSlaveCnt_layout n n' :
  DecRunSlaveCnt n = Some n' -> layout n' = layout n.
Proof. unfold DecRunSlaveCnt. intros H. by repeat case_match; simplify_eq. Qed.

End NodeLayout.

(** Rewrites the layout of a node through the operations that produced
    the node. *)
Ltac node_layout :=
  repeat match goal with
    | H : TFileNode.GetNextUnAlloc _ = (_, _) |- _ =>
        apply GetNextUnAlloc_layout in H
    | H : TFileNode.GetNextActive _ = (_, _) |- _ =>
        apply GetNextActive_layout in H
    | H : TFileNode.DecExtSlaveCnt _ _ = Some _ |- _ =>
        apply DecExtSlaveCnt_layout in H
    | H : TFileNode.DecRunSlaveCnt _ = Some _ |- _ =>
        apply DecRunSlaveCnt_layout in H
    end;
  rewrite ?IncExtSlaveCnt_layout; try done;
  repeat match goal with
    | |- layout (TFileNode.IncRunSlaveCnt ?n) = _ =>
        change (layout (TFileNode.IncRunSlaveCnt n)) with (layout n)
    | |- layout (TFileNode.IncProcessed ?k ?n) = _ =>
        change (layout (TFileNode.IncProcessed k n)) with (layout n)
    | |- layout (TFileNode.RemoveActive ?f ?n) = _ =>
        change (layout (TFileNode.RemoveActive f n)) with (layout n)
    end;
  rewrite ?IncExtSlaveCnt_layout; congruence.

Section KeepsProperties.
Context `{FA : FloatArith} `{RT : Runtime}.

Lemma Keeps_refl p : Keeps p p.
Proof. by repeat split. Qed.

Lemma Keeps_trans p1 p2 p3 : Keeps p1 p2 -> Keeps p2 p3 -> Keeps p1 p3.
Proof. intros (?&?&?) (?&?&?). repeat split; congruence. Qed.

Lemma Keeps_set p q q' :
  fileStats q' = fileStats q -> fSlaveStats q' = fSlaveStats q ->
  fFileNodes q' = fFileNodes q ->
  Keeps p q -> Keeps p q'.
Proof.
  intros ??? H. eapply Keeps_trans; [exact H|]. repeat split; congruence.
Qed.

Lemma Keeps_updSlave sl s s' p q :
  fSlaveStats q !! sl = Some s ->
  TSlaveStat.fSlave s' = TSlaveStat.fSlave s ->
  Keeps p q -> Keeps p (updSlave sl s' q).
Proof.
  intros Hs Hp H. eapply Keeps_trans; [exact H|].
  repeat split. simpl.
  rewrite list_fmap_insert, Hp. apply list_insert_id.
  by rewrite list_lookup_fmap, Hs.
Qed.

Lemma Keeps_updNode n nd nd' p q :
  fFileNodes q !! n = Some nd -> layout nd' = layout nd ->
  Keeps p q -> Keeps p (updNode n nd' q).
Proof.
  intros Hs Hp H. eapply Keeps_trans; [exact H|].
  repeat split. simpl.
  rewrite list_fmap_insert, Hp. apply list_insert_id.
  by rewrite list_lookup_fmap, Hs.
Qed.

Lemma Keeps_updFile f fs fs' p q :
  fileStats q !! f = Some fs -> filed fs' = filed fs ->
  Keeps p q -> Keeps p (updFile f fs' q).
Proof.
  intros Hs Hp H. eapply Keeps_trans; [exact H|].
  repeat split. simpl.
  rewrite list_fmap_insert, Hp. apply list_insert_id.
  by rewrite list_lookup_fmap, Hs.
Qed.

End KeepsProperties.

(** [keeps] proves [Keeps p q] for a [q] built from [p] by updates that
    leave the layout alone. *)
Ltac keeps :=
  repeat first
    [ assumption
    | apply Keeps_refl
    | match goal with
      | |- Keeps _ (updSlave ?sl _ _) =>
          eapply (Keeps_updSlave sl); [simpl; eassumption|reflexivity|]
      | |- Keeps _ (updNode ?n _ _) =>
          eapply (Keeps_updNode n); [simpl; eassumption|node_layout|]
      | |- Keeps _ (updFile ?f _ _) =>
          eapply (Keeps_updFile f); [simpl; eassumption|reflexivity|]
      | |- Keeps _ (match ?x with _ => _ end) => destruct x
      | |- Keeps _ (if ?x then _ else _) => destruct x
      | |- Keeps _ (_ ?q) =>
          eapply (Keeps_set _ q); [reflexivity..|]
      end ].

Section KeepsSteps.
Context `{FA : FloatArith} `{RT : Runtime}.

Lemma NextNode_Keeps p p' r : NextNode p = Some (p', r) -> Keeps p p'.
Proof. unfold NextNode. intros H. unpack H; keeps. Qed.

Lemma NodeNextUnAlloc_Keeps n p p' r :
  NodeNextUnAlloc n p = Some (p', r) -> Keeps p p'.
Proof. unfold NodeNextUnAlloc. intros H. unpack H; keeps. Qed.

Lemma GetNextUnAlloc_loop_Keeps turns p p' r :
  GetNextUnAlloc_loop turns p = Some (p', r) -> Keeps p p'.
Proof.
  revert p. induction turns as [|k IH]; simpl; intros p H.
  - simplify_eq. apply Keeps_refl.
  - destruct (NextNode p) as [[p1 [n|]]|] eqn:H1; simpl in H; simplify_eq.
    + apply NextNode_Keeps in H1.
      destruct (NodeNextUnAlloc n p1) as [[p2 [f|]]|] eqn:H2; simpl in H;
        simplify_eq; apply NodeNextUnAlloc_Keeps in H2.
      * by eapply Keeps_trans.
      * apply IH in H. eauto using Keeps_trans.
    + by apply NextNode_Keeps in H1.
Qed.

Lemma GetNextUnAlloc_Keeps node p p' r :
  GetNextUnAlloc node p = Some (p', r) -> Keeps p p'.
Proof.
  unfold GetNextUnAlloc. intros H.
  destruct node as [n|]; simpl in H.
  - destruct (NodeNextUnAlloc n p) as [[p1 file]|] eqn:H1; simpl in H; [|done].
    apply NodeNextUnAlloc_Keeps in H1. unpack H; keeps.
  - destruct (GetNextUnAlloc_loop _ p) as [[p1 found]|] eqn:H1; simpl in H;
      [|done].
    apply GetNextUnAlloc_loop_Keeps in H1. unpack H; keeps.
Qed.

Lemma NextActiveNode_Keeps p p' r :
  NextActiveNode p = Some (p', r) -> Keeps p p'.
Proof. unfold NextActiveNode. intros H. unpack H; keeps. Qed.

Lemma GetNextActive_loop_Keeps turns p p' r :
  GetNextActive_loop turns p = Some (p', r) -> Keeps p p'.
Proof.
  revert p. induction turns as [|k IH]; simpl; intros p H.
  - simplify_eq. apply Keeps_refl.
  - destruct (NextActiveNode p) as [[p1 [n|]]|] eqn:H1; simpl in H; simplify_eq.
    + apply NextActiveNode_Keeps in H1.
      destruct (fFileNodes p1 !! n) as [nd|] eqn:Hn; simpl in H; [|done].
      destruct (TFileNode.GetNextActive nd) as [nd' [f|]] eqn:H2; simplify_eq.
      * keeps.
      * apply IH in H. eapply Keeps_trans; [|exact H]. keeps.
    + by apply NextActiveNode_Keeps in H1.
Qed.

Lemma GetNextActive_Keeps p p' r : GetNextActive p = Some (p', r) -> Keeps p p'.
Proof. apply GetNextActive_loop_Keeps. Qed.

Lemma RemoveActive_Keeps f p p' : RemoveActive f p = Some p' -> Keeps p p'.
Proof. unfold RemoveActive. intros H. unpack H; keeps. Qed.

Lemma ReleaseFinished_Keeps sl p p' r :
  ReleaseFinished sl p = Some (p', r) -> Keeps p p'.
Proof. unfold ReleaseFinished. intros H. unpack H; keeps. Qed.

Lemma TryLocal_Keeps sl avg p p' r :
  TryLocal sl avg p = Some (p', r) -> Keeps p p'.
Proof. unfold TryLocal. intros H. unpack H; keeps. Qed.

Lemma ChooseFile_Keeps sl avg p p' r :
  ChooseFile sl avg p = Some (p', r) -> Keeps p p'.
Proof.
  unfold ChooseFile. intros H.
  destruct (TryLocal sl avg p) as [[p1 f1]|] eqn:H1; simpl in H; [|done].
  apply TryLocal_Keeps in H1.
  destruct f1 as [f|]; simpl in H.
  - by simplify_eq.
  - destruct (GetNextUnAlloc None p1) as [[p2 f2]|] eqn:H2; simpl in H; [|done].
    apply GetNextUnAlloc_Keeps in H2.
    destruct f2 as [f|]; simplify_eq; [by eapply Keeps_trans|].
    apply GetNextActive_Keeps in H. eauto using Keeps_trans.
Qed.

Lemma AssignFile_Keeps sl f p p' : AssignFile sl f p = Some p' -> Keeps p p'.
Proof. unfold AssignFile. intros H. unpack H; keeps. Qed.

Lemma RecordReply_Keeps sl r p p' : RecordReply sl r p = Some p' -> Keeps p p'.
Proof.
  unfold RecordReply, UpdateRates. intros H.
  destruct (fSlaveStats p !! sl) as [slstat|] eqn:Hs; simpl in H; [|done].
  destruct (TSlaveStat.fCurElem slstat) as [curElem|] eqn:Hce;
    [|simplify_eq; apply Keeps_refl].
  cbv zeta in H. simpl in H. rewrite Hs in H. simpl in H.
  destruct (TSlaveStat.fCurFile slstat) as [f|] eqn:Hf; simpl in H; [|done].
  destruct (fileStats p !! f) as [fs|] eqn:Hfs; simpl in H; [|done].
  destruct (fFileNodes p !! TFileStat.GetNode fs) as [nd|] eqn:Hnd;
    simpl in H; [|done].
  rewrite list_lookup_insert_eq in H by (by eapply lookup_lt_Some).
  simpl in H. simplify_eq.
  eapply (Keeps_updSlave sl);
    [simpl; apply list_lookup_insert_eq; by eapply lookup_lt_Some|reflexivity|].
  keeps.
Qed.

(** Cutting a packet changes one [TFileStat]: the file is set done or
    its cursor is moved. *)
Lemma CarvePacket_files sl f p p' pkt :
  CarvePacket sl f p = Some (p', pkt) ->
  Keeps p p'
  /\ exists fs fs',
       fileStats p !! f = Some fs
       /\ fileStats p' = <[f := fs']> (fileStats p)
       /\ (TFileStat.fIsDone fs = true -> TFileStat.fIsDone fs' = true).
Proof.
  unfold CarvePacket. intros H.
  destruct (fSlaveStats p !! sl) as [s|] eqn:Hs; simpl in H; [|done].
  destruct (fileStats p !! f) as [fs|] eqn:Hfs; simpl in H; [|done].
  destruct (elements p !! TFileStat.GetElement fs) as [base|] eqn:Hb;
    simpl in H; [|done].
  destruct (_ <=? _); simpl in H.
  - destruct (RemoveActive f _) as [q|] eqn:Hq; simpl in H; [|done].
    pose proof (RemoveActive_Frame _ _ _ Hq) as (_&_&_&_&_&Hfiles&_).
    apply RemoveActive_Keeps in Hq.
    destruct (fSlaveStats q !! sl) as [s'|] eqn:Hs'; simpl in H; [|done].
    simplify_eq. split.
    + eapply (Keeps_updSlave sl); [eassumption|reflexivity|].
      eapply Keeps_trans; [|exact Hq]. keeps.
    + exists fs, (TFileStat.SetDone fs). simpl. by rewrite Hfiles.
  - rewrite Hs in H. simpl in H. simplify_eq. split; [keeps|].
    by exists fs, (TFileStat.MoveNextEntry (CalculatePacketSize s p) fs).
Qed.

End KeepsSteps.

(** No call of [GetNextPacket] changes the elements of the dataset, the
    total, the validity or the stop flag, the name, the files, the events
    or the own workers of a node, the node or the element of a file, or
    the worker behind a [TSlaveStat]; and a file that is done stays
    done. *)
Theorem GetNextPacket_keeps `{FA : FloatArith} `{RT : Runtime}
  (sl : nat) (r : Reply) (p p' : TAdaptivePacketizer)
  (res : option TDSetElement) :
  GetNextPacket sl r p = Some (p', res) ->
  elements p' = elements p /\ fTotalEntries p' = fTotalEntries p
  /\ fValid p' = fValid p /\ fStop p' = fStop p
  /\ layout <$> fFileNodes p' = layout <$> fFileNodes p
  /\ filed <$> fileStats p' = filed <$> fileStats p
  /\ TSlaveStat.fSlave <$> fSlaveStats p' = TSlaveStat.fSlave <$> fSlaveStats p
  /\ (forall f fs, fileStats p !! f = Some fs ->
        TFileStat.fIsDone fs = true ->
        TFileStat.fIsDone <$> fileStats p' !! f = Some true).
Proof.
  intros H.
  assert (forall q file, FileForPacket sl r p = Some (q, file) ->
            elements q = elements p /\ fTotalEntries q = fTotalEntries p
            /\ fValid q = fValid p /\ fStop q = fStop p
            /\ fileStats q = fileStats p /\ Keeps p q) as Hfile.
  { intros q file Hq. pose proof Hq as Hpath.
    apply FileForPacket_FilePath in Hpath.
    destruct (fValid p) eqn:Hv.
    - destruct (FilePath_Frame _ _ _ _ _ Hpath Hv)
        as (p1 & H1 & _ & Ft & Fv & Fs & Fe & Ff & _).
      destruct (Recorded_Frame_flags _ _ _ _ H1) as (Rs & Rt & Rv & Re & Rf).
      do 5 (split; [congruence|]).
      eapply Keeps_trans; [by eapply RecordReply_Keeps|].
      clear Hq.
      destruct Hpath as [Hv'|p1' _ H1' Hs|p1' p2 file' _ H1' Hs H2 Heq
                 |p1' p2 p3 _ H1' Hs H2 Hne H3
                 |p1' p2 f _ H1' Hs H2 Hne
                 |p1' p2 p3 f p4 _ H1' Hs H2 Hne H3 H4];
        [congruence|..];
        assert (p1' = p1) as -> by congruence.
      + apply Keeps_refl.
      + by eapply ReleaseFinished_Keeps.
      + eapply Keeps_trans; [by eapply ReleaseFinished_Keeps|].
        by eapply ChooseFile_Keeps.
      + by eapply ReleaseFinished_Keeps.
      + eapply Keeps_trans; [by eapply ReleaseFinished_Keeps|].
        eapply Keeps_trans; [by eapply ChooseFile_Keeps|].
        by eapply AssignFile_Keeps.
    - unfold FileForPacket in Hq. rewrite Hv in Hq. simpl in Hq.
      simplify_eq. rewrite Hv. repeat split. }
  apply GetNextPacket_inv in H as [[-> H]|(q & f & pkt & -> & H & Hc)];
    apply Hfile in H as (He & Ht & Hv & Hs & Hf & Hn & Hfd & Hsl).
  - do 4 (split; [done|]). do 3 (split; [done|]).
    intros f fs Hfs Hd. by rewrite Hf, Hfs; simpl; rewrite Hd.
  - pose proof (CarvePacket_counts _ _ _ _ _ Hc) as (_ & Ct & Ce & _).
    destruct (CarvePacket_Frame _ _ _ _ _ Hc) as (fs1 & _ & _ & Cv & Cs & _).
    simpl in Cv, Cs.
    apply CarvePacket_files in Hc
      as ((Kn & Kf & Ks) & fs0 & fs' & Hfs0 & Hfiles & Hdone).
    repeat split; try congruence.
    intros g fs Hfs Hd. rewrite Hfiles, Hf.
    destruct (decide (g = f)) as [->|Hne].
    + rewrite list_lookup_insert_eq by (by eapply lookup_lt_Some).
      simpl. f_equal. apply Hdone. congruence.
    + rewrite list_lookup_insert_ne by done. by rewrite Hfs; simpl; rewrite Hd.
Qed.

(** ** Validation: the range of an element *)

(** A [kPROOF_GETENTRIES] reply with [entries > 0] for an element without
    entry list leaves the start of the element alone and fits its range
    to the entries of the file: a number of [-1] becomes what lies between
    the start and [entries], any other number is cut down to that, so the
    range ends at [entries] at the latest; [entries] is recorded as the
    offset of the element, the worker is ready for the next job and one
    more element is reported validated. *)
Theorem HandleReply_fits_range `{FA : FloatArith} `{RT : Runtime}
  (slave : nat) (entries : Z) (objname : option string) (v v' : Validation)
  (s : TSlaveStat.t) (f : nat) (fs : TFileStat.t) (e : TDSetElement) :
  HandleReply slave (kPROOF_GETENTRIES entries objname) v = Some v' ->
  fSlaveStats (vPacketizer v) !! slave = Some s ->
  TSlaveStat.fCurFile s = Some f ->
  fileStats (vPacketizer v) !! f = Some fs ->
  elements (vPacketizer v) !! TFileStat.fElement fs = Some e ->
  fEntryList e = None ->
  0 < entries ->
  exists e',
    elements (vPacketizer v') !! TFileStat.fElement fs = Some e'
    /\ fName e' = fName e /\ fFirst e' = fFirst e
    /\ fNum e' = (if fNum e =? -1 then entries - fFirst e
                  else Z.min (fNum e) (entries - fFirst e))
    /\ fFirst e' + fNum e' <= entries
    /\ fTDSetOffset e' = entries
    /\ fTitle e' = default (fTitle e) objname
    /\ (forall eid, eid <> TFileStat.fElement fs ->
          elements (vPacketizer v') !! eid = elements (vPacketizer v) !! eid)
    /\ vWorkers v' = vWorkers v ++ [slave]
    /\ vStatus v' = vStatus v + 1.
Proof.
  unfold HandleReply. intros H Hs Hf Hfs He Hel Hpos.
  simpl in H. rewrite Hs in H. simpl in H. rewrite Hf in H. simpl in H.
  rewrite Hfs in H. simpl in H. unfold TFileStat.GetElement in H.
  rewrite He in H. simpl in H.
  destruct (fFileNodes (vPacketizer v) !! TFileStat.GetNode fs) as [nd|];
    simpl in H; [|done].
  destruct (TFileNode.DecExtSlaveCnt _ nd) as [nd'|]; simpl in H; [|done].
  destruct (Z.ltb_spec 0 entries) as [_|]; [|lia].
  assert (TFileStat.fElement fs < length (elements (vPacketizer v)))%nat
    as Hlen by (by eapply lookup_lt_Some).
  destruct objname as [name|]; simpl in H; rewrite Hel in H;
    destruct (entries <? fFirst e); simpl in H;
    destruct (Z.eqb_spec (fNum e) (-1)) as [Hn|Hn]; simpl in H;
    try destruct (Z.ltb_spec entries (fFirst e + fNum e)); simpl in H;
    simplify_eq; simpl;
    (eexists; split; [by apply list_lookup_insert_eq|]); simpl;
    (repeat split; try lia; try done;
     intros eid Hne; by rewrite list_lookup_insert_ne).
Qed.

(** ** The offsets of the elements *)


Lemma ComputeOffsets_other dset offset elems eid :
  eid ∉ dset -> ComputeOffsets dset offset elems !! eid = elems !! eid.
Proof.
  revert offset elems. induction dset as [|x dset IH]; intros offset elems Hn;
    [done|].
  apply not_elem_of_cons in Hn as [Hne Hn]. simpl.
  destruct (elems !! x) as [el|] eqn:Hx.
  - rewrite IH by done. by rewrite list_lookup_insert_ne.
  - by apply IH.
Qed.

Lemma ComputeOffsets_at dset offset elems i eid :
  NoDup dset -> dset !! i = Some eid ->
  ComputeOffsets dset offset elems !! eid
  = SetTDSetOffset (offset + foldr Z.add 0 (OffsetOf elems <$> take i dset))
      <$> elems !! eid.
Proof.
  intros Hdup. revert i offset elems.
  induction Hdup as [|x dset Hx Hdup IH]; intros i offset elems Hi; [done|].
  destruct i as [|i]; simpl in Hi.
  - simplify_eq. simpl. destruct (elems !! eid) as [el|] eqn:He.
    + rewrite ComputeOffsets_other by done.
      rewrite list_lookup_insert_eq by (by eapply lookup_lt_Some).
      simpl. by rewrite Z.add_0_r.
    + rewrite ComputeOffsets_other by done. by rewrite He.
  - assert (eid <> x) as Hne.
    { intros ->. apply Hx. by eapply list_elem_of_lookup_2. }
    csimpl. unfold OffsetOf at 1.
    destruct (elems !! x) as [el|] eqn:He; simpl.
    + rewrite (IH i) by done.
      rewrite list_lookup_insert_ne by done. do 2 f_equal.
      rewrite <- Z.add_assoc. do 3 f_equal.
      apply list_fmap_ext. intros j y Hy. unfold OffsetOf.
      rewrite list_lookup_insert_ne; [done|].
      intros ->. apply Hx. apply lookup_take_Some in Hy as [Hy _].
      by eapply list_elem_of_lookup_2.
    + by rewrite (IH i).
Qed.

(** The last step of [ValidateFiles] turns the entries recorded for the
    elements into running offsets: an element of the dataset gets the sum
    of the entries recorded for the elements before it, and is otherwise
    as it was; an element that is not in the dataset is left alone. *)
Theorem ComputeOffsets_running_sum (dset : list nat)
  (elems : list TDSetElement) :
  NoDup dset ->
  (forall i eid, dset !! i = Some eid ->
     ComputeOffsets dset 0 elems !! eid
     = SetTDSetOffset (foldr Z.add 0 (OffsetOf elems <$> take i dset))
         <$> elems !! eid)
  /\ (forall eid, eid ∉ dset ->
        ComputeOffsets dset 0 elems !! eid = elems !! eid)
  /\ length (ComputeOffsets dset 0 elems) = length elems.
Proof.
  intros Hdup. split; [|split].
  - intros i eid Hi. by rewrite (ComputeOffsets_at _ _ _ i).
  - intros eid. apply ComputeOffsets_other.
  - clear Hdup. generalize 0. revert elems.
    induction dset as [|x dset IH]; intros elems offset; [done|]. simpl.
    destruct (elems !! x); rewrite IH; [|done]. by rewrite length_insert.
Qed.

(** ** Sending work in [ValidateFiles] *)

Section SendingWork.
Context `{FA : FloatArith} `{RT : Runtime}.

Lemma NextNode_slaves p p' r :
  NextNode p = Some (p', r) -> fSlaveStats p' = fSlaveStats p.
Proof. unfold NextNode. intros H. by unpack H. Qed.

Lemma NodeNextUnAlloc_slaves n p p' r :
  NodeNextUnAlloc n p = Some (p', r) -> fSlaveStats p' = fSlaveStats p.
Proof. unfold NodeNextUnAlloc. intros H. by unpack H. Qed.

Lemma GetNextUnAlloc_loop_slaves turns p p' r :
  GetNextUnAlloc_loop turns p = Some (p', r) -> fSlaveStats p' = fSlaveStats p.
Proof.
  revert p. induction turns as [|k IH]; simpl; intros p H; [by simplify_eq|].
  destruct (NextNode p) as [[p1 [n|]]|] eqn:H1; simpl in H; simplify_eq.
  - apply NextNode_slaves in H1.
    destruct (NodeNextUnAlloc n p1) as [[p2 [f|]]|] eqn:H2; simpl in H;
      simplify_eq; apply NodeNextUnAlloc_slaves in H2; [congruence|].
    apply IH in H. congruence.
  - by apply NextNode_slaves in H1.
Qed.

Lemma GetNextUnAlloc_slaves node p p' r :
  GetNextUnAlloc node p = Some (p', r) -> fSlaveStats p' = fSlaveStats p.
Proof.
  unfold GetNextUnAlloc. intros H.
  destruct node as [n|]; simpl in H.
  - destruct (NodeNextUnAlloc n p) as [[p1 file]|] eqn:H1; simpl in H; [|done].
    apply NodeNextUnAlloc_slaves in H1. by unpack H.
  - destruct (GetNextUnAlloc_loop _ p) as [[p1 found]|] eqn:H1; simpl in H;
      [|done].
    apply GetNextUnAlloc_loop_slaves in H1. by unpack H.
Qed.

Lemma RemoveActive_slaves f p p' :
  RemoveActive f p = Some p' -> fSlaveStats p' = fSlaveStats p.
Proof. unfold RemoveActive. intros H. by unpack H. Qed.

(** What [SendWorkTo] does for the worker [s]: either no file is left
    for it and nothing is sent, or a request for the element of a file
    is sent, the file becomes the current file of the worker and the
    socket of the worker is watched.  No other worker is touched. *)
Lemma SendWorkTo_inv s v v' :
  SendWorkTo s v = Some v' ->
  vWorkers v' = vWorkers v /\ vDSet v' = vDSet v /\ vBad v' = vBad v
  /\ vStatus v' = vStatus v /\ vClient v' = vClient v
  /\ elements (vPacketizer v') = elements (vPacketizer v)
  /\ fileStats (vPacketizer v') = fileStats (vPacketizer v)
  /\ fValid (vPacketizer v') = fValid (vPacketizer v)
  /\ (forall s', s' <> s ->
        fSlaveStats (vPacketizer v') !! s' = fSlaveStats (vPacketizer v) !! s')
  /\ ((vRequests v' = vRequests v /\ vMonitor v' = vMonitor v)
      \/ exists st f fs elem,
           vRequests v' = vRequests v ++ [(s, elem)]
           /\ (forall x, x ∈ vMonitor v' <-> x ∈ vMonitor v \/ x = s)
           /\ fSlaveStats (vPacketizer v') !! s = Some st
           /\ TSlaveStat.fCurFile st = Some f
           /\ fileStats (vPacketizer v) !! f = Some fs
           /\ elements (vPacketizer v) !! TFileStat.fElement fs = Some elem).
Proof.
  unfold SendWorkTo. cbv zeta. intros H.
  destruct (fSlaveStats (vPacketizer v) !! s) as [slstat|] eqn:Hs;
    simpl in H; [|done].
  set (p := vPacketizer v) in *.
  set (first := match TSlaveStat.GetFileNode slstat with
                | Some node => _ | None => _ end) in H.
  destruct first as [[p1 file1]|] eqn:H1; simpl in H; [|done].
  assert (Frame p p1
          /\ (forall s', s' <> s -> fSlaveStats p1 !! s' = fSlaveStats p !! s')
          /\ length (fSlaveStats p1) = length (fSlaveStats p)) as (F1 & S1 & L1).
  { subst first. destruct (TSlaveStat.GetFileNode slstat) as [node|];
      [|by simplify_eq].
    destruct (GetNextUnAlloc (Some node) p) as [[q [f|]]|] eqn:Hq;
      simpl in H1; [| |done].
    - simplify_eq. split; [by eapply GetNextUnAlloc_Frame|].
      apply GetNextUnAlloc_slaves in Hq. by rewrite Hq.
    - destruct (fSlaveStats q !! s) as [st|] eqn:Hst; simpl in H1; [|done].
      simplify_eq. pose proof (GetNextUnAlloc_slaves _ _ _ _ Hq) as Hsl.
      apply GetNextUnAlloc_Frame in Hq. split; [frame|]. simpl.
      rewrite length_insert, Hsl. split; [|done].
      intros s' Hne. by rewrite list_lookup_insert_ne. }
  clear H1 first.
  set (second := match file1 with Some f => _ | None => _ end) in H.
  destruct second as [[p2 file2]|] eqn:H2; simpl in H; [|done].
  assert (Frame p1 p2 /\ fSlaveStats p2 = fSlaveStats p1) as (F2 & S2).
  { subst second. destruct file1 as [f|]; [simplify_eq; split; [|done];
                                            apply Frame_refl|].
    split; [by eapply GetNextUnAlloc_Frame|by eapply GetNextUnAlloc_slaves]. }
  clear H2 second.
  pose proof (Frame_trans _ _ _ F1 F2) as (_ & _ & Fv & _ & Fe & Ff & _).
  destruct file2 as [f|]; simpl in H.
  - destruct (RemoveActive f p2) as [p3|] eqn:H3; simpl in H; [|done].
    pose proof (RemoveActive_slaves _ _ _ H3) as S3.
    apply RemoveActive_Frame in H3 as (_ & _ & Fv3 & _ & Fe3 & Ff3 & _).
    destruct (fSlaveStats p3 !! s) as [st|] eqn:Hst; simpl in H; [|done].
    rewrite Ff3, Ff in H.
    destruct (fileStats p !! f) as [fs|] eqn:Hfs; simpl in H; [|done].
    destruct (fFileNodes p3 !! TFileStat.GetNode fs) as [nd|] eqn:Hnd;
      simpl in H; [|done].
    rewrite Fe3, Fe in H. unfold TFileStat.GetElement in H.
    destruct (elements p !! TFileStat.fElement fs) as [elem|] eqn:He;
      simpl in H; [|done].
    simplify_eq. unfold Activate. simpl.
    destruct (TList.Contains (vMonitor v) s) eqn:Hc; simpl;
      (do 5 (split; [done|]));
      (split; [congruence|]); (split; [congruence|]); (split; [congruence|]);
      (split; [intros s' Hne; rewrite list_lookup_insert_ne by done;
               rewrite S3, S2; by apply S1|]);
      right; exists (TSlaveStat.SetCurFile (Some f) st), f, fs, elem;
      (split; [done|]);
      (split; [|split; [apply list_lookup_insert_eq; by eapply lookup_lt_Some
                       |done]]).
    + intros x. split; [by left|]. intros [Hx| ->]; [done|].
      unfold TList.Contains in Hc. by apply bool_decide_eq_true in Hc.
    + intros x. unfold TList.Add. rewrite elem_of_app, list_elem_of_singleton.
      done.
  - simplify_eq. simpl. do 5 (split; [done|]).
    split; [congruence|]. split; [congruence|]. split; [congruence|].
    split; [|by left]. intros s' Hne. rewrite S2. by apply S1.
Qed.

End SendingWork.

(** [SendWork] with one turn per ready worker leaves no worker ready.
    It sends requests to some of the workers that were ready, in their
    order; each such worker is then watched, and nobody else is added to
    the watched; the element requested of a worker is the element of what
    is now the current file of that worker.  The dataset, its elements,
    the files and the validity are not touched, nor any worker that was
    not ready. *)
Theorem SendWork_requests `{FA : FloatArith} `{RT : Runtime}
  (v v' : Validation) :
  NoDup (vWorkers v) ->
  SendWork (length (vWorkers v)) v = Some v' ->
  vWorkers v' = [] /\ vDSet v' = vDSet v
  /\ elements (vPacketizer v') = elements (vPacketizer v)
  /\ fileStats (vPacketizer v') = fileStats (vPacketizer v)
  /\ fValid (vPacketizer v') = fValid (vPacketizer v)
  /\ (forall s, s ∉ vWorkers v ->
        fSlaveStats (vPacketizer v') !! s = fSlaveStats (vPacketizer v) !! s)
  /\ exists sent,
       vRequests v' = vRequests v ++ sent
       /\ sublist sent.*1 (vWorkers v)
       /\ (forall x, x ∈ vMonitor v' <-> x ∈ vMonitor v \/ x ∈ sent.*1)
       /\ (forall s elem, (s, elem) ∈ sent ->
             exists st f fs,
               fSlaveStats (vPacketizer v') !! s = Some st
               /\ TSlaveStat.fCurFile st = Some f
               /\ fileStats (vPacketizer v') !! f = Some fs
               /\ elements (vPacketizer v') !! TFileStat.fElement fs
                  = Some elem).
Proof.
  remember (length (vWorkers v)) as n eqn:Hn. revert v Hn.
  induction n as [|n IH]; intros v Hn Hdup H; simpl in H.
  - assert (v' = v) as -> by congruence. destruct (vWorkers v); [|done].
    do 6 (split; [done|]). exists []. rewrite app_nil_r.
    split; [done|]. split; [done|]. split; [|by intros ?? ?%elem_of_nil].
    intros x. split; [by left|]. by intros [?|?%elem_of_nil].
  - destruct (vWorkers v) as [|s ws] eqn:Hw; [done|]. simpl in H.
    rewrite bool_decide_eq_true_2 in H by done.
    destruct (SendWorkTo s (set_vWorkers ws v)) as [v2|] eqn:H2; simpl in H;
      [|done].
    apply SendWorkTo_inv in H2
      as (W2 & D2 & _ & _ & _ & E2 & F2 & V2 & S2 & Hsent).
    simpl in *. apply NoDup_cons in Hdup as [Hs Hdup].
    apply IH in H; [|rewrite W2; by simplify_eq|by rewrite W2].
    destruct H as (W & D & E & F & V & S & sent & R & Hsub & Hmon & Hcur).
    rewrite W2 in S, Hsub.
    split; [done|]. do 4 (split; [congruence|]).
    split.
    { intros x [Hx Hx']%not_elem_of_cons. rewrite S by done. by apply S2. }
    destruct Hsent as [[R2 M2]|(st & f & fs & elem & R2 & M2 & Hst & Hf & Hfs
                                & He)].
    + exists sent. split; [congruence|]. split; [by apply sublist_cons|].
      split; [by rewrite <- M2|done].
    + exists ((s, elem) :: sent). split; [by rewrite R, R2, <- app_assoc|].
      split; [by apply sublist_skip|]. split.
      * intros x. rewrite Hmon, M2, fmap_cons, elem_of_cons. simpl. tauto.
      * intros s' elem' [Heq|Hin]%elem_of_cons; [|by apply Hcur].
        simplify_eq. exists st, f, fs. rewrite S by done.
        split; [done|]. split; [done|]. by rewrite F, E, F2, E2.
Qed.

(** ** Datasets *)

(** What [TDSetElement::Validate] does to an element that is not valid. *)
Lemma TDSetElement_Validate_inv (elem : option TDSetElement)
  (this : TDSetElement) :
  fValidElement this = false ->
  let this' := TDSetElement_Validate elem this in
  if fValidElement this' then
    exists v,
      elem = Some v /\ fValidElement v = true
      /\ fName this = fName v /\ fDirectory this = fDirectory v
      /\ fTitle this = fTitle v
      /\ fFirst this < fFirst v + fNum v
      /\ fName this' = fName this /\ fDirectory this' = fDirectory this
      /\ fTitle this' = fTitle this /\ fFirst this' = fFirst this
      /\ fTDSetOffset this' = fTDSetOffset this
      /\ fEntryList this' = fEntryList this
      /\ fNum this' = (if fNum this =? -1
                       then fFirst v + fNum v - fFirst this else fNum this)
      /\ fFirst this' + fNum this' <= fFirst v + fNum v
  else this' = this.
Proof.
  intros Hv. unfold TDSetElement_Validate.
  destruct elem as [v|]; simpl; [|by rewrite Hv].
  destruct (fValidElement v) eqn:Hvv; simpl; [|by rewrite Hv].
  repeat case_bool_decide; simpl; try by rewrite Hv.
  destruct (Z.ltb_spec (fFirst this) (fFirst v + fNum v)); [|by rewrite Hv].
  destruct (Z.eqb_spec (fNum this) (-1)); simpl.
  - exists v. repeat split; try done; lia.
  - destruct (Z.leb_spec (fNum this) (fFirst v + fNum v - fFirst this));
      simpl; [|by rewrite Hv].
    exists v. repeat split; try done; lia.
Qed.

(** An element that was not valid and is validated against [elem] either
    stays as it was, or becomes valid: then [elem] is a valid element for
    the same file, directory and object, the element starts before the
    end of [elem], keeps its start and a number other than [-1], gets for
    [-1] what lies between its start and the end of [elem], and ends
    where [elem] ends at the latest. *)
Theorem TDSetElement_Validate_range (elem : option TDSetElement)
  (this : TDSetElement) :
  fValidElement this = false ->
  let this' := TDSetElement_Validate elem this in
  (fValidElement this' = false -> this' = this)
  /\ (fValidElement this' = true ->
      exists v,
        elem = Some v /\ fValidElement v = true
        /\ fName this = fName v /\ fDirectory this = fDirectory v
        /\ fTitle this = fTitle v
        /\ fFirst this < fFirst v + fNum v
        /\ fName this' = fName this /\ fDirectory this' = fDirectory this
        /\ fTitle this' = fTitle this /\ fFirst this' = fFirst this
        /\ fTDSetOffset this' = fTDSetOffset this
        /\ fEntryList this' = fEntryList this
        /\ fNum this' = (if fNum this =? -1
                         then fFirst v + fNum v - fFirst this else fNum this)
        /\ fFirst this' + fNum this' <= fFirst v + fNum v).
Proof.
  intros Hv. pose proof (TDSetElement_Validate_inv elem this Hv) as H.
  cbv zeta in *. destruct (fValidElement (TDSetElement_Validate elem this));
    split; done.
Qed.

Section DataSets.
Import TDSet.

Lemma FindObject_None l name :
  FindObject l name = None <-> name ∉ fName <$> l.
Proof.
  unfold FindObject. rewrite fmap_None, list_find_None, list_elem_of_fmap.
  rewrite Forall_forall. split.
  - intros H (el & -> & Hin). by apply (H el).
  - intros H el Hin Heq. apply H. by exists el.
Qed.

Lemma Add_inv file objname dir first num d :
  (exists f, file = Some f /\ f <> EmptyString /\ (f ∉ fName <$> fElements d)
             /\ Add file objname dir first num d
                = (set_fElements
                     (fElements d
                      ++ [TDSetElement_new f (default (fObjName d) objname)
                            (default (fDir d) dir) first num]) d, true))
  \/ ((forall f, file = Some f ->
         f = EmptyString \/ f ∈ fName <$> fElements d)
      /\ Add file objname dir first num d = (d, false)).
Proof.
  unfold Add. destruct file as [f|]; [|by right].
  case_bool_decide as Hf; [right; split; [|done]; intros ? [= <-]; by left|].
  destruct (FindObject (fElements d) f) as [el|] eqn:Hfind.
  - right. split; [|done]. intros ? [= <-]. right.
    destruct (decide (f ∈ fName <$> fElements d)) as [|Hn]; [done|].
    apply FindObject_None in Hn. congruence.
  - left. exists f. apply FindObject_None in Hfind. done.
Qed.

Lemma add_known d els :
  (forall el, el ∈ els -> fName el ∈ fName <$> fElements d) ->
  foldl add_element d els = d.
Proof.
  induction els as [|el els IH]; intros H; [done|]. simpl.
  assert (add_element d el = d) as ->.
  { unfold add_element.
    destruct (Add_inv (Some (fName el)) (Some (fTitle el))
                (Some (fDirectory el)) (fFirst el) (fNum el) d)
      as [(f & [= <-] & _ & Hn & _)|[_ ->]]; [|done].
    destruct Hn. apply H. by left. }
  apply IH. intros el' Hin. apply H. by right.
Qed.

Lemma add_all d els :
  exists news,
    foldl add_element d els = set_fElements (fElements d ++ news) d
    /\ NoDup (fName <$> news)
    /\ (forall name, name ∈ fName <$> news <->
          name <> EmptyString /\ name ∈ fName <$> els
          /\ (name ∉ fName <$> fElements d))
    /\ (forall e, e ∈ news ->
          exists el, el ∈ els
            /\ e = TDSetElement_new (fName el) (fTitle el) (fDirectory el)
                     (fFirst el) (fNum el)).
Proof.
  revert d. induction els as [|el els IH]; intros d.
  - exists []. simpl. rewrite app_nil_r. split; [by destruct d|].
    split; [constructor|]. split; [|by intros ? ?%elem_of_nil].
    intros name. split; [by intros ?%elem_of_nil|].
    by intros (_ & ?%elem_of_nil & _).
  - simpl.
    destruct (Add_inv (Some (fName el)) (Some (fTitle el))
                (Some (fDirectory el)) (fFirst el) (fNum el) d)
      as [(f & [= <-] & Hne & Hnew & Hadd)|[Hknown Hadd]];
      unfold add_element at 2; rewrite Hadd; simpl.
    + set (e := TDSetElement_new _ _ _ _ _) in *.
      destruct (IH (set_fElements (fElements d ++ [e]) d))
        as (news & -> & Hdup & Hnames & Hfrom). simpl in *.
      exists (e :: news). rewrite <- app_assoc. split; [done|].
      assert (forall name, name ∈ fName <$> (fElements d ++ [e])
                           <-> name ∈ fName <$> fElements d \/ name = fName el)
        as Hin.
      { intros name. rewrite fmap_app, elem_of_app. simpl.
        by rewrite list_elem_of_singleton. }
      split; [|split].
      * rewrite fmap_cons. apply NoDup_cons. split; [|done].
        intros (_ & _ & Hn)%Hnames. apply Hn, Hin. by right.
      * intros name. csimpl. rewrite !elem_of_cons, Hnames, Hin. simpl.
        destruct (decide (name = fName el)) as [->|]; tauto.
      * intros e' [->|Hin']%elem_of_cons.
        -- exists el. split; [by left|done].
        -- destruct (Hfrom _ Hin') as (el' & ? & ?). exists el'.
           split; [by right|done].
    + destruct (IH d) as (news & -> & Hdup & Hnames & Hfrom).
      exists news. split; [done|]. split; [done|]. split.
      * intros name. rewrite Hnames. csimpl. rewrite elem_of_cons.
        destruct (Hknown _ eq_refl) as [He|He];
          destruct (decide (name = fName el)) as [->|]; tauto.
      * intros e' Hin'. destruct (Hfrom _ Hin') as (el' & ? & ?).
        exists el'. split; [by right|done].
Qed.

End DataSets.

(** [TDSet::Add] refuses a null or empty file name and a file name that
    is already in the dataset, and then leaves the dataset alone.  Any
    other file is added at the end, with the object name and the
    directory of the dataset where none is given, with a start that is
    not negative and a number that is at least [-1], not valid and with
    no offset; so the file names of a dataset stay distinct. *)
Theorem TDSet_Add_distinct (file objname dir : option string) (first num : Z)
  (d d' : TDSet.t) (ok : bool) :
  TDSet.Add file objname dir first num d = (d', ok) ->
  (ok = true <->
   exists f, file = Some f /\ f <> EmptyString
             /\ (f ∉ fName <$> TDSet.fElements d))
  /\ (ok = false -> d' = d)
  /\ (ok = true ->
      exists e,
        TDSet.fElements d' = TDSet.fElements d ++ [e]
        /\ file = Some (fName e)
        /\ fTitle e = default (TDSet.fObjName d) objname
        /\ fDirectory e = default (TDSet.fDir d) dir
        /\ fFirst e = Z.max 0 first /\ fNum e = Z.max (-1) num
        /\ fValidElement e = false /\ fTDSetOffset e = 0
        /\ fEntryList e = None)
  /\ (NoDup (fName <$> TDSet.fElements d) ->
      NoDup (fName <$> TDSet.fElements d')).
Proof.
  intros H.
  destruct (Add_inv file objname dir first num d)
    as [(f & -> & Hne & Hnew & Hadd)|[Hknown Hadd]];
    rewrite Hadd in H; simplify_eq.
  - split; [split; [by exists f|done]|]. split; [done|]. split.
    + intros _. eexists. split; [done|]. simpl.
      repeat split; try done.
      * destruct (Z.ltb_spec first 0); lia.
      * destruct (Z.ltb_spec num (-1)); lia.
    + intros Hdup. simpl. rewrite fmap_app. simpl.
      apply NoDup_app. split; [done|]. split; [|apply NoDup_singleton].
      intros x Hx ->%list_elem_of_singleton. done.
  - split; [|done]. split; [done|].
    intros (f & -> & Hne & Hnew). by destruct (Hknown _ eq_refl).
Qed.

(** Adding a dataset to itself leaves it as it is. *)
Theorem TDSet_Add_itself (d : TDSet.t) :
  TDSet.AddDSet TDSet.This d = (d, true).
Proof.
  unfold TDSet.AddDSet. f_equal.
  apply (add_known d (TDSet.fElements d)).
  intros el Hin. apply list_elem_of_fmap. by exists el.
Qed.

(** Adding a dataset of another type is refused.  Adding one of the same
    type keeps the elements of this dataset and puts behind them one new
    element, in order, for each file name of the other dataset that is
    not empty and not yet known; a new element has the name, object,
    directory and range of the element it comes from, but is not valid
    and has no offset.  The file names stay distinct. *)
Theorem TDSet_Add_dataset (dset d : TDSet.t) :
  (TDSet.fType d <> TDSet.fType dset ->
   TDSet.AddDSet (TDSet.Other dset) d = (d, false))
  /\ (TDSet.fType d = TDSet.fType dset ->
      exists news,
        TDSet.AddDSet (TDSet.Other dset) d
        = (TDSet.set_fElements (TDSet.fElements d ++ news) d, true)
        /\ NoDup (fName <$> news)
        /\ (forall name, name ∈ fName <$> news <->
              name <> EmptyString /\ name ∈ fName <$> TDSet.fElements dset
              /\ (name ∉ fName <$> TDSet.fElements d))
        /\ (forall e, e ∈ news ->
              exists el, el ∈ TDSet.fElements dset
                /\ e = TDSetElement_new (fName el) (fTitle el)
                         (fDirectory el) (fFirst el) (fNum el))
        /\ (NoDup (fName <$> TDSet.fElements d) ->
            NoDup (fName <$> (TDSet.fElements d ++ news)))).
Proof.
  unfold TDSet.AddDSet. split; intros Ht.
  - by rewrite bool_decide_eq_true_2.
  - rewrite bool_decide_eq_false_2 by (by intros ?).
    destruct (add_all d (TDSet.fElements dset))
      as (news & Hfold & Hdup & Hnames & Hfrom).
    exists news. split; [by f_equal|]. do 3 (split; [done|]).
    intros Hd. rewrite fmap_app. apply NoDup_app. split; [done|].
    split; [|done]. intros name Hin (_ & _ & Hn)%Hnames. done.
Qed.

Section ValidateAgainst.
Import TDSet.

(** One turn of the first loop of [Validate(TDSet *dset)]. *)
Lemma bestElements_snoc l x :
  bestElements (l ++ [x])
  = best ← bestElements l;
    if negb (fValidElement x) then Some best
    else match best !! dir_file_obj x with
         | Some prevelem =>
             if fFirst prevelem + fNum prevelem <? fFirst x + fNum x
             then None else Some best
         | None => Some (<[dir_file_obj x := x]> best)
         end.
Proof. unfold bestElements. by rewrite foldl_snoc. Qed.

Lemma FirstValid_snoc l x key :
  FirstValid (l ++ [x]) key
  = match FirstValid l key with
    | Some v => Some v
    | None => if fValidElement x && bool_decide (dir_file_obj x = key)
              then Some x else None
    end.
Proof.
  unfold FirstValid. rewrite filter_app.
  destruct (filter _ l) as [|v t]; simpl.
  - rewrite filter_cons, filter_nil.
    destruct (decide (fValidElement x = true /\ dir_file_obj x = key))
      as [[Hx Hk]|Hn].
    + by rewrite Hx, bool_decide_eq_true_2.
    + destruct (fValidElement x) eqn:Hx; [|done]. simpl.
      rewrite bool_decide_eq_false_2; [done|]. intros ?. by apply Hn.
  - done.
Qed.

Lemma FirstValid_Some elems key v :
  FirstValid elems key = Some v ->
  v ∈ elems /\ fValidElement v = true /\ dir_file_obj v = key.
Proof.
  unfold FirstValid. intros H. apply head_Some_elem_of in H.
  apply list_elem_of_filter in H as [[? ?] ?]. done.
Qed.

Lemma FirstValid_is_Some elems w :
  w ∈ elems -> fValidElement w = true ->
  is_Some (FirstValid elems (dir_file_obj w)).
Proof.
  intros Hw Hv. unfold FirstValid.
  assert (w ∈ filter (fun u => fValidElement u = true
                               /\ dir_file_obj u = dir_file_obj w) elems)
    as Hin by (by apply list_elem_of_filter).
  destruct (filter _ elems); [by apply elem_of_nil in Hin|by eexists].
Qed.

(** When the first loop comes to its end, each key has the first valid
    element filed under it. *)
Lemma bestElements_first elems best :
  bestElements elems = Some best ->
  forall key, best !! key = FirstValid elems key.
Proof.
  revert best. induction elems as [|x l IH] using rev_ind; intros best.
  - intros [= <-] key. by rewrite lookup_empty.
  - rewrite bestElements_snoc.
    destruct (bestElements l) as [best0|]; simpl; [|done].
    specialize (IH best0 eq_refl). intros H key.
    rewrite FirstValid_snoc, <- IH.
    destruct (fValidElement x) eqn:Hx; simpl in *.
    + destruct (best0 !! dir_file_obj x) as [prev|] eqn:Hprev.
      * destruct (_ <? _); [done|]. simplify_eq.
        destruct (best !! key) eqn:Hk; [done|].
        destruct (bool_decide_reflect (dir_file_obj x = key)); [|done].
        congruence.
      * simplify_eq.
        destruct (bool_decide_reflect (dir_file_obj x = key)) as [<-|Hne].
        -- by rewrite lookup_insert_eq, Hprev.
        -- rewrite lookup_insert_ne by done. by destruct (best0 !! key).
    + simplify_eq. by destruct (best !! key).
Qed.

(** The first loop comes to its end exactly when no valid element ends
    later than the first valid element of its key. *)
Lemma bestElements_ends elems :
  is_Some (bestElements elems) <-> Settled elems.
Proof.
  induction elems as [|x l IH] using rev_ind.
  - split; [|by eexists]. intros _ w v Hw. by apply elem_of_nil in Hw.
  - rewrite bestElements_snoc. split.
    + intros [best Hb].
      destruct (bestElements l) as [best0|] eqn:H0; simpl in Hb; [|done].
      destruct IH as [IH _]. specialize (IH ltac:(by eexists)).
      pose proof (bestElements_first _ _ H0) as HF.
      intros w v Hw Hwv. rewrite FirstValid_snoc.
      apply elem_of_app in Hw as [Hw| ->%list_elem_of_singleton].
      * destruct (FirstValid_is_Some _ _ Hw Hwv) as [u Hu]. rewrite Hu.
        intros [= <-]. by apply (IH w u).
      * rewrite Hwv in Hb. simpl in Hb. rewrite HF in Hb.
        destruct (FirstValid l (dir_file_obj x)) as [u|].
        -- intros [= <-]. unfold EndOf.
           destruct (Z.ltb_spec (fFirst u + fNum u) (fFirst x + fNum x));
             [done|lia].
        -- rewrite Hwv, bool_decide_eq_true_2 by done. simpl.
           intros [= <-]. lia.
    + intros Hall.
      destruct IH as [_ IH].
      destruct IH as [best0 H0].
      { intros w v Hw Hwv Hf. apply Hall; [set_solver|done|].
        by rewrite FirstValid_snoc, Hf. }
      rewrite H0. simpl. destruct (fValidElement x) eqn:Hx; simpl;
        [|by eexists].
      rewrite (bestElements_first _ _ H0).
      destruct (FirstValid l (dir_file_obj x)) as [prev|] eqn:Hprev;
        [|by eexists].
      specialize (Hall x prev ltac:(set_solver) Hx).
      rewrite FirstValid_snoc, Hprev in Hall. specialize (Hall eq_refl).
      unfold EndOf in Hall.
      destruct (Z.ltb_spec (fFirst prev + fNum prev) (fFirst x + fNum x));
        [lia|by eexists].
Qed.

Lemma Validate_lookup dset d d' i e :
  Validate dset d = Some d' ->
  fElements d !! i = Some e ->
  Settled (fElements dset)
  /\ fElements d' !! i
     = Some (if fValidElement e then e
             else match FirstValid (fElements dset) (dir_file_obj e) with
                  | Some validelem => TDSetElement_Validate (Some validelem) e
                  | None => e
                  end).
Proof.
  unfold Validate. intros H He.
  destruct (bestElements (fElements dset)) as [best|] eqn:Hb; simpl in H;
    [|done].
  simplify_eq. split; [apply bestElements_ends; by eexists|].
  unfold set_fElements. cbn [fElements].
  rewrite list_lookup_fmap, He. simpl.
  by rewrite (bestElements_first _ _ Hb).
Qed.

End ValidateAgainst.

(** Validating a dataset against another one comes to its end only when
    no valid element of the other dataset ends later than the first valid
    element of its key.  It then leaves every element that is valid as it
    is.  An element that is not valid is validated against one element of
    the other dataset only: the first valid one filed under its key, which
    is for the same file, directory and object.  If the element becomes
    valid it keeps its start, and it ends where that element ends at the
    latest; otherwise it stays as it was. *)
Theorem TDSet_Validate_against (dset d d' : TDSet.t) (i : nat)
  (e : TDSetElement) :
  TDSet.Validate dset d = Some d' ->
  TDSet.fElements d !! i = Some e ->
  Settled (TDSet.fElements dset)
  /\ exists e',
    TDSet.fElements d' !! i = Some e'
    /\ if fValidElement e then e' = e
       else if fValidElement e' then
         exists v,
           FirstValid (TDSet.fElements dset) (TDSet.dir_file_obj e) = Some v
           /\ v ∈ TDSet.fElements dset /\ fValidElement v = true
           /\ same_object e v
           /\ (forall w, w ∈ TDSet.fElements dset ->
                 fValidElement w = true ->
                 TDSet.dir_file_obj w = TDSet.dir_file_obj e ->
                 fFirst w + fNum w <= fFirst v + fNum v)
           /\ same_object e' e /\ fFirst e' = fFirst e
           /\ fFirst e < fFirst v + fNum v
           /\ fNum e' = (if fNum e =? -1
                         then fFirst v + fNum v - fFirst e else fNum e)
           /\ fFirst e' + fNum e' <= fFirst v + fNum v
       else e' = e.
Proof.
  intros HV He.
  destruct (Validate_lookup _ _ _ _ _ HV He) as (Hset & Hl).
  split; [done|].
  rewrite Hl. eexists. split; [done|].
  destruct (fValidElement e) eqn:Hv; [done|].
  destruct (FirstValid _ _) as [v|] eqn:Hbest; [|by rewrite Hv].
  pose proof (TDSetElement_Validate_inv (Some v) e Hv) as Hr.
  cbv zeta in Hr.
  destruct (fValidElement (TDSetElement_Validate (Some v) e)); [|done].
  destruct Hr as (v' & [= <-] & Hvv & Hn & Hd & Ht & Hlt & Hn' & Hd' & Ht'
                  & Hf' & _ & _ & Hnum & Hend).
  destruct (FirstValid_Some _ _ _ Hbest) as (Hin & _ & Hkey).
  exists v. unfold same_object. repeat split; try done.
  intros w Hw Hwv Hwk. apply (Hset w v Hw Hwv). by rewrite Hwk.
Qed.

(** Validation against another dataset comes to its end when no valid
    element of that dataset ends later than the first valid element of
    its key.  An element that is not valid then becomes valid when the
    other dataset has a valid element for the same file, directory and
    object whose end lies beyond the start of the element and, unless
    the element asks for all entries, not before its end -- provided the
    valid elements that the other dataset files under the same key are
    all for that file, directory and object. *)
Theorem TDSet_Validate_finds (dset d : TDSet.t) (i : nat)
  (e w : TDSetElement) :
  Settled (TDSet.fElements dset) ->
  TDSet.fElements d !! i = Some e -> fValidElement e = false ->
  w ∈ TDSet.fElements dset -> fValidElement w = true -> same_object e w ->
  (forall u, u ∈ TDSet.fElements dset -> fValidElement u = true ->
             TDSet.dir_file_obj u = TDSet.dir_file_obj e -> same_object e u) ->
  fFirst e < fFirst w + fNum w ->
  fNum e = -1 \/ fFirst e + fNum e <= fFirst w + fNum w ->
  exists d' e',
    TDSet.Validate dset d = Some d'
    /\ TDSet.fElements d' !! i = Some e'
    /\ fValidElement e' = true.
Proof.
  intros Hset He Hv Hw Hwv (Hn & Hd & Ht) Hclash Hlt Hfit.
  pose proof Hset as Hord.
  apply bestElements_ends in Hord as [best Hb].
  assert (exists d', TDSet.Validate dset d = Some d') as [d' HV].
  { unfold TDSet.Validate. rewrite Hb. by eexists. }
  exists d'.
  destruct (Validate_lookup _ _ _ _ _ HV He) as (_ & Hl).
  rewrite Hl. eexists. split; [done|]. split; [done|]. rewrite Hv.
  assert (TDSet.dir_file_obj w = TDSet.dir_file_obj e) as Hk.
  { unfold TDSet.dir_file_obj. by rewrite Hn, Hd, Ht. }
  destruct (FirstValid_is_Some _ _ Hw Hwv) as [v Hbest].
  pose proof (Hset w v Hw Hwv Hbest) as Hmax. unfold EndOf in Hmax.
  rewrite Hk in Hbest. rewrite Hbest.
  destruct (FirstValid_Some _ _ _ Hbest) as (Hin & Hvv & Hkey).
  destruct (Hclash _ Hin Hvv Hkey) as (Hn' & Hd' & Ht').
  unfold TDSetElement_Validate. rewrite Hvv. simpl.
  rewrite !bool_decide_eq_true_2 by done. simpl.
  destruct (Z.ltb_spec (fFirst e) (fFirst v + fNum v)); [|lia].
  destruct (Z.eqb_spec (fNum e) (-1)); [done|].
  destruct (Z.leb_spec (fNum e) (fFirst v + fNum v - fFirst e)); [done|lia].
Qed.

(** ** The packets the workers hold *)

Section FlightProperties.
Context `{FA : FloatArith} `{RT : Runtime}.

Lemma SameFlights_refl p : SameFlights p p.
Proof. done. Qed.

Lemma SameFlights_trans p1 p2 p3 :
  SameFlights p1 p2 -> SameFlights p2 p3 -> SameFlights p1 p3.
Proof. unfold SameFlights. congruence. Qed.

Lemma SameFlights_set p q q' :
  fSlaveStats q' = fSlaveStats q -> SameFlights p q -> SameFlights p q'.
Proof. unfold SameFlights. congruence. Qed.

Lemma SameFlights_updSlave sl s s' p q :
  fSlaveStats q !! sl = Some s ->
  TSlaveStat.fCurElem s' = TSlaveStat.fCurElem s ->
  SameFlights p q -> SameFlights p (updSlave sl s' q).
Proof.
  intros Hs Hp H. eapply SameFlights_trans; [exact H|].
  unfold SameFlights. simpl.
  rewrite list_fmap_insert, Hp. apply list_insert_id.
  by rewrite list_lookup_fmap, Hs.
Qed.

End FlightProperties.

(** [flights] proves [SameFlights p q] for a [q] built from [p] by
    updates that leave the packets of the workers alone. *)
Ltac flights :=
  repeat first
    [ assumption
    | apply SameFlights_refl
    | match goal with
      | |- SameFlights _ (updSlave ?sl _ _) =>
          eapply (SameFlights_updSlave sl); [simpl; eassumption|reflexivity|]
      | |- SameFlights _ (match ?x with _ => _ end) => destruct x
      | |- SameFlights _ (if ?x then _ else _) => destruct x
      | |- SameFlights _ (_ ?q) =>
          eapply (SameFlights_set _ q); [reflexivity|]
      end ].

Section FlightSteps.
Context `{FA : FloatArith} `{RT : Runtime}.

Lemma NextNode_SameFlights p p' r :
  NextNode p = Some (p', r) -> SameFlights p p'.
Proof. unfold NextNode. intros H. unpack H; flights. Qed.

Lemma NodeNextUnAlloc_SameFlights n p p' r :
  NodeNextUnAlloc n p = Some (p', r) -> SameFlights p p'.
Proof. unfold NodeNextUnAlloc. intros H. unpack H; flights. Qed.

Lemma GetNextUnAlloc_loop_SameFlights turns p p' r :
  GetNextUnAlloc_loop turns p = Some (p', r) -> SameFlights p p'.
Proof.
  revert p. induction turns as [|k IH]; simpl; intros p H.
  - simplify_eq. apply SameFlights_refl.
  - destruct (NextNode p) as [[p1 [n|]]|] eqn:H1; simpl in H; simplify_eq.
    + apply NextNode_SameFlights in H1.
      destruct (NodeNextUnAlloc n p1) as [[p2 [f|]]|] eqn:H2; simpl in H;
        simplify_eq; apply NodeNextUnAlloc_SameFlights in H2.
      * by eapply SameFlights_trans.
      * apply IH in H. eauto using SameFlights_trans.
    + by apply NextNode_SameFlights in H1.
Qed.

Lemma GetNextUnAlloc_SameFlights node p p' r :
  GetNextUnAlloc node p = Some (p', r) -> SameFlights p p'.
Proof.
  unfold GetNextUnAlloc. intros H.
  destruct node as [n|]; simpl in H.
  - destruct (NodeNextUnAlloc n p) as [[p1 file]|] eqn:H1; simpl in H; [|done].
    apply NodeNextUnAlloc_SameFlights in H1. unpack H; flights.
  - destruct (GetNextUnAlloc_loop _ p) as [[p1 found]|] eqn:H1; simpl in H;
      [|done].
    apply GetNextUnAlloc_loop_SameFlights in H1. unpack H; flights.
Qed.

Lemma NextActiveNode_SameFlights p p' r :
  NextActiveNode p = Some (p', r) -> SameFlights p p'.
Proof. unfold NextActiveNode. intros H. unpack H; flights. Qed.

Lemma GetNextActive_loop_SameFlights turns p p' r :
  GetNextActive_loop turns p = Some (p', r) -> SameFlights p p'.
Proof.
  revert p. induction turns as [|k IH]; simpl; intros p H.
  - simplify_eq. apply SameFlights_refl.
  - destruct (NextActiveNode p) as [[p1 [n|]]|] eqn:H1; simpl in H; simplify_eq.
    + apply NextActiveNode_SameFlights in H1.
      destruct (fFileNodes p1 !! n) as [nd|] eqn:Hn; simpl in H; [|done].
      destruct (TFileNode.GetNextActive nd) as [nd' [f|]] eqn:H2; simplify_eq.
      * flights.
      * apply IH in H. eapply SameFlights_trans; [|exact H]. flights.
    + by apply NextActiveNode_SameFlights in H1.
Qed.

Lemma GetNextActive_SameFlights p p' r :
  GetNextActive p = Some (p', r) -> SameFlights p p'.
Proof. apply GetNextActive_loop_SameFlights. Qed.

Lemma ReleaseFinished_SameFlights sl p p' r :
  ReleaseFinished sl p = Some (p', r) -> SameFlights p p'.
Proof. unfold ReleaseFinished. intros H. unpack H; flights. Qed.

Lemma TryLocal_SameFlights sl avg p p' r :
  TryLocal sl avg p = Some (p', r) -> SameFlights p p'.
Proof. unfold TryLocal. intros H. unpack H; flights. Qed.

Lemma ChooseFile_SameFlights sl avg p p' r :
  ChooseFile sl avg p = Some (p', r) -> SameFlights p p'.
Proof.
  unfold ChooseFile. intros H.
  destruct (TryLocal sl avg p) as [[p1 f1]|] eqn:H1; simpl in H; [|done].
  apply TryLocal_SameFlights in H1.
  destruct f1 as [f|]; simpl in H.
  - by simplify_eq.
  - destruct (GetNextUnAlloc None p1) as [[p2 f2]|] eqn:H2; simpl in H; [|done].
    apply GetNextUnAlloc_SameFlights in H2.
    destruct f2 as [f|]; simplify_eq; [by eapply SameFlights_trans|].
    apply GetNextActive_SameFlights in H. eauto using SameFlights_trans.
Qed.

Lemma AssignFile_SameFlights sl f p p' :
  AssignFile sl f p = Some p' -> SameFlights p p'.
Proof. unfold AssignFile. intros H. unpack H; flights. Qed.

Lemma FilePath_SameFlights sl r p q file :
  FilePath sl r p q file ->
  fValid p = true ->
  exists p1, RecordReply sl r p = Some p1 /\ Frame p1 q /\ SameFlights p1 q.
Proof.
  intros H Hv.
  destruct (FilePath_Frame _ _ _ _ _ H Hv) as (p0 & H0 & HF).
  exists p0. split; [done|]. split; [done|].
  destruct H as [Hv'|p1 _ H1 Hs|p1 p2 file _ H1 Hs H2 Heq
                 |p1 p2 p3 _ H1 Hs H2 Hne H3
                 |p1 p2 f _ H1 Hs H2 Hne
                 |p1 p2 p3 f p4 _ H1 Hs H2 Hne H3 H4];
    [congruence|assert (p0 = p1) as -> by congruence..].
  - apply SameFlights_refl.
  - by eapply ReleaseFinished_SameFlights.
  - eapply SameFlights_trans; [by eapply ReleaseFinished_SameFlights|].
    by eapply ChooseFile_SameFlights.
  - by eapply ReleaseFinished_SameFlights.
  - eapply SameFlights_trans; [by eapply ReleaseFinished_SameFlights|].
    eapply SameFlights_trans; [by eapply ChooseFile_SameFlights|].
    by eapply AssignFile_SameFlights.
Qed.

(** Recording a reply takes the packet from the worker. *)
Lemma RecordReply_flights sl r p p' :
  RecordReply sl r p = Some p' ->
  TSlaveStat.fCurElem <$> fSlaveStats p'
  = <[sl := None]> (TSlaveStat.fCurElem <$> fSlaveStats p).
Proof.
  unfold RecordReply, UpdateRates. intros H.
  destruct (fSlaveStats p !! sl) as [slstat|] eqn:Hs; simpl in H; [|done].
  destruct (TSlaveStat.fCurElem slstat) as [curElem|] eqn:Hce.
  2:{ simplify_eq. symmetry. apply list_insert_id.
      by rewrite list_lookup_fmap, Hs, <- Hce. }
  cbv zeta in H. simpl in H. rewrite Hs in H. simpl in H.
  destruct (TSlaveStat.fCurFile slstat) as [f|] eqn:Hf; simpl in H; [|done].
  destruct (fileStats p !! f) as [fs|] eqn:Hfs; simpl in H; [|done].
  destruct (fFileNodes p !! TFileStat.GetNode fs) as [nd|] eqn:Hnd;
    simpl in H; [|done].
  rewrite list_lookup_insert_eq in H by (by eapply lookup_lt_Some).
  simpl in H. simplify_eq. simpl.
  by rewrite list_insert_insert_eq, list_fmap_insert.
Qed.

(** Cutting a packet gives it to the worker. *)
Lemma CarvePacket_flights sl f p p' pkt :
  CarvePacket sl f p = Some (p', pkt) ->
  TSlaveStat.fCurElem <$> fSlaveStats p'
  = <[sl := Some pkt]> (TSlaveStat.fCurElem <$> fSlaveStats p).
Proof.
  unfold CarvePacket. intros H.
  destruct (fSlaveStats p !! sl) as [s|] eqn:Hs; simpl in H; [|done].
  destruct (fileStats p !! f) as [fs|] eqn:Hfs; simpl in H; [|done].
  destruct (elements p !! TFileStat.GetElement fs) as [base|] eqn:Hb;
    simpl in H; [|done].
  destruct (_ <=? _); simpl in H.
  - destruct (RemoveActive f _) as [q|] eqn:Hq; simpl in H; [|done].
    apply RemoveActive_slaves in Hq. simpl in Hq.
    destruct (fSlaveStats q !! sl) as [s'|] eqn:Hs'; simpl in H; [|done].
    simplify_eq. simpl. by rewrite list_fmap_insert, Hq.
  - rewrite Hs in H. simpl in H. simplify_eq. simpl.
    by rewrite list_fmap_insert.
Qed.

End FlightSteps.

(** ** Entries processed, in flight and left *)

Section Accounting.
Context `{FA : FloatArith} `{RT : Runtime}.

Lemma sum_nonneg (l : list Z) : Forall (Z.le 0) l -> 0 <= foldr Z.add 0 l.
Proof. induction 1; simpl; lia. Qed.

Lemma sum_lookup_le (l : list Z) i x :
  Forall (Z.le 0) l -> l !! i = Some x -> x <= foldr Z.add 0 l.
Proof.
  intros Hl. revert i. induction Hl as [|a l Ha Hl IH]; intros [|i]; simpl;
    try done.
  - intros [= ->]. pose proof (sum_nonneg _ Hl). lia.
  - intros H. specialize (IH _ H). lia.
Qed.

Lemma Accounted_bounds p :
  Accounted p -> 0 <= fProcessed p <= fTotalEntries p.
Proof.
  intros (Hsum & Hw & Hfl & Hfiles & Hle). split.
  - rewrite <- Hsum. by apply sum_nonneg.
  - assert (0 <= InFlight p).
    { apply sum_nonneg. by apply Forall_fmap. }
    assert (0 <= Remaining p).
    { apply sum_nonneg. by apply Forall_fmap. }
    lia.
Qed.

Lemma Accounted_Frame p q :
  Frame p q -> SameFlights p q -> Accounted p -> Accounted q.
Proof.
  intros (Hp & Ht & _ & _ & He & Hf & Hs & _) Hfl.
  unfold Accounted, SumWorkers, InFlight, Remaining.
  unfold SameFlights in Hfl. by rewrite Hp, Ht, He, Hf, Hs, Hfl.
Qed.

Lemma RecordReply_Accounted sl r p p1 :
  Accounted p -> fTotalEntries p < 2 ^ 63 -> HonestReply sl r p ->
  RecordReply sl r p = Some p1 ->
  Accounted p1 /\ fTotalEntries p1 = fTotalEntries p.
Proof.
  intros HA Htot Hhon H.
  pose proof (Accounted_bounds _ HA) as Hb.
  pose proof (RecordReply_flights _ _ _ _ H) as Hfl.
  apply RecordReply_Recorded in H
    as (s & Hs & Ht & _ & _ & He & Hf & Hrec).
  split; [|done].
  destruct (TSlaveStat.fCurElem s) as [ce|] eqn:Hce; [|by subst p1].
  cbv zeta in Hrec. destruct Hrec as (Hp & Hw & _).
  specialize (Hhon s ce Hs Hce).
  set (numev := ReplyEvents s ce r) in *.
  destruct HA as (Hsum & Hwn & Hfn & Hfiles & Hle).
  assert ((TSlaveStat.fCurElem <$> fSlaveStats p) !! sl = Some (Some ce))
    as Hsl by (by rewrite list_lookup_fmap, Hs; simpl; rewrite Hce).
  assert ((TSlaveStat.fProcessed <$> fSlaveStats p) !! sl
          = Some (TSlaveStat.fProcessed s)) as Hsw
    by (by rewrite list_lookup_fmap, Hs).
  assert (InFlight p1 = InFlight p - fNum ce) as Hin.
  { unfold InFlight. rewrite Hfl, list_fmap_insert.
    erewrite sum_insert by (by rewrite list_lookup_fmap, Hsl). simpl. lia. }
  assert (fNum ce <= InFlight p) as Hce_le.
  { unfold InFlight.
    eapply (sum_lookup_le _ sl); [by apply Forall_fmap|].
    by rewrite list_lookup_fmap, Hsl. }
  assert (0 <= Remaining p) as Hrem.
  { apply sum_nonneg. by apply Forall_fmap. }
  assert (0 <= TSlaveStat.fProcessed s <= fProcessed p) as Hsb.
  { split.
    - rewrite Forall_lookup in Hwn. by apply (Hwn sl).
    - rewrite <- Hsum. by eapply sum_lookup_le. }
  assert ((if 0 <? numev then numev else 0) = numev) as Hinc
    by (destruct (Z.ltb_spec 0 numev); lia).
  rewrite Hinc, Long64_t_of_id in Hp by lia.
  rewrite Long64_t_of_id in Hw by lia.
  unfold Accounted, SumWorkers, Remaining.
  rewrite Hw, Hp, Hfl, He, Hf, Ht, Hin.
  erewrite sum_insert by exact Hsw.
  repeat split.
  - unfold SumWorkers in Hsum. lia.
  - apply Forall_insert; [done|lia].
  - by apply Forall_insert.
  - done.
  - fold (Remaining p). lia.
Qed.

Lemma CarvePacket_Accounted sl f q p' pkt :
  Accounted q -> Avail q f ->
  (forall s, fSlaveStats q !! sl = Some s -> 1 <= CalculatePacketSize s q) ->
  CarvePacket sl f q = Some (p', pkt) ->
  Accounted p' /\ fTotalEntries p' = fTotalEntries q.
Proof.
  intros (Hsum & Hwn & Hfn & Hfiles & Hle) [(fs0 & Hfs0 & Hlive) _] Hsize H.
  pose proof (CarvePacket_flights _ _ _ _ _ H) as Hfl.
  pose proof (CarvePacket_counts _ _ _ _ _ H) as (Hp & Ht & He & Hw & _).
  apply CarvePacket_inv in H
    as (s & fs & base & Hs & Hfs & Hb & _ & _ & _ & Hcase).
  assert (fs0 = fs) as -> by congruence.
  specialize (Hsize s Hs). split; [|done].
  assert (EntriesLeft (elements q) fs
          = fFirst base + fNum base - TFileStat.fNextEntry fs) as Hleft.
  { unfold EntriesLeft. by rewrite Hlive, Hb. }
  assert (0 <= EntriesLeft (elements q) fs) as Hleft0.
  { rewrite Forall_lookup in Hfiles. by apply (Hfiles f). }
  assert (exists old, (TSlaveStat.fCurElem <$> fSlaveStats q) !! sl = Some old
                      /\ 0 <= from_option fNum 0 old) as (old & Hold & Hold0).
  { exists (TSlaveStat.fCurElem s). split; [by rewrite list_lookup_fmap, Hs|].
    rewrite Forall_lookup in Hfn. apply (Hfn sl).
    by rewrite list_lookup_fmap, Hs. }
  assert (InFlight p' = InFlight q - from_option fNum 0 old + fNum pkt) as Hin.
  { unfold InFlight. rewrite Hfl, list_fmap_insert.
    erewrite sum_insert by (by rewrite list_lookup_fmap, Hold). done. }
  assert (exists fs', fileStats p' = <[f := fs']> (fileStats q)
                      /\ EntriesLeft (elements q) fs'
                         = EntriesLeft (elements q) fs - fNum pkt
                      /\ 0 <= fNum pkt
                      /\ 0 <= EntriesLeft (elements q) fs')
    as (fs' & Hfiles' & Hleft' & Hpkt & Hleft0').
  { destruct Hcase as [(Hend & Hnum & nd & Hnd & HV)|(Hend & Hnum & HV)].
    - exists (TFileStat.SetDone fs). destruct HV as (HVf & _).
      split; [by rewrite HVf|]. unfold EntriesLeft at 1 3. simpl. lia.
    - exists (TFileStat.MoveNextEntry (CalculatePacketSize s q) fs).
      destruct HV as (HVf & _). split; [by rewrite HVf|].
      unfold EntriesLeft at 1 3. simpl. rewrite Hlive, Hb. lia. }
  assert (Remaining p' = Remaining q - fNum pkt) as Hrem.
  { unfold Remaining. rewrite He, Hfiles', list_fmap_insert.
    erewrite sum_insert by (by rewrite list_lookup_fmap, Hfs). simpl. lia. }
  unfold Accounted, SumWorkers. rewrite Hw, Hp, Hfl, He, Ht, Hin, Hrem.
  repeat split.
  - done.
  - done.
  - by apply Forall_insert.
  - rewrite Hfiles'. by apply Forall_insert.
  - lia.
Qed.

Lemma GetNextPacket_Accounted sl r p p' res :
  Struct p -> Accounted p -> fTotalEntries p < 2 ^ 63 ->
  PositiveSize sl r p -> HonestReply sl r p ->
  GetNextPacket sl r p = Some (p', res) ->
  Accounted p' /\ fTotalEntries p' = fTotalEntries p.
Proof.
  intros HS HA Htot Hpos Hhon H.
  destruct (fValid p) eqn:Hv.
  2:{ unfold GetNextPacket, FileForPacket in H. rewrite Hv in H.
      simpl in H. by simplify_eq. }
  apply GetNextPacket_inv in H as [[-> H]|(q & f & pkt & -> & H & Hc)].
  - apply FileForPacket_FilePath in H.
    destruct (FilePath_SameFlights _ _ _ _ _ H Hv) as (p1 & H1 & HF & Hfl).
    destruct (RecordReply_Accounted _ _ _ _ HA Htot Hhon H1) as [HA1 Ht1].
    split; [by eapply Accounted_Frame|].
    destruct HF as (_ & ? & _). congruence.
  - pose proof (Hpos q f) as Hsize. specialize (fun s => Hsize s H).
    apply FileForPacket_FilePath in H.
    destruct (FilePath_SameFlights _ _ _ _ _ H Hv) as (p1 & H1 & HF & Hfl).
    destruct (RecordReply_Accounted _ _ _ _ HA Htot Hhon H1) as [HA1 Ht1].
    pose proof (Accounted_Frame _ _ HF Hfl HA1) as HAq.
    apply (FilePath_Struct _ _ _ _ _ HS) in H as (_ & Hav & _).
    destruct (Hav f eq_refl) as [Havq _].
    destruct (CarvePacket_Accounted _ _ _ _ _ HAq Havq Hsize Hc) as [? ?].
    split; [done|]. destruct HF as (_ & ? & _). congruence.
Qed.

Lemma Run_weaken (Ok Ok' : nat -> Reply -> TAdaptivePacketizer -> Prop)
  p0 p log :
  (forall sl r q, Ok sl r q -> Ok' sl r q) ->
  Run Ok p0 p log -> Run Ok' p0 p log.
Proof.
  intros Hw. induction 1; [constructor|]. econstructor; eauto.
Qed.

Lemma ApplyRange_nonneg first num cur e cur' e' :
  0 <= fNum e -> num = -1 \/ 0 <= num ->
  ApplyRange first num cur e = (cur', Some e') -> 0 <= fNum e'.
Proof.
  intros He Hnum. unfold ApplyRange.
  destruct (fEntryList e) as [n|].
  { destruct (n =? 0); by intros [= <- <-]. }
  destruct (Z.ltb_spec (cur + fNum e) first); [done|].
  destruct (Z.eqb_spec num (-1)) as [->|Hne]; simpl.
  - destruct (Z.ltb_spec cur first); intros [= <- <-]; simpl; lia.
  - destruct (Z.leb_spec (first + num) cur); [done|].
    destruct (Z.ltb_spec (first + num) (cur + fNum e));
      destruct (Z.ltb_spec cur first); intros [= <- <-]; simpl; lia.
Qed.

Lemma RangeLoop_nonneg first num dset cur p p' :
  num = -1 \/ 0 <= num ->
  Forall (fun e => 0 <= fNum e) (elements p) ->
  RangeLoop first num dset cur p = Some p' ->
  Forall (fun e => 0 <= fNum e) (elements p').
Proof.
  intros Hnum. revert cur p.
  induction dset as [|eid rest IH]; intros cur p Hall; simpl.
  - by intros [= <-].
  - destruct (elements p !! eid) as [e|] eqn:He; simpl; [|done].
    destruct (ApplyRange first num cur e) as [cur' [e'|]] eqn:HR.
    + intros H. apply IH in H; [done|].
      destruct (FileElement_total eid e'
                  (set_elements (<[eid := e']> (elements p)) p)) as [_ ->].
      simpl. apply Forall_insert; [done|].
      eapply ApplyRange_nonneg; [|done|exact HR].
      rewrite Forall_lookup in Hall. by apply (Hall eid).
    + by apply IH.
Qed.

(** The state the constructor builds accounts for every entry: nothing
    is processed or in flight, and the files hold no more than the
    total. *)
Lemma ctor_Accounted dset dsetEntryList slaves first num maxSlaveCnt
  networkFasterThanHD baseLocalPreference p0 :
  TAdaptivePacketizer_ctor dset dsetEntryList slaves first num maxSlaveCnt
    networkFasterThanHD baseLocalPreference = Some p0 ->
  Forall (fun e => 0 <= fNum e) dset -> num = -1 \/ 0 <= num ->
  foldr Z.add 0 (NumOf (elements p0) <$> fileStats p0) <= fTotalEntries p0 ->
  Accounted p0.
Proof.
  intros H Hall Hnum Hfit.
  assert (Forall (fun e => 0 <= fNum e) (elements p0)) as Hels.
  { revert H. unfold TAdaptivePacketizer_ctor. cbv zeta.
    destruct (RangeLoop _ _ _ _ _) as [p1|] eqn:H1; simpl; [|done].
    apply RangeLoop_nonneg in H1; [|done..].
    set (p2 := match dsetEntryList with
               | Some n => set_fTotalEntries n p1
               | None => p1
               end).
    assert (elements p2 = elements p1) as He2
      by (subst p2; by destruct dsetEntryList).
    destruct (Reset_fields p2) as (_ & He & _).
    destruct (CountRemoteFiles _) as [[a b] c].
    destruct (c =? 0); intros [= <-]; simpl; by rewrite He, He2. }
  destruct (ctor_Inv _ _ _ _ _ _ _ _ _ H) as ([_ HF] & Hp0 & Hw0).
  apply ctor_stages in H
    as (p1 & _ & _ & Hs1 & _ & _ & Hs0 & _).
  assert (forall f fs, fileStats p0 !! f = Some fs ->
            EntriesLeft (elements p0) fs = NumOf (elements p0) fs
            /\ 0 <= EntriesLeft (elements p0) fs) as Hleft.
  { intros f fs Hfs. destruct (HF _ _ Hfs) as (e & Hel & Hok).
    cbv zeta in Hok. unfold EntriesLeft, NumOf. rewrite Hel. simpl.
    destruct (TFileStat.fIsDone fs).
    - destruct Hok as (ps' & n & Hps & _). by destruct ps'.
    - destruct Hok as [Hc _]. apply Consecutive_nil_inv in Hc.
      rewrite Forall_lookup in Hels. specialize (Hels _ _ Hel). simpl in Hels.
      lia. }
  assert (TSlaveStat.fCurElem <$> fSlaveStats p0
          = (fun _ => None) <$> slaves) as Hfl.
  { rewrite Hs0, Hs1, <- !list_fmap_compose. apply list_fmap_ext.
    intros i s _. simpl. unfold ResetWorker. by destruct (FindNode _ _). }
  assert (SumWorkers p0 = 0) as Hsum.
  { unfold SumWorkers. apply sum_zero. by apply Forall_fmap. }
  unfold Accounted. repeat split.
  - lia.
  - apply Forall_fmap. eapply Forall_impl; [exact Hw0|].
    intros s Hz. simpl in *. lia.
  - rewrite Hfl. apply Forall_fmap, Forall_true. done.
  - apply Forall_lookup. intros f fs Hfs. by apply (Hleft f).
  - assert (InFlight p0 = 0) as ->.
    { unfold InFlight. rewrite Hfl, <- list_fmap_compose. apply sum_zero.
      apply Forall_fmap, Forall_true. done. }
    assert (Remaining p0
            = foldr Z.add 0 (NumOf (elements p0) <$> fileStats p0)) as ->;
      [|lia].
    unfold Remaining. f_equal.
    apply list_fmap_ext. intros f fs Hfs. by apply (Hleft f).
Qed.

End Accounting.


(** ** A search that finds no file *)

Section Search.
Context `{FA : FloatArith} `{RT : Runtime}.

Hypothesis Sort_perm : forall cmp l, TList_Sort cmp l ≡ₚ l.

Lemma NextNode_active p p' r :
  NextNode p = Some (p', r) -> fActive p' = fActive p.
Proof. unfold NextNode. intros H. by unpack H. Qed.

(** Where [NextNode] stops the search, there is nothing to ask. *)
Lemma NextNode_None p p' :
  NextNode p = Some (p', None) -> NothingToAsk p' (fUnAllocated p').
Proof.
  unfold NextNode. cbv zeta. simpl.
  destruct (TList_Sort (NodeCompare p) (fUnAllocated p)) as [|m t] eqn:Hs;
    simpl.
  - intros [= <-]. simpl. by rewrite ?Hs.
  - destruct (fFileNodes p !! m) as [nd|] eqn:Hm; simpl; [|done].
    destruct (Z.leb_spec (fgMaxSlaveCnt p) (TFileNode.GetExtSlaveCnt nd));
      intros [= <-]. simpl. rewrite ?Hs. by exists nd.
Qed.

Lemma GetNextUnAlloc_loop_None k p p' :
  (length (fUnAllocated p) <= k)%nat ->
  GetNextUnAlloc_loop k p = Some (p', None) ->
  NothingToAsk p' (fUnAllocated p') /\ fActive p' = fActive p.
Proof.
  revert p. induction k as [|k IH]; intros p Hlen; simpl.
  - intros [= <-]. split; [|done].
    by replace (fUnAllocated p) with (@nil nat)
      by (symmetry; apply nil_length_inv; lia).
  - destruct (NextNode p) as [[p1 [n|]]|] eqn:H1; simpl; [| |done].
    + destruct (NodeNextUnAlloc n p1) as [[p2 [f|]]|] eqn:H2; simpl; try done.
      intros H. pose proof (NextNode_active _ _ _ H1) as Ha1.
      destruct (NextNode_head Sort_perm _ _ _ H1) as (t & Ht & Hl).
      unfold NodeNextUnAlloc in H2.
      destruct (fFileNodes p1 !! n) as [nd|]; simpl in H2; [|done].
      destruct (TFileNode.GetNextUnAlloc nd) as [nd' file].
      simplify_eq. apply IH in H; simpl in *.
      * destruct H as [? ->]. split; [done|]. done.
      * rewrite Ht, Remove_head. lia.
    + intros [= <-]. split; [by eapply NextNode_None|].
      by eapply NextNode_active.
Qed.

Lemma NextActiveNode_None p p' :
  NextActiveNode p = Some (p', None) ->
  NothingToAsk p' (fActive p') /\ fUnAllocated p' = fUnAllocated p
  /\ fFileNodes p' = fFileNodes p /\ fgMaxSlaveCnt p' = fgMaxSlaveCnt p.
Proof.
  unfold NextActiveNode. cbv zeta. simpl.
  destruct (TList_Sort (NodeCompare p) (fActive p)) as [|m t] eqn:Hs;
    simpl.
  - intros [= <-]. simpl. by rewrite ?Hs.
  - destruct (fFileNodes p !! m) as [nd|] eqn:Hm; simpl; [|done].
    destruct (Z.leb_spec (fgMaxSlaveCnt p) (TFileNode.GetExtSlaveCnt nd));
      intros [= <-]. simpl. rewrite ?Hs. repeat split. by exists nd.
Qed.

Lemma NothingToAsk_ext p q l :
  TFileNode.fExtSlaveCnt <$> fFileNodes q
  = TFileNode.fExtSlaveCnt <$> fFileNodes p ->
  fgMaxSlaveCnt q = fgMaxSlaveCnt p ->
  NothingToAsk p l -> NothingToAsk q l.
Proof.
  intros He Hm. destruct l as [|n l]; [done|]. simpl.
  intros (nd & Hn & Hle).
  assert ((TFileNode.fExtSlaveCnt <$> fFileNodes q) !! n
          = Some (TFileNode.fExtSlaveCnt nd)) as Hq
    by (by rewrite He, list_lookup_fmap, Hn).
  rewrite list_lookup_fmap in Hq.
  destruct (fFileNodes q !! n) as [nd'|]; [|done].
  simpl in Hq. exists nd'. split; [done|]. simplify_eq. lia.
Qed.

Lemma GetNextActive_loop_None k p p' :
  (length (fActive p) <= k)%nat ->
  GetNextActive_loop k p = Some (p', None) ->
  NothingToAsk p' (fActive p') /\ fUnAllocated p' = fUnAllocated p
  /\ TFileNode.fExtSlaveCnt <$> fFileNodes p'
     = TFileNode.fExtSlaveCnt <$> fFileNodes p
  /\ fgMaxSlaveCnt p' = fgMaxSlaveCnt p.
Proof.
  revert p. induction k as [|k IH]; intros p Hlen; simpl.
  - intros [= <-]. split; [|done].
    by replace (fActive p) with (@nil nat)
      by (symmetry; apply nil_length_inv; lia).
  - destruct (NextActiveNode p) as [[p1 [n|]]|] eqn:H1; simpl; [| |done].
    + destruct (fFileNodes p1 !! n) as [nd|] eqn:Hn; simpl; [|done].
      destruct (TFileNode.GetNextActive nd) as [nd' [f|]] eqn:H2; [done|].
      intros H.
      assert (fUnAllocated p1 = fUnAllocated p
              /\ fgMaxSlaveCnt p1 = fgMaxSlaveCnt p) as [Hu Hm].
      { unfold NextActiveNode in H1. by unpack H1. }
      destruct (NextActiveNode_head Sort_perm _ _ _ H1) as (t & Ht & Hl & Hnodes).
      apply GetNextActive_counters in H2.
      apply IH in H; simpl in *.
      * destruct H as (? & -> & -> & ->). split; [done|].
        split; [done|]. split; [|done].
        rewrite list_fmap_insert, <- Hnodes.
        apply list_insert_id. rewrite list_lookup_fmap, Hn. simpl.
        unfold counters in H2. congruence.
      * rewrite Ht, Remove_head. lia.
    + intros [= <-]. apply NextActiveNode_None in H1 as (? & ? & -> & ?).
      done.
Qed.

Lemma GetNextActive_loop_slaves turns p p' r :
  GetNextActive_loop turns p = Some (p', r) -> fSlaveStats p' = fSlaveStats p.
Proof.
  revert p. induction turns as [|k IH]; simpl; intros p H; [by simplify_eq|].
  destruct (NextActiveNode p) as [[p1 [n|]]|] eqn:H1; simpl in H; simplify_eq.
  - assert (fSlaveStats p1 = fSlaveStats p) as <-
      by (unfold NextActiveNode in H1; by unpack H1).
    destruct (fFileNodes p1 !! n) as [nd|] eqn:Hn; simpl in H; [|done].
    destruct (TFileNode.GetNextActive nd) as [nd' [f|]] eqn:H2; simplify_eq.
    + done.
    + by apply IH in H.
  - unfold NextActiveNode in H1. by unpack H1.
Qed.

Lemma TryLocal_curfiles sl avg p p' r :
  TryLocal sl avg p = Some (p', r) ->
  TSlaveStat.fCurFile <$> fSlaveStats p'
  = TSlaveStat.fCurFile <$> fSlaveStats p.
Proof.
  unfold TryLocal. intros H.
  destruct (fSlaveStats p !! sl) as [s|] eqn:Hs; simpl in H; [|done].
  unpack H; simpl; try done;
    rewrite list_fmap_insert; simpl; apply list_insert_id;
    by rewrite list_lookup_fmap, Hs.
Qed.

Lemma ChooseFile_curfiles sl avg p p' r :
  ChooseFile sl avg p = Some (p', r) ->
  TSlaveStat.fCurFile <$> fSlaveStats p'
  = TSlaveStat.fCurFile <$> fSlaveStats p.
Proof.
  unfold ChooseFile. intros H.
  destruct (TryLocal sl avg p) as [[p1 f1]|] eqn:H1; simpl in H; [|done].
  apply TryLocal_curfiles in H1.
  destruct f1 as [f|]; simpl in H; [by simplify_eq|].
  destruct (GetNextUnAlloc None p1) as [[p2 f2]|] eqn:H2; simpl in H; [|done].
  apply GetNextUnAlloc_slaves in H2.
  destruct f2 as [f|]; simplify_eq; [congruence|].
  apply GetNextActive_loop_slaves in H. congruence.
Qed.

(** The search of [ChooseFile], when it finds no file, ends where
    neither list has a node to ask. *)
Lemma ChooseFile_None sl avg p p' :
  ChooseFile sl avg p = Some (p', None) ->
  NothingToAsk p' (fUnAllocated p') /\ NothingToAsk p' (fActive p').
Proof.
  unfold ChooseFile. intros H.
  destruct (TryLocal sl avg p) as [[p1 [f|]]|] eqn:H1; simpl in H; try done.
  destruct (GetNextUnAlloc None p1) as [[p2 [f|]]|] eqn:H2; simpl in H;
    try done.
  unfold GetNextUnAlloc in H2.
  destruct (GetNextUnAlloc_loop _ p1) as [[q [[n f]|]]|] eqn:H3; simpl in H2;
    try done.
  simplify_eq. apply GetNextUnAlloc_loop_None in H3 as [Hu _]; [|done].
  apply GetNextActive_loop_None in H as (Ha & Hl & He & Hm); [|done].
  split; [|done]. rewrite Hl. by eapply NothingToAsk_ext.
Qed.

Lemma ReleaseFinished_None sl p p' :
  ReleaseFinished sl p = Some (p', None) -> NoFileInHand sl p'.
Proof.
  unfold ReleaseFinished, NoFileInHand, FileOfWorker. intros H f fs.
  destruct (fSlaveStats p !! sl) as [s|] eqn:Hs; simpl in H; [|done].
  destruct (TSlaveStat.fCurFile s) as [g|] eqn:Hg; simpl in H.
  - destruct (fileStats p !! g) as [gs|] eqn:Hgs; simpl in H; [|done].
    destruct (TFileStat.IsDone gs) eqn:Hd; simpl in H; [|done].
    unpack H. simpl. rewrite Hs. simpl. rewrite Hg. intros [= <-].
    rewrite Hgs. by intros [= <-].
  - simplify_eq. rewrite Hs. simpl. by rewrite Hg.
Qed.

Lemma NoFileInHand_same sl p q :
  fileStats q = fileStats p ->
  TSlaveStat.fCurFile <$> fSlaveStats q
  = TSlaveStat.fCurFile <$> fSlaveStats p ->
  NoFileInHand sl p -> NoFileInHand sl q.
Proof.
  intros Hf Hc H f fs. rewrite Hf.
  replace (FileOfWorker sl q) with (FileOfWorker sl p); [apply H|].
  unfold FileOfWorker.
  assert ((TSlaveStat.fCurFile <$> fSlaveStats q) !! sl
          = (TSlaveStat.fCurFile <$> fSlaveStats p) !! sl) as Hl by congruence.
  rewrite !list_lookup_fmap in Hl.
  destruct (fSlaveStats q !! sl), (fSlaveStats p !! sl); simplify_eq/=; done.
Qed.

(** *** When every file has been handed out *)

Lemma GetNextUnAlloc_loop_exhausted k p p' r :
  (forall n, n ∈ fUnAllocated p ->
     exists nd, fFileNodes p !! n = Some nd
                /\ TFileNode.fUnAllocFileNext nd = None) ->
  GetNextUnAlloc_loop k p = Some (p', r) ->
  r = None /\ fActive p' = fActive p.
Proof.
  revert p. induction k as [|k IH]; intros p Hall; simpl.
  - by intros [= <- <-].
  - destruct (NextNode p) as [[p1 [n|]]|] eqn:H1; simpl; [| |done].
    + pose proof (NextNode_active _ _ _ H1) as Ha1.
      assert (fFileNodes p1 = fFileNodes p) as Hn1
        by (unfold NextNode in H1; by unpack H1).
      assert (fUnAllocated p1 ≡ₚ fUnAllocated p) as Hperm.
      { unfold NextNode in H1. unpack H1; simpl; apply Sort_perm. }
      destruct (NextNode_head Sort_perm _ _ _ H1) as (t & Ht & Hl).
      destruct (Hall n) as (nd & Hnd & Hcur).
      { rewrite <- Hperm, Ht. set_solver. }
      unfold NodeNextUnAlloc. rewrite Hn1, Hnd. simpl.
      unfold TFileNode.GetNextUnAlloc. rewrite Hcur. simpl.
      intros H. apply IH in H; simpl in *.
      * destruct H as [-> ->]. done.
      * intros m Hm. apply Remove_elem in Hm.
        destruct (Hall m) as (md & Hmd & Hmc); [by rewrite <- Hperm|].
        rewrite Hn1. destruct (decide (m = n)) as [->|Hne].
        -- exists nd. split; [|done].
           apply list_lookup_insert_eq. by eapply lookup_lt_Some.
        -- exists md. by rewrite list_lookup_insert_ne.
    + intros [= <- <-]. split; [done|]. by eapply NextNode_active.
Qed.

Lemma RecordReply_lists sl r p p' :
  RecordReply sl r p = Some p' ->
  fUnAllocated p' = fUnAllocated p /\ fActive p' = fActive p
  /\ TSlaveStat.fFileNode <$> fSlaveStats p'
     = TSlaveStat.fFileNode <$> fSlaveStats p.
Proof.
  unfold RecordReply, UpdateRates. intros H.
  destruct (fSlaveStats p !! sl) as [slstat|] eqn:Hs; simpl in H; [|done].
  destruct (TSlaveStat.fCurElem slstat) as [curElem|] eqn:Hce;
    [|by simplify_eq].
  cbv zeta in H. simpl in H. rewrite Hs in H. simpl in H.
  destruct (TSlaveStat.fCurFile slstat) as [f|] eqn:Hf; simpl in H; [|done].
  destruct (fileStats p !! f) as [fs|] eqn:Hfs; simpl in H; [|done].
  destruct (fFileNodes p !! TFileStat.GetNode fs) as [nd|] eqn:Hnd;
    simpl in H; [|done].
  rewrite list_lookup_insert_eq in H by (by eapply lookup_lt_Some).
  simpl in H. simplify_eq. simpl. repeat split.
  rewrite list_insert_insert_eq, list_fmap_insert. simpl.
  apply list_insert_id. by rewrite list_lookup_fmap, Hs.
Qed.

Lemma ReleaseFinished_lists sl p p' r :
  ReleaseFinished sl p = Some (p', r) ->
  fUnAllocated p' = fUnAllocated p /\ fActive p' = fActive p
  /\ fSlaveStats p' = fSlaveStats p.
Proof. unfold ReleaseFinished. intros H. by unpack H. Qed.

(** A worker for which the files are exhausted finds none. *)
Lemma ChooseFile_exhausted sl avg p p' r :
  (forall s, fSlaveStats p !! sl = Some s -> TSlaveStat.fFileNode s = None) ->
  (forall n, n ∈ fUnAllocated p ->
     exists nd, fFileNodes p !! n = Some nd
                /\ TFileNode.fUnAllocFileNext nd = None) ->
  fActive p = [] ->
  ChooseFile sl avg p = Some (p', r) -> r = None.
Proof.
  intros Hnode Hall Hact. unfold ChooseFile, TryLocal.
  destruct (fSlaveStats p !! sl) as [s|] eqn:Hs; simpl; [|done].
  unfold TSlaveStat.GetFileNode. rewrite (Hnode s eq_refl). simpl.
  unfold GetNextUnAlloc.
  destruct (GetNextUnAlloc_loop _ p) as [[q found]|] eqn:H3; simpl; [|done].
  apply GetNextUnAlloc_loop_exhausted in H3 as [-> Ha]; [|done].
  simpl. unfold GetNextActive. rewrite Ha, Hact. simpl. by intros [= <- <-].
Qed.

End Search.

Section SearchPaths.
Context `{FA : FloatArith} `{RT : Runtime}.

Hypothesis Sort_perm : forall cmp l, TList_Sort cmp l ≡ₚ l.

Lemma SameView_sym p q : SameView p q -> SameView q p.
Proof. intros (?&?&?). by repeat split. Qed.

(** A search that finds no file leaves the worker starved. *)
Lemma FilePath_Starved sl r p p1 p2 p3 :
  RecordReply sl r p = Some p1 ->
  ReleaseFinished sl p1 = Some (p2, None) ->
  ChooseFile sl (AvgEventsLeft p2) p2 = Some (p3, None) ->
  Starved sl p3.
Proof.
  intros H1 H2 H3. split.
  - apply ReleaseFinished_None in H2.
    eapply NoFileInHand_same; [| |exact H2].
    + by apply ChooseFile_Frame in H3 as (_&_&_&_&_&?&_).
    + by eapply ChooseFile_curfiles.
  - by eapply ChooseFile_None.
Qed.

(** A worker for which the files are exhausted is given no file. *)
Lemma FilePath_Exhausted sl r p q file :
  FilePath sl r p q file -> Exhausted sl p -> file = None.
Proof.
  intros H (Hhand & Hnode & Hall & Hact).
  assert (forall p1 p2 file2,
            RecordReply sl r p = Some p1 ->
            ReleaseFinished sl p1 = Some (p2, file2) ->
            file2 = None
            /\ (forall s, fSlaveStats p2 !! sl = Some s ->
                          TSlaveStat.fFileNode s = None)
            /\ (forall n, n ∈ fUnAllocated p2 ->
                  exists nd, fFileNodes p2 !! n = Some nd
                             /\ TFileNode.fUnAllocFileNext nd = None)
            /\ fActive p2 = []) as Hpre.
  { intros p1 p2 file2 H1 H2.
    pose proof (RecordReply_SameView _ _ _ _ H1) as V1.
    pose proof (ReleaseFinished_SameView _ _ _ _ H2) as V2.
    pose proof (RecordReply_lists _ _ _ _ H1) as (U1 & A1 & N1).
    pose proof (ReleaseFinished_lists _ _ _ _ H2) as (U2 & A2 & S2).
    split; [|split; [|split]].
    - destruct file2 as [f|]; [exfalso|done].
      assert (NoFileInHand sl p1) as Hhand1.
      { destruct V1 as (? & _ & ?). by eapply NoFileInHand_same. }
      unfold ReleaseFinished in H2. unfold NoFileInHand, FileOfWorker in Hhand1.
      destruct (fSlaveStats p1 !! sl) as [s|] eqn:Hs; simpl in *; [|done].
      destruct (TSlaveStat.fCurFile s) as [g|] eqn:Hg; simpl in H2; [|done].
      destruct (fileStats p1 !! g) as [gs|] eqn:Hgs; simpl in H2; [|done].
      specialize (Hhand1 g gs eq_refl Hgs). unfold TFileStat.IsDone in H2.
      rewrite Hhand1 in H2. simpl in H2. by unpack H2.
    - intros s Hs. rewrite S2 in Hs.
      assert ((TSlaveStat.fFileNode <$> fSlaveStats p) !! sl
              = Some (TSlaveStat.fFileNode s)) as Hl
        by (by rewrite <- N1, list_lookup_fmap, Hs).
      rewrite list_lookup_fmap in Hl.
      destruct (fSlaveStats p !! sl) as [s0|] eqn:Hs0; [|done].
      simpl in Hl. simplify_eq. rewrite <- (Hnode s0 eq_refl). congruence.
    - intros n Hn. rewrite U2, U1 in Hn.
      destruct (Hall n Hn) as (nd & Hnd & Hcur).
      assert (SameView p2 p) as V.
      { apply SameView_sym. by eapply SameView_trans. }
      destruct (SameView_node _ _ _ _ V Hnd) as (nd2 & Hnd2 & Hc).
      exists nd2. split; [done|]. unfold cursors in Hc. congruence.
    - congruence. }
  destruct H as [Hv|p1 Hv H1 Hs|p1 p2 file Hv H1 Hs H2 Heq
                 |p1 p2 p3 Hv H1 Hs H2 Hne H3
                 |p1 p2 f Hv H1 Hs H2 Hne
                 |p1 p2 p3 f p4 Hv H1 Hs H2 Hne H3 H4]; try done.
  - by destruct (Hpre _ _ _ H1 H2) as [? _].
  - destruct (Hpre _ _ _ H1 H2) as (_ & Hn2 & Hu2 & Ha2).
    by apply (ChooseFile_exhausted Sort_perm _ _ _ _ _ Hn2 Hu2 Ha2) in H3.
Qed.

End SearchPaths.


(** ** The packet and the file it is cut from *)

Section PacketOfFile.
Context `{FA : FloatArith} `{RT : Runtime}.

(** The packet names the file, the object and the directory of the
    element it is cut from, and carries its entry list. *)
Lemma CarvePacket_names sl f p p' pkt :
  CarvePacket sl f p = Some (p', pkt) ->
  exists fs base,
    fileStats p !! f = Some fs
    /\ elements p !! TFileStat.fElement fs = Some base
    /\ fName pkt = fName base /\ fTitle pkt = fTitle base
    /\ fDirectory pkt = fDirectory base
    /\ fEntryList pkt = fEntryList base.
Proof.
  unfold CarvePacket. intros H.
  destruct (fSlaveStats p !! sl) as [s|] eqn:Hs; simpl in H; [|done].
  destruct (fileStats p !! f) as [fs|] eqn:Hfs; simpl in H; [|done].
  destruct (elements p !! TFileStat.GetElement fs) as [base|] eqn:Hb;
    simpl in H; [|done].
  exists fs, base. do 2 (split; [done|]).
  destruct (_ <=? _); simpl in H.
  - destruct (RemoveActive f _) as [q|] eqn:Hq; simpl in H; [|done].
    destruct (fSlaveStats q !! sl) as [s'|] eqn:Hs'; simpl in H; [|done].
    simplify_eq. by destruct (fEntryList base).
  - rewrite Hs in H. simpl in H. simplify_eq. by destruct (fEntryList base).
Qed.

End PacketOfFile.


(** ** The instance: its sort permutes the list *)

Lemma insert_by_perm cmp x l : insert_by cmp x l ≡ₚ x :: l.
Proof.
  induction l as [|y t IH]; simpl; [done|].
  destruct (cmp x y <=? 0); [done|].
  rewrite IH. apply Permutation_swap.
Qed.

Lemma insertion_sort_perm cmp l : insertion_sort cmp l ≡ₚ l.
Proof.
  induction l as [|x t IH]; simpl; [done|].
  rewrite insert_by_perm. by rewrite IH.
Qed.

(** ** The runs *)

(** *** One file of one entry, two workers on other hosts *)

Lemma demoA0_ctor :
  TAdaptivePacketizer_ctor [file_on "h1" 0 1] None slavesA 0 (-1) 4 1 1%Q
  = Some demoA0.
Proof. vm_compute. reflexivity. Qed.

Lemma demoA1_call :
  GetNextPacket 0 no_report demoA0 = Some (demoA1, Some packetA).
Proof. vm_compute. reflexivity. Qed.

Lemma demoA2_call : GetNextPacket 1 no_report demoA1 = Some (demoA2, None).
Proof. vm_compute. reflexivity. Qed.

Lemma demoA0_size : PositiveSize 0 no_report demoA0.
Proof.
  intros q f s H1 H2. vm_compute in H1. injection H1 as <- <-.
  vm_compute in H2. injection H2 as <-. by vm_compute.
Qed.

Lemma demoA1_run : Run PositiveSize demoA0 demoA1 [mkCarved 0 0 1].
Proof.
  change [mkCarved 0 0 1] with ([] ++ LogOf 0 demoA1 (Some packetA)).
  eapply run_call; [apply run_start|apply demoA0_size|apply demoA1_call].
Qed.


(** A worker that asks again after it has been told that there is no
    more work stops the process: its file is done, and the counters of
    the node of the file are taken down a second time, below 0, where
    [DecExtSlaveCnt] has its [R__ASSERT]. *)
Lemma repeated_request_stops :
  GetNextPacket 0 (report 0) demoA1 = Some (demoA3, None)
  /\ GetNextPacket 0 no_report demoA3 = None.
Proof. split; vm_compute; reflexivity. Qed.

(** In the state in which the worker 1 asks, the files are exhausted
    for it: it has no file and no node, the only node on the list of those
    with unallocated files has none left, and no node is active. *)
Lemma demoA1_exhausted : Exhausted 1 demoA1.
Proof.
  split; [|split; [|split]].
  - intros f fs H. by vm_compute in H.
  - intros s H. vm_compute in H. by injection H as <-.
  - intros n Hn. change (fUnAllocated demoA1) with [0%nat] in Hn.
    apply list_elem_of_singleton in Hn as ->. eexists. split; reflexivity.
  - reflexivity.
Qed.


(** Claim C5 does not hold as stated: the file of one entry is done
    when its only packet has been handed out, and its cursor is still at
    the first entry, not at the end of the element. *)
Lemma cursor_counterexample :
  exists p0 p fs e,
    TAdaptivePacketizer_ctor [file_on "h1" 0 1] None slavesA 0 (-1) 4 1 1%Q
    = Some p0
    /\ Run PositiveSize p0 p [mkCarved 0 0 1]
    /\ fileStats p !! 0%nat = Some fs
    /\ elements p !! TFileStat.fElement fs = Some e
    /\ TFileStat.fIsDone fs = true
    /\ TFileStat.fNextEntry fs = 0 /\ fFirst e + fNum e = 1.
Proof.
  exists demoA0, demoA1, (TFileStat.mk true 0 0 0), (file_on "h1" 0 1).
  split; [apply demoA0_ctor|]. split; [apply demoA1_run|]. by vm_compute.
Qed.

Lemma cursor_within_element_witness :
  Run PositiveSize demoA0 demoA1 [mkCarved 0 0 1]
  /\ exists n,
       last (PacketsOf 0 [mkCarved 0 0 1]) = Some (0, n) /\ 0 + n = 0 + 1.
Proof.
  split; [apply demoA1_run|].
  apply (cursor_within_element (FA := ExactArith) [file_on "h1" 0 1] None slavesA 0 (-1) 4 1 1%Q
           demoA0 demoA1 [mkCarved 0 0 1] 0%nat (TFileStat.mk true 0 0 0)
           (file_on "h1" 0 1) demoA0_ctor demoA1_run eq_refl eq_refl).
  reflexivity.
Defined.

(** *** One file of 1000 entries, one worker *)

Lemma demoC0_ctor :
  TAdaptivePacketizer_ctor [file_on "h1" 0 1000] None slavesC 0 (-1) 4 1 1%Q
  = Some demoC0.
Proof. vm_compute. reflexivity. Qed.

Lemma demoC1_call :
  GetNextPacket 0 no_report demoC0
  = Some (demoC1, Some (CreateNewPacket (file_on "h1" 0 1000) 0 31)).
Proof. vm_compute. reflexivity. Qed.

Lemma demoC2_call :
  GetNextPacket 0 (report 0) demoC1
  = Some (demoC2, Some (CreateNewPacket (file_on "h1" 0 1000) 31 242)).
Proof. vm_compute. reflexivity. Qed.

Lemma demoC3_call :
  GetNextPacket 0 (report 1) demoC2
  = Some (demoC3, Some (CreateNewPacket (file_on "h1" 0 1000) 273 7)).
Proof. vm_compute. reflexivity. Qed.

Lemma demoC2'_call :
  GetNextPacket 0 (report 5000) demoC1
  = Some (demoC2', Some (CreateNewPacket (file_on "h1" 0 1000) 31 969)).
Proof. vm_compute. reflexivity. Qed.

Lemma demoC2_run (Ok : nat -> Reply -> TAdaptivePacketizer -> Prop) :
  Ok 0%nat no_report demoC0 -> Ok 0%nat (report 0) demoC1 ->
  Run Ok demoC0 demoC2 [mkCarved 0 0 31; mkCarved 0 31 242].
Proof.
  intros Ok0 Ok1.
  change [mkCarved 0 0 31; mkCarved 0 31 242]
    with (([] ++ LogOf 0 demoC1
                   (Some (CreateNewPacket (file_on "h1" 0 1000) 0 31)))
          ++ LogOf 0 demoC2
               (Some (CreateNewPacket (file_on "h1" 0 1000) 31 242))).
  eapply run_call; [|exact Ok1|apply demoC2_call].
  eapply run_call; [apply run_start|exact Ok0|apply demoC1_call].
Qed.

Lemma demoC3_run :
  Run AnyCall demoC0 demoC3
    [mkCarved 0 0 31; mkCarved 0 31 242; mkCarved 0 273 7].
Proof.
  change [mkCarved 0 0 31; mkCarved 0 31 242; mkCarved 0 273 7]
    with ([mkCarved 0 0 31; mkCarved 0 31 242]
          ++ LogOf 0 demoC3
               (Some (CreateNewPacket (file_on "h1" 0 1000) 273 7))).
  eapply run_call; [by apply demoC2_run|done|apply demoC3_call].
Qed.

Lemma demoC2'_run :
  Run AnyCall demoC0 demoC2' [mkCarved 0 0 31; mkCarved 0 31 969].
Proof.
  change [mkCarved 0 0 31; mkCarved 0 31 969]
    with (([] ++ LogOf 0 demoC1
                   (Some (CreateNewPacket (file_on "h1" 0 1000) 0 31)))
          ++ LogOf 0 demoC2'
               (Some (CreateNewPacket (file_on "h1" 0 1000) 31 969))).
  eapply run_call; [|done|apply demoC2'_call].
  eapply run_call; [apply run_start|done|apply demoC1_call].
Qed.

Lemma demoC0_size : PositiveSize 0 no_report demoC0.
Proof.
  intros q f s H1 H2. vm_compute in H1. injection H1 as <- <-.
  vm_compute in H2. injection H2 as <-. by vm_compute.
Qed.

Lemma demoC1_size : PositiveSize 0 (report 0) demoC1.
Proof.
  intros q f s H1 H2. vm_compute in H1. injection H1 as <- <-.
  vm_compute in H2. injection H2 as <-. by vm_compute.
Qed.

Lemma demoC0_honest : HonestReply 0 no_report demoC0.
Proof.
  intros s ce Hs Hce. vm_compute in Hs. injection Hs as <-. done.
Qed.

Lemma demoC1_honest : HonestReply 0 (report 0) demoC1.
Proof.
  intros s ce Hs Hce. vm_compute in Hs. injection Hs as <-.
  vm_compute in Hce. injection Hce as <-. by vm_compute.
Qed.

Lemma demoC2_honest_run :
  Run (fun sl r q => PositiveSize sl r q /\ HonestReply sl r q)
    demoC0 demoC2 [mkCarved 0 0 31; mkCarved 0 31 242].
Proof.
  apply demoC2_run; split;
    [apply demoC0_size|apply demoC0_honest
    |apply demoC1_size|apply demoC1_honest].
Qed.



(** With an entry list of the dataset the total is the size of the
    list, whatever the elements hold: for a list of 5 entries and a file
    of 1000, the worker is given packets of 1, 2 and 3 entries, reports
    each of them done, and the global counter goes to 6. *)
Lemma entry_list_total_exceeded :
  exists p0 p1 p2 p3 p4 packet1 packet2 packet3 packet4,
    TAdaptivePacketizer_ctor [file_on "h1" 0 1000] (Some 5) slavesC 0 (-1)
      4 1 1%Q = Some p0
    /\ GetNextPacket 0 no_report p0 = Some (p1, Some packet1)
    /\ GetNextPacket 0 (report 0) p1 = Some (p2, Some packet2)
    /\ GetNextPacket 0 (report 0) p2 = Some (p3, Some packet3)
    /\ GetNextPacket 0 (report 0) p3 = Some (p4, Some packet4)
    /\ fNum <$> [packet1; packet2; packet3] = [1; 2; 3]
    /\ fProcessed p4 = 6 /\ fTotalEntries p4 = 5.
Proof.
  exists demoH0, demoH1, demoH2, demoH3, demoH4. do 4 eexists.
  split; [vm_compute; reflexivity|]. split; [vm_compute; reflexivity|].
  split; [vm_compute; reflexivity|]. split; [vm_compute; reflexivity|].
  split; [vm_compute; reflexivity|]. by vm_compute.
Qed.

Lemma GetNextPacket_processed_witness :
  GetNextPacket 0 (report 1) demoC2
  = Some (demoC3, Some (CreateNewPacket (file_on "h1" 0 1000) 273 7))
  /\ (fValid demoC2 = false -> fProcessed demoC3 = fProcessed demoC2)
  /\ (fValid demoC2 = true ->
      exists slstat,
        fSlaveStats demoC2 !! 0%nat = Some slstat
        /\ match TSlaveStat.fCurElem slstat with
           | None =>
               fProcessed demoC3 = fProcessed demoC2
               /\ TSlaveStat.fProcessed <$> fSlaveStats demoC3
                  = TSlaveStat.fProcessed <$> fSlaveStats demoC2
               /\ TFileNode.fProcessed <$> fFileNodes demoC3
                  = TFileNode.fProcessed <$> fFileNodes demoC2
           | Some curElem =>
               let totev := default 0 (rMore (report 1) !! 2%nat) in
               let numev := ReplyEvents slstat curElem (report 1) in
               (0 < totev ->
                numev = Long64_t_of (totev - TSlaveStat.fProcessed slstat))
               /\ (totev <= 0 -> numev = fNum curElem)
               /\ fProcessed demoC3
                  = Long64_t_of (fProcessed demoC2 + Z.max numev 0)
               /\ (- 2 ^ 63 <= fProcessed demoC2 ->
                   fProcessed demoC2 + Z.max numev 0 < 2 ^ 63 ->
                   fProcessed demoC3 = fProcessed demoC2 + Z.max numev 0
                   /\ fProcessed demoC2 <= fProcessed demoC3)
               /\ TSlaveStat.fProcessed <$> fSlaveStats demoC3
                  = <[0%nat := Long64_t_of
                                 (TSlaveStat.fProcessed slstat + numev)]>
                      (TSlaveStat.fProcessed <$> fSlaveStats demoC2)
               /\ exists n nd,
                    CurNode demoC2 slstat = Some n
                    /\ fFileNodes demoC2 !! n = Some nd
                    /\ TFileNode.fProcessed <$> fFileNodes demoC3
                       = <[n := Long64_t_of
                                  (TFileNode.fProcessed nd + numev)]>
                           (TFileNode.fProcessed <$> fFileNodes demoC2)
           end).
Proof.
  split; [apply demoC3_call|].
  apply (GetNextPacket_processed 0 (report 1) demoC2 demoC3
           (Some (CreateNewPacket (file_on "h1" 0 1000) 273 7))).
  apply demoC3_call.
Defined.

(** *** One file of two entries, two workers on other hosts *)

Lemma demoG0_ctor :
  TAdaptivePacketizer_ctor [file_on "h1" 0 2] None slavesA 0 (-1) 4 1 1%Q
  = Some demoG0.
Proof. vm_compute. reflexivity. Qed.

Lemma demoG1_call :
  GetNextPacket 0 no_report demoG0
  = Some (demoG1, Some (CreateNewPacket (file_on "h1" 0 2) 0 1)).
Proof. vm_compute. reflexivity. Qed.

Lemma demoG2_call :
  GetNextPacket 1 no_report demoG1
  = Some (demoG2, Some (CreateNewPacket (file_on "h1" 0 2) 1 1)).
Proof. vm_compute. reflexivity. Qed.

Lemma demoG3_call :
  GetNextPacket 0 (report (2 ^ 62)) demoG2 = Some (demoG3, None).
Proof. vm_compute. reflexivity. Qed.

Lemma demoG4_call :
  GetNextPacket 1 (report (2 ^ 62)) demoG3 = Some (demoG4, None).
Proof. vm_compute. reflexivity. Qed.

Lemma demoG0_size : PositiveSize 0 no_report demoG0.
Proof.
  intros q f s H1 H2. vm_compute in H1. injection H1 as <- <-.
  vm_compute in H2. injection H2 as <-. by vm_compute.
Qed.

Lemma demoG1_size : PositiveSize 1 no_report demoG1.
Proof.
  intros q f s H1 H2. vm_compute in H1. injection H1 as <- <-.
  vm_compute in H2. injection H2 as <-. by vm_compute.
Qed.

Lemma demoG2_run :
  Run PositiveSize demoG0 demoG2 [mkCarved 0 0 1; mkCarved 0 1 1].
Proof.
  change [mkCarved 0 0 1; mkCarved 0 1 1]
    with (([] ++ LogOf 0 demoG1
                   (Some (CreateNewPacket (file_on "h1" 0 2) 0 1)))
          ++ LogOf 1 demoG2
               (Some (CreateNewPacket (file_on "h1" 0 2) 1 1))).
  eapply run_call; [|apply demoG1_size|apply demoG2_call].
  eapply run_call; [apply run_start|apply demoG0_size|apply demoG1_call].
Qed.

(** Claim C10 does not hold as stated: each of the two workers reports
    [2 ^ 62] events seen; the first report takes the global counter to
    [2 ^ 62], and the second one takes it past the largest [Long64_t],
    down to [- 2 ^ 63]. *)
Lemma processed_counter_wraps :
  exists p0 p1 p2 p3 p4 packet1 packet2,
    TAdaptivePacketizer_ctor [file_on "h1" 0 2] None slavesA 0 (-1) 4 1 1%Q
    = Some p0
    /\ GetNextPacket 0 no_report p0 = Some (p1, Some packet1)
    /\ GetNextPacket 1 no_report p1 = Some (p2, Some packet2)
    /\ GetNextPacket 0 (report (2 ^ 62)) p2 = Some (p3, None)
    /\ GetNextPacket 1 (report (2 ^ 62)) p3 = Some (p4, None)
    /\ fProcessed p3 = 2 ^ 62 /\ fProcessed p4 = - 2 ^ 63
    /\ fProcessed p4 < fProcessed p3.
Proof.
  exists demoG0, demoG1, demoG2, demoG3, demoG4.
  do 2 eexists.
  split; [apply demoG0_ctor|]. split; [apply demoG1_call|].
  split; [apply demoG2_call|]. split; [apply demoG3_call|].
  split; [apply demoG4_call|]. by vm_compute.
Qed.

Lemma packets_partition_file_witness :
  Run PositiveSize demoG0 demoG2 [mkCarved 0 0 1; mkCarved 0 1 1]
  /\ (forall i j a n b m,
        (i < j)%nat ->
        PacketsOf 0 [mkCarved 0 0 1; mkCarved 0 1 1] !! i = Some (a, n) ->
        PacketsOf 0 [mkCarved 0 0 1; mkCarved 0 1 1] !! j = Some (b, m) ->
        a < b /\ a + n <= b)
  /\ (forall a n x,
        (a, n) ∈ PacketsOf 0 [mkCarved 0 0 1; mkCarved 0 1 1] ->
        a <= x < a + n ->
        fFirst (file_on "h1" 0 2) <= x
        < fFirst (file_on "h1" 0 2) + fNum (file_on "h1" 0 2))
  /\ (TFileStat.fIsDone (TFileStat.mk true 0 0 1) = true ->
      forall x,
        fFirst (file_on "h1" 0 2) <= x
        < fFirst (file_on "h1" 0 2) + fNum (file_on "h1" 0 2)
        <-> exists a n,
              (a, n) ∈ PacketsOf 0 [mkCarved 0 0 1; mkCarved 0 1 1]
              /\ a <= x < a + n).
Proof.
  split; [apply demoG2_run|].
  apply (packets_partition_file (FA := ExactArith) [file_on "h1" 0 2] None
           slavesA 0 (-1) 4 1 1%Q demoG0 demoG2
           [mkCarved 0 0 1; mkCarved 0 1 1] 0%nat (TFileStat.mk true 0 0 1)
           (file_on "h1" 0 2) demoG0_ctor demoG2_run eq_refl eq_refl).
Defined.

(** *** One file of [2 ^ 34] entries, one worker

    Every number of this run is an integer of at most five significant
    bits times a power of two, or 7.75: [Float_t] holds each of them, and
    the exact arithmetic of the instance gives what the floating-point
    operations give. *)

Lemma demoF0_ctor :
  TAdaptivePacketizer_ctor [file_on "h1" 0 (2 ^ 34)] None slavesC 0 (-1) 4 1
    1%Q
  = Some demoF0.
Proof. vm_compute. reflexivity. Qed.

Lemma demoF1_call :
  GetNextPacket 0 no_report demoF0
  = Some (demoF1, Some (CreateNewPacket (file_on "h1" 0 (2 ^ 34)) 0 (2 ^ 29))).
Proof. vm_compute. reflexivity. Qed.

Lemma demoF2_call :
  GetNextPacket 0 (report (2 ^ 29)) demoF1
  = Some (demoF2,
          Some (CreateNewPacket (file_on "h1" 0 (2 ^ 34)) (2 ^ 29)
                  (-134217728))).
Proof. vm_compute. reflexivity. Qed.

Lemma demoF3_call :
  GetNextPacket 0 (report (2 ^ 29)) demoF2
  = Some (demoF3,
          Some (CreateNewPacket (file_on "h1" 0 (2 ^ 34)) 402653184
                  (-134217728))).
Proof. vm_compute. reflexivity. Qed.

(** Claim C2, on the run F.  The worker gets the first [2 ^ 29] entries
    of the file and reports them done.  The size of its next packet is
    [31 * 2 ^ 27] as a [Long64_t], which [CalculatePacketSize] returns as
    the [Int_t] [-134217728]: the second packet starts at [2 ^ 29] with
    that negative number of entries, the cursor of the file moves back to
    402653184, inside the first packet, and the third packet starts
    there, before the second. *)
Theorem packets_go_backwards :
  exists p0 p1 p2 p3 packet1 packet2 packet3,
    TAdaptivePacketizer_ctor [file_on "h1" 0 (2 ^ 34)] None slavesC 0 (-1)
      4 1 1%Q = Some p0
    /\ GetNextPacket 0 no_report p0 = Some (p1, Some packet1)
    /\ GetNextPacket 0 (report (2 ^ 29)) p1 = Some (p2, Some packet2)
    /\ GetNextPacket 0 (report (2 ^ 29)) p2 = Some (p3, Some packet3)
    /\ (fFirst packet1, fNum packet1) = (0, 536870912)
    /\ (fFirst packet2, fNum packet2) = (536870912, -134217728)
    /\ (fFirst packet3, fNum packet3) = (402653184, -134217728)
    /\ TFileStat.fNextEntry <$> fileStats p1 = [536870912]
    /\ TFileStat.fNextEntry <$> fileStats p2 = [402653184]
    /\ TFileStat.fNextEntry <$> fileStats p3 = [268435456]
    /\ fFirst packet3 < fFirst packet2
    /\ fFirst packet1 <= fFirst packet3 < fFirst packet1 + fNum packet1.
Proof.
  exists demoF0, demoF1, demoF2, demoF3. do 3 eexists.
  split; [apply demoF0_ctor|]. split; [apply demoF1_call|].
  split; [apply demoF2_call|]. split; [apply demoF3_call|]. by vm_compute.
Qed.

(** Claim C8, on the run F.  When the worker has reported its first
    [2 ^ 29] entries done after one second, its rate is [2 ^ 29] entries a
    second, which is also the average rate, and the packet time is
    [(2 ^ 34 - 2 ^ 29) / 2 ^ 29 / 4 = 7.75] seconds: the size the claim
    gives is [floor (2 ^ 29 * 7.75) = 4160749568].  That is the value of
    the [Long64_t] in [CalculatePacketSize], which returns an [Int_t]:
    [-134217728], and not at least 1. *)
Theorem CalculatePacketSize_narrowed :
  FileForPacket 0 (report (2 ^ 29)) demoF1 = Some (demoF1', Some 0%nat)
  /\ fSlaveStats demoF1' !! 0%nat = Some demoF1'_worker
  /\ fTotalEntries demoF1' = 2 ^ 34 /\ fProcessed demoF1' = 2 ^ 29
  /\ NSlaves demoF1' = 1
  /\ Qeq (fCumProcTime demoF1') 1
  /\ Qeq (TSlaveStat.GetCurRate demoF1'_worker) (inject_Z (2 ^ 29))
  /\ spec_packet_size (TSlaveStat.GetCurRate demoF1'_worker)
       (fTotalEntries demoF1') (fProcessed demoF1') (fCumProcTime demoF1')
       (NSlaves demoF1')
     = 4160749568
  /\ CalculatePacketSize_num demoF1'_worker demoF1' = 4160749568
  /\ CalculatePacketSize demoF1'_worker demoF1' = -134217728.
Proof. by vm_compute. Qed.

(** *** Validation of an element that starts beyond its file *)

Lemma demoV0_setup :
  SetupForValidation [file_on "h1" 20 5] slavesC 4 1 1%Q = Some demoV0.
Proof. vm_compute. reflexivity. Qed.

Lemma demoV2_reply :
  HandleReply 0 (kPROOF_GETENTRIES 10 None) demoV1 = Some demoV2.
Proof. vm_compute. reflexivity. Qed.

(** Claim C4 does not hold as stated: the reply says the file has 10
    entries, the element starts at entry 20, and [ValidateFiles] returns
    with the packetizer invalid, the element still in the dataset, and no
    message sent to the client. *)
Lemma validation_counterexample :
  exists p v,
    SetupForValidation [file_on "h1" 20 5] slavesC 4 1 1%Q = Some p
    /\ fValid p = true
    /\ ValidateFiles [(0%nat, kPROOF_GETENTRIES 10 None)] true p = Some v
    /\ fValid (vPacketizer v) = false
    /\ vDSet v = [0%nat] /\ vClient v = [] /\ vBad v = [].
Proof.
  exists demoV0.
  eexists. split; [apply demoV0_setup|]. split; [by vm_compute|].
  split; [vm_compute; reflexivity|]. by vm_compute.
Qed.

Lemma HandleReply_effect_witness :
  HandleReply 0 (kPROOF_GETENTRIES 10 None) demoV1 = Some demoV2
  /\ exists s f fs e,
       fSlaveStats (vPacketizer demoV1) !! 0%nat = Some s
       /\ TSlaveStat.fCurFile s = Some f
       /\ fileStats (vPacketizer demoV1) !! f = Some fs
       /\ elements (vPacketizer demoV1) !! TFileStat.fElement fs = Some e
       /\ if 0 <? 10 then
            vDSet demoV2 = vDSet demoV1 /\ vClient demoV2 = vClient demoV1
            /\ if bool_decide (fEntryList e = None) && (10 <? fFirst e)
               then fValid (vPacketizer demoV2) = false
                    /\ fileStats (vPacketizer demoV2)
                       = <[f := TFileStat.SetDone fs]>
                           (fileStats (vPacketizer demoV1))
               else fValid (vPacketizer demoV2) = true
                    /\ fileStats (vPacketizer demoV2)
                       = fileStats (vPacketizer demoV1)
          else
            vDSet demoV2 = TList.Remove (vDSet demoV1) (TFileStat.fElement fs)
            /\ fValid (vPacketizer demoV2) = true
            /\ fileStats (vPacketizer demoV2) = fileStats (vPacketizer demoV1)
            /\ vClient demoV2
               = if vProofServ demoV1
                 then vClient demoV1
                      ++ [("Cannot get entries for file: " ++ fName e
                           ++ " - skipping")%string]
                 else vClient demoV1.
Proof.
  split; [apply demoV2_reply|].
  apply (HandleReply_effect 0 (kPROOF_GETENTRIES 10 None) demoV1 demoV2
           demoV2_reply).
  reflexivity.
Defined.

(** *** Four files, two of them on a host without a worker *)

Lemma demoD0_ctor :
  TAdaptivePacketizer_ctor
    [file_on "h1" 0 10; file_on "h1" 0 10; file_on "w0" 0 10; file_on "w0" 0 10]
    None slavesC 0 (-1) 4 1 1%Q
  = Some demoD0.
Proof. vm_compute. reflexivity. Qed.

Lemma remote_fraction_is_integer_quotient_witness :
  exists noRemoteFiles eventsOnRemLoc totalNumberOfFiles,
    CountRemoteFiles (fFileNodes demoD0)
    = (noRemoteFiles, eventsOnRemLoc, totalNumberOfFiles)
    /\ fFractionOfRemoteFiles demoD0
       = fp_store (fp_of_Z (noRemoteFiles ÷ totalNumberOfFiles))
    /\ (0 <= noRemoteFiles < totalNumberOfFiles ->
        fFractionOfRemoteFiles demoD0 = fp_store (fp_of_Z 0)).
Proof.
  apply (remote_fraction_is_integer_quotient (FA := ExactArith)
           [file_on "h1" 0 10; file_on "h1" 0 10;
            file_on "w0" 0 10; file_on "w0" 0 10]
           None slavesC 0 (-1) 4 1 1%Q demoD0 demoD0_ctor).
  reflexivity.
Defined.

(** Two of the four files are on a host without a worker, and the
    fraction recorded is 0. *)
Lemma remote_fraction_example :
  CountRemoteFiles (fFileNodes demoD0) = (2, 20, 4)
  /\ fFractionOfRemoteFiles demoD0 = 0%Q.
Proof. by vm_compute. Qed.

(** *** Five files of 1000 entries, the range (1500, 2000) *)

Lemma demoE0_ctor :
  TAdaptivePacketizer_ctor five_files None slavesC 1500 2000 4 1 1%Q
  = Some demoE0.
Proof. vm_compute. reflexivity. Qed.

(** Claim C3 does not hold as stated: the file 3, which contains the
    end of the range, is not left as it was; it is cut down to its first
    500 entries. *)
Lemma window_counterexample :
  exists p0 e,
    TAdaptivePacketizer_ctor five_files None slavesC 1500 2000 4 1 1%Q
    = Some p0
    /\ five_files !! 3%nat = Some (file_on "h4" 0 1000)
    /\ elements p0 !! 3%nat = Some e
    /\ fFirst e = 0 /\ fNum e = 500.
Proof.
  exists demoE0. eexists. split; [apply demoE0_ctor|]. by vm_compute.
Qed.

(** Claim C3, as amended.  An element without an entry list that
    covers the entries [cur, cur + fNum e) of the dataset is left out when
    [cur + fNum e < first], and when [first + num <= cur]; when it
    reaches beyond the start of the range ([first < cur + fNum e]) and
    starts before its end, it is filed with its start moved forward to
    the start of the range and its end moved back to the end of the
    range.  For five files of 1000
    entries and the range (1500, 2000) the total is 2000 entries, the
    files 0 and 4 are left out, the file 1 starts at its entry 500 and has
    500 entries, the file 2 is as it was, and the file 3 has its first 500
    entries. *)
Theorem global_range_applied :
  (forall first num cur e,
     fEntryList e = None ->
     (cur + fNum e < first ->
      ApplyRange first num cur e = (cur + fNum e, None))
     /\ (num <> -1 -> first + num <= cur ->
         ApplyRange first num cur e = (cur + fNum e, None))
     /\ (first < cur + fNum e -> num = -1 \/ cur < first + num ->
         exists e',
           ApplyRange first num cur e = (cur + fNum e, Some e')
           /\ fFirst e' = fFirst e + Z.max 0 (first - cur)
           /\ fFirst e' + fNum e'
              = fFirst e + (if num =? -1 then fNum e
                            else Z.min (fNum e) (first + num - cur))))
  /\ exists p0,
       TAdaptivePacketizer_ctor five_files None slavesC 1500 2000 4 1 1%Q
       = Some p0
       /\ fTotalEntries p0 = 2000
       /\ TFileStat.fElement <$> fileStats p0 = [1%nat; 2%nat; 3%nat]
       /\ (fun e => (fFirst e, fNum e)) <$> elements p0
          = [(0, 1000); (500, 500); (0, 1000); (0, 500); (0, 1000)].
Proof.
  split.
  - intros first num cur e He. split; [|split].
    + by apply ApplyRange_before.
    + by apply ApplyRange_after.
    + intros H1 H2.
      destruct (ApplyRange_trim first num cur e He ltac:(lia) H2)
        as (e' & ? & ? & ? & _).
      by exists e'.
  - exists demoE0. split; [apply demoE0_ctor|]. by vm_compute.
Qed.

(** *** The lemmas above on the runs *)


Lemma CalculatePacketSize_at_least_one_witness :
  1 <= CalculatePacketSize (TSlaveStat.new (mkSlave "w0" "0.0" 100)) demoC0
  /\ CalculatePacketSize (TSlaveStat.new (mkSlave "w0" "0.0" 100)) demoC0
     = CalculatePacketSize_num (TSlaveStat.new (mkSlave "w0" "0.0" 100)) demoC0.
Proof. apply CalculatePacketSize_at_least_one. by vm_compute. Defined.

Lemma GetNextUnAlloc_loop_enough_witness :
  GetNextUnAlloc_loop 5 demoA1
  = GetNextUnAlloc_loop (length (fUnAllocated demoA1)) demoA1.
Proof.
  apply GetNextUnAlloc_loop_enough; [apply insertion_sort_perm|].
  vm_compute. lia.
Defined.

Lemma GetNextActive_loop_enough_witness :
  GetNextActive_loop 5 demoC1
  = GetNextActive_loop (length (fActive demoC1)) demoC1.
Proof.
  apply GetNextActive_loop_enough; [apply insertion_sort_perm|].
  vm_compute. lia.
Defined.

Lemma Compare_fewer_running_witness :
  TFileNode.Compare 1 2 (TFileNode.mk "h1" [] None [] None 0 0 1 0 100)
                        (TFileNode.mk "h2" [] None [] None 0 0 2 0 100) = -1
  /\ TFileNode.Compare 1 2 (TFileNode.mk "h2" [] None [] None 0 0 2 0 100)
                           (TFileNode.mk "h1" [] None [] None 0 0 1 0 100) = 1.
Proof. apply Compare_fewer_running; [lia|simpl; lia]. Defined.

Lemma Compare_more_remaining_witness :
  TFileNode.Compare 1 2 (TFileNode.mk "h1" [] None [] None 0 0 1 0 200)
                        (TFileNode.mk "h2" [] None [] None 0 0 1 0 100) = -1
  /\ TFileNode.Compare 1 2 (TFileNode.mk "h2" [] None [] None 0 0 1 0 100)
                           (TFileNode.mk "h1" [] None [] None 0 0 1 0 200) = 1.
Proof.
  apply Compare_more_remaining; [lia|reflexivity|unfold remaining; simpl; lia].
Defined.

Lemma ApplyRange_ends_at_start_witness :
  exists e',
    ApplyRange 1000 2000 0 (file_on "h1" 0 1000) = (1000, Some e')
    /\ fNum e' = 0.
Proof.
  apply ApplyRange_ends_at_start; [reflexivity|reflexivity|simpl; lia|lia].
Defined.

(** *** The further properties on concrete states *)

Lemma Reset_GetNextUnAlloc_all_witness :
  exists nd',
    GetNextUnAlloc_times 3 (TFileNode.Reset demoN)
    = (nd', TFileNode.fFiles demoN)
    /\ TFileNode.fActFiles nd' = TFileNode.fFiles demoN
    /\ TFileNode.GetNextUnAlloc nd' = (nd', None).
Proof.
  apply (Reset_GetNextUnAlloc_all demoN 3); [compute_done|simpl; lia].
Defined.

Lemma GetNextActive_round_robin_witness :
  length (GetNextActive_times 5 demoN).2 = 5%nat
  /\ (forall j, (j < 5)%nat ->
        (GetNextActive_times 5 demoN).2 !! j
        = TFileNode.fActFiles demoN
            !! ((1 + j) mod length (TFileNode.fActFiles demoN))%nat)
  /\ TFileNode.fActFileNext (GetNextActive_times 5 demoN).1
     = TFileNode.fActFiles demoN
         !! ((1 + 5) mod length (TFileNode.fActFiles demoN))%nat
  /\ TFileNode.fActFiles (GetNextActive_times 5 demoN).1
     = TFileNode.fActFiles demoN.
Proof.
  apply (GetNextActive_round_robin demoN 1 4%nat 5);
    [compute_done|reflexivity|reflexivity|by vm_compute].
Defined.

Lemma RemoveActive_cursor_witness :
  TFileNode.fActFiles (TFileNode.RemoveActive 4 demoN)
  = delete 1%nat (TFileNode.fActFiles demoN)
  /\ (TFileNode.fActFileNext demoN = Some 4%nat ->
      TFileNode.fActFileNext (TFileNode.RemoveActive 4 demoN)
      = TFileNode.fActFiles (TFileNode.RemoveActive 4 demoN)
          !! (1 mod length (TFileNode.fActFiles
                              (TFileNode.RemoveActive 4 demoN)))%nat)
  /\ (forall c, TFileNode.fActFileNext demoN = Some c -> c <> 4%nat ->
        TFileNode.fActFileNext (TFileNode.RemoveActive 4 demoN) = Some c)
  /\ TFileNode.fFiles (TFileNode.RemoveActive 4 demoN) = TFileNode.fFiles demoN
  /\ TFileNode.fUnAllocFileNext (TFileNode.RemoveActive 4 demoN)
     = TFileNode.fUnAllocFileNext demoN
  /\ counters (TFileNode.RemoveActive 4 demoN) = counters demoN.
Proof.
  apply (RemoveActive_cursor demoN 1 4%nat); [compute_done|reflexivity].
Defined.

Lemma Add_GetNextUnAlloc_fifo_witness :
  exists nd',
    GetNextUnAlloc_times 3
      (foldl (fun n f => TFileNode.Add f n) (TFileNode.new "h1")
             [7; 8; 9]%nat)
    = (nd', [7; 8; 9]%nat)
    /\ TFileNode.GetNextUnAlloc nd' = (nd', None).
Proof.
  apply (Add_GetNextUnAlloc_fifo "h1" [7; 8; 9]%nat 3);
    [compute_done|simpl; lia].
Defined.

Lemma Inc_Dec_counts_witness :
  (nd1 ← TFileNode.DecExtSlaveCnt "w0"
           (TFileNode.IncRunSlaveCnt (TFileNode.IncExtSlaveCnt "w0" demoN));
   TFileNode.DecRunSlaveCnt nd1) = Some demoN
  /\ (TFileNode.fRunSlaveCnt demoN = 0 ->
      TFileNode.DecRunSlaveCnt demoN = None)
  /\ (TFileNode.fExtSlaveCnt demoN = 0 -> TFileNode.fNodeName demoN <> "w0" ->
      TFileNode.DecExtSlaveCnt "w0" demoN = None).
Proof. apply (Inc_Dec_counts "w0" demoN); simpl; lia. Defined.

Lemma ctor_total_in_range_witness :
  fTotalEntries demoE0
  = InRange 1500 2000 0 (foldr Z.add 0 (fNum <$> five_files)).
Proof.
  apply (ctor_total_in_range (FA := ExactArith) five_files slavesC 1500 2000
           4 1 1%Q demoE0 demoE0_ctor); [|right; lia].
  repeat (constructor; [split; [reflexivity|simpl; lia]|]). constructor.
Defined.

Lemma Reset_closed_form_witness :
  fFileNodes (Reset demoC2)
  = ResetNode (fSlaveStats demoC2) <$> fFileNodes demoC2
  /\ fSlaveStats (Reset demoC2)
     = ResetWorker (fFileNodes demoC2) <$> fSlaveStats demoC2
  /\ fUnAllocated (Reset demoC2) = seq 0 (length (fFileNodes demoC2))
  /\ fActive (Reset demoC2) = []
  /\ fileStats (Reset demoC2) = fileStats demoC2
  /\ elements (Reset demoC2) = elements demoC2
  /\ fTotalEntries (Reset demoC2) = fTotalEntries demoC2
  /\ fValid (Reset demoC2) = fValid demoC2.
Proof. apply (Reset_closed_form (FA := ExactArith) demoC2). compute_done. Defined.

Lemma ctor_files_by_host_witness :
  NoDup (TFileNode.fNodeName <$> fFileNodes demoD0)
  /\ (forall f fs, fileStats demoD0 !! f = Some fs ->
        exists nd e,
          fFileNodes demoD0 !! TFileStat.fNode fs = Some nd
          /\ elements demoD0 !! TFileStat.fElement fs = Some e
          /\ TFileNode.fNodeName nd = HostOf (fName e)
          /\ f ∈ TFileNode.fFiles nd)
  /\ (forall n nd f,
        fFileNodes demoD0 !! n = Some nd -> f ∈ TFileNode.fFiles nd ->
        exists fs, fileStats demoD0 !! f = Some fs /\ TFileStat.fNode fs = n).
Proof.
  exact (ctor_files_by_host (FA := ExactArith) _ _ _ _ _ _ _ _ _ demoD0_ctor).
Defined.

Lemma ctor_totals_witness :
  fTotalEntries demoE0
  = foldr Z.add 0 (NumOf (elements demoE0) <$> fileStats demoE0)
  /\ (forall n nd, fFileNodes demoE0 !! n = Some nd ->
        TFileNode.fEvents nd = EventsOfFiles demoE0 (TFileNode.fFiles nd)
        /\ TFileNode.fProcessed nd = 0).
Proof.
  exact (ctor_totals (FA := ExactArith) _ _ _ _ _ _ _ _ _ demoE0_ctor).
Defined.

Lemma ctor_workers_witness :
  (forall sl s, fSlaveStats demoA0 !! sl = Some s ->
     exists slave,
       slavesA !! sl = Some slave
       /\ TSlaveStat.fSlave s = slave
       /\ TSlaveStat.fFileNode s = FindNode (fFileNodes demoA0) (sName slave)
       /\ TSlaveStat.fCurFile s = None /\ TSlaveStat.fCurElem s = None
       /\ TSlaveStat.fProcessed s = 0)
  /\ (forall n nd, fFileNodes demoA0 !! n = Some nd ->
        TFileNode.fMySlaveCnt nd
        = Z.of_nat (length (filter (fun slave =>
                                      sName slave = TFileNode.fNodeName nd)
                                   slavesA))
        /\ TFileNode.fExtSlaveCnt nd = 0 /\ TFileNode.fRunSlaveCnt nd = 0).
Proof.
  exact (ctor_workers (FA := ExactArith) _ _ _ _ _ _ _ _ _ demoA0_ctor).
Defined.

Lemma GetNextPacket_keeps_witness :
  elements demoA1 = elements demoA0
  /\ fTotalEntries demoA1 = fTotalEntries demoA0
  /\ fValid demoA1 = fValid demoA0 /\ fStop demoA1 = fStop demoA0
  /\ layout <$> fFileNodes demoA1 = layout <$> fFileNodes demoA0
  /\ filed <$> fileStats demoA1 = filed <$> fileStats demoA0
  /\ TSlaveStat.fSlave <$> fSlaveStats demoA1
     = TSlaveStat.fSlave <$> fSlaveStats demoA0
  /\ (forall f fs, fileStats demoA0 !! f = Some fs ->
        TFileStat.fIsDone fs = true ->
        TFileStat.fIsDone <$> fileStats demoA1 !! f = Some true).
Proof.
  exact (GetNextPacket_keeps 0 no_report demoA0 demoA1 (Some packetA)
           demoA1_call).
Defined.

Lemma HandleReply_fits_range_witness :
  exists e',
    elements (vPacketizer demoV2) !! TFileStat.fElement demoV1_file = Some e'
    /\ fName e' = fName (file_on "h1" 20 5)
    /\ fFirst e' = fFirst (file_on "h1" 20 5)
    /\ fNum e' = (if fNum (file_on "h1" 20 5) =? -1
                  then 10 - fFirst (file_on "h1" 20 5)
                  else Z.min (fNum (file_on "h1" 20 5))
                             (10 - fFirst (file_on "h1" 20 5)))
    /\ fFirst e' + fNum e' <= 10
    /\ fTDSetOffset e' = 10
    /\ fTitle e' = default (fTitle (file_on "h1" 20 5)) None
    /\ (forall eid, eid <> TFileStat.fElement demoV1_file ->
          elements (vPacketizer demoV2) !! eid
          = elements (vPacketizer demoV1) !! eid)
    /\ vWorkers demoV2 = vWorkers demoV1 ++ [0%nat]
    /\ vStatus demoV2 = vStatus demoV1 + 1.
Proof.
  apply (HandleReply_fits_range 0 10 None demoV1 demoV2 demoV1_worker 0
           demoV1_file (file_on "h1" 20 5) demoV2_reply);
    [reflexivity|reflexivity|reflexivity|reflexivity|reflexivity|lia].
Defined.

Lemma ComputeOffsets_running_sum_witness :
  (forall i eid, [0; 2; 1]%nat !! i = Some eid ->
     ComputeOffsets [0; 2; 1]%nat 0 demoO !! eid
     = SetTDSetOffset
         (foldr Z.add 0 (OffsetOf demoO <$> take i [0; 2; 1]%nat))
         <$> demoO !! eid)
  /\ (forall eid, eid ∉ [0; 2; 1]%nat ->
        ComputeOffsets [0; 2; 1]%nat 0 demoO !! eid = demoO !! eid)
  /\ length (ComputeOffsets [0; 2; 1]%nat 0 demoO) = length demoO.
Proof. apply ComputeOffsets_running_sum. compute_done. Defined.

Lemma demoV1_sent :
  SendWork 1 (mkValidation demoV0 [0%nat] [0%nat] [] [] [] true [] 0)
  = Some demoV1.
Proof. vm_compute. reflexivity. Qed.

Lemma SendWork_requests_witness :
  vWorkers demoV1 = [] /\ vDSet demoV1 = [0%nat]
  /\ elements (vPacketizer demoV1) = elements demoV0
  /\ fileStats (vPacketizer demoV1) = fileStats demoV0
  /\ fValid (vPacketizer demoV1) = fValid demoV0
  /\ (forall s, s ∉ [0%nat] ->
        fSlaveStats (vPacketizer demoV1) !! s = fSlaveStats demoV0 !! s)
  /\ exists sent,
       vRequests demoV1 = [] ++ sent
       /\ sublist sent.*1 [0%nat]
       /\ (forall x, x ∈ vMonitor demoV1 <-> x ∈ [] \/ x ∈ sent.*1)
       /\ (forall s elem, (s, elem) ∈ sent ->
             exists st f fs,
               fSlaveStats (vPacketizer demoV1) !! s = Some st
               /\ TSlaveStat.fCurFile st = Some f
               /\ fileStats (vPacketizer demoV1) !! f = Some fs
               /\ elements (vPacketizer demoV1) !! TFileStat.fElement fs
                  = Some elem).
Proof.
  apply (SendWork_requests
           (mkValidation demoV0 [0%nat] [0%nat] [] [] [] true [] 0) demoV1);
    [compute_done|apply demoV1_sent].
Defined.

Lemma TDSetElement_Validate_range_witness :
  (fValidElement (TDSetElement_Validate (Some demoT_a) demoS_a) = false ->
   TDSetElement_Validate (Some demoT_a) demoS_a = demoS_a)
  /\ (fValidElement (TDSetElement_Validate (Some demoT_a) demoS_a) = true ->
      exists v,
        Some demoT_a = Some v /\ fValidElement v = true
        /\ fName demoS_a = fName v /\ fDirectory demoS_a = fDirectory v
        /\ fTitle demoS_a = fTitle v
        /\ fFirst demoS_a < fFirst v + fNum v
        /\ fName (TDSetElement_Validate (Some demoT_a) demoS_a)
           = fName demoS_a
        /\ fDirectory (TDSetElement_Validate (Some demoT_a) demoS_a)
           = fDirectory demoS_a
        /\ fTitle (TDSetElement_Validate (Some demoT_a) demoS_a)
           = fTitle demoS_a
        /\ fFirst (TDSetElement_Validate (Some demoT_a) demoS_a)
           = fFirst demoS_a
        /\ fTDSetOffset (TDSetElement_Validate (Some demoT_a) demoS_a)
           = fTDSetOffset demoS_a
        /\ fEntryList (TDSetElement_Validate (Some demoT_a) demoS_a)
           = fEntryList demoS_a
        /\ fNum (TDSetElement_Validate (Some demoT_a) demoS_a)
           = (if fNum demoS_a =? -1
              then fFirst v + fNum v - fFirst demoS_a else fNum demoS_a)
        /\ fFirst (TDSetElement_Validate (Some demoT_a) demoS_a)
           + fNum (TDSetElement_Validate (Some demoT_a) demoS_a)
           <= fFirst v + fNum v).
Proof.
  apply (TDSetElement_Validate_range (Some demoT_a) demoS_a). reflexivity.
Defined.

Lemma TDSet_Add_distinct_witness :
  (true = true <->
   exists f, Some "c.root" = Some f /\ f <> EmptyString
             /\ (f ∉ fName <$> TDSet.fElements demoS))
  /\ (true = false -> demoS' = demoS)
  /\ (true = true ->
      exists e,
        TDSet.fElements demoS' = TDSet.fElements demoS ++ [e]
        /\ Some "c.root" = Some (fName e)
        /\ fTitle e = default (TDSet.fObjName demoS) None
        /\ fDirectory e = default (TDSet.fDir demoS) None
        /\ fFirst e = Z.max 0 (-5) /\ fNum e = Z.max (-1) (-7)
        /\ fValidElement e = false /\ fTDSetOffset e = 0
        /\ fEntryList e = None)
  /\ (NoDup (fName <$> TDSet.fElements demoS) ->
      NoDup (fName <$> TDSet.fElements demoS')).
Proof.
  apply (TDSet_Add_distinct (Some "c.root") None None (-5) (-7) demoS demoS').
  reflexivity.
Defined.

Lemma demoS_valid_eq : TDSet.Validate demoT demoS = Some demoS_valid.
Proof. vm_compute. reflexivity. Qed.

Lemma demoT_settled : Settled (TDSet.fElements demoT).
Proof.
  intros w v Hw Hv Hf. simpl in Hw.
  repeat (apply elem_of_cons in Hw as [->|Hw];
          [vm_compute in Hf; injection Hf as <-; by vm_compute|]).
  by apply elem_of_nil in Hw.
Qed.

(** With the element of "a.root" that ends later in the second place,
    the validation replaces the pair of the first one, and stops. *)
Lemma Validate_replacement_stops : TDSet.Validate demoT' demoS = None.
Proof. vm_compute. reflexivity. Qed.

Lemma TDSet_Validate_against_witness :
  TDSet.Validate demoT demoS = Some demoS_valid
  /\ Settled (TDSet.fElements demoT)
  /\ exists e',
    TDSet.fElements demoS_valid !! 0%nat = Some e'
    /\ if fValidElement demoS_a then e' = demoS_a
       else if fValidElement e' then
         exists v,
           FirstValid (TDSet.fElements demoT) (TDSet.dir_file_obj demoS_a)
           = Some v
           /\ v ∈ TDSet.fElements demoT /\ fValidElement v = true
           /\ same_object demoS_a v
           /\ (forall w, w ∈ TDSet.fElements demoT ->
                 fValidElement w = true ->
                 TDSet.dir_file_obj w = TDSet.dir_file_obj demoS_a ->
                 fFirst w + fNum w <= fFirst v + fNum v)
           /\ same_object e' demoS_a /\ fFirst e' = fFirst demoS_a
           /\ fFirst demoS_a < fFirst v + fNum v
           /\ fNum e' = (if fNum demoS_a =? -1
                         then fFirst v + fNum v - fFirst demoS_a
                         else fNum demoS_a)
           /\ fFirst e' + fNum e' <= fFirst v + fNum v
       else e' = demoS_a.
Proof.
  split; [apply demoS_valid_eq|].
  apply (TDSet_Validate_against demoT demoS demoS_valid 0 demoS_a
           demoS_valid_eq).
  reflexivity.
Defined.

Lemma TDSet_Validate_finds_witness :
  exists d' e',
    TDSet.Validate demoT demoS = Some d'
    /\ TDSet.fElements d' !! 1%nat = Some e'
    /\ fValidElement e' = true.
Proof.
  apply (TDSet_Validate_finds demoT demoS 1
           demoS_b
           demoT_b).
  - apply demoT_settled.
  - reflexivity.
  - reflexivity.
  - simpl. do 2 right. left.
  - reflexivity.
  - by repeat split.
  - intros u Hu Hv Hk. simpl in Hu.
    repeat (apply elem_of_cons in Hu as [->|Hu]; [by vm_compute in Hk|]);
      try by apply elem_of_nil in Hu.
  - simpl. lia.
  - right. simpl. lia.
Defined.

